(** * formacheck: language detection and minification

    A shallow embedding of [src/utils/formatter.ts] ([detectLanguage],
    [minifyCode]) and of the [handleMinify] handler of [App.tsx], together
    with the ECMAScript primitives they call: [String.prototype.trim],
    [startsWith], [endsWith], regular expression [test] and [replace],
    [JSON.parse] and [JSON.stringify]. *)

From Stdlib Require Import NArith ZArith Lia Bool String Ascii List.
Import ListNotations.

(** ** ECMAScript strings *)

Module JS.
Local Open Scope N_scope.

(** A string is a sequence of UTF-16 code units. *)
Definition char := N.
Definition jsstring := list char.

Definition ch (a : ascii) : char := N_of_ascii a.

(** An ASCII literal as a JS string. *)
Definition str (s : string) : jsstring := map N_of_ascii (list_ascii_of_string s).

Definition dquote : char := 34.
Definition backslash : char := 92.

(** An ASCII literal in which every apostrophe stands for a double quote,
    used to write down inputs such as JSON texts. *)
Definition strq (s : string) : jsstring :=
  map (fun c => if N.eqb c 39 then dquote else c) (str s).

Definition in_range (lo hi c : char) : bool := (N.leb lo c && N.leb c hi)%bool.

(** LineTerminator: LF, CR, LS, PS. *)
Definition isLineTerminator (c : char) : bool :=
  (N.eqb c 0x0A || N.eqb c 0x0D || N.eqb c 0x2028 || N.eqb c 0x2029)%bool.

(** WhiteSpace and LineTerminator code units: what [trim] strips and what
    the class escape [\s] matches. *)
Definition isWhiteSpace (c : char) : bool :=
  (in_range 0x09 0x0D c || N.eqb c 0x20 || N.eqb c 0xA0 || N.eqb c 0x1680
   || in_range 0x2000 0x200A c || N.eqb c 0x2028 || N.eqb c 0x2029
   || N.eqb c 0x202F || N.eqb c 0x205F || N.eqb c 0x3000 || N.eqb c 0xFEFF)%bool.

(** Word characters of [\b] and [\w]: letters, digits and underscore. *)
Definition isWordChar (c : char) : bool :=
  (in_range 0x61 0x7A c || in_range 0x41 0x5A c || in_range 0x30 0x39 c
   || N.eqb c 0x5F)%bool.

Fixpoint trimStart (s : jsstring) : jsstring :=
  match s with
  | [] => []
  | c :: s' => if isWhiteSpace c then trimStart s' else s
  end.

Definition trimEnd (s : jsstring) : jsstring := rev (trimStart (rev s)).

Definition trim (s : jsstring) : jsstring := trimEnd (trimStart s).

(** [s.startsWith(c)] and [s.endsWith(c)] for a one-character search string. *)
Definition startsWith (c : char) (s : jsstring) : bool :=
  match s with
  | c' :: _ => N.eqb c' c
  | [] => false
  end.

Definition endsWith (c : char) (s : jsstring) : bool := startsWith c (rev s).

(** [!s] on a string: true exactly for the empty string. *)
Definition isEmpty (s : jsstring) : bool :=
  match s with
  | [] => true
  | _ :: _ => false
  end.

End JS.

(** ** Regular expressions

    The backtracking matcher of ECMA-262 (22.2.2): a pattern compiles to a
    matcher taking a state and a continuation. The state holds the input
    still to be read, the code unit just before it (all that [^], [$] and
    [\b] look at) and the captures. *)

Module Regex.
Import JS.

Inductive regex : Type :=
| Empty                                   (* the empty alternative *)
| Lit (c : char)                          (* a pattern character *)
| Class (p : char -> bool)                (* a class, a class escape or the dot *)
| Seq (r1 r2 : regex)
| Alt (r1 r2 : regex)
| Rep (min : nat) (max : option nat) (greedy : bool) (r : regex)
| Group (n : nat) (r : regex)             (* the n-th capturing parenthesis *)
| Bol                                     (* ^ *)
| Eol                                     (* $ *)
| WordB.                                  (* \b *)

Record flags : Type := { ignoreCase : bool; multiline : bool; global : bool }.

Record RegExp : Type := { source : regex; flag : flags }.

Record mstate : Type :=
  { prev : option char;                   (* the code unit before endIndex *)
    rest : jsstring;                      (* the input from endIndex on *)
    caps : list (nat * jsstring) }.       (* the captures that are defined *)

Definition cont := mstate -> option mstate.

(** Canonicalize (22.2.5.6) without the u flag maps a code unit to its upper
    case; a code unit outside ASCII never maps into ASCII, and every
    pattern character of this program is ASCII, so only the ASCII letters
    are mapped here. *)
Definition canonicalize (fl : flags) (c : char) : char :=
  if ignoreCase fl then (if in_range 0x61 0x7A c then c - 32 else c)%N else c.

Definition lowerCase (c : char) : char :=
  (if in_range 0x41 0x5A c then c + 32 else c)%N.

Definition lit_matches (fl : flags) (a c : char) : bool :=
  N.eqb (canonicalize fl a) (canonicalize fl c).

(** A class matches [c] when one of its members has the canonical form of
    [c]; for the ASCII letters the candidates are [c] and its two cases. *)
Definition class_matches (fl : flags) (p : char -> bool) (c : char) : bool :=
  if ignoreCase fl then (p c || p (canonicalize fl c) || p (lowerCase c))%bool else p c.

Definition advance (c : char) (s : jsstring) (x : mstate) : mstate :=
  {| prev := Some c; rest := s; caps := caps x |}.

Definition at_bol (fl : flags) (x : mstate) : bool :=
  match prev x with
  | None => true
  | Some c => (multiline fl && isLineTerminator c)%bool
  end.

Definition at_eol (fl : flags) (x : mstate) : bool :=
  match rest x with
  | [] => true
  | c :: _ => (multiline fl && isLineTerminator c)%bool
  end.

Definition is_word (o : option char) : bool :=
  match o with
  | Some c => isWordChar c
  | None => false
  end.

Definition at_word_boundary (x : mstate) : bool :=
  xorb (is_word (prev x)) (is_word (hd_error (rest x))).

(** The capturing parentheses inside a pattern; a quantifier resets them at
    the start of each iteration. *)
Fixpoint groups (r : regex) : list nat :=
  match r with
  | Seq r1 r2 | Alt r1 r2 => groups r1 ++ groups r2
  | Rep _ _ _ r' => groups r'
  | Group n r' => n :: groups r'
  | _ => []
  end.

Definition clear_caps (gs : list nat) (x : mstate) : mstate :=
  {| prev := prev x; rest := rest x;
     caps := filter (fun kv => negb (existsb (Nat.eqb (fst kv)) gs)) (caps x) |}.

Definition set_cap (n : nat) (x y : mstate) : mstate :=
  {| prev := prev y; rest := rest y;
     caps := (n, firstn (length (rest x) - length (rest y)) (rest x))
             :: filter (fun kv => negb (Nat.eqb (fst kv) n)) (caps y) |}.

Definition dec_max (max : option nat) : option nat := option_map Nat.pred max.

Definition max_is_zero (max : option nat) : bool :=
  match max with
  | Some O => true
  | _ => false
  end.

(** RepeatMatcher (22.2.2.3.1) for one compiled atom [m]. An iteration that
    matches the empty string once [min] is zero fails, so [min] plus the
    length of the remaining input bounds the iterations; [fuel] is set above
    that bound by [matcher]. *)
Fixpoint repeatMatcher (m : mstate -> cont -> option mstate) (gs : list nat)
    (greedy : bool) (c : cont) (fuel : nat) (min : nat) (max : option nat)
    (x : mstate) {struct fuel} : option mstate :=
  match fuel with
  | O => None
  | S fuel' =>
      if max_is_zero max then c x else
      let d : cont := fun y =>
        if (Nat.eqb min 0 && Nat.eqb (length (rest y)) (length (rest x)))%bool
        then None
        else repeatMatcher m gs greedy c fuel' (Nat.pred min) (dec_max max) y in
      let xr := clear_caps gs x in
      if negb (Nat.eqb min 0) then m xr d
      else if greedy then
        match m xr d with
        | Some z => Some z
        | None => c x
        end
      else
        match c x with
        | Some z => Some z
        | None => m xr d
        end
  end.

Fixpoint matcher (fl : flags) (r : regex) (x : mstate) (c : cont) {struct r}
    : option mstate :=
  match r with
  | Empty => c x
  | Lit a =>
      match rest x with
      | b :: s => if lit_matches fl a b then c (advance b s x) else None
      | [] => None
      end
  | Class p =>
      match rest x with
      | b :: s => if class_matches fl p b then c (advance b s x) else None
      | [] => None
      end
  | Seq r1 r2 => matcher fl r1 x (fun y => matcher fl r2 y c)
  | Alt r1 r2 =>
      match matcher fl r1 x c with
      | Some z => Some z
      | None => matcher fl r2 x c
      end
  | Rep min max greedy r' =>
      repeatMatcher (matcher fl r') (groups r') greedy c
        (S (min + length (rest x))) min max x
  | Group n r' => matcher fl r' x (fun y => c (set_cap n x y))
  | Bol => if at_bol fl x then c x else None
  | Eol => if at_eol fl x then c x else None
  | WordB => if at_word_boundary x then c x else None
  end.

(** One attempt of RegExpBuiltinExec at the position after [p], with [s]
    still to read. *)
Definition match_at (re : RegExp) (p : option char) (s : jsstring) : option mstate :=
  matcher (flag re) (source re) {| prev := p; rest := s; caps := [] |} Some.

(** RegExpBuiltinExec without the g and y flags: the first position, from
    the left, at which the pattern matches. *)
Fixpoint exec_from (re : RegExp) (p : option char) (s : jsstring) : option mstate :=
  match match_at re p s with
  | Some y => Some y
  | None =>
      match s with
      | [] => None
      | c :: s' => exec_from re (Some c) s'
      end
  end.

(** [re.test(s)] for a pattern without the g flag. *)
Definition test (re : RegExp) (s : jsstring) : bool :=
  match exec_from re None s with
  | Some _ => true
  | None => false
  end.

(** A replacement template: literal text and [$n] references. *)
Inductive repl : Type :=
| RText (t : jsstring)
| RGroup (n : nat).

Fixpoint lookup_cap (n : nat) (cs : list (nat * jsstring)) : jsstring :=
  match cs with
  | [] => []                              (* an undefined capture is the empty string *)
  | (k, v) :: cs' => if Nat.eqb k n then v else lookup_cap n cs'
  end.

Definition expand (t : list repl) (y : mstate) : jsstring :=
  flat_map (fun item =>
    match item with
    | RText u => u
    | RGroup n => lookup_cap n (caps y)
    end) t.

(** [s.replace(re, t)] for a pattern with the g flag: every match, from the
    left, is replaced; the search resumes at the end of a match, one code
    unit later when the match is empty. *)
Fixpoint replace_loop (re : RegExp) (t : list repl) (fuel : nat)
    (p : option char) (s : jsstring) {struct fuel} : jsstring :=
  match fuel with
  | O => s
  | S fuel' =>
      let step :=
        match s with
        | [] => []
        | c :: s' => c :: replace_loop re t fuel' (Some c) s'
        end in
      match match_at re p s with
      | Some y =>
          expand t y ++
          (if Nat.ltb (length (rest y)) (length s)
           then replace_loop re t fuel' (prev y) (rest y)
           else step)
      | None => step
      end
  end.

Definition replace (re : RegExp) (t : list repl) (s : jsstring) : jsstring :=
  replace_loop re t (S (length s)) None s.

(** Pattern syntax. *)
Fixpoint seqs (rs : list regex) : regex :=
  match rs with
  | [] => Empty
  | [r] => r
  | r :: rs' => Seq r (seqs rs')
  end.

Fixpoint alts (rs : list regex) : regex :=
  match rs with
  | [] => Empty
  | [r] => r
  | r :: rs' => Alt r (alts rs')
  end.

Definition lit (s : string) : regex := seqs (map Lit (str s)).

Definition star (r : regex) : regex := Rep 0 None true r.
Definition plus (r : regex) : regex := Rep 1 None true r.
Definition opt (r : regex) : regex := Rep 0 (Some 1) true r.
Definition lazy_star (r : regex) : regex := Rep 0 None false r.

(** Classes. *)
Definition ws : regex := Class isWhiteSpace.                    (* \s *)
Definition any : regex := Class (fun _ => true).                (* [\s\S] *)
Definition dot : regex := Class (fun c => negb (isLineTerminator c)).
Definition one_of (s : string) : char -> bool :=
  fun c => existsb (N.eqb c) (str s).
Definition none_of (s : string) : char -> bool :=
  fun c => negb (one_of s c).

End Regex.

(** ** Number values

    A Number is an IEEE 754 binary64 value. [JSON.parse] converts a number
    token with StringToNumber (round to nearest, ties to even) and
    [JSON.stringify] prints a finite one with Number::toString (the
    shortest decimal that converts back to it). *)

Module Number.
Import JS.
Local Open Scope Z_scope.

(** [Finite neg m e] is [(-1)^neg * m * 2^e]; zero is [m = 0] at the least
    exponent. NaN is left out: [JSON.parse] never produces it. *)
Inductive number : Type :=
| Finite (neg : bool) (m : Z) (e : Z)
| Infinity (neg : bool).

Definition emin : Z := -1074.
Definition emax : Z := 971.

Definition number_eqb (x y : number) : bool :=
  match x, y with
  | Finite s m e, Finite s' m' e' => (Bool.eqb s s' && (m =? m') && (e =? e'))%bool
  | Infinity s, Infinity s' => Bool.eqb s s'
  | _, _ => false
  end.

Definition isFinite (x : number) : bool :=
  match x with
  | Finite _ _ _ => true
  | Infinity _ => false
  end.

(** [2^k] for [0 <= k], and 1 below. *)
Definition pow2 (k : Z) : Z := 2 ^ Z.max 0 k.
Definition pow10 (k : Z) : Z := 10 ^ Z.max 0 k.

(** The integer [l] with [2^l <= p/q < 2^(l+1)], for positive [p] and [q]. *)
Definition floor_log2 (p q : Z) : Z :=
  let d := Z.log2 p - Z.log2 q in
  if q * pow2 d <=? p * pow2 (- d) then d else d - 1.

(** [P/Q] rounded to the nearest integer, ties to the even one. *)
Definition round_half_even (P Q : Z) : Z :=
  let m := P / Q in
  let r := P mod Q in
  if 2 * r <? Q then m
  else if Q <? 2 * r then m + 1
  else if Z.even m then m else m + 1.

(** The binary64 value nearest to [p/q] ([0 <= p], [0 < q]), with sign [neg]. *)
Definition to_double (neg : bool) (p q : Z) : number :=
  if p =? 0 then Finite neg 0 emin else
  let e := Z.max emin (floor_log2 p q - 52) in
  let m := round_half_even (p * pow2 (- e)) (q * pow2 e) in
  let m' := if m =? 2 ^ 53 then 2 ^ 52 else m in
  let e' := if m =? 2 ^ 53 then e + 1 else e in
  if emax <? e' then Infinity neg else Finite neg m' e'.

(** The Number for the decimal [M * 10^E]. *)
Definition of_decimal (neg : bool) (M E : Z) : number :=
  to_double neg (M * pow10 E) (pow10 (- E)).

Definition isDigit (c : char) : bool := in_range 0x30%N 0x39%N c.

Definition digit_char (d : Z) : char := Z.to_N (48 + d).

Definition digits_value (ds : jsstring) : Z :=
  fold_left (fun a c => 10 * a + (Z.of_N c - 48)) ds 0.

(** StringToNumber on the parts of a JSON number token: integer digits,
    fraction digits, and the exponent with its sign. *)
Definition of_literal (neg : bool) (int frac : jsstring) (eneg : bool)
    (edigits : jsstring) : number :=
  let ex := if eneg then - digits_value edigits else digits_value edigits in
  of_decimal neg (digits_value (int ++ frac)) (ex - Z.of_nat (length frac)).

(** The decimal digits of [s], least significant first; [fuel] bounds their
    number. *)
Fixpoint digits_rev (fuel : nat) (s : Z) : jsstring :=
  match fuel with
  | O => []
  | S fuel' =>
      if s <? 10 then [digit_char s]
      else digit_char (s mod 10) :: digits_rev fuel' (s / 10)
  end.

Definition digits (s : Z) : jsstring :=
  rev (digits_rev (S (Z.to_nat (Z.log2 s))) s).

(** Number::toString (6.1.6.1.20), steps 5 on: the digits [s] and the
    decimal exponent [q] with [s * 10^q] converting to [m * 2^e], [s] having
    as few digits as possible, and among those the closest to the value
    (the even one when two are as close). [candidate] tries one exponent. *)
Definition candidate (m e q : Z) : option Z :=
  let X := m * pow2 e * pow10 (- q) in
  let Y := pow2 (- e) * pow10 q in
  let lo := X / Y in
  let r := X mod Y in
  let ok s := ((0 <? s) && number_eqb (of_decimal false s q) (Finite false m e))%bool in
  if r =? 0 then (if ok lo then Some lo else None)
  else
    match ok lo, ok (lo + 1) with
    | true, true =>
        if 2 * r <? Y then Some lo
        else if Y <? 2 * r then Some (lo + 1)
        else if Z.even lo then Some lo else Some (lo + 1)
    | true, false => Some lo
    | false, true => Some (lo + 1)
    | false, false => None
    end.

(** The exponents are tried downwards from one that is too large. *)
Fixpoint shortest (m e : Z) (fuel : nat) (q : Z) : option (Z * Z) :=
  match fuel with
  | O => None
  | S fuel' =>
      match candidate m e q with
      | Some s => Some (s, q)
      | None => shortest m e fuel' (q - 1)
      end
  end.

Definition first_exponent (m e : Z) : Z :=
  let d := Z.log2 m + e in
  if 0 <=? d then d / 3 + 1 else - (3 * (- d - 1) / 10).

Definition shortest_digits (m e : Z) : option (Z * Z) :=
  let q0 := first_exponent m e in
  shortest m e (S (Z.to_nat (q0 - emin))) q0.

(** The layout of Number::toString for digits [ds] and [n = q + k]. *)
Definition layout (ds : jsstring) (n : Z) : jsstring :=
  let k := Z.of_nat (length ds) in
  if ((k <=? n) && (n <=? 21))%bool then
    ds ++ repeat (ch "0") (Z.to_nat (n - k))
  else if ((0 <? n) && (n <=? 21))%bool then
    firstn (Z.to_nat n) ds ++ ch "." :: skipn (Z.to_nat n) ds
  else if ((-6 <? n) && (n <=? 0))%bool then
    ch "0" :: ch "." :: repeat (ch "0") (Z.to_nat (- n)) ++ ds
  else
    let ex := n - 1 in
    let tail := ch "e" :: (if 0 <=? ex then ch "+" else ch "-") :: digits (Z.abs ex) in
    match ds with
    | [] => []
    | [d] => d :: tail
    | d :: ds' => d :: ch "." :: ds' ++ tail
    end.

Definition toString (x : number) : jsstring :=
  match x with
  | Infinity neg => (if neg then [ch "-"] else []) ++ str "Infinity"
  | Finite neg m e =>
      if m =? 0 then [ch "0"]
      else
        (if neg then [ch "-"] else []) ++
        match shortest_digits m e with
        | Some (s, q) => let ds := digits s in layout ds (q + Z.of_nat (length ds))
        | None => []                      (* never: see [shortest_digits_total] *)
        end
  end.

(** [x === y] on Numbers ([+0] and [-0] are equal). *)
Definition strict_eq (x y : number) : bool :=
  match x, y with
  | Finite s m e, Finite s' m' e' =>
      ((m =? 0) && (m' =? 0) || number_eqb x y)%bool
  | _, _ => number_eqb x y
  end.

End Number.

(** ** JSON

    [JSON.parse] (25.5.1) reads a text by the JSON lexical grammar (tokens
    separated by tab, line feed, carriage return and space) and the JSON
    syntactic grammar, and builds arrays and objects; [JSON.stringify]
    (25.5.2) with no replacer and no gap writes the compact form. *)

Module JSON.
Import JS Number.
Local Open Scope N_scope.

(** An object lists its own properties in the order [JSON.stringify]
    enumerates them: array indices ascending, then the other keys in the
    order of their creation. *)
Unset Elimination Schemes.
Inductive value : Type :=
| VNull
| VBool (b : bool)
| VNumber (x : number)
| VString (s : jsstring)
| VArray (l : list value)
| VObject (o : list (jsstring * value)).
Set Elimination Schemes.

Inductive token : Type :=
| TLBrace | TRBrace | TLBracket | TRBracket | TComma | TColon
| TString (s : jsstring)
| TNumber (x : number)
| TTrue | TFalse | TNull.

(** *** Lexical grammar *)

Definition isJSONWhiteSpace (c : char) : bool :=
  (N.eqb c 0x09 || N.eqb c 0x0A || N.eqb c 0x0D || N.eqb c 0x20)%bool.

Definition hex_value (c : char) : option N :=
  if in_range 0x30 0x39 c then Some (c - 0x30)
  else if in_range 0x61 0x66 c then Some (c - 0x61 + 10)
  else if in_range 0x41 0x46 c then Some (c - 0x41 + 10)
  else None.

Definition hex4_value (a b c d : char) : option char :=
  match hex_value a, hex_value b, hex_value c, hex_value d with
  | Some x, Some y, Some z, Some w => Some (((x * 16 + y) * 16 + z) * 16 + w)
  | _, _, _, _ => None
  end.

(** The character an escape sequence [\e] stands for. *)
Definition unescape (e : char) : option char :=
  if N.eqb e dquote then Some dquote
  else if N.eqb e backslash then Some backslash
  else if N.eqb e (ch "/") then Some (ch "/")
  else if N.eqb e (ch "b") then Some 0x08
  else if N.eqb e (ch "f") then Some 0x0C
  else if N.eqb e (ch "n") then Some 0x0A
  else if N.eqb e (ch "r") then Some 0x0D
  else if N.eqb e (ch "t") then Some 0x09
  else None.

Definition cons_fst (c : char) (r : option (jsstring * jsstring)) :
    option (jsstring * jsstring) :=
  match r with
  | Some (v, s) => Some (c :: v, s)
  | None => None
  end.

(** The characters of a string token after its opening quote: the value
    and the input after the closing quote. *)
Fixpoint lex_string (s : jsstring) : option (jsstring * jsstring) :=
  match s with
  | [] => None
  | c :: s1 =>
      if N.eqb c dquote then Some ([], s1)
      else if N.eqb c backslash then
        match s1 with
        | [] => None
        | e :: s2 =>
            if N.eqb e (ch "u") then
              match s2 with
              | h1 :: h2 :: h3 :: h4 :: s3 =>
                  match hex4_value h1 h2 h3 h4 with
                  | Some u => cons_fst u (lex_string s3)
                  | None => None
                  end
              | _ => None
              end
            else
              match unescape e with
              | Some u => cons_fst u (lex_string s2)
              | None => None
              end
        end
      else if N.ltb c 0x20 then None
      else cons_fst c (lex_string s1)
  end.

Fixpoint span (p : char -> bool) (s : jsstring) : jsstring * jsstring :=
  match s with
  | [] => ([], [])
  | c :: s' =>
      if p c then let (a, b) := span p s' in (c :: a, b) else ([], s)
  end.

(** The exponent part of a number token, when there is one. *)
Definition lex_exponent (s : jsstring) : option (bool * jsstring * jsstring) :=
  match s with
  | c :: s1 =>
      if (N.eqb c (ch "e") || N.eqb c (ch "E"))%bool then
        let (eneg, s2) :=
          match s1 with
          | g :: s1' =>
              if N.eqb g (ch "-") then (true, s1')
              else if N.eqb g (ch "+") then (false, s1')
              else (false, s1)
          | [] => (false, s1)
          end in
        let (ed, s3) := span isDigit s2 in
        if isEmpty ed then None else Some (eneg, ed, s3)
      else Some (false, [], s)
  | [] => Some (false, [], s)
  end.

(** The fraction part of a number token, when there is one. *)
Definition lex_fraction (s : jsstring) : option (jsstring * jsstring) :=
  match s with
  | c :: s1 =>
      if N.eqb c (ch ".") then
        let (fr, s2) := span isDigit s1 in
        if isEmpty fr then None else Some (fr, s2)
      else Some ([], s)
  | [] => Some ([], s)
  end.

(** The integer part: a single 0, or a digit from 1 to 9 and more digits. *)
Definition lex_int (s : jsstring) : option (jsstring * jsstring) :=
  match s with
  | c :: s1 =>
      if N.eqb c (ch "0") then Some ([c], s1)
      else if isDigit c then let (ds, s2) := span isDigit s1 in Some (c :: ds, s2)
      else None
  | [] => None
  end.

(** A number token: its value and the input after it. *)
Definition lex_number (s : jsstring) : option (number * jsstring) :=
  let (neg, s0) :=
    match s with
    | c :: s' => if N.eqb c (ch "-") then (true, s') else (false, s)
    | [] => (false, s)
    end in
  match lex_int s0 with
  | None => None
  | Some (int, s1) =>
      match lex_fraction s1 with
      | None => None
      | Some (frac, s2) =>
          match lex_exponent s2 with
          | None => None
          | Some (eneg, ed, s3) => Some (of_literal neg int frac eneg ed, s3)
          end
      end
  end.

(** [s] without the literal [w] it starts with. *)
Fixpoint strip_prefix (w s : jsstring) : option jsstring :=
  match w, s with
  | [], _ => Some s
  | a :: w', b :: s' => if N.eqb a b then strip_prefix w' s' else None
  | _ :: _, [] => None
  end.

Definition cons_tok (t : token) (r : option (list token)) : option (list token) :=
  option_map (cons t) r.

Definition punctuator (c : char) : option token :=
  if N.eqb c (ch "{") then Some TLBrace
  else if N.eqb c (ch "}") then Some TRBrace
  else if N.eqb c (ch "[") then Some TLBracket
  else if N.eqb c (ch "]") then Some TRBracket
  else if N.eqb c (ch ",") then Some TComma
  else if N.eqb c (ch ":") then Some TColon
  else None.

Definition keyword (s : jsstring) : option (token * jsstring) :=
  match strip_prefix (str "true") s with
  | Some r => Some (TTrue, r)
  | None =>
      match strip_prefix (str "false") s with
      | Some r => Some (TFalse, r)
      | None =>
          match strip_prefix (str "null") s with
          | Some r => Some (TNull, r)
          | None => None
          end
      end
  end.

(** The tokens of a text; every token takes at least one code unit, so
    [fuel] above the length of the text is never used up. *)
Fixpoint lex (fuel : nat) (s : jsstring) {struct fuel} : option (list token) :=
  match fuel with
  | O => None
  | S fuel' =>
      match s with
      | [] => Some []
      | c :: s' =>
          if isJSONWhiteSpace c then lex fuel' s'
          else
            match punctuator c with
            | Some t => cons_tok t (lex fuel' s')
            | None =>
                if N.eqb c dquote then
                  match lex_string s' with
                  | Some (v, r) => cons_tok (TString v) (lex fuel' r)
                  | None => None
                  end
                else if (N.eqb c (ch "-") || isDigit c)%bool then
                  match lex_number s with
                  | Some (x, r) => cons_tok (TNumber x) (lex fuel' r)
                  | None => None
                  end
                else
                  match keyword s with
                  | Some (t, r) => cons_tok t (lex fuel' r)
                  | None => None
                  end
            end
      end
  end.

Definition tokens (s : jsstring) : option (list token) := lex (S (length s)) s.

(** *** Objects *)

Definition key_eqb (a b : jsstring) : bool :=
  if list_eq_dec N.eq_dec a b then true else false.

(** The array index a property key denotes: a canonical numeric string
    below [2^32 - 1]. *)
Definition array_index (k : jsstring) : option Z :=
  match k with
  | [] => None
  | c :: k' =>
      if (forallb isDigit k && (isEmpty k' || negb (N.eqb c (ch "0"))))%bool then
        let n := digits_value k in
        if (n <? 4294967295)%Z then Some n else None
      else None
  end.

Fixpoint has_key (k : jsstring) (o : list (jsstring * value)) : bool :=
  match o with
  | [] => false
  | (k', _) :: o' => (key_eqb k k' || has_key k o')%bool
  end.

Fixpoint set_existing (k : jsstring) (v : value) (o : list (jsstring * value)) :
    list (jsstring * value) :=
  match o with
  | [] => []
  | (k', v') :: o' =>
      if key_eqb k k' then (k', v) :: o' else (k', v') :: set_existing k v o'
  end.

(** A new array index goes before the first key that is no index or a
    larger one. *)
Fixpoint insert_index (i : Z) (k : jsstring) (v : value)
    (o : list (jsstring * value)) : list (jsstring * value) :=
  match o with
  | [] => [(k, v)]
  | (k', v') :: o' =>
      match array_index k' with
      | Some j => if (j <? i)%Z then (k', v') :: insert_index i k v o'
                  else (k, v) :: o
      | None => (k, v) :: o
      end
  end.

(** CreateDataProperty on an ordinary object: an existing property keeps
    its place and takes the new value; a new one is created. *)
Definition obj_put (k : jsstring) (v : value) (o : list (jsstring * value)) :
    list (jsstring * value) :=
  if has_key k o then set_existing k v o
  else
    match array_index k with
    | Some i => insert_index i k v o
    | None => o ++ [(k, v)]
    end.

(** *** Syntactic grammar *)

Fixpoint parse_value (fuel : nat) (ts : list token) {struct fuel} :
    option (value * list token) :=
  match fuel with
  | O => None
  | S fuel' =>
      match ts with
      | TNull :: r => Some (VNull, r)
      | TTrue :: r => Some (VBool true, r)
      | TFalse :: r => Some (VBool false, r)
      | TNumber x :: r => Some (VNumber x, r)
      | TString s :: r => Some (VString s, r)
      | TLBracket :: TRBracket :: r => Some (VArray [], r)
      | TLBracket :: r =>
          match parse_value fuel' r with
          | Some (v, r1) => parse_elements fuel' [v] r1
          | None => None
          end
      | TLBrace :: TRBrace :: r => Some (VObject [], r)
      | TLBrace :: TString k :: TColon :: r =>
          match parse_value fuel' r with
          | Some (v, r1) => parse_members fuel' (obj_put k v []) r1
          | None => None
          end
      | _ => None
      end
  end

(** The rest of an array after an element, [acc] holding the elements read. *)
with parse_elements (fuel : nat) (acc : list value) (ts : list token)
    {struct fuel} : option (value * list token) :=
  match fuel with
  | O => None
  | S fuel' =>
      match ts with
      | TRBracket :: r => Some (VArray acc, r)
      | TComma :: r =>
          match parse_value fuel' r with
          | Some (v, r1) => parse_elements fuel' (acc ++ [v]) r1
          | None => None
          end
      | _ => None
      end
  end

(** The rest of an object after a member, [acc] being the object so far. *)
with parse_members (fuel : nat) (acc : list (jsstring * value)) (ts : list token)
    {struct fuel} : option (value * list token) :=
  match fuel with
  | O => None
  | S fuel' =>
      match ts with
      | TRBrace :: r => Some (VObject acc, r)
      | TComma :: TString k :: TColon :: r =>
          match parse_value fuel' r with
          | Some (v, r1) => parse_members fuel' (obj_put k v acc) r1
          | None => None
          end
      | _ => None
      end
  end.

(** [JSON.parse(text)]: [None] stands for the SyntaxError it throws. *)
Definition parse (text : jsstring) : option value :=
  match tokens text with
  | None => None
  | Some ts =>
      match parse_value (S (length ts)) ts with
      | Some (v, []) => Some v
      | _ => None
      end
  end.

(** *** Serialization *)

Definition hex_digit (d : N) : char :=
  if d <? 10 then 0x30 + d else 0x61 + (d - 10).

(** UnicodeEscape: [\u] and four lower-case hexadecimal digits. *)
Definition unicode_escape (c : char) : jsstring :=
  [backslash; ch "u"; hex_digit (c / 4096 mod 16); hex_digit (c / 256 mod 16);
   hex_digit (c / 16 mod 16); hex_digit (c mod 16)].

Definition isLeadingSurrogate (c : char) : bool := in_range 0xD800 0xDBFF c.
Definition isTrailingSurrogate (c : char) : bool := in_range 0xDC00 0xDFFF c.

(** One code point that is no leading surrogate, as QuoteJSONString writes it. *)
Definition quote_one (c : char) : jsstring :=
  if N.eqb c 0x08 then [backslash; ch "b"]
  else if N.eqb c 0x09 then [backslash; ch "t"]
  else if N.eqb c 0x0A then [backslash; ch "n"]
  else if N.eqb c 0x0C then [backslash; ch "f"]
  else if N.eqb c 0x0D then [backslash; ch "r"]
  else if N.eqb c dquote then [backslash; dquote]
  else if N.eqb c backslash then [backslash; backslash]
  else if (N.ltb c 0x20 || isTrailingSurrogate c)%bool then unicode_escape c
  else [c].

(** The code points of the string in turn: a surrogate pair is written as
    it is, a lone surrogate as an escape. *)
Fixpoint quote_chars (s : jsstring) : jsstring :=
  match s with
  | [] => []
  | c :: s1 =>
      if isLeadingSurrogate c then
        match s1 with
        | t :: s2 =>
            if isTrailingSurrogate t then c :: t :: quote_chars s2
            else unicode_escape c ++ quote_chars s1
        | [] => unicode_escape c
        end
      else quote_one c ++ quote_chars s1
  end.

(** QuoteJSONString (25.5.2.3). *)
Definition quote (s : jsstring) : jsstring := dquote :: quote_chars s ++ [dquote].

Fixpoint join_comma (parts : list jsstring) : jsstring :=
  match parts with
  | [] => []
  | [p] => p
  | p :: ps => p ++ ch "," :: join_comma ps
  end.

(** SerializeJSONProperty for a Number. *)
Definition stringify_number (x : number) : jsstring :=
  if isFinite x then Number.toString x else str "null".

(** [JSON.stringify(v)] for a value made by [JSON.parse]. *)
Fixpoint stringify (v : value) : jsstring :=
  match v with
  | VNull => str "null"
  | VBool true => str "true"
  | VBool false => str "false"
  | VNumber x => stringify_number x
  | VString s => quote s
  | VArray l => ch "[" :: join_comma (map stringify l) ++ [ch "]"]
  | VObject o =>
      ch "{" ::
      join_comma (map (fun kv => match kv with
                                 | (k, v') => quote k ++ ch ":" :: stringify v'
                                 end) o)
      ++ [ch "}"]
  end.

End JSON.

(** ** src/types.ts *)

Inductive Language : Type :=
| JSON | JAVASCRIPT | TYPESCRIPT | HTML | CSS | XML | SQL | MARKDOWN.

Definition Language_eqb (a b : Language) : bool :=
  match a, b with
  | JSON, JSON | JAVASCRIPT, JAVASCRIPT | TYPESCRIPT, TYPESCRIPT | HTML, HTML
  | CSS, CSS | XML, XML | SQL, SQL | MARKDOWN, MARKDOWN => true
  | _, _ => false
  end.

(** ** src/utils/formatter.ts *)

Module Formatter.
Import JS Regex.
Local Open Scope string_scope.
Local Open Scope list_scope.

Definition no_flags : flags := {| ignoreCase := false; multiline := false; global := false |}.
Definition flags_i : flags := {| ignoreCase := true; multiline := false; global := false |}.
Definition flags_m : flags := {| ignoreCase := false; multiline := true; global := false |}.
Definition flags_g : flags := {| ignoreCase := false; multiline := false; global := true |}.
Definition flags_gm : flags := {| ignoreCase := false; multiline := true; global := true |}.

Definition words (l : list string) : regex := alts (map lit l).

(** [/^<\?xml\s/i] *)
Definition xmlDeclaration : RegExp :=
  {| source := seqs [Bol; lit "<?xml"; ws]; flag := flags_i |}.

(** [/^<!doctype\s+html/i] *)
Definition doctypeHtml : RegExp :=
  {| source := seqs [Bol; lit "<!doctype"; plus ws; lit "html"]; flag := flags_i |}.

(** [/<\s*\/?\s*(html|head|body|div|span|p|a|ul|ol|li|table|tr|td|br|img|h[1-6]|form|input|button|script|style|meta|link|header|footer|nav|section|article)\b/i] *)
Definition htmlTags : RegExp :=
  {| source :=
       seqs [Lit (ch "<"); star ws; opt (Lit (ch "/")); star ws;
             Group 1 (alts (map lit ["html"; "head"; "body"; "div"; "span"; "p"; "a";
                                     "ul"; "ol"; "li"; "table"; "tr"; "td"; "br"; "img"]
                            ++ [Seq (Lit (ch "h")) (Class (in_range (ch "1") (ch "6")))]
                            ++ map lit ["form"; "input"; "button"; "script"; "style";
                                        "meta"; "link"; "header"; "footer"; "nav";
                                        "section"; "article"]));
             WordB];
     flag := flags_i |}.

(** [/^\s*(SELECT|INSERT|UPDATE|DELETE|CREATE|ALTER|DROP|TRUNCATE|GRANT|REVOKE|BEGIN|DECLARE|WITH)\b/i] *)
Definition sqlStartPattern : RegExp :=
  {| source :=
       seqs [Bol; star ws;
             Group 1 (words ["SELECT"; "INSERT"; "UPDATE"; "DELETE"; "CREATE"; "ALTER";
                             "DROP"; "TRUNCATE"; "GRANT"; "REVOKE"; "BEGIN"; "DECLARE";
                             "WITH"]);
             WordB];
     flag := flags_i |}.

(** [/\b(FROM|WHERE|GROUP BY|ORDER BY|INNER JOIN|LEFT JOIN|RIGHT JOIN|VALUES|SET|PRIMARY KEY|FOREIGN KEY)\b/i] *)
Definition sqlClausePattern : RegExp :=
  {| source :=
       seqs [WordB;
             Group 1 (words ["FROM"; "WHERE"; "GROUP BY"; "ORDER BY"; "INNER JOIN";
                             "LEFT JOIN"; "RIGHT JOIN"; "VALUES"; "SET"; "PRIMARY KEY";
                             "FOREIGN KEY"]);
             WordB];
     flag := flags_i |}.

(** [/\b(const|var|let|function|return|import|export|class)\b/] *)
Definition isJsPattern : RegExp :=
  {| source :=
       seqs [WordB;
             Group 1 (words ["const"; "var"; "let"; "function"; "return"; "import";
                             "export"; "class"]);
             WordB];
     flag := no_flags |}.

Definition isAlnumDash (c : char) : bool :=
  (in_range (ch "a") (ch "z") c || in_range (ch "A") (ch "Z") c
   || in_range (ch "0") (ch "9") c || N.eqb c (ch "-"))%bool.

(** [/[^{}]+{\s*(D)+}/] with [[a-zA-Z0-9-]+\s*:\s*[^;]+;\s*] for [D]. *)
Definition cssRuleBlock : RegExp :=
  {| source :=
       seqs [plus (Class (none_of "{}")); Lit (ch "{"); star ws;
             plus (Group 1 (seqs [plus (Class isAlnumDash); star ws; Lit (ch ":");
                                  star ws; plus (Class (none_of ";")); Lit (ch ";");
                                  star ws]));
             Lit (ch "}")];
     flag := no_flags |}.

(** [/^[^{}]+{\s*[\s\S]+\s*}$/m] *)
Definition cssLooseBlock : RegExp :=
  {| source :=
       seqs [Bol; plus (Class (none_of "{}")); Lit (ch "{"); star ws; plus any;
             star ws; Lit (ch "}"); Eol];
     flag := flags_m |}.

(** [/\b(function|class|if|for|while|const|var|let|return|import|export|=>)\b/] *)
Definition isJsLikePattern : RegExp :=
  {| source :=
       seqs [WordB;
             Group 1 (words ["function"; "class"; "if"; "for"; "while"; "const"; "var";
                             "let"; "return"; "import"; "export"; "=>"]);
             WordB];
     flag := no_flags |}.

(** [/"\s*:\s*"/m] *)
Definition quotedColon : RegExp :=
  {| source := seqs [Lit dquote; star ws; Lit (ch ":"); star ws; Lit dquote];
     flag := flags_m |}.

(** [/(^#{1,6}\s)|(^\s*[-*+]\s)|(^>\s)|(\[.*\]\(.*\))/m] *)
Definition mdPattern : RegExp :=
  {| source :=
       alts [Group 1 (seqs [Bol; Rep 1 (Some 6) true (Lit (ch "#")); ws]);
             Group 2 (seqs [Bol; star ws; Class (one_of "-*+"); ws]);
             Group 3 (seqs [Bol; Lit (ch ">"); ws]);
             Group 4 (seqs [Lit (ch "["); star dot; Lit (ch "]"); Lit (ch "(");
                            star dot; Lit (ch ")")])];
     flag := flags_m |}.

(** [/\b(interface|type|enum|namespace|implements|abstract|readonly|private|protected|public|as)\b/] *)
Definition tsKeywords : RegExp :=
  {| source :=
       seqs [WordB;
             Group 1 (words ["interface"; "type"; "enum"; "namespace"; "implements";
                             "abstract"; "readonly"; "private"; "protected"; "public";
                             "as"]);
             WordB];
     flag := no_flags |}.

(** [/:\s*(string|number|boolean|any|void|never|object|unknown)\b/] *)
Definition tsTypeAnnotation : RegExp :=
  {| source :=
       seqs [Lit (ch ":"); star ws;
             Group 1 (words ["string"; "number"; "boolean"; "any"; "void"; "never";
                             "object"; "unknown"]);
             WordB];
     flag := no_flags |}.

Definition isAlnum (c : char) : bool :=
  (in_range (ch "a") (ch "z") c || in_range (ch "A") (ch "Z") c
   || in_range (ch "0") (ch "9") c)%bool.

(** [/<[A-Z][a-zA-Z0-9]*>/] *)
Definition tsGenerics : RegExp :=
  {| source :=
       seqs [Lit (ch "<"); Class (in_range (ch "A") (ch "Z")); star (Class isAlnum);
             Lit (ch ">")];
     flag := no_flags |}.

(** [JSON.parse(trimmed)] inside [try]: did it return? *)
Definition parses (s : jsstring) : bool :=
  match JSON.parse s with
  | Some _ => true
  | None => false
  end.

Definition detectLanguage (content : jsstring) : Language :=
  let trimmed := trim content in
  if isEmpty trimmed then JSON
  else if (((startsWith (ch "{") trimmed && endsWith (ch "}") trimmed)
            || (startsWith (ch "[") trimmed && endsWith (ch "]") trimmed))
           && parses trimmed)%bool then JSON
  else if startsWith (ch "<") trimmed then
    if test xmlDeclaration trimmed then XML
    else if test doctypeHtml trimmed then HTML
    else if test htmlTags trimmed then HTML
    else XML
  else if ((test sqlStartPattern trimmed || test sqlClausePattern trimmed)
           && negb (test isJsPattern trimmed))%bool then SQL
  else
    let hasCssBlock := (test cssRuleBlock trimmed || test cssLooseBlock trimmed)%bool in
    let isJsLike := test isJsLikePattern trimmed in
    if (hasCssBlock && negb isJsLike && negb (test quotedColon trimmed))%bool then CSS
    else if test mdPattern trimmed then MARKDOWN
    else if (test tsKeywords trimmed || test tsTypeAnnotation trimmed
             || test tsGenerics trimmed)%bool then TYPESCRIPT
    else JAVASCRIPT.

(** What a call throws. The message of the SyntaxError of [JSON.parse] is
    the engine's own. *)
Inductive exn : Type :=
| SyntaxError
| Error (message : string).

Inductive result (A : Type) : Type :=
| Return (a : A)
| Throw (e : exn).
Arguments Return {A} a.
Arguments Throw {A} e.

(** [/>\s+</g] *)
Definition betweenTags : RegExp :=
  {| source := seqs [Lit (ch ">"); plus ws; Lit (ch "<")]; flag := flags_g |}.

(** [/\s{2,}/g] *)
Definition spaces2 : RegExp :=
  {| source := Rep 2 None true ws; flag := flags_g |}.

(** [/\/\*[\s\S]*?\*\//g] *)
Definition blockComment : RegExp :=
  {| source := seqs [lit "/*"; lazy_star any; lit "*/"]; flag := flags_g |}.

(** [/\s+/g] *)
Definition spaces : RegExp :=
  {| source := plus ws; flag := flags_g |}.

(** [/\s*([:;{}])\s*/g] *)
Definition aroundPunctuation : RegExp :=
  {| source := seqs [star ws; Group 1 (Class (one_of ":;{}")); star ws];
     flag := flags_g |}.

Definition notBackslashColon (c : char) : bool :=
  negb (N.eqb c backslash || N.eqb c (ch ":")).

(** [/\/\*[\s\S]*?\*\/|([^\\:]|^)\/\/.*$/gm] *)
Definition jsComment : RegExp :=
  {| source :=
       Alt (seqs [lit "/*"; lazy_star any; lit "*/"])
           (seqs [Group 1 (Alt (Class notBackslashColon) Bol); lit "//"; star dot; Eol]);
     flag := flags_gm |}.

Definition space : list repl := [RText (str " ")].

Definition minifyCode (code : jsstring) (language : Language) : result jsstring :=
  if isEmpty (trim code) then Return []
  else
    match language with
    | JSON =>
        match JSON.parse code with
        | Some v => Return (JSON.stringify v)
        | None => Throw SyntaxError
        end
    | HTML | XML =>
        Return (trim (replace spaces2 space (replace betweenTags [RText (str "><")] code)))
    | CSS =>
        Return (trim (replace aroundPunctuation [RGroup 1]
                        (replace spaces space (replace blockComment [] code))))
    | JAVASCRIPT | TYPESCRIPT =>
        Return (trim (replace spaces space (replace jsComment [RGroup 1] code)))
    | SQL => Return (trim (replace spaces space code))
    | MARKDOWN => Return (replace spaces space code)
    end.

End Formatter.

(** ** src/App.tsx: the minify handler *)

Module App.
Import JS Formatter.

(** The state the handler reads and sets. *)
Record AppState : Type :=
  { inputCode : jsstring;
    outputCode : jsstring;
    language : Language;
    error : option exn;                   (* the error whose message is shown *)
    notification : option string }.

Definition setError (e : option exn) (st : AppState) : AppState :=
  {| inputCode := inputCode st; outputCode := outputCode st; language := language st;
     error := e; notification := notification st |}.

Definition setInputCode (s : jsstring) (st : AppState) : AppState :=
  {| inputCode := s; outputCode := outputCode st; language := language st;
     error := error st; notification := notification st |}.

Definition setOutputCode (s : jsstring) (st : AppState) : AppState :=
  {| inputCode := inputCode st; outputCode := s; language := language st;
     error := error st; notification := notification st |}.

(** [showNotification]; the timer that clears the message is left out. *)
Definition showNotification (msg : string) (st : AppState) : AppState :=
  {| inputCode := inputCode st; outputCode := outputCode st; language := language st;
     error := error st; notification := Some msg |}.

Definition emptyResult : exn := Error "Minification produced empty result".

(** The body of the [try] block of [handleMinify]. *)
Definition tryMinify (st : AppState) : result AppState :=
  match minifyCode (inputCode st) (language st) with
  | Throw e => Throw e
  | Return minified =>
      if (isEmpty minified && Nat.ltb 0 (length (trim (inputCode st))))%bool
      then Throw emptyResult
      else
        let st' := if Language_eqb (language st) JSON
                   then setInputCode minified st
                   else setOutputCode minified st in
        Return (showNotification "Code minified successfully!" st')
  end.

Definition handleMinify (st : AppState) : AppState :=
  let st0 := setError None st in
  match tryMinify st0 with
  | Return st' => st'
  | Throw e => setError (Some e) st0
  end.

End App.

(** ** src/utils/formatter.ts: formatCode *)

Module Beautify.
Import JS Regex Number JSON Formatter.
Local Open Scope string_scope.
Local Open Scope list_scope.

(** *** [JSON.stringify(value, null, 2)] *)

Definition newline : char := 10%N.

Fixpoint join_with (sep : jsstring) (parts : list jsstring) : jsstring :=
  match parts with
  | [] => []
  | [p] => p
  | p :: ps => p ++ sep ++ join_with sep ps
  end.

(** SerializeJSONProperty (25.5.2.2) with a gap that is not empty, at the
    indentation [indent], for a value made by [JSON.parse]: an array or an
    object that is not empty is written one item a line, each line indented
    by the gap more than the line of the brackets. *)
Fixpoint stringify_gap (gap indent : jsstring) (v : value) : jsstring :=
  match v with
  | VNull => str "null"
  | VBool true => str "true"
  | VBool false => str "false"
  | VNumber x => stringify_number x
  | VString s => quote s
  | VArray l =>
      match l with
      | [] => str "[]"
      | _ :: _ =>
          let stepback := indent in
          let indent := stepback ++ gap in
          ch "[" :: newline :: indent
          ++ join_with (ch "," :: newline :: indent) (map (stringify_gap gap indent) l)
          ++ newline :: stepback ++ [ch "]"]
      end
  | VObject o =>
      match o with
      | [] => str "{}"
      | _ :: _ =>
          let stepback := indent in
          let indent := stepback ++ gap in
          ch "{" :: newline :: indent
          ++ join_with (ch "," :: newline :: indent)
               (map (fun kv => match kv with
                               | (k, v') =>
                                   quote k ++ ch ":" :: ch " " :: stringify_gap gap indent v'
                               end) o)
          ++ newline :: stepback ++ [ch "}"]
      end
  end.

(** The gap of the space argument [2] is two spaces. *)
Definition stringify_2 (v : value) : jsstring := stringify_gap (str "  ") [] v.

(** *** [replace] with a replacer function *)

(** The text a match read: [s] up to where the match ends. *)
Definition matched (s : jsstring) (y : mstate) : jsstring :=
  firstn (length s - length (rest y)) s.

(** [s.replace(re, fn)] for a pattern with the g flag and a function that
    reads its first argument only, the matched text. *)
Fixpoint replaceWith_loop (re : RegExp) (fn : jsstring -> jsstring) (fuel : nat)
    (p : option char) (s : jsstring) {struct fuel} : jsstring :=
  match fuel with
  | O => s
  | S fuel' =>
      let step :=
        match s with
        | [] => []
        | c :: s' => c :: replaceWith_loop re fn fuel' (Some c) s'
        end in
      match match_at re p s with
      | Some y =>
          fn (matched s y) ++
          (if Nat.ltb (length (rest y)) (length s)
           then replaceWith_loop re fn fuel' (prev y) (rest y)
           else step)
      | None => step
      end
  end.

Definition replaceWith (re : RegExp) (fn : jsstring -> jsstring) (s : jsstring) : jsstring :=
  replaceWith_loop re fn (S (length s)) None s.

(** *** The patterns of the SQL and Markdown cases *)

Definition flags_gi : flags := {| ignoreCase := true; multiline := false; global := true |}.

(** [/\s*([,()])\s*/g] *)
Definition sqlSeparators : RegExp :=
  {| source := seqs [star ws; Group 1 (Class (one_of ",()")); star ws]; flag := flags_g |}.

(** [/\s*\(\s*/g] *)
Definition sqlOpening : RegExp :=
  {| source := seqs [star ws; Lit (ch "("); star ws]; flag := flags_g |}.

(** [/\s*\)\s*/g] *)
Definition sqlClosing : RegExp :=
  {| source := seqs [star ws; Lit (ch ")"); star ws]; flag := flags_g |}.

(** [/\b(SELECT|FROM|WHERE|AND|OR|ORDER BY|GROUP BY|LIMIT|INSERT INTO|UPDATE|DELETE FROM|HAVING|JOIN|LEFT JOIN|RIGHT JOIN|INNER JOIN|VALUES|SET|CREATE TABLE|ALTER TABLE)\b/gi] *)
Definition sqlClauses : RegExp :=
  {| source :=
       seqs [WordB;
             Group 1 (words ["SELECT"; "FROM"; "WHERE"; "AND"; "OR"; "ORDER BY"; "GROUP BY";
                             "LIMIT"; "INSERT INTO"; "UPDATE"; "DELETE FROM"; "HAVING";
                             "JOIN"; "LEFT JOIN"; "RIGHT JOIN"; "INNER JOIN"; "VALUES";
                             "SET"; "CREATE TABLE"; "ALTER TABLE"]);
             WordB];
     flag := flags_gi |}.

(** [/\b(ON|AS|IN|IS|NULL|NOT|ASC|DESC)\b/gi] *)
Definition sqlOperators : RegExp :=
  {| source :=
       seqs [WordB;
             Group 1 (words ["ON"; "AS"; "IN"; "IS"; "NULL"; "NOT"; "ASC"; "DESC"]);
             WordB];
     flag := flags_gi |}.

(** [/^#+\s*/gm] *)
Definition mdHeader : RegExp :=
  {| source := seqs [Bol; plus (Lit (ch "#")); star ws]; flag := flags_gm |}.

(** [/^\s*[-*]\s+/gm] *)
Definition mdBullet : RegExp :=
  {| source := seqs [Bol; star ws; Class (one_of "-*"); plus ws]; flag := flags_gm |}.

(** *** formatCode *)

Section Host.

(** [prettier.format] with the parser, plugins and options that the case of
    [language] passes: the text it resolves to, or what it rejects with. *)
Variable prettier_format : Language -> jsstring -> result jsstring.

(** [String.prototype.toUpperCase]. *)
Variable toUpperCase : jsstring -> jsstring.

(** The promise [formatCode] returns: [Return] when it is fulfilled,
    [Throw] when it is rejected. The [catch] block logs and throws the
    error again. *)
Definition formatCode (code : jsstring) (language : Language) : result jsstring :=
  if isEmpty (trim code) then Return []
  else
    match language with
    | JSON =>
        match JSON.parse code with
        | Some parsed => Return (stringify_2 parsed)
        | None => Throw SyntaxError
        end
    | JAVASCRIPT | TYPESCRIPT | HTML | CSS | XML => prettier_format language code
    | SQL =>
        Return
          (trim
             (replaceWith sqlOperators (fun m => str " " ++ toUpperCase m ++ str " ")
                (replaceWith sqlClauses (fun m => newline :: toUpperCase m)
                   (replace sqlClosing [RText (str ") ")]
                      (replace sqlOpening [RText (str " (")]
                         (replace sqlSeparators [RGroup 1; RText (str " ")]
                            (replace spaces space code)))))))
    | MARKDOWN =>
        Return
          (replace mdBullet [RText (str "- ")]
             (replaceWith mdHeader (fun m => trim m ++ str " ") code))
    end.

End Host.

End Beautify.

(** ** src/App.tsx: the other handlers *)

Module Handlers.
Import JS Formatter App Beautify.
Local Open Scope string_scope.

Definition setLanguage (l : Language) (st : AppState) : AppState :=
  {| inputCode := inputCode st; outputCode := outputCode st; language := l;
     error := error st; notification := notification st |}.

(** The values of the enum [Language] in upper case, as
    [detected.toUpperCase()] gives them. *)
Definition upperCaseValue (l : Language) : string :=
  match l with
  | JSON => "JSON"
  | JAVASCRIPT => "JAVASCRIPT"
  | TYPESCRIPT => "TYPESCRIPT"
  | HTML => "HTML"
  | CSS => "CSS"
  | XML => "XML"
  | SQL => "SQL"
  | MARKDOWN => "MARKDOWN"
  end.

(** What the language menu of the toolbar passes: ['auto'] or a value of
    the enum. *)
Inductive selection : Type :=
| Auto
| Chosen (l : Language).

Definition handleLanguageChange (val : selection) (st : AppState) : AppState :=
  match val with
  | Auto =>
      let detected := detectLanguage (inputCode st) in
      showNotification ("Auto-detected: " ++ upperCaseValue detected)
        (setLanguage detected st)
  | Chosen l => setLanguage l st
  end.

(** [newCode] is [None] for [undefined]; [newCode || ''] is the empty
    string then, and for the empty string. *)
Definition handleInputChange (newCode : option jsstring) (st : AppState) : AppState :=
  let val := match newCode with Some s => s | None => [] end in
  let isPaste :=
    Z.ltb 10 (Z.of_nat (length val) - Z.of_nat (length (inputCode st))) in
  let st1 :=
    if ((Nat.eqb (length (inputCode st)) 0 || isPaste) && Nat.ltb 10 (length val))%bool
    then
      let detected := detectLanguage val in
      if negb (Language_eqb detected (language st)) then setLanguage detected st else st
    else st in
  setInputCode val st1.

(** [clipboard] is the text [navigator.clipboard.readText()] resolves to,
    [None] when it rejects. *)
Definition handlePaste (clipboard : option jsstring) (st : AppState) : AppState :=
  match clipboard with
  | Some text =>
      let st1 := setInputCode text st in
      let detected := detectLanguage text in
      if negb (Language_eqb detected (language st)) then
        showNotification ("Pasted & Detected: " ++ upperCaseValue detected)
          (setLanguage detected st1)
      else showNotification "Pasted from clipboard" st1
  | None => showNotification "Failed to read clipboard" st
  end.

Definition handleJsonChange (val : jsstring) (st : AppState) : AppState :=
  setInputCode val st.

Section Host.

Variable prettier_format : Language -> jsstring -> result jsstring.
Variable toUpperCase : jsstring -> jsstring.

(** [handleBeautify(silent)], from the state it is called in to the state
    after its promise is settled; a silent failure is only logged. *)
Definition handleBeautify (silent : bool) (st : AppState) : AppState :=
  let st0 := setError None st in
  match formatCode prettier_format toUpperCase (inputCode st0) (language st0) with
  | Return formatted =>
      let st1 := if Language_eqb (language st0) JSON
                 then setInputCode formatted st0
                 else setOutputCode formatted st0 in
      if silent then st1 else showNotification "Code beautified successfully!" st1
  | Throw e => if silent then st0 else setError (Some e) st0
  end.

End Host.

End Handlers.

(** ** Specification vocabulary *)

(** No two adjacent code units of [s] are both white space. *)
Fixpoint ws_run_free (s : JS.jsstring) : bool :=
  match s with
  | a :: (b :: _) as t => (negb (JS.isWhiteSpace a && JS.isWhiteSpace b) && ws_run_free t)%bool
  | _ => true
  end.

Definition starts_blank (s : JS.jsstring) : bool :=
  match s with
  | c :: _ => JS.isWhiteSpace c
  | [] => false
  end.

(** The position after the longest run of code units satisfying [q]. *)
Fixpoint skip_class (q : JS.char -> bool) (p : option JS.char) (s : JS.jsstring) :
    option JS.char * JS.jsstring :=
  match s with
  | c :: s' => if q c then skip_class q (Some c) s' else (p, s)
  | [] => (p, [])
  end.

Definition state_after (q : JS.char -> bool) (x : Regex.mstate) : Regex.mstate :=
  {| Regex.prev := fst (skip_class q (Regex.prev x) (Regex.rest x));
     Regex.rest := snd (skip_class q (Regex.prev x) (Regex.rest x));
     Regex.caps := Regex.caps x |}.

(** A matcher only moves forward: it calls its continuation on states that
    have no more input left than the state it started from. *)
Definition forward (m : Regex.mstate -> Regex.cont -> option Regex.mstate) : Prop :=
  forall x c1 c2,
    (forall y, length (Regex.rest y) <= length (Regex.rest x) -> c1 y = c2 y) ->
    m x c1 = m x c2.

(** The state after the literal [l], when the input starts with it. *)
Fixpoint strip_lit (fl : Regex.flags) (l : JS.jsstring) (x : Regex.mstate) :
    option Regex.mstate :=
  match l with
  | [] => Some x
  | a :: l' =>
      match Regex.rest x with
      | b :: s' =>
          if Regex.lit_matches fl a b then strip_lit fl l' (Regex.advance b s' x)
          else None
      | [] => None
      end
  end.

(** The first state, from [x] on, that the continuation [k] accepts. *)
Fixpoint first_accepted (k : Regex.cont) (p : option JS.char) (s : JS.jsstring)
    (cs : list (nat * JS.jsstring)) : option Regex.mstate :=
  match k {| Regex.prev := p; Regex.rest := s; Regex.caps := cs |} with
  | Some z => Some z
  | None =>
      match s with
      | b :: s' => first_accepted k (Some b) s' cs
      | [] => None
      end
  end.

(** The input after the first [*/] of [s]. *)
Fixpoint after_close (s : JS.jsstring) : option JS.jsstring :=
  match s with
  | [] => None
  | a :: s' =>
      match s' with
      | b :: r => if (N.eqb a 42 && N.eqb b 47)%bool then Some r else after_close s'
      | [] => None
      end
  end.

Definition not_terminator (c : JS.char) : bool := negb (JS.isLineTerminator c).

(** What [jsComment] matches at a position, written out: the text kept in
    its place ([$1]) and the input after the match. A block comment runs to
    the first [*/]; a line comment runs to the end of the line and starts
    either after one character that is neither a backslash nor a colon,
    which is kept, or at the start of a line. *)
Definition comment_at (p : option JS.char) (s : JS.jsstring) :
    option (JS.jsstring * JS.jsstring) :=
  let block :=
    match s with
    | a :: b :: s1 => if (N.eqb a 47 && N.eqb b 42)%bool then after_close s1 else None
    | _ => None
    end in
  let after_char :=
    match s with
    | b :: c :: d :: s2 =>
        if (Formatter.notBackslashColon b && (N.eqb c 47 && N.eqb d 47))%bool
        then Some ([b], snd (skip_class not_terminator (Some d) s2))
        else None
    | _ => None
    end in
  let line_start :=
    match p with
    | None => true
    | Some c => JS.isLineTerminator c
    end in
  match block with
  | Some r => Some ([], r)
  | None =>
      match after_char with
      | Some kr => Some kr
      | None =>
          match s with
          | c :: d :: s2 =>
              if (line_start && (N.eqb c 47 && N.eqb d 47))%bool
              then Some ([], snd (skip_class not_terminator (Some d) s2))
              else None
          | _ => None
          end
      end
  end.

(** Upper case of an ASCII letter; other code units are left alone. *)
Definition upper_ascii (c : JS.char) : JS.char :=
  if JS.in_range 0x61%N 0x7A%N c then (c - 32)%N else c.

(** [u] is the ASCII text [w] up to the case of its letters. *)
Definition same_ignoring_case (w : string) (u : JS.jsstring) : Prop :=
  map upper_ascii u = map upper_ascii (JS.str w).

(** The text starts with [<?xml], in any case, and a white space character. *)
Definition begins_xml_declaration (s : JS.jsstring) : Prop :=
  exists u c r, s = u ++ c :: r /\ same_ignoring_case "<?xml" u /\ JS.isWhiteSpace c = true.

(** The text starts with [<!doctype], white space and [html], in any case. *)
Definition begins_html_doctype (s : JS.jsstring) : Prop :=
  exists u w h r,
    s = u ++ w ++ h ++ r /\ same_ignoring_case "<!doctype" u /\
    w <> [] /\ forallb JS.isWhiteSpace w = true /\ same_ignoring_case "html" h.

(** The code unit before the position reached after reading [u]. *)
Definition last_read (p : option JS.char) (u : JS.jsstring) : option JS.char :=
  match rev u with
  | c :: _ => Some c
  | [] => p
  end.

(** [2^k <= p/q], for positive [p] and [q] and any integer [k]. *)
Definition le2 (p q k : Z) : Prop :=
  (q * Number.pow2 k <= p * Number.pow2 (- k))%Z.

(** A Number as [JSON.parse] makes one: zero, subnormal or normal binary64. *)
Definition wf_number (x : Number.number) : Prop :=
  match x with
  | Number.Infinity _ => True
  | Number.Finite _ m e =>
      (m = 0 /\ e = Number.emin)%Z \/
      (0 < m < 2 ^ 53 /\ Number.emin <= e <= Number.emax /\
       (2 ^ 52 <= m \/ e = Number.emin))%Z
  end.

(** The Number with its sign set. *)
Definition with_sign (neg : bool) (x : Number.number) : Number.number :=
  match x with
  | Number.Finite _ m e => Number.Finite neg m e
  | Number.Infinity _ => Number.Infinity neg
  end.

(** What may follow a value in the text [JSON.stringify] writes: nothing,
    or a comma or a closing bracket. *)
Definition delimited (rest : JS.jsstring) : bool :=
  match rest with
  | [] => true
  | c :: _ => (N.eqb c (JS.ch ",") || N.eqb c (JS.ch "]") || N.eqb c (JS.ch "}"))%bool
  end.

(** The integer part of a number token: a single 0, or digits that do not
    start with 0. *)
Definition int_part (int : JS.jsstring) : Prop :=
  int = [JS.ch "0"] \/
  exists d l, int = d :: l /\ forallb Number.isDigit int = true /\ N.eqb d (JS.ch "0") = false.

(** A number token put together from its parts. *)
Definition number_text (neg : bool) (int frac : JS.jsstring) (eneg : bool)
    (ed : JS.jsstring) : JS.jsstring :=
  (if neg then [JS.ch "-"] else []) ++ int
  ++ (if JS.isEmpty frac then [] else JS.ch "." :: frac)
  ++ (if JS.isEmpty ed then []
      else JS.ch "e" :: (if eneg then JS.ch "-" else JS.ch "+") :: ed).

(** [-0] read back is [+0]. *)
Definition positive_zero (x : Number.number) : Number.number :=
  match x with
  | Number.Finite neg m e => if (m =? 0)%Z then Number.Finite false 0 Number.emin else x
  | Number.Infinity _ => x
  end.

Definition no_digit (rest : JS.jsstring) : Prop :=
  match rest with c :: _ => Number.isDigit c = false | [] => True end.

(** Token lists joined by commas. *)
Fixpoint join_tokens (parts : list (list JSON.token)) : list JSON.token :=
  match parts with
  | [] => []
  | [p] => p
  | p :: ps => p ++ JSON.TComma :: join_tokens ps
  end.

(** The tokens of the text [JSON.stringify] writes for a value. *)
Fixpoint tokens_of (v : JSON.value) : list JSON.token :=
  match v with
  | JSON.VNull => [JSON.TNull]
  | JSON.VBool true => [JSON.TTrue]
  | JSON.VBool false => [JSON.TFalse]
  | JSON.VNumber x => [JSON.TNumber x]
  | JSON.VString s => [JSON.TString s]
  | JSON.VArray l => JSON.TLBracket :: join_tokens (map tokens_of l) ++ [JSON.TRBracket]
  | JSON.VObject o =>
      JSON.TLBrace ::
      join_tokens (map (fun kv => match kv with
                                  | (k, v') => JSON.TString k :: JSON.TColon :: tokens_of v'
                                  end) o)
      ++ [JSON.TRBrace]
  end.

(** The key [k1] may come before the key [k2] in an object: they differ,
    array indices ascend and come before the other keys. *)
Definition key_before (k1 k2 : JS.jsstring) : Prop :=
  k1 <> k2 /\
  match JSON.array_index k1, JSON.array_index k2 with
  | Some i, Some j => (i < j)%Z
  | Some _, None => True
  | None, Some _ => False
  | None, None => True
  end.

(** The keys of an object in the order of OrdinaryOwnPropertyKeys. *)
Fixpoint ordered_keys (ks : list JS.jsstring) : Prop :=
  match ks with
  | [] => True
  | k :: ks' => Forall (key_before k) ks' /\ ordered_keys ks'
  end.

(** A value as [JSON.parse] builds it. *)
Unset Elimination Schemes.
Inductive wf_value : JSON.value -> Prop :=
| wf_null : wf_value JSON.VNull
| wf_bool b : wf_value (JSON.VBool b)
| wf_num x : wf_number x -> wf_value (JSON.VNumber x)
| wf_string s : wf_value (JSON.VString s)
| wf_array l : Forall wf_value l -> wf_value (JSON.VArray l)
| wf_object o :
    ordered_keys (map fst o) -> Forall (fun kv => wf_value (snd kv)) o ->
    wf_value (JSON.VObject o).
Set Elimination Schemes.

(** What a value becomes when it is written and read again: an infinite
    Number is written as [null], and [-0] as [0]. *)
Fixpoint reread (v : JSON.value) : JSON.value :=
  match v with
  | JSON.VNumber x =>
      if Number.isFinite x then JSON.VNumber (positive_zero x) else JSON.VNull
  | JSON.VArray l => JSON.VArray (map reread l)
  | JSON.VObject o =>
      JSON.VObject (map (fun kv => match kv with (k, v') => (k, reread v') end) o)
  | _ => v
  end.

(** Every Number in the value is finite. *)
Fixpoint all_finite (v : JSON.value) : bool :=
  match v with
  | JSON.VNumber x => Number.isFinite x
  | JSON.VArray l => forallb all_finite l
  | JSON.VObject o => forallb (fun kv => all_finite (snd kv)) o
  | _ => true
  end.

(** Structural equality of values, Numbers compared as by [===]. *)
Fixpoint js_equal (a b : JSON.value) : bool :=
  match a, b with
  | JSON.VNull, JSON.VNull => true
  | JSON.VBool x, JSON.VBool y => Bool.eqb x y
  | JSON.VNumber x, JSON.VNumber y => Number.strict_eq x y
  | JSON.VString s, JSON.VString t => JSON.key_eqb s t
  | JSON.VArray l, JSON.VArray l' =>
      (fix all2 (l l' : list JSON.value) : bool :=
         match l, l' with
         | [], [] => true
         | x :: t, y :: t' => (js_equal x y && all2 t t')%bool
         | _, _ => false
         end) l l'
  | JSON.VObject o, JSON.VObject o' =>
      (fix all2 (o o' : list (JS.jsstring * JSON.value)) : bool :=
         match o, o' with
         | [], [] => true
         | (k, x) :: t, (k', y) :: t' =>
             (JSON.key_eqb k k' && js_equal x y && all2 t t')%bool
         | _, _ => false
         end) o o'
  | _, _ => false
  end.

(** The tokens of the items after the first, each after its comma. *)
Definition tail_tokens (parts : list (list JSON.token)) : list JSON.token :=
  flat_map (fun q => JSON.TComma :: q) parts.

Definition member_tokens (kv : JS.jsstring * JSON.value) : list JSON.token :=
  match kv with
  | (k, v) => JSON.TString k :: JSON.TColon :: tokens_of v
  end.

(** A number token holds a binary64 value. *)
Definition token_wf (t : JSON.token) : Prop :=
  match t with
  | JSON.TNumber x => wf_number x
  | _ => True
  end.

(** The value is an array or an object. *)
Definition is_container (v : JSON.value) : bool :=
  match v with
  | JSON.VArray _ | JSON.VObject _ => true
  | _ => false
  end.

(** Parsing the tokens of [w], whatever follows them, gives back [w]. *)
Definition parses_back (w : JSON.value) : Prop :=
  forall ts f, length (tokens_of w ++ ts) < f ->
    JSON.parse_value f (tokens_of w ++ ts) = Some (w, ts).

(** Digits that do not start with 0; the empty list counts. *)
Definition no_leading_zero (l : JS.jsstring) : Prop :=
  match l with
  | [] => True
  | c :: _ => N.eqb c (JS.ch "0") = false
  end.

(** The token is a punctuator. *)
Definition punct_token (t : JSON.token) : bool :=
  match t with
  | JSON.TLBrace | JSON.TRBrace | JSON.TLBracket | JSON.TRBracket
  | JSON.TComma | JSON.TColon => true
  | _ => false
  end.

(** The tokens of an object are within braces, and those of an array
    within brackets. *)
Definition enclosed (v : JSON.value) (p : list JSON.token) : Prop :=
  match v with
  | JSON.VObject _ => exists p', p = JSON.TLBrace :: p' ++ [JSON.TRBrace]
  | JSON.VArray _ => exists p', p = JSON.TLBracket :: p' ++ [JSON.TRBracket]
  | _ => True
  end.

(** The shape of a trimmed text: empty, or with no white space at either
    end. *)
Inductive trimmed_shape : JS.jsstring -> Prop :=
| shape_empty : trimmed_shape []
| shape_one a : JS.isWhiteSpace a = false -> trimmed_shape [a]
| shape_more a m b :
    JS.isWhiteSpace a = false -> JS.isWhiteSpace b = false ->
    trimmed_shape (a :: m ++ [b]).

(** Every white space character of [s] is the space U+0020. *)
Definition only_spaces (s : JS.jsstring) : bool :=
  forallb (fun c => (negb (JS.isWhiteSpace c) || N.eqb c 32)%bool) s.

(** The text without its white space. *)
Definition non_blank (s : JS.jsstring) : JS.jsstring :=
  filter (fun c => negb (JS.isWhiteSpace c)) s.

(** No white space stands next to one of the characters [: ; { }]. *)
Fixpoint tight (s : JS.jsstring) : bool :=
  match s with
  | a :: (b :: _) as t =>
      (negb ((JS.isWhiteSpace a && Regex.one_of ":;{}" b)
             || (Regex.one_of ":;{}" a && JS.isWhiteSpace b))
       && tight t)%bool
  | _ => true
  end.

(** The text starts with [>], white space and [<]. *)
Definition tag_gap (s : JS.jsstring) : bool :=
  match s with
  | c :: s' =>
      (N.eqb c (JS.ch ">") && starts_blank s'
       && JS.startsWith (JS.ch "<") (snd (skip_class JS.isWhiteSpace None s')))%bool
  | [] => false
  end.

(** Nowhere in the text is a [>] separated from a [<] by white space only. *)
Fixpoint tag_gap_free (s : JS.jsstring) : bool :=
  match s with
  | [] => true
  | _ :: s' => (negb (tag_gap s) && tag_gap_free s')%bool
  end.

(** What may follow a number token: nothing, or a character that does not
    continue the number. *)
Definition number_end (rest : JS.jsstring) : bool :=
  match rest with
  | [] => true
  | c :: _ =>
      negb (Number.isDigit c || N.eqb c (JS.ch ".") || N.eqb c (JS.ch "e")
            || N.eqb c (JS.ch "E"))
  end.

(** What may follow a value in the text [JSON.stringify] writes with a gap:
    nothing, a comma, a closing bracket or a line break. *)
Definition value_end (rest : JS.jsstring) : bool :=
  match rest with
  | [] => true
  | c :: _ =>
      (N.eqb c (JS.ch ",") || N.eqb c (JS.ch "]") || N.eqb c (JS.ch "}")
       || N.eqb c Beautify.newline)%bool
  end.

(** The words a SQL statement starts with, as [sqlStartPattern] lists them. *)
Definition sql_statement_words : list string :=
  ["SELECT"; "INSERT"; "UPDATE"; "DELETE"; "CREATE"; "ALTER"; "DROP"; "TRUNCATE";
   "GRANT"; "REVOKE"; "BEGIN"; "DECLARE"; "WITH"]%string.

(** The text is empty or starts with a character that is no word character. *)
Definition word_end (s : JS.jsstring) : bool :=
  match s with
  | [] => true
  | c :: _ => negb (JS.isWordChar c)
  end.

(** The languages and texts from which [minifyCode] takes no comment: SQL,
    Markdown, HTML and XML, and JavaScript, TypeScript and CSS for a text
    without a slash. *)
Definition comment_free (text : JS.jsstring) (lang : Language) : Prop :=
  lang = SQL \/ lang = MARKDOWN \/ lang = HTML \/ lang = XML
  \/ ((lang = JAVASCRIPT \/ lang = TYPESCRIPT \/ lang = CSS)
      /\ forallb (fun c => negb (N.eqb c (JS.ch "/"))) text = true).

(** The words of [isJsPattern]. *)
Definition js_words : list string :=
  ["const"; "var"; "let"; "function"; "return"; "import"; "export"; "class"]%string.

(** The text is empty or ends with a character that is no word character. *)
Definition word_begin (u : JS.jsstring) : bool :=
  negb (Regex.is_word (last_read None u)).

(** One of the words of [l] stands in [s] as a whole word, in the case it
    is written in: no word character stands before it or after it. *)
Definition contains_word (l : list string) (s : JS.jsstring) : Prop :=
  exists u k v,
    s = u ++ JS.str k ++ v /\ In k l /\ word_begin u = true /\ word_end v = true.

(** The tag names of [htmlTags] that are words; [h1] to [h6] come on top. *)
Definition html_tag_words : list string :=
  ["html"; "head"; "body"; "div"; "span"; "p"; "a"; "ul"; "ol"; "li"; "table"; "tr";
   "td"; "br"; "img"; "form"; "input"; "button"; "script"; "style"; "meta"; "link";
   "header"; "footer"; "nav"; "section"; "article"]%string.

(** [n] is one of the tag names, in any case. *)
Definition html_tag_name (n : JS.jsstring) : Prop :=
  (exists k, In k html_tag_words /\ same_ignoring_case k n)
  \/ (exists h d, n = [h; d] /\ same_ignoring_case "h" [h]
                  /\ JS.in_range (JS.ch "1") (JS.ch "6") d = true).

(** The text holds an opening or a closing tag with one of the tag names:
    [<], white space if any, a slash or none, white space if any, the name,
    and then the end of the text or a character that is no word character. *)
Definition contains_html_tag (s : JS.jsstring) : Prop :=
  exists u w1 sl w2 n v,
    s = u ++ JS.ch "<" :: w1 ++ sl ++ w2 ++ n ++ v
    /\ forallb JS.isWhiteSpace w1 = true /\ (sl = [] \/ sl = [JS.ch "/"])
    /\ forallb JS.isWhiteSpace w2 = true /\ html_tag_name n /\ word_end v = true.

(** A word that starts and ends with a word character. *)
Definition wordy (k : string) : bool :=
  (Regex.is_word (hd_error (JS.str k)) && Regex.is_word (last_read None (JS.str k)))%bool.

(** The alternatives of the name group of [htmlTags]. *)
Definition html_name_patterns : list Regex.regex :=
  map Regex.lit ["html"; "head"; "body"; "div"; "span"; "p"; "a";
                 "ul"; "ol"; "li"; "table"; "tr"; "td"; "br"; "img"]%string
  ++ [Regex.Seq (Regex.Lit (JS.ch "h")) (Regex.Class (JS.in_range (JS.ch "1") (JS.ch "6")))]
  ++ map Regex.lit ["form"; "input"; "button"; "script"; "style";
                    "meta"; "link"; "header"; "footer"; "nav";
                    "section"; "article"]%string.








(** * Properties *)

Import JS.

(** ** Trimming *)

Section Trim.

Lemma trimStart_decompose (s : jsstring) :
  exists l, s = l ++ trimStart s /\ forallb isWhiteSpace l = true.
Proof.
  induction s as [|c s IH]; simpl.
  - exists []. auto.
  - destruct (isWhiteSpace c) eqn:Hc.
    + destruct IH as [l [H1 H2]]. exists (c :: l). simpl.
      rewrite Hc, H2. split; [congruence | reflexivity].
    + exists []. auto.
Qed.

Lemma trimStart_head (s : jsstring) :
  trimStart s = [] \/ exists c u, trimStart s = c :: u /\ isWhiteSpace c = false.
Proof.
  induction s as [|c s IH]; simpl; auto.
  destruct (isWhiteSpace c) eqn:Hc; auto.
  right. exists c, s. auto.
Qed.

Lemma trimStart_spaces (l s : jsstring) :
  forallb isWhiteSpace l = true -> trimStart (l ++ s) = trimStart s.
Proof.
  induction l as [|c l IH]; simpl; auto.
  intros H. apply andb_true_iff in H as [Hc Hl]. rewrite Hc. auto.
Qed.

Lemma trimStart_fixed (c : char) (s : jsstring) :
  isWhiteSpace c = false -> trimStart (c :: s) = c :: s.
Proof. intros H. simpl. now rewrite H. Qed.

Lemma trimStart_all_spaces (l : jsstring) :
  forallb isWhiteSpace l = true -> trimStart l = [].
Proof.
  intros H. rewrite <- (app_nil_r l). now rewrite trimStart_spaces.
Qed.

Lemma trimStart_nil_spaces (s : jsstring) :
  trimStart s = [] -> forallb isWhiteSpace s = true.
Proof.
  induction s as [|c s IH]; simpl; auto.
  destruct (isWhiteSpace c); [auto | discriminate].
Qed.

Lemma forallb_rev (p : char -> bool) (l : jsstring) :
  forallb p (rev l) = forallb p l.
Proof.
  induction l as [|c l IH]; simpl; auto.
  rewrite forallb_app, IH. simpl. rewrite andb_true_r. apply andb_comm.
Qed.

(** A text with blank margins around a core that neither starts nor ends
    blank trims to the core. *)
Lemma trim_core (l r : jsstring) (a b : char) (m : jsstring) :
  forallb isWhiteSpace l = true -> forallb isWhiteSpace r = true ->
  isWhiteSpace a = false -> isWhiteSpace b = false ->
  trim (l ++ (a :: m ++ [b]) ++ r) = a :: m ++ [b].
Proof.
  intros Hl Hr Ha Hb. unfold trim, trimEnd.
  rewrite trimStart_spaces by assumption.
  simpl app. rewrite trimStart_fixed by assumption.
  replace (rev (a :: (m ++ [b]) ++ r)) with (rev r ++ b :: rev (a :: m)).
  2:{ simpl. rewrite !rev_app_distr. simpl. rewrite <- !app_assoc. reflexivity. }
  rewrite trimStart_spaces by (now rewrite forallb_rev).
  rewrite trimStart_fixed by assumption.
  simpl. rewrite rev_app_distr. simpl. now rewrite rev_involutive.
Qed.

Lemma trim_core1 (l r : jsstring) (a : char) :
  forallb isWhiteSpace l = true -> forallb isWhiteSpace r = true ->
  isWhiteSpace a = false ->
  trim (l ++ [a] ++ r) = [a].
Proof.
  intros Hl Hr Ha. unfold trim, trimEnd.
  rewrite trimStart_spaces by assumption.
  simpl app. rewrite trimStart_fixed by assumption.
  change (rev (a :: r)) with (rev r ++ [a]).
  rewrite trimStart_spaces by (now rewrite forallb_rev).
  now rewrite trimStart_fixed.
Qed.

Lemma trim_decompose (s : jsstring) :
  exists l r, s = l ++ trim s ++ r /\ forallb isWhiteSpace l = true
              /\ forallb isWhiteSpace r = true /\ trimmed_shape (trim s).
Proof.
  destruct (trimStart_decompose s) as [l [Hs Hl]].
  destruct (trimStart_decompose (rev (trimStart s))) as [r' [Hr Hr']].
  exists l, (rev r'). unfold trim, trimEnd.
  assert (E : trimStart s = rev (trimStart (rev (trimStart s))) ++ rev r').
  { rewrite <- rev_app_distr, <- Hr. now rewrite rev_involutive. }
  repeat split.
  - rewrite <- E. exact Hs.
  - exact Hl.
  - now rewrite forallb_rev.
  - destruct (trimStart_head (rev (trimStart s))) as [H0 | [b [u [Hu Hb]]]].
    + rewrite H0. constructor.
    + rewrite Hu in *. simpl in *.
      destruct (trimStart_head s) as [H1 | [a [w [Hw Ha]]]].
      * rewrite H1 in Hr. simpl in Hr. destruct r'; discriminate.
      * rewrite Hw in E. destruct (rev u) as [|a' m] eqn:Hm; simpl in *.
        -- constructor. assumption.
        -- injection E as -> _. constructor; assumption.
Qed.

Lemma trim_shape_fixed (s : jsstring) : trimmed_shape s -> trim s = s.
Proof.
  intros [|a Ha|a m b Ha Hb].
  - reflexivity.
  - apply (trim_core1 [] [] a); auto.
  - rewrite <- (trim_core [] [] a b m) at 2 by auto.
    simpl. now rewrite app_nil_r.
Qed.

Lemma trim_idempotent (s : jsstring) : trim (trim s) = trim s.
Proof.
  destruct (trim_decompose s) as [l [r [_ [_ [_ H]]]]].
  now apply trim_shape_fixed.
Qed.

Lemma trim_nil_spaces (s : jsstring) :
  trim s = [] -> forallb isWhiteSpace s = true.
Proof.
  intros H. destruct (trim_decompose s) as [l [r [E [Hl [Hr _]]]]].
  rewrite H in E. rewrite E. simpl. rewrite forallb_app, Hl, Hr. reflexivity.
Qed.

End Trim.

(** ** Reasoning on code units *)

Ltac b2p :=
  repeat rewrite ?orb_true_iff, ?andb_true_iff, ?orb_false_iff, ?andb_false_iff,
    ?negb_true_iff, ?negb_false_iff,
    ?N.eqb_eq, ?N.eqb_neq, ?N.leb_le, ?N.leb_gt, ?N.ltb_lt, ?N.ltb_ge in *.

Ltac char_lia :=
  cbv [isWhiteSpace JSON.isJSONWhiteSpace isLineTerminator isWordChar Number.isDigit
       in_range dquote backslash ch N_of_ascii N_of_digits] in *;
  simpl N.add in *; simpl N.mul in *;
  b2p; lia.

Ltac eqb_false :=
  repeat match goal with
  | |- context [N.eqb ?a ?b] => destruct (N.eqb a b) eqn:?; [exfalso; char_lia|]
  end.

(** ** Blank texts are no JSON *)

Import JSON.

Lemma ws_not_punct (c : char) : isWhiteSpace c = true -> punctuator c = None.
Proof. intros H. unfold punctuator. eqb_false. reflexivity. Qed.

Lemma ws_not_keyword (c : char) (s : jsstring) :
  isWhiteSpace c = true -> keyword (c :: s) = None.
Proof.
  intros H. unfold keyword. cbn [str list_ascii_of_string map strip_prefix].
  eqb_false. reflexivity.
Qed.

Lemma lex_cons (f : nat) (c : char) (s' : jsstring) :
  lex (S f) (c :: s') =
  if isJSONWhiteSpace c then lex f s'
  else
    match punctuator c with
    | Some t => cons_tok t (lex f s')
    | None =>
        if N.eqb c dquote then
          match lex_string s' with
          | Some (v, r) => cons_tok (TString v) (lex f r)
          | None => None
          end
        else if (N.eqb c (ch "-") || Number.isDigit c)%bool then
          match lex_number (c :: s') with
          | Some (x, r) => cons_tok (TNumber x) (lex f r)
          | None => None
          end
        else
          match keyword (c :: s') with
          | Some (t, r) => cons_tok t (lex f r)
          | None => None
          end
    end.
Proof. reflexivity. Qed.

Lemma lex_blank (s : jsstring) :
  forallb isWhiteSpace s = true -> forall f, lex f s = None \/ lex f s = Some [].
Proof.
  induction s as [|c s IH]; intros H [|f]; try (simpl; now auto).
  rewrite lex_cons.
  simpl in H. apply andb_true_iff in H as [Hc Hs].
  destruct (isJSONWhiteSpace c); [now apply IH|].
  rewrite (ws_not_punct c Hc).
  destruct (N.eqb c dquote) eqn:E1; [exfalso; char_lia|].
  destruct (N.eqb c (ch "-") || Number.isDigit c)%bool eqn:E2; [exfalso; char_lia|].
  rewrite (ws_not_keyword c s Hc). auto.
Qed.

Lemma parse_blank (s : jsstring) : trim s = [] -> JSON.parse s = None.
Proof.
  intros H. apply trim_nil_spaces in H. unfold parse, tokens.
  destruct (lex_blank s H (S (length s))) as [-> | ->]; reflexivity.
Qed.

(** ** The matcher *)

Import Regex.

Lemma repeat_forward m gs greedy :
  forward m ->
  forall fuel min max x c1 c2,
    (forall y, length (rest y) <= length (rest x) -> c1 y = c2 y) ->
    repeatMatcher m gs greedy c1 fuel min max x = repeatMatcher m gs greedy c2 fuel min max x.
Proof.
  intros Hm. induction fuel as [|fuel IH]; intros min max x c1 c2 Hc; simpl; auto.
  rewrite (Hc x) by lia.
  destruct (max_is_zero max); auto.
  match goal with
  | |- context [m ?xr ?d1] =>
      match goal with
      | |- context [m xr ?d2] =>
          lazymatch d1 with d2 => fail | _ => assert (E : m xr d1 = m xr d2) end
      end
  end.
  { apply Hm. intros y Hy. simpl in Hy.
    destruct (Nat.eqb min 0 && Nat.eqb (length (rest y)) (length (rest x)))%bool; auto.
    apply IH. intros z Hz. apply Hc. lia. }
  rewrite E. reflexivity.
Qed.

Lemma matcher_forward fl r : forward (matcher fl r).
Proof.
  induction r as [|a|p|r1 IH1 r2 IH2|r1 IH1 r2 IH2|min max greedy r IH|n r IH| | |];
    intros x c1 c2 Hc; cbn [matcher].
  - apply Hc; lia.
  - destruct (rest x) as [|b s] eqn:E; auto.
    destruct (lit_matches fl a b); auto. apply Hc. simpl. lia.
  - destruct (rest x) as [|b s] eqn:E; auto.
    destruct (class_matches fl p b); auto. apply Hc. simpl. lia.
  - apply IH1. intros y Hy. apply IH2. intros z Hz. apply Hc. lia.
  - rewrite (IH1 x c1 c2 Hc), (IH2 x c1 c2 Hc). reflexivity.
  - apply repeat_forward; auto.
  - apply IH. intros y Hy. apply Hc. simpl. lia.
  - destruct (at_bol fl x); auto.
  - destruct (at_eol fl x); auto.
  - destruct (at_word_boundary x); auto.
Qed.

Lemma repeat_fuel m gs greedy c :
  forward m ->
  forall f1 f2 min max x,
    min + length (rest x) < f1 -> min + length (rest x) < f2 ->
    repeatMatcher m gs greedy c f1 min max x = repeatMatcher m gs greedy c f2 min max x.
Proof.
  intros Hm. induction f1 as [|f1 IH]; intros f2 min max x H1 H2; [lia|].
  destruct f2 as [|f2]; [lia|]. simpl.
  destruct (max_is_zero max); auto.
  match goal with
  | |- context [m ?xr ?d1] =>
      match goal with
      | |- context [m xr ?d2] =>
          lazymatch d1 with d2 => fail | _ => assert (E : m xr d1 = m xr d2) end
      end
  end.
  { apply Hm. intros y Hy. simpl in Hy.
    destruct (Nat.eqb min 0) eqn:E0; simpl.
    - destruct (Nat.eqb (length (rest y)) (length (rest x))) eqn:E1; auto.
      apply Nat.eqb_eq in E0. apply Nat.eqb_neq in E1. apply IH; simpl; lia.
    - apply Nat.eqb_neq in E0. apply IH; lia. }
  rewrite E. reflexivity.
Qed.

Lemma matcher_Rep_def fl min max greedy r x c :
  matcher fl (Rep min max greedy r) x c =
  repeatMatcher (matcher fl r) (groups r) greedy c (S (min + length (rest x))) min max x.
Proof. reflexivity. Qed.

(** One step of a quantifier. *)
Lemma matcher_Rep fl min max greedy r x c :
  matcher fl (Rep min max greedy r) x c =
  if max_is_zero max then c x else
  let d : cont := fun y =>
    if (Nat.eqb min 0 && Nat.eqb (length (rest y)) (length (rest x)))%bool then None
    else matcher fl (Rep (Nat.pred min) (dec_max max) greedy r) y c in
  let xr := clear_caps (groups r) x in
  if negb (Nat.eqb min 0) then matcher fl r xr d
  else if greedy then
    match matcher fl r xr d with
    | Some z => Some z
    | None => c x
    end
  else
    match c x with
    | Some z => Some z
    | None => matcher fl r xr d
    end.
Proof.
  rewrite matcher_Rep_def. cbn [repeatMatcher].
  destruct (max_is_zero max); auto.
  match goal with
  | |- context [matcher fl r ?xr ?d1] =>
      match goal with
      | |- context [matcher fl r xr ?d2] =>
          lazymatch d1 with d2 => fail | _ => assert (E : matcher fl r xr d1 = matcher fl r xr d2) end
      end
  end.
  { apply matcher_forward. intros y Hy. cbn [clear_caps rest] in Hy.
    destruct (Nat.eqb min 0) eqn:E0; cbn [andb].
    - destruct (Nat.eqb (length (rest y)) (length (rest x))) eqn:E1; auto.
      apply Nat.eqb_eq in E0. apply Nat.eqb_neq in E1. rewrite matcher_Rep_def.
      apply repeat_fuel; [apply matcher_forward| |]; simpl; lia.
    - apply Nat.eqb_neq in E0. rewrite matcher_Rep_def.
      apply repeat_fuel; [apply matcher_forward| |]; simpl; lia. }
  rewrite E. reflexivity.
Qed.

Lemma filter_all_true {A} (f : A -> bool) (l : list A) :
  (forall a, f a = true) -> filter f l = l.
Proof.
  intros H. induction l as [|a l IH]; simpl; auto. now rewrite H, IH.
Qed.

Lemma clear_caps_nil p s cs :
  clear_caps [] {| prev := p; rest := s; caps := cs |} = {| prev := p; rest := s; caps := cs |}.
Proof.
  unfold clear_caps. simpl. now rewrite filter_all_true.
Qed.

Section ClassRuns.
Variable fl : flags.
Variable q : char -> bool.
Let qq := class_matches fl q.

Lemma matcher_Class x c :
  matcher fl (Class q) x c =
  match rest x with
  | b :: s => if qq b then c (advance b s x) else None
  | [] => None
  end.
Proof. reflexivity. Qed.

Lemma star_class_step p s cs k :
  matcher fl (star (Class q)) {| prev := p; rest := s; caps := cs |} k =
  match s with
  | b :: s' =>
      if qq b then
        match matcher fl (star (Class q)) {| prev := Some b; rest := s'; caps := cs |} k with
        | Some z => Some z
        | None => k {| prev := p; rest := s; caps := cs |}
        end
      else k {| prev := p; rest := s; caps := cs |}
  | [] => k {| prev := p; rest := s; caps := cs |}
  end.
Proof.
  unfold star at 1. rewrite matcher_Rep. cbn [max_is_zero Nat.eqb negb groups].
  rewrite clear_caps_nil. rewrite matcher_Class. cbn [rest].
  destruct s as [|b s']; auto.
  destruct (qq b); auto.
  cbn [advance rest caps andb length].
  replace (Nat.eqb (length s') (S (length s'))) with false
    by (symmetry; apply Nat.eqb_neq; lia).
  reflexivity.
Qed.

Lemma plus_class_step p s cs k :
  matcher fl (plus (Class q)) {| prev := p; rest := s; caps := cs |} k =
  match s with
  | b :: s' =>
      if qq b then matcher fl (star (Class q)) {| prev := Some b; rest := s'; caps := cs |} k
      else None
  | [] => None
  end.
Proof.
  unfold plus. rewrite matcher_Rep. cbn [max_is_zero Nat.eqb negb groups].
  rewrite clear_caps_nil. rewrite matcher_Class. cbn [rest].
  destruct s as [|b s']; auto.
Qed.

(** When the continuation fails wherever the run could still go on, the
    star takes the whole run. *)
Lemma star_class_commit k :
  (forall p b s cs, qq b = true -> k {| prev := p; rest := b :: s; caps := cs |} = None) ->
  forall s p cs,
    matcher fl (star (Class q)) {| prev := p; rest := s; caps := cs |} k =
    k (state_after qq {| prev := p; rest := s; caps := cs |}).
Proof.
  intros Hk. induction s as [|b s IH]; intros p cs; rewrite star_class_step.
  - reflexivity.
  - unfold state_after. cbn [prev rest caps skip_class].
    destruct (qq b) eqn:E; auto.
    rewrite IH. unfold state_after. cbn [prev rest caps].
    rewrite (Hk p b s cs E).
    destruct (k _); reflexivity.
Qed.

(** The star is greedy: a continuation that accepts the whole run gets it. *)
Lemma star_class_greedy k :
  forall s p cs z,
    k (state_after qq {| prev := p; rest := s; caps := cs |}) = Some z ->
    matcher fl (star (Class q)) {| prev := p; rest := s; caps := cs |} k = Some z.
Proof.
  induction s as [|b s IH]; intros p cs z Hz; rewrite star_class_step.
  - exact Hz.
  - unfold state_after in Hz. cbn [prev rest caps skip_class] in Hz.
    destruct (qq b) eqn:E; auto.
    rewrite (IH (Some b) cs z); auto.
Qed.

End ClassRuns.

(** ** White space runs *)

Import Formatter.

Lemma ws_run_free_cons a t :
  ws_run_free (a :: t) = (negb (isWhiteSpace a && starts_blank t) && ws_run_free t)%bool.
Proof. destruct t; simpl; auto. now rewrite andb_false_r. Qed.

Lemma ws_run_free_suffix a b : ws_run_free (a ++ b) = true -> ws_run_free b = true.
Proof.
  induction a as [|c a IH]; auto.
  simpl app. rewrite ws_run_free_cons. intros H.
  apply andb_true_iff in H as [_ H]. auto.
Qed.

Lemma starts_blank_app a b :
  starts_blank (a ++ b) = match a with [] => starts_blank b | _ => starts_blank a end.
Proof. destruct a; reflexivity. Qed.

Lemma ws_run_free_prefix a b : ws_run_free (a ++ b) = true -> ws_run_free a = true.
Proof.
  induction a as [|c a IH]; auto.
  simpl app. rewrite !ws_run_free_cons. intros H.
  apply andb_true_iff in H as [H1 H2]. rewrite (IH H2), andb_true_r.
  destruct a; simpl in *; auto. now rewrite andb_false_r.
Qed.

Lemma ws_run_free_spec s :
  ws_run_free s = true ->
  forall pre a b post, s = pre ++ a :: b :: post ->
    (isWhiteSpace a && isWhiteSpace b)%bool = false.
Proof.
  intros H pre a b post ->. apply ws_run_free_suffix in H.
  rewrite ws_run_free_cons in H. simpl in H.
  apply andb_true_iff in H as [H _]. now apply negb_true_iff in H.
Qed.

Lemma skip_class_split q p s :
  exists run, s = run ++ snd (skip_class q p s) /\ forallb q run = true.
Proof.
  revert p. induction s as [|c s IH]; intros p; simpl.
  - exists []. auto.
  - destruct (q c) eqn:E.
    + destruct (IH (Some c)) as [run [H1 H2]]. exists (c :: run). simpl.
      rewrite E, H2. split; [congruence|reflexivity].
    + exists []. auto.
Qed.

Lemma skip_class_length q p s : length (snd (skip_class q p s)) <= length s.
Proof.
  destruct (skip_class_split q p s) as [run [H _]].
  rewrite H at 2. rewrite length_app. lia.
Qed.

Lemma skip_class_head q p s :
  match snd (skip_class q p s) with
  | c :: _ => q c = false
  | [] => True
  end.
Proof.
  revert p. induction s as [|c s IH]; intros p; simpl; auto.
  destruct (q c) eqn:E; [apply IH | simpl; exact E].
Qed.

Lemma skip_ws_not_blank p s : starts_blank (snd (skip_class isWhiteSpace p s)) = false.
Proof.
  pose proof (skip_class_head isWhiteSpace p s) as H.
  destruct (snd (skip_class isWhiteSpace p s)); auto.
Qed.

Lemma replace_loop_S re t f p s :
  replace_loop re t (S f) p s =
  let step :=
    match s with
    | [] => []
    | c :: s' => c :: replace_loop re t f (Some c) s'
    end in
  match match_at re p s with
  | Some y =>
      expand t y ++
      (if Nat.ltb (length (rest y)) (length s)
       then replace_loop re t f (prev y) (rest y)
       else step)
  | None => step
  end.
Proof. reflexivity. Qed.

(** [/\s+/g] matches at a white space character, up to the end of its run. *)
Lemma match_spaces p s :
  match_at spaces p s =
  match s with
  | b :: s' =>
      if isWhiteSpace b
      then Some (state_after isWhiteSpace {| prev := Some b; rest := s'; caps := [] |})
      else None
  | [] => None
  end.
Proof.
  unfold match_at, spaces, ws. cbn [source flag].
  rewrite plus_class_step.
  destruct s as [|b s']; auto.
  change (class_matches flags_g isWhiteSpace b) with (isWhiteSpace b).
  destruct (isWhiteSpace b); auto.
  apply star_class_greedy. reflexivity.
Qed.

Lemma collapse_ws_run_free f : forall p s,
  length s < f ->
  ws_run_free (replace_loop spaces space f p s) = true /\
  (starts_blank (replace_loop spaces space f p s) = true -> starts_blank s = true).
Proof.
  induction f as [|f IH]; intros p s Hf; [lia|].
  rewrite replace_loop_S, match_spaces. cbv zeta.
  destruct s as [|b s']; [now auto|].
  destruct (isWhiteSpace b) eqn:Eb.
  - unfold state_after. cbn [prev rest caps].
    pose proof (skip_class_length isWhiteSpace (Some b) s') as Hl.
    replace (Nat.ltb _ _) with true by (symmetry; apply Nat.ltb_lt; simpl; lia).
    destruct (IH (fst (skip_class isWhiteSpace (Some b) s'))
                 (snd (skip_class isWhiteSpace (Some b) s'))) as [H1 H2]; [simpl in Hf; lia|].
    cbn [expand space flat_map str list_ascii_of_string map app].
    rewrite ws_run_free_cons, H1. split; [|simpl; auto].
    rewrite andb_true_r. apply negb_true_iff.
    destruct (starts_blank (replace_loop _ _ _ _ _)) eqn:E; [|apply andb_false_r].
    specialize (H2 eq_refl). now rewrite skip_ws_not_blank in H2.
  - destruct (IH (Some b) s') as [H1 H2]; [simpl in Hf; lia|].
    rewrite ws_run_free_cons, H1, Eb. simpl. rewrite Eb. auto.
Qed.

Lemma matcher_Seq fl r1 r2 x c :
  matcher fl (Seq r1 r2) x c = matcher fl r1 x (fun y => matcher fl r2 y c).
Proof. reflexivity. Qed.

Lemma matcher_Group fl n r x c :
  matcher fl (Group n r) x c = matcher fl r x (fun y => c (set_cap n x y)).
Proof. reflexivity. Qed.

Lemma set_cap_advance n p b s cs :
  set_cap n {| prev := p; rest := b :: s; caps := cs |}
            (advance b s {| prev := p; rest := b :: s; caps := cs |}) =
  {| prev := Some b; rest := s;
     caps := (n, [b]) :: filter (fun kv => negb (Nat.eqb (fst kv) n)) cs |}.
Proof.
  unfold set_cap, advance. cbn [prev rest caps length].
  replace (S (length s) - length s) with 1 by lia. reflexivity.
Qed.

Lemma punct_not_blank c : isWhiteSpace c = true -> one_of ":;{}" c = false.
Proof.
  intros H. unfold one_of. cbn [str list_ascii_of_string map existsb].
  eqb_false. reflexivity.
Qed.

(** [/\s*([:;{}])\s*/g] matches where a run of white space, possibly empty,
    is followed by one of the four characters, and takes the white space
    after it. *)
Lemma match_around p s :
  match_at aroundPunctuation p s =
  match snd (skip_class isWhiteSpace p s) with
  | c :: s2 =>
      if one_of ":;{}" c
      then Some (state_after isWhiteSpace
                   {| prev := Some c; rest := s2; caps := [(1, [c])] |})
      else None
  | [] => None
  end.
Proof.
  unfold match_at, aroundPunctuation, ws. cbn [source flag seqs].
  rewrite matcher_Seq.
  rewrite star_class_commit.
  - unfold state_after. cbn [prev rest caps].
    change (class_matches flags_g isWhiteSpace) with (fun c => isWhiteSpace c).
    change (skip_class (fun c => isWhiteSpace c)) with (skip_class isWhiteSpace).
    rewrite matcher_Seq, matcher_Group, matcher_Class. cbn [rest].
    destruct (snd (skip_class isWhiteSpace p s)) as [|c s2]; auto.
    change (class_matches flags_g (one_of ":;{}") c) with (one_of ":;{}" c).
    destruct (one_of ":;{}" c); auto.
    rewrite set_cap_advance. cbn [filter].
    apply star_class_greedy. reflexivity.
  - intros p' b s' cs Hb.
    rewrite matcher_Seq, matcher_Group, matcher_Class. cbn [rest].
    change (class_matches flags_g (one_of ":;{}") b) with (one_of ":;{}" b).
    change (class_matches flags_g isWhiteSpace b) with (isWhiteSpace b) in Hb.
    now rewrite punct_not_blank.
Qed.

Lemma tighten_ws_run_free f : forall p s,
  length s < f -> ws_run_free s = true ->
  ws_run_free (replace_loop aroundPunctuation [RGroup 1] f p s) = true /\
  (starts_blank (replace_loop aroundPunctuation [RGroup 1] f p s) = true ->
   starts_blank s = true).
Proof.
  induction f as [|f IH]; intros p s Hf Hs; [lia|].
  rewrite replace_loop_S, match_around. cbv zeta.
  assert (Hstep :
    ws_run_free match s with
                | [] => []
                | c :: s' => c :: replace_loop aroundPunctuation [RGroup 1] f (Some c) s'
                end = true /\
    (starts_blank match s with
                  | [] => []
                  | c :: s' => c :: replace_loop aroundPunctuation [RGroup 1] f (Some c) s'
                  end = true -> starts_blank s = true)).
  { destruct s as [|b s']; [now auto|].
    rewrite ws_run_free_cons in Hs. apply andb_true_iff in Hs as [Hb Hs'].
    destruct (IH (Some b) s') as [H1 H2]; [simpl in Hf; lia|assumption|].
    rewrite ws_run_free_cons, H1, andb_true_r. split; [|auto].
    apply negb_true_iff. apply negb_true_iff in Hb.
    destruct (isWhiteSpace b); auto. simpl in *.
    destruct (starts_blank (replace_loop _ _ _ _ _)); auto.
    rewrite <- Hb. symmetry. now apply H2. }
  destruct (skip_class_split isWhiteSpace p s) as [run [Hrun _]].
  pose proof (skip_class_length isWhiteSpace p s) as Hl1.
  destruct (snd (skip_class isWhiteSpace p s)) as [|c s2] eqn:E1; [exact Hstep|].
  destruct (one_of ":;{}" c) eqn:Ec; [|exact Hstep].
  unfold state_after. cbn [prev rest caps].
  pose proof (skip_class_length isWhiteSpace (Some c) s2) as Hl2.
  simpl in Hl1.
  replace (Nat.ltb _ _) with true by (symmetry; apply Nat.ltb_lt; lia).
  cbn [expand flat_map lookup_cap caps Nat.eqb app].
  assert (Hc : isWhiteSpace c = false).
  { destruct (isWhiteSpace c) eqn:E; auto.
    rewrite (punct_not_blank c E) in Ec. discriminate. }
  destruct (skip_class_split isWhiteSpace (Some c) s2) as [run2 [Hrun2 _]].
  destruct (IH (fst (skip_class isWhiteSpace (Some c) s2))
               (snd (skip_class isWhiteSpace (Some c) s2))) as [H1 H2]; [lia| |].
  { rewrite Hrun in Hs. apply ws_run_free_suffix in Hs.
    rewrite ws_run_free_cons in Hs. apply andb_true_iff in Hs as [_ Hs].
    rewrite Hrun2 in Hs. now apply ws_run_free_suffix in Hs. }
  rewrite ws_run_free_cons, H1, Hc. simpl. rewrite Hc. split; [reflexivity|discriminate].
Qed.

(** ** Claims on blank input, trimming and errors *)

Import App.

(** C6: for every language, a text whose trimmed form is empty minifies to
    the empty string without an error, also for JSON, although such a text
    is no JSON text. *)
Theorem minify_blank (lang : Language) (text : jsstring) :
  trim text = [] -> minifyCode text lang = Return [] /\ JSON.parse text = None.
Proof.
  intros H. split; [|now apply parse_blank].
  unfold minifyCode. now rewrite H.
Qed.

Lemma minify_blank_witness :
  trim (str "   ") = [] /\
  minifyCode (str "   ") JSON = Return [] /\ JSON.parse (str "   ") = None.
Proof.
  split; [reflexivity | exact (minify_blank JSON (str "   ") eq_refl)].
Defined.

Lemma isEmpty_false (s : jsstring) : s <> [] -> isEmpty s = false.
Proof. destruct s; [congruence | reflexivity]. Qed.

(** C5: [minifyCode] on JSON throws the SyntaxError exactly when the text is
    not blank and [JSON.parse] rejects it; it does so on ["{not valid json"];
    and no other language throws. *)
Theorem minify_syntax_error :
  (forall text, minifyCode text JSON = Throw SyntaxError <->
                (trim text <> [] /\ JSON.parse text = None))
  /\ minifyCode (str "{not valid json") JSON = Throw SyntaxError
  /\ (forall text lang e, minifyCode text lang = Throw e -> lang = JSON /\ e = SyntaxError).
Proof.
  split; [|split].
  - intros text. unfold minifyCode.
    destruct (trim text) as [|c u] eqn:E; simpl.
    + split; [discriminate | intros [H _]; congruence].
    + destruct (JSON.parse text).
      * split; [discriminate | intros [_ H]; discriminate].
      * split; [intros _; split; [discriminate | reflexivity] | reflexivity].
  - reflexivity.
  - intros text lang e. unfold minifyCode.
    destruct (isEmpty (trim text)); [discriminate|].
    destruct lang; try discriminate.
    destruct (JSON.parse text); [discriminate|].
    intros [= <-]. auto.
Qed.



(** A JavaScript or TypeScript text that is one line comment. *)
Lemma empty_result_line_comment (lang : Language) (st : AppState) :
  lang = JAVASCRIPT \/ lang = TYPESCRIPT ->
  inputCode st = str "// c" -> language st = lang ->
  handleMinify st = setError (Some emptyResult) st.
Proof.
  intros Hl Hi Hg. destruct st as [i o l e n]. cbn [inputCode language] in Hi, Hg.
  subst i l. destruct Hl as [-> | ->]; vm_compute; reflexivity.
Qed.

(** ** CSS minification leaves no run of white space *)

(** C9: the output of [minifyCode] for CSS has no two adjacent white space
    characters. *)
Theorem css_no_whitespace_run (text : jsstring) :
  exists out,
    minifyCode text CSS = Return out /\
    forall pre a b post, out = pre ++ a :: b :: post ->
      (isWhiteSpace a && isWhiteSpace b)%bool = false.
Proof.
  unfold minifyCode. destruct (isEmpty (trim text)).
  - exists []. split; auto. intros pre a b post H. destruct pre; discriminate.
  - eexists. split; [reflexivity|].
    apply ws_run_free_spec.
    set (s1 := replace blockComment [] text).
    destruct (collapse_ws_run_free (S (length s1)) None s1) as [H1 _]; [lia|].
    set (s2 := replace spaces space s1).
    fold (replace spaces space s1) in H1. fold s2 in H1.
    destruct (tighten_ws_run_free (S (length s2)) None s2) as [H2 _]; [lia|exact H1|].
    fold (replace aroundPunctuation [RGroup 1] s2) in H2.
    destruct (trim_decompose (replace aroundPunctuation [RGroup 1] s2))
      as [l [r [E _]]].
    rewrite E in H2. apply ws_run_free_suffix in H2.
    now apply ws_run_free_prefix in H2.
Qed.

Example css_whitespace_collapse :
  minifyCode (str "a   b" ++ [10; 10]%N ++ str " c") CSS = Return (str "a b c").
Proof. vm_compute. reflexivity. Qed.

(** ** Comments of JavaScript and TypeScript *)

Lemma matcher_Alt fl r1 r2 x c :
  matcher fl (Alt r1 r2) x c =
  match matcher fl r1 x c with
  | Some z => Some z
  | None => matcher fl r2 x c
  end.
Proof. reflexivity. Qed.

Lemma matcher_Lit fl a x c :
  matcher fl (Lit a) x c =
  match rest x with
  | b :: s => if lit_matches fl a b then c (advance b s x) else None
  | [] => None
  end.
Proof. reflexivity. Qed.

Lemma matcher_seqs_cons fl r rs x c :
  matcher fl (seqs (r :: rs)) x c = matcher fl r x (fun y => matcher fl (seqs rs) y c).
Proof. destruct rs; reflexivity. Qed.

Lemma matcher_lits fl l : forall x c,
  matcher fl (seqs (map Lit l)) x c =
  match strip_lit fl l x with
  | Some y => c y
  | None => None
  end.
Proof.
  induction l as [|a l IH]; intros x c.
  - reflexivity.
  - cbn [map]. rewrite matcher_seqs_cons, matcher_Lit. cbn [strip_lit].
    destruct (rest x) as [|b s]; auto.
    destruct (lit_matches fl a b); auto.
Qed.

Lemma matcher_lit fl w x c :
  matcher fl (lit w) x c =
  match strip_lit fl (str w) x with
  | Some y => c y
  | None => None
  end.
Proof. apply matcher_lits. Qed.

Lemma lazy_star_class_step fl q p s cs k :
  matcher fl (lazy_star (Class q)) {| prev := p; rest := s; caps := cs |} k =
  match k {| prev := p; rest := s; caps := cs |} with
  | Some z => Some z
  | None =>
      match s with
      | b :: s' =>
          if class_matches fl q b
          then matcher fl (lazy_star (Class q)) {| prev := Some b; rest := s'; caps := cs |} k
          else None
      | [] => None
      end
  end.
Proof.
  unfold lazy_star at 1. rewrite matcher_Rep. cbn [max_is_zero Nat.eqb negb groups].
  rewrite clear_caps_nil.
  destruct (k _); auto.
  cbn [matcher rest].
  destruct s as [|b s']; auto.
  destruct (class_matches fl q b); auto.
  cbn [advance rest caps andb length].
  replace (Nat.eqb (length s') (S (length s'))) with false
    by (symmetry; apply Nat.eqb_neq; lia).
  reflexivity.
Qed.

(** The lazy star over any character hands the continuation each position
    in turn. *)
Lemma lazy_star_any fl k : ignoreCase fl = false ->
  forall s p cs,
    matcher fl (lazy_star any) {| prev := p; rest := s; caps := cs |} k =
    first_accepted k p s cs.
Proof.
  intros Hfl. induction s as [|b s IH]; intros p cs; unfold any;
    rewrite lazy_star_class_step; cbn [first_accepted].
  - reflexivity.
  - destruct (k _); auto.
    unfold class_matches. rewrite Hfl. apply IH.
Qed.

Lemma close_accepted p s cs :
  first_accepted (fun y => matcher flags_gm (lit "*/") y Some) p s cs =
  option_map (fun r => {| prev := Some 47%N; rest := r; caps := cs |}) (after_close s).
Proof.
  revert p. induction s as [|a s IH]; intros p; cbn [first_accepted after_close].
  - reflexivity.
  - rewrite matcher_lit. cbn [str list_ascii_of_string map strip_lit rest advance caps].
    change (lit_matches flags_gm (N_of_ascii "*") a) with (N.eqb 42 a).
    destruct s as [|b r].
    + destruct (N.eqb 42 a); reflexivity.
    + change (lit_matches flags_gm (N_of_ascii "/") b) with (N.eqb 47 b).
      rewrite (N.eqb_sym a 42), (N.eqb_sym b 47).
      destruct (N.eqb_spec 42 a) as [<-|Ha]; cbn [andb].
      * destruct (N.eqb_spec 47 b) as [<-|Hb]; [reflexivity | apply IH].
      * apply IH.
Qed.

Lemma block_match p s cs :
  matcher flags_gm (seqs [lit "/*"; lazy_star any; lit "*/"])
    {| prev := p; rest := s; caps := cs |} Some =
  match s with
  | a :: b :: s1 =>
      if (N.eqb a 47 && N.eqb b 42)%bool
      then option_map (fun r => {| prev := Some 47%N; rest := r; caps := cs |})
             (after_close s1)
      else None
  | _ => None
  end.
Proof.
  cbn [seqs]. rewrite matcher_Seq, matcher_lit.
  cbn [str list_ascii_of_string map strip_lit rest advance caps].
  destruct s as [|a [|b s1]].
  - reflexivity.
  - change (lit_matches flags_gm (N_of_ascii "/") a) with (N.eqb 47 a).
    destruct (N.eqb 47 a); reflexivity.
  - change (lit_matches flags_gm (N_of_ascii "/") a) with (N.eqb 47 a).
    change (lit_matches flags_gm (N_of_ascii "*") b) with (N.eqb 42 b).
    rewrite (N.eqb_sym a 47), (N.eqb_sym b 42).
    destruct (N.eqb 47 a); cbn [andb]; auto.
    destruct (N.eqb 42 b); auto.
    unfold advance. cbn [caps].
    rewrite matcher_Seq, lazy_star_any by reflexivity.
    apply close_accepted.
Qed.

Lemma at_eol_after p s cs :
  at_eol flags_gm (state_after not_terminator {| prev := p; rest := s; caps := cs |}) = true.
Proof.
  unfold at_eol, state_after. cbn [rest prev multiline flags_gm andb].
  pose proof (skip_class_head not_terminator p s) as H.
  destruct (snd (skip_class not_terminator p s)); auto.
  unfold not_terminator in H. now apply negb_false_iff in H.
Qed.

Lemma line_tail_match p s cs :
  matcher flags_gm (seqs [lit "//"; star dot; Eol])
    {| prev := p; rest := s; caps := cs |} Some =
  match s with
  | c :: d :: s2 =>
      if (N.eqb c 47 && N.eqb d 47)%bool
      then Some (state_after not_terminator {| prev := Some d; rest := s2; caps := cs |})
      else None
  | _ => None
  end.
Proof.
  cbn [seqs]. rewrite matcher_Seq, matcher_lit.
  cbn [str list_ascii_of_string map strip_lit rest advance caps].
  destruct s as [|c [|d s2]].
  - reflexivity.
  - change (lit_matches flags_gm (N_of_ascii "/") c) with (N.eqb 47 c).
    destruct (N.eqb 47 c); reflexivity.
  - change (lit_matches flags_gm (N_of_ascii "/") c) with (N.eqb 47 c).
    change (lit_matches flags_gm (N_of_ascii "/") d) with (N.eqb 47 d).
    rewrite (N.eqb_sym c 47), (N.eqb_sym d 47).
    destruct (N.eqb 47 c); cbn [andb]; auto.
    destruct (N.eqb 47 d); auto.
    unfold advance. cbn [caps].
    rewrite matcher_Seq. unfold dot.
    apply star_class_greedy.
    change (class_matches flags_gm (fun c0 : char => negb (isLineTerminator c0)))
      with not_terminator.
    cbn [matcher]. now rewrite at_eol_after.
Qed.

(** What [jsComment] matches at a position. *)
Lemma jsComment_spec p s :
  match comment_at p s with
  | Some (kept, r) =>
      exists z, match_at jsComment p s = Some z /\
                expand [RGroup 1] z = kept /\ rest z = r
  | None => match_at jsComment p s = None
  end.
Proof.
  unfold match_at, jsComment. cbn [source flag].
  rewrite matcher_Alt, block_match.
  unfold comment_at.
  set (block := match s with
                | a :: b :: s1 =>
                    if (N.eqb a 47 && N.eqb b 42)%bool then after_close s1 else None
                | _ => None
                end).
  assert (Hb : match s with
               | a :: b :: s1 =>
                   if (N.eqb a 47 && N.eqb b 42)%bool
                   then option_map (fun r => {| prev := Some 47%N; rest := r; caps := [] |})
                          (after_close s1)
                   else None
               | _ => None
               end
               = option_map (fun r => {| prev := Some 47%N; rest := r; caps := [] |}) block).
  { subst block. destruct s as [|a [|b s1]]; auto.
    destruct (N.eqb a 47 && N.eqb b 42)%bool; auto. }
  rewrite Hb. clear Hb.
  destruct block as [r|]; cbn [option_map].
  { eexists. split; [reflexivity|]. split; reflexivity. }
  rewrite matcher_seqs_cons, matcher_Group, matcher_Alt, matcher_Class.
  cbn [rest].
  change (class_matches flags_gm notBackslashColon) with notBackslashColon.
  assert (Hbol :
    matcher flags_gm Bol {| prev := p; rest := s; caps := [] |}
      (fun y => matcher flags_gm (seqs [lit "//"; star dot; Eol])
                  (set_cap 1 {| prev := p; rest := s; caps := [] |} y) Some) =
    match s with
    | c :: d :: s2 =>
        if (match p with None => true | Some c0 => isLineTerminator c0 end
            && (N.eqb c 47 && N.eqb d 47))%bool
        then Some (state_after not_terminator
                     {| prev := Some d; rest := s2; caps := [(1, [])] |})
        else None
    | _ => None
    end).
  { cbn [matcher]. unfold at_bol. cbn [prev multiline flags_gm andb].
    destruct (match p with None => true | Some c0 => isLineTerminator c0 end) eqn:Ep.
    - unfold set_cap. cbn [prev rest caps filter]. rewrite Nat.sub_diag. cbn [firstn].
      rewrite line_tail_match. destruct s as [|c [|d s2]]; reflexivity.
    - destruct s as [|c [|d s2]]; reflexivity. }
  destruct s as [|b s1].
  { rewrite Hbol. reflexivity. }
  destruct (notBackslashColon b) eqn:Enb; cbn [andb].
  - rewrite set_cap_advance. cbn [filter]. rewrite line_tail_match.
    destruct s1 as [|c [|d s2]].
    + rewrite Hbol. reflexivity.
    + rewrite Hbol. destruct (_ && _)%bool; [eexists; repeat split|reflexivity].
    + destruct (N.eqb c 47 && N.eqb d 47)%bool.
      * eexists. split; [reflexivity|]. split; reflexivity.
      * rewrite Hbol. destruct (_ && _)%bool; [eexists; repeat split|reflexivity].
  - rewrite Hbol. destruct s1 as [|c [|d s2]].
    + reflexivity.
    + destruct (_ && _)%bool; [eexists; repeat split|reflexivity].
    + destruct (_ && _)%bool; [eexists; repeat split|reflexivity].
Qed.

(** ** Markup detection *)

Lemma last_read_cons p b u : last_read p (b :: u) = last_read (Some b) u.
Proof.
  unfold last_read. simpl. destruct (rev u) as [|c l] eqn:E; reflexivity.
Qed.

Lemma strip_lit_sound fl l : forall p s cs y,
  strip_lit fl l {| prev := p; rest := s; caps := cs |} = Some y ->
  exists u, s = u ++ rest y /\ map (canonicalize fl) u = map (canonicalize fl) l /\
            y = {| prev := last_read p u; rest := rest y; caps := cs |}.
Proof.
  induction l as [|a l IH]; intros p s cs y H; cbn [strip_lit rest] in H.
  - injection H as <-. exists []. auto.
  - destruct s as [|b s']; [discriminate|].
    destruct (lit_matches fl a b) eqn:E; [|discriminate].
    apply IH in H as [u [H1 [H2 H3]]].
    exists (b :: u). rewrite last_read_cons. simpl. rewrite H2.
    apply N.eqb_eq in E. rewrite E. repeat split; auto. congruence.
Qed.

Lemma strip_lit_complete fl l : forall u p r cs,
  map (canonicalize fl) u = map (canonicalize fl) l ->
  strip_lit fl l {| prev := p; rest := u ++ r; caps := cs |} =
  Some {| prev := last_read p u; rest := r; caps := cs |}.
Proof.
  induction l as [|a l IH]; intros u p r cs H.
  - destruct u; [reflexivity | discriminate].
  - destruct u as [|b u]; [discriminate|].
    injection H as H1 H2. cbn [strip_lit rest app].
    unfold lit_matches. rewrite H1, N.eqb_refl.
    unfold advance. cbn [caps]. rewrite last_read_cons. now apply IH.
Qed.

Lemma canonicalize_i c : canonicalize flags_i c = upper_ascii c.
Proof. reflexivity. Qed.

Lemma map_canonicalize_i u : map (canonicalize flags_i) u = map upper_ascii u.
Proof. reflexivity. Qed.

(** Under the i flag [\s] still matches the white space characters only. *)
Lemma ws_ignoring_case c : class_matches flags_i isWhiteSpace c = isWhiteSpace c.
Proof.
  unfold class_matches, canonicalize, lowerCase. cbn [ignoreCase flags_i].
  destruct (isWhiteSpace c) eqn:E; [reflexivity|].
  destruct (in_range 97%N 122%N c) eqn:E1; destruct (in_range 65%N 90%N c) eqn:E2;
    rewrite ?E; cbn [orb];
    repeat match goal with
    | |- (?a || ?b)%bool = false => apply orb_false_iff; split
    end; try reflexivity; char_lia.
Qed.

Lemma exec_from_anchored r fl : multiline fl = false ->
  forall s c, exec_from {| source := Seq Bol r; flag := fl |} (Some c) s = None.
Proof.
  intros Hfl. induction s as [|b s IH]; intros c; cbn [exec_from];
    unfold match_at; cbn [source flag matcher]; unfold at_bol; cbn [prev];
    rewrite Hfl; cbn [andb]; auto.
Qed.

Lemma test_anchored r fl s : multiline fl = false ->
  test {| source := Seq Bol r; flag := fl |} s =
  match matcher fl r {| prev := None; rest := s; caps := [] |} Some with
  | Some _ => true
  | None => false
  end.
Proof.
  intros Hfl. unfold test. destruct s as [|c s]; cbn [exec_from];
    unfold match_at; cbn [source flag]; rewrite matcher_Seq; cbn [matcher at_bol prev].
  - destruct (matcher fl r _ _); reflexivity.
  - destruct (matcher fl r _ _); [reflexivity|].
    now rewrite exec_from_anchored.
Qed.

Lemma xmlDeclaration_spec s :
  test xmlDeclaration s = true <-> begins_xml_declaration s.
Proof.
  unfold xmlDeclaration. cbn [seqs]. rewrite test_anchored by reflexivity.
  rewrite matcher_Seq, matcher_lit. unfold begins_xml_declaration, same_ignoring_case.
  split.
  - destruct (strip_lit flags_i (str "<?xml") _) as [y|] eqn:E; [|discriminate].
    apply strip_lit_sound in E as [u [H1 [H2 H3]]].
    unfold ws. rewrite matcher_Class.
    destruct (rest y) as [|b r] eqn:Er; [discriminate|].
    rewrite ws_ignoring_case.
    destruct (isWhiteSpace b) eqn:Eb; [|discriminate].
    intros _. exists u, b, r. auto.
  - intros [u [c [r [-> [H1 H2]]]]].
    rewrite (strip_lit_complete flags_i (str "<?xml") u None (c :: r) []) by exact H1.
    unfold ws. rewrite matcher_Class. cbn [rest].
    now rewrite ws_ignoring_case, H2.
Qed.

Lemma skip_class_ext q q' : (forall c, q c = q' c) ->
  forall s p, skip_class q p s = skip_class q' p s.
Proof.
  intros H. induction s as [|c s IH]; intros p; simpl; auto.
  rewrite <- H. destruct (q c); auto.
Qed.

Lemma skip_class_run q : forall run p t,
  forallb q run = true -> match t with c :: _ => q c = false | [] => True end ->
  skip_class q p (run ++ t) = (last_read p run, t).
Proof.
  induction run as [|b run IH]; intros p t Hr Ht.
  - simpl. destruct t as [|c t]; auto. simpl. now rewrite Ht.
  - simpl in Hr. apply andb_true_iff in Hr as [Hb Hr].
    simpl. rewrite Hb, last_read_cons. now apply IH.
Qed.

Lemma h_not_blank b : isWhiteSpace b = true -> lit_matches flags_i (ch "h") b = false.
Proof.
  intros H. unfold lit_matches.
  change (canonicalize flags_i (ch "h")) with 72%N.
  unfold canonicalize. cbn [ignoreCase flags_i].
  destruct (in_range 97%N 122%N b) eqn:E; apply N.eqb_neq; char_lia.
Qed.

Lemma h_blank_free b : upper_ascii b = upper_ascii (ch "h") -> isWhiteSpace b = false.
Proof.
  change (upper_ascii (ch "h")) with 72%N.
  unfold upper_ascii. intros H.
  destruct (isWhiteSpace b) eqn:E; auto. exfalso.
  destruct (in_range 97%N 122%N b) eqn:E1; char_lia.
Qed.

Lemma forallb_pointwise (q q' : char -> bool) (l : jsstring) :
  (forall c, q c = q' c) -> forallb q l = forallb q' l.
Proof.
  intros H. induction l as [|c l IH]; simpl; auto. now rewrite H, IH.
Qed.

Lemma doctypeHtml_spec s :
  test doctypeHtml s = true <-> begins_html_doctype s.
Proof.
  unfold doctypeHtml. cbn [seqs]. rewrite test_anchored by reflexivity.
  rewrite matcher_Seq, matcher_lit. unfold begins_html_doctype, same_ignoring_case.
  assert (Hk : forall p b s0 cs, class_matches flags_i isWhiteSpace b = true ->
             (fun z => matcher flags_i (lit "html") z Some)
               {| prev := p; rest := b :: s0; caps := cs |} = None).
  { intros p b s0 cs Hb. cbv beta. rewrite matcher_lit.
    cbn [str list_ascii_of_string map strip_lit rest].
    rewrite ws_ignoring_case in Hb.
    change (N_of_ascii "h") with (ch "h"). now rewrite h_not_blank. }
  split.
  - destruct (strip_lit flags_i (str "<!doctype") _) as [y|] eqn:E; [|discriminate].
    apply strip_lit_sound in E as [u [H1 [H2 H3]]]. rewrite H3.
    rewrite matcher_Seq. unfold ws. rewrite plus_class_step.
    destruct (rest y) as [|b s'] eqn:Er; [discriminate|].
    destruct (class_matches flags_i isWhiteSpace b) eqn:Eb; [|discriminate].
    rewrite star_class_commit by exact Hk.
    rewrite matcher_lit.
    destruct (strip_lit flags_i (str "html") _) as [z|] eqn:Ez; [|discriminate].
    intros _. unfold state_after in Ez. cbn [prev rest caps] in Ez.
    apply strip_lit_sound in Ez as [h [H4 [H5 H6]]].
    destruct (skip_class_split (class_matches flags_i isWhiteSpace) (Some b) s')
      as [run [H7 H8]].
    exists u, (b :: run), h, (rest z). repeat split; auto.
    + rewrite H1. simpl. rewrite <- H4, <- H7. reflexivity.
    + discriminate.
    + simpl. rewrite <- ws_ignoring_case, Eb. simpl.
      rewrite <- (forallb_pointwise _ _ run ws_ignoring_case). exact H8.
  - intros [u [w [h [r [-> [H1 [H2 [H3 H4]]]]]]]].
    rewrite (strip_lit_complete flags_i (str "<!doctype") u None (w ++ h ++ r) [])
      by exact H1.
    rewrite matcher_Seq. unfold ws. rewrite plus_class_step.
    destruct w as [|b w']; [congruence|]. cbn [app].
    simpl in H3. apply andb_true_iff in H3 as [Hb Hw].
    rewrite ws_ignoring_case, Hb.
    rewrite star_class_commit by exact Hk.
    unfold state_after. cbn [prev rest caps].
    rewrite (skip_class_ext _ isWhiteSpace ws_ignoring_case).
    rewrite skip_class_run; auto.
    + cbn [fst snd]. rewrite matcher_lit.
      now rewrite (strip_lit_complete flags_i (str "html") h _ r []) by exact H4.
    + destruct h as [|h0 h']; [discriminate H4|]. simpl.
      injection H4 as H4 _. now apply h_blank_free.
Qed.

(** ** TypeScript and the CSS test *)

(** C2: on ["interface Foo { x: number }"] the TypeScript signals match, but
    the CSS test comes first in the cascade and its loose block pattern
    matches while the guard against script text, which lists [class] but no
    TypeScript keyword, does not; the text is classified as CSS. *)
Theorem detect_interface_is_css :
  let t := str "interface Foo { x: number }" in
  detectLanguage t = CSS /\
  test tsKeywords (trim t) = true /\ test tsTypeAnnotation (trim t) = true /\
  test cssRuleBlock (trim t) = false /\ test cssLooseBlock (trim t) = true /\
  test isJsLikePattern (trim t) = false /\ test quotedColon (trim t) = false.
Proof. vm_compute. repeat split. Qed.

Lemma detect_interface_not_typescript :
  detectLanguage (str "interface Foo { x: number }") <> TYPESCRIPT.
Proof. vm_compute. discriminate. Qed.

(** Without the braces the same signals decide. *)
Example detect_interface_without_block :
  detectLanguage (str "interface Foo") = TYPESCRIPT /\
  detectLanguage (str "function foo() { return 1; }") = JAVASCRIPT.
Proof. vm_compute. auto. Qed.

(** ** Numbers: conversion to binary64 and back *)

Section Numbers.
Import Number.
Local Open Scope Z_scope.
Local Open Scope list_scope.

Lemma pow2_pos k : 0 < pow2 k.
Proof. unfold pow2. apply Z.pow_pos_nonneg; lia. Qed.

Lemma pow10_pos k : 0 < pow10 k.
Proof. unfold pow10. apply Z.pow_pos_nonneg; lia. Qed.

Lemma pow2_nonneg k : 0 <= k -> pow2 k = 2 ^ k /\ pow2 (- k) = 1.
Proof.
  intros H. unfold pow2. rewrite Z.max_r by lia.
  rewrite Z.max_l by lia. auto.
Qed.

Lemma pow2_neg k : k <= 0 -> pow2 k = 1 /\ pow2 (- k) = 2 ^ (- k).
Proof.
  intros H. unfold pow2. rewrite Z.max_l by lia.
  rewrite Z.max_r by lia. auto.
Qed.

(** [2^k <= p/q] with every exponent made non-negative. *)
Lemma le2_uniform p q k B :
  Z.abs k <= B -> (le2 p q k <-> q * 2 ^ (B + k) <= p * 2 ^ B).
Proof.
  intros HB. unfold le2.
  destruct (Z.le_ge_cases 0 k) as [Hk | Hk].
  - destruct (pow2_nonneg k Hk) as [-> ->].
    rewrite Z.pow_add_r by lia.
    assert (0 < 2 ^ B) by (apply Z.pow_pos_nonneg; lia).
    split; intros H1; nia.
  - destruct (pow2_neg k Hk) as [-> ->].
    replace B with ((B + k) + (- k)) at 2 by lia.
    rewrite (Z.pow_add_r 2 (B + k) (- k)) by lia.
    assert (0 < 2 ^ (B + k)) by (apply Z.pow_pos_nonneg; lia).
    split; intros H1; nia.
Qed.

Lemma le2_mono p q a b : 0 < q -> b <= a -> le2 p q a -> le2 p q b.
Proof.
  intros Hq Hab H.
  set (B := Z.abs a + Z.abs b).
  apply (le2_uniform p q a B) in H; [|lia].
  apply (le2_uniform p q b B); [lia|].
  replace (B + a) with ((B + b) + (a - b)) in H by lia.
  rewrite Z.pow_add_r in H by lia.
  assert (1 <= 2 ^ (a - b)) by (apply Z.pow_le_mono_r with (b := 0) (c := a - b) (a := 2); lia).
  assert (0 < 2 ^ (B + b)) by (apply Z.pow_pos_nonneg; lia).
  nia.
Qed.

(** Shifting the fraction by the scale chosen for an exponent. *)
Lemma le2_shift p q e k :
  le2 (p * pow2 (- e)) (q * pow2 e) k <-> le2 p q (k + e).
Proof.
  set (B := Z.abs k + Z.abs e + Z.abs (k + e)).
  rewrite (le2_uniform _ _ k B) by lia.
  rewrite (le2_uniform _ _ (k + e) B) by lia.
  assert (0 < 2 ^ B) by (apply Z.pow_pos_nonneg; lia).
  destruct (Z.le_ge_cases 0 e) as [He | He].
  - destruct (pow2_nonneg e He) as [-> ->].
    replace (B + (k + e)) with ((B + k) + e) by lia.
    rewrite (Z.pow_add_r 2 (B + k) e) by lia.
    split; intros H1; nia.
  - destruct (pow2_neg e He) as [-> ->].
    replace (B + k) with ((B + (k + e)) + (- e)) by lia.
    rewrite (Z.pow_add_r 2 (B + (k + e)) (- e)) by lia.
    assert (0 < 2 ^ (- e)) by (apply Z.pow_pos_nonneg; lia).
    split; intros H1; nia.
Qed.

Lemma floor_log2_spec p q :
  0 < p -> 0 < q ->
  le2 p q (floor_log2 p q) /\ ~ le2 p q (floor_log2 p q + 1).
Proof.
  intros Hp Hq. unfold floor_log2.
  pose proof (Z.log2_spec p Hp) as [Hp1 Hp2].
  pose proof (Z.log2_spec q Hq) as [Hq1 Hq2].
  pose proof (Z.log2_nonneg p) as Hlp. pose proof (Z.log2_nonneg q) as Hlq.
  set (lp := Z.log2 p) in *. set (lq := Z.log2 q) in *.
  set (d := lp - lq).
  set (B := Z.abs d + 2 + lp + lq).
  assert (HB : 0 < 2 ^ B) by (apply Z.pow_pos_nonneg; lia).
  destruct (Z.leb_spec (q * pow2 d) (p * pow2 (- d))) as [Ht | Ht].
  - split; [exact Ht|].
    rewrite (le2_uniform p q (d + 1) B) by lia.
    (* p < 2^(lp+1) and 2^lq <= q *)
    assert (E : 2 ^ Z.succ lp * 2 ^ B = 2 ^ lq * 2 ^ (B + (d + 1))).
    { rewrite <- !Z.pow_add_r by lia. f_equal. lia. }
    assert (0 < 2 ^ (B + (d + 1))) by (apply Z.pow_pos_nonneg; lia).
    nia.
  - assert (Hn : ~ le2 p q d) by (unfold le2; lia).
    replace (d - 1 + 1) with d by lia. split; [|exact Hn].
    rewrite (le2_uniform p q (d - 1) B) by lia.
    assert (E : 2 ^ Z.succ lq * 2 ^ (B + (d - 1)) = 2 ^ lp * 2 ^ B).
    { rewrite <- !Z.pow_add_r by lia. f_equal. lia. }
    assert (0 < 2 ^ (B + (d - 1))) by (apply Z.pow_pos_nonneg; lia).
    nia.
Qed.

Lemma floor_log2_unique p q k :
  0 < p -> 0 < q -> le2 p q k -> ~ le2 p q (k + 1) -> floor_log2 p q = k.
Proof.
  intros Hp Hq H1 H2.
  destruct (floor_log2_spec p q Hp Hq) as [H3 H4].
  destruct (Z.lt_trichotomy (floor_log2 p q) k) as [H | [H | H]]; auto.
  - exfalso. apply H4. apply (le2_mono p q k); auto; lia.
  - exfalso. apply H2. apply (le2_mono p q (floor_log2 p q)); auto; lia.
Qed.

Lemma to_double_sign neg p q : to_double neg p q = with_sign neg (to_double false p q).
Proof.
  unfold to_double. destruct (p =? 0); [reflexivity|]. cbv zeta.
  destruct (emax <? _); reflexivity.
Qed.

Lemma round_half_even_bounds P Q :
  P / Q <= round_half_even P Q <= P / Q + 1.
Proof.
  unfold round_half_even.
  destruct (2 * (P mod Q) <? Q); [lia|].
  destruct (Q <? 2 * (P mod Q)); [lia|].
  destruct (Z.even (P / Q)); lia.
Qed.

Lemma round_half_even_exact m Q : 0 < Q -> round_half_even (m * Q) Q = m.
Proof.
  intros HQ. unfold round_half_even.
  rewrite Z.mod_mul by lia. rewrite Z.div_mul by lia.
  destruct (Z.ltb_spec (2 * 0) Q); [reflexivity | lia].
Qed.

Lemma to_double_wf neg p q : 0 <= p -> 0 < q -> wf_number (to_double neg p q).
Proof.
  intros Hp Hq. unfold to_double.
  destruct (Z.eqb_spec p 0) as [->|Hp0]; [simpl; auto|]. cbv zeta.
  assert (Hp' : 0 < p) by lia.
  destruct (floor_log2_spec p q Hp' Hq) as [H1 H2].
  set (L := floor_log2 p q) in *.
  set (E := Z.max emin (L - 52)).
  set (P := p * pow2 (- E)). set (Q := q * pow2 E).
  assert (HQ : 0 < Q) by (pose proof (pow2_pos E); unfold Q; nia).
  assert (HP : 0 <= P) by (pose proof (pow2_pos (- E)); unfold P; nia).
  pose proof (round_half_even_bounds P Q) as Hm.
  set (m := round_half_even P Q) in *.
  assert (Hlo : 0 <= P / Q) by (apply Z.div_pos; lia).
  assert (Hup : P / Q < 2 ^ 53).
  { apply Z.div_lt_upper_bound; [lia|].
    assert (Hn : ~ le2 P Q 53).
    { unfold P, Q. rewrite le2_shift. intros Hc. apply H2.
      apply (le2_mono p q (53 + E)); auto. unfold E. lia. }
    unfold le2 in Hn. destruct (pow2_nonneg 53) as [E1 E2]; [lia|].
    rewrite E1, E2 in Hn. lia. }
  assert (Hcase : (E = L - 52 /\ 2 ^ 52 <= P / Q) \/ (E = emin /\ P / Q < 2 ^ 52)).
  { destruct (Z.le_gt_cases emin (L - 52)) as [Hc | Hc].
    - left. split; [unfold E; lia|].
      apply Z.div_le_lower_bound; [lia|].
      assert (Hl : le2 P Q 52).
      { unfold P, Q. rewrite le2_shift. replace (52 + E) with L by (unfold E; lia).
        exact H1. }
      unfold le2 in Hl. destruct (pow2_nonneg 52) as [E1 E2]; [lia|].
      rewrite E1, E2 in Hl. lia.
    - right. split; [unfold E; lia|].
      apply Z.div_lt_upper_bound; [lia|].
      assert (Hn : ~ le2 P Q 52).
      { unfold P, Q. rewrite le2_shift. intros Hc'. apply H2.
        apply (le2_mono p q (52 + E)); auto. unfold E. lia. }
      unfold le2 in Hn. destruct (pow2_nonneg 52) as [E1 E2]; [lia|].
      rewrite E1, E2 in Hn. lia. }
  assert (HE : emin <= E) by (unfold E; lia).
  destruct (Z.eqb_spec m (2 ^ 53)) as [Hm53 | Hm53].
  - destruct (Z.ltb_spec emax (E + 1)); simpl; auto.
    right. unfold emin, emax in *. lia.
  - destruct (Z.ltb_spec emax E); simpl; auto.
    destruct (Z.eq_dec m 0) as [Hm0 | Hm0].
    + left. split; auto. destruct Hcase as [[_ Hc] | [Hc _]]; auto. lia.
    + right. destruct Hcase as [[Hc1 Hc2] | [Hc1 Hc2]]; unfold emin, emax in *; lia.
Qed.

Lemma to_double_exact m e p q :
  0 < m -> wf_number (Finite false m e) -> 0 < p -> 0 < q ->
  p * pow2 (- e) = m * (q * pow2 e) ->
  to_double false p q = Finite false m e.
Proof.
  intros Hm Hwf Hp Hq Heq. simpl in Hwf.
  destruct Hwf as [[Hz _] | [Hm1 [He Hn]]]; [lia|].
  unfold to_double. destruct (Z.eqb_spec p 0); [lia|]. cbv zeta.
  set (Q := q * pow2 e) in *.
  assert (HQ : 0 < Q) by (pose proof (pow2_pos e); unfold Q; nia).
  pose proof (Z.log2_spec m Hm) as [Ha1 Ha2].
  pose proof (Z.log2_nonneg m) as Ha0.
  set (a := Z.log2 m) in *.
  assert (HL : floor_log2 p q = a + e).
  { apply floor_log2_unique; auto.
    - apply (proj1 (le2_shift p q e a)). rewrite Heq. unfold le2.
      destruct (pow2_nonneg a Ha0) as [-> ->]. nia.
    - intros Hc. replace (a + e + 1) with ((a + 1) + e) in Hc by lia.
      apply (proj2 (le2_shift p q e (a + 1))) in Hc. rewrite Heq in Hc. unfold le2 in Hc.
      destruct (pow2_nonneg (a + 1)) as [E1 E2]; [lia|]. rewrite E1, E2 in Hc.
      replace (a + 1) with (Z.succ a) in Hc by lia. nia. }
  rewrite HL.
  assert (Ha53 : a < 53).
  { apply (Z.pow_lt_mono_r_iff 2); lia. }
  assert (HE : Z.max emin (a + e - 52) = e).
  { destruct Hn as [Hn | Hn].
    - assert (52 <= a) by (apply Z.log2_le_pow2; lia). lia.
    - lia. }
  rewrite HE. rewrite Heq. fold Q. rewrite round_half_even_exact by exact HQ.
  destruct (Z.eqb_spec m (2 ^ 53)); [lia|].
  destruct (Z.ltb_spec emax e); [lia | reflexivity].
Qed.

Lemma number_eqb_eq x y : number_eqb x y = true -> x = y.
Proof.
  destruct x as [s m e | s], y as [s' m' e' | s']; simpl; try discriminate.
  - intros H. apply andb_true_iff in H as [H H3]. apply andb_true_iff in H as [H1 H2].
    apply Bool.eqb_prop in H1. apply Z.eqb_eq in H2, H3. congruence.
  - intros H. apply Bool.eqb_prop in H. congruence.
Qed.

Lemma number_eqb_refl x : number_eqb x x = true.
Proof.
  destruct x as [s m e | s]; simpl.
  - now rewrite Bool.eqb_reflx, !Z.eqb_refl.
  - apply Bool.eqb_reflx.
Qed.

Lemma candidate_ok m e q s :
  candidate m e q = Some s -> 0 < s /\ of_decimal false s q = Finite false m e.
Proof.
  unfold candidate. cbv zeta.
  repeat match goal with
  | |- context [if ?b then _ else _] => destruct b eqn:?
  end; try discriminate; intros [= <-];
  match goal with
  | H : (_ && _)%bool = true |- _ =>
      apply andb_true_iff in H as [H1 H2];
      apply Z.ltb_lt in H1; apply number_eqb_eq in H2; now auto
  end.
Qed.

Lemma pow10_split k : 0 <= k -> 10 ^ k = 2 ^ k * 5 ^ k.
Proof. intros H. rewrite <- Z.pow_mul_l. reflexivity. Qed.

(** At the exponent where the value is an integer multiple of the grid, the
    value itself is a candidate. *)
Lemma candidate_exact m e :
  0 < m -> wf_number (Finite false m e) -> candidate m e (Z.min 0 e) <> None.
Proof.
  intros Hm Hwf. unfold candidate. cbv zeta.
  set (q := Z.min 0 e).
  destruct (Z.le_ge_cases 0 e) as [He | He].
  - assert (Eq : q = 0) by (unfold q; lia). rewrite Eq.
    destruct (pow2_nonneg e He) as [E1 E2]. rewrite E1, E2.
    change (pow10 (- 0)) with 1. change (pow10 0) with 1.
    replace (m * 2 ^ e * 1) with (m * 2 ^ e) by lia.
    assert (0 < 2 ^ e) by (apply Z.pow_pos_nonneg; lia).
    rewrite Z.mod_1_r, Z.div_1_r. cbn [Z.eqb].
    assert (Hok : of_decimal false (m * 2 ^ e) 0 = Finite false m e).
    { unfold of_decimal. change (pow10 (- 0)) with 1. change (pow10 0) with 1.
      apply to_double_exact; auto; try nia; try (rewrite E1, E2; lia). }
    rewrite Hok, number_eqb_refl.
    destruct (Z.ltb_spec 0 (m * 2 ^ e)); [discriminate | nia].
  - assert (Eq : q = e) by (unfold q; lia). rewrite Eq.
    destruct (pow2_neg e He) as [E1 E2]. rewrite E1, E2.
    unfold pow10. rewrite (Z.max_r 0 (- e)) by lia. rewrite (Z.max_l 0 e) by lia.
    change (10 ^ 0) with 1.
    rewrite (pow10_split (- e)) by lia.
    assert (H2 : 0 < 2 ^ (- e)) by (apply Z.pow_pos_nonneg; lia).
    assert (H5 : 0 < 5 ^ (- e)) by (apply Z.pow_pos_nonneg; lia).
    replace (m * 1 * (2 ^ (- e) * 5 ^ (- e))) with ((m * 5 ^ (- e)) * (2 ^ (- e) * 1)) by lia.
    rewrite Z.mod_mul by lia. rewrite Z.div_mul by lia. cbn [Z.eqb].
    assert (Hok : of_decimal false (m * 5 ^ (- e)) e = Finite false m e).
    { unfold of_decimal, pow10. rewrite (Z.max_l 0 e) by lia.
      rewrite (Z.max_r 0 (- e)) by lia. change (10 ^ 0) with 1.
      apply to_double_exact; auto; try nia;
        try (apply Z.pow_pos_nonneg; lia);
        try (rewrite E1, E2; rewrite (pow10_split (- e)) by lia; lia). }
    rewrite Hok, number_eqb_refl.
    destruct (Z.ltb_spec 0 (m * 5 ^ (- e))); [discriminate | nia].
Qed.

Lemma shortest_finds m e q1 : candidate m e q1 <> None ->
  forall fuel q, q - Z.of_nat fuel < q1 <= q -> shortest m e fuel q <> None.
Proof.
  intros Hc. induction fuel as [|fuel IH]; intros q Hq; [lia|].
  cbn [shortest]. destruct (candidate m e q) eqn:E; [discriminate|].
  apply IH. assert (q <> q1) by congruence. lia.
Qed.

Lemma shortest_sound m e : forall fuel q s q',
  shortest m e fuel q = Some (s, q') ->
  0 < s /\ of_decimal false s q' = Finite false m e.
Proof.
  induction fuel as [|fuel IH]; intros q s q' H; [discriminate|].
  cbn [shortest] in H. destruct (candidate m e q) eqn:E.
  - injection H as <- <-. now apply candidate_ok.
  - eapply IH; eauto.
Qed.

Lemma shortest_digits_total m e :
  0 < m -> wf_number (Finite false m e) ->
  exists s q, shortest_digits m e = Some (s, q) /\
              0 < s /\ of_decimal false s q = Finite false m e.
Proof.
  intros Hm Hwf. unfold shortest_digits. cbv zeta.
  destruct (shortest m e _ _) as [[s q]|] eqn:E.
  - exists s, q. split; auto. eapply shortest_sound; eauto.
  - exfalso. revert E. apply (shortest_finds m e (Z.min 0 e)).
    + now apply candidate_exact.
    + simpl in Hwf. destruct Hwf as [[H _] | [_ [He _]]]; [lia|].
      unfold first_exponent. cbv zeta.
      pose proof (Z.log2_nonneg m) as Ha.
      destruct (Z.leb_spec 0 (Z.log2 m + e)) as [Hd | Hd].
      * assert (0 <= (Z.log2 m + e) / 3) by (apply Z.div_pos; lia).
        unfold emin in *. lia.
      * assert (H3 : 3 * (- (Z.log2 m + e) - 1) / 10 <= - (Z.log2 m + e) - 1).
        { apply Z.div_le_upper_bound; lia. }
        assert (0 <= 3 * (- (Z.log2 m + e) - 1) / 10) by (apply Z.div_pos; lia).
        unfold emin in *. lia.
Qed.

Lemma digits_value_snoc l c :
  digits_value (l ++ [c]) = 10 * digits_value l + (Z.of_N c - 48).
Proof. unfold digits_value. rewrite fold_left_app. reflexivity. Qed.

Lemma digits_value_app a b :
  digits_value (a ++ b) = digits_value a * 10 ^ Z.of_nat (length b) + digits_value b.
Proof.
  induction b as [|c b IH] using rev_ind.
  - rewrite app_nil_r. simpl. change (digits_value []) with 0. lia.
  - rewrite app_assoc, !digits_value_snoc, IH, length_app. simpl length.
    rewrite Nat2Z.inj_add, Z.pow_add_r by lia. change (10 ^ Z.of_nat 1) with 10. lia.
Qed.

Lemma digits_value_zeros n : digits_value (repeat (ch "0") n) = 0.
Proof.
  induction n as [|n IH]; [reflexivity|].
  change (repeat (ch "0") (S n)) with ([ch "0"] ++ repeat (ch "0") n).
  rewrite digits_value_app, IH. reflexivity.
Qed.

Lemma isDigit_digit_char d : 0 <= d <= 9 -> isDigit (digit_char d) = true.
Proof.
  intros H. unfold isDigit, digit_char, in_range.
  apply andb_true_iff. split; apply N.leb_le; lia.
Qed.

Lemma digit_char_value d : 0 <= d -> Z.of_N (digit_char d) - 48 = d.
Proof. intros H. unfold digit_char. lia. Qed.

Lemma digits_rev_spec : forall fuel s,
  0 <= s < 2 ^ Z.of_nat fuel -> (0 < fuel)%nat ->
  forallb isDigit (digits_rev fuel s) = true /\
  digits_value (rev (digits_rev fuel s)) = s /\
  digits_rev fuel s <> [] /\
  (0 < s -> exists d l, rev (digits_rev fuel s) = digit_char d :: l /\ 1 <= d <= 9).
Proof.
  induction fuel as [|fuel IH]; intros s Hs Hf; [lia|].
  cbn [digits_rev]. destruct (Z.ltb_spec s 10) as [H10 | H10].
  - cbn [forallb rev app]. rewrite isDigit_digit_char by lia.
    repeat split; try discriminate.
    + unfold digits_value. simpl fold_left. rewrite digit_char_value; lia.
    + intros H. exists s, []. split; [reflexivity | lia].
  - assert (Hq : 0 <= s / 10 < 2 ^ Z.of_nat fuel).
    { split; [apply Z.div_pos; lia|].
      apply Z.div_lt_upper_bound; [lia|].
      rewrite Nat2Z.inj_succ, Z.pow_succ_r in Hs by lia. lia. }
    assert (Hf' : (0 < fuel)%nat).
    { destruct fuel; [|lia]. simpl in Hs. lia. }
    destruct (IH (s / 10) Hq Hf') as [H1 [H2 [H3 H4]]].
    pose proof (Z.mod_pos_bound s 10) as Hm.
    cbn [forallb rev]. rewrite isDigit_digit_char by lia. rewrite H1.
    repeat split; try discriminate.
    + rewrite digits_value_snoc, H2, digit_char_value by lia.
      pose proof (Z.div_mod s 10). lia.
    + intros _. destruct H4 as [d [l [E Hd]]].
      { apply Z.div_str_pos. lia. }
      exists d, (l ++ [digit_char (s mod 10)]). rewrite E. auto.
Qed.

Lemma digits_spec s :
  0 <= s ->
  forallb isDigit (digits s) = true /\ digits_value (digits s) = s /\
  digits s <> [] /\
  (0 < s -> exists d l, digits s = digit_char d :: l /\ 1 <= d <= 9).
Proof.
  intros Hs. unfold digits.
  assert (Hb : 0 <= s < 2 ^ Z.of_nat (S (Z.to_nat (Z.log2 s)))).
  { split; auto. rewrite Nat2Z.inj_succ, Z2Nat.id by apply Z.log2_nonneg.
    destruct (Z.eq_dec s 0) as [->|]; [reflexivity|].
    apply Z.log2_spec. lia. }
  destruct (digits_rev_spec _ s Hb) as [H1 [H2 [H3 H4]]]; [lia|].
  repeat split; auto.
  - rewrite forallb_rev. exact H1.
  - intros E. apply H3. apply (f_equal (@rev _)) in E.
    rewrite rev_involutive in E. exact E.
Qed.


Lemma span_digits ds rest :
  forallb isDigit ds = true ->
  match rest with c :: _ => isDigit c = false | [] => True end ->
  span isDigit (ds ++ rest) = (ds, rest).
Proof.
  intros Hd Hr. induction ds as [|d ds IH]; cbn [app span].
  - destruct rest as [|c rest]; auto. cbn [span]. now rewrite Hr.
  - cbn [forallb] in Hd. apply andb_true_iff in Hd as [H1 H2].
    rewrite H1, (IH H2). reflexivity.
Qed.

Lemma delimited_no_digit rest : delimited rest = true -> no_digit rest.
Proof.
  destruct rest as [|c rest]; simpl; auto. intros H.
  destruct (isDigit c) eqn:E; auto. exfalso. char_lia.
Qed.

Lemma lex_int_ok int rest :
  int_part int -> no_digit rest -> lex_int (int ++ rest) = Some (int, rest).
Proof.
  intros [-> | [d [l [-> [Hd H0]]]]] Hr.
  - reflexivity.
  - simpl in Hd. apply andb_true_iff in Hd as [H1 H2].
    cbn [app lex_int]. rewrite H0, H1, span_digits; auto.
Qed.

Lemma lex_fraction_ok frac rest :
  forallb isDigit frac = true -> no_digit rest ->
  match rest with c :: _ => N.eqb c (ch ".") = false | [] => True end ->
  lex_fraction ((if isEmpty frac then [] else ch "." :: frac) ++ rest) = Some (frac, rest).
Proof.
  intros Hd Hr Hdot. destruct frac as [|f frac]; cbn [isEmpty app].
  - unfold lex_fraction. destruct rest as [|c rest]; auto. now rewrite Hdot.
  - cbn [lex_fraction]. rewrite N.eqb_refl. change (f :: frac ++ rest) with ((f :: frac) ++ rest).
    rewrite span_digits; auto.
Qed.

Lemma lex_exponent_ok (eneg : bool) ed rest :
  forallb isDigit ed = true -> no_digit rest ->
  match rest with
  | c :: _ => (N.eqb c (ch "e") || N.eqb c (ch "E"))%bool = false
  | [] => True
  end ->
  lex_exponent ((if isEmpty ed then @nil char
                 else ch "e" :: (if eneg then ch "-" else ch "+") :: ed) ++ rest) =
  Some ((if isEmpty ed then false else eneg), ed, rest).
Proof.
  intros Hd Hr He. destruct ed as [|d ed]; cbn [isEmpty app].
  - unfold lex_exponent. destruct rest as [|c rest]; auto. now rewrite He.
  - cbn [lex_exponent]. rewrite N.eqb_refl. cbn [orb].
    change (d :: ed ++ rest) with ((d :: ed) ++ rest).
    destruct eneg.
    + rewrite N.eqb_refl. rewrite span_digits; auto.
    + change (N.eqb (ch "+") (ch "-")) with false. rewrite N.eqb_refl.
      rewrite span_digits; auto.
Qed.

Lemma int_part_head int : int_part int ->
  exists d l, int = d :: l /\ isDigit d = true.
Proof.
  intros [-> | [d [l [-> [Hd _]]]]].
  - exists (ch "0"), []. auto.
  - exists d, l. simpl in Hd. apply andb_true_iff in Hd as [H _]. auto.
Qed.

Lemma of_literal_no_exponent neg int frac b :
  of_literal neg int frac b [] = of_literal neg int frac false [].
Proof. destruct b; reflexivity. Qed.

(** A number token is read back as its parts. *)
Lemma lex_number_text neg int frac eneg ed rest :
  int_part int -> forallb isDigit frac = true -> forallb isDigit ed = true ->
  delimited rest = true ->
  lex_number (number_text neg int frac eneg ed ++ rest) =
  Some (of_literal neg int frac eneg ed, rest).
Proof.
  intros Hi Hf He Hr.
  pose proof (delimited_no_digit rest Hr) as Hnd.
  set (tail := (if isEmpty frac then [] else ch "." :: frac)
               ++ (if isEmpty ed then []
                   else ch "e" :: (if eneg then ch "-" else ch "+") :: ed) ++ rest).
  assert (Htail_nd : no_digit tail).
  { unfold tail. destruct frac; destruct ed; cbn [isEmpty app]; auto; reflexivity. }
  assert (Hbody :
    match lex_int (int ++ tail) with
    | None => None
    | Some (int0, s1) =>
        match lex_fraction s1 with
        | None => None
        | Some (frac0, s2) =>
            match lex_exponent s2 with
            | None => None
            | Some (eneg0, ed0, s3) => Some (of_literal neg int0 frac0 eneg0 ed0, s3)
            end
        end
    end = Some (of_literal neg int frac eneg ed, rest)).
  { rewrite (lex_int_ok int tail Hi Htail_nd). unfold tail.
    rewrite lex_fraction_ok; auto.
    - rewrite lex_exponent_ok; auto.
      + destruct ed; cbn [isEmpty]; [|reflexivity].
        now rewrite (of_literal_no_exponent neg int frac eneg).
      + destruct rest as [|c rest]; auto. simpl in Hr.
        destruct (N.eqb c (ch "e") || N.eqb c (ch "E"))%bool eqn:E; auto.
        exfalso. char_lia.
    - destruct ed; cbn [isEmpty app]; auto; reflexivity.
    - destruct ed; cbn [isEmpty app]; [|reflexivity].
      destruct rest as [|c rest]; auto. simpl in Hr.
      destruct (N.eqb c (ch ".")) eqn:E; auto. exfalso. char_lia. }
  assert (Eapp : number_text neg int frac eneg ed ++ rest =
                 (if neg then [ch "-"] else []) ++ int ++ tail).
  { unfold number_text, tail. now rewrite <- !app_assoc. }
  rewrite Eapp. unfold lex_number. destruct neg; cbn [app].
  - rewrite N.eqb_refl. exact Hbody.
  - destruct (int_part_head int Hi) as [d [l [-> Hd]]]. cbn [app].
    destruct (N.eqb d (ch "-")) eqn:E; [exfalso; char_lia|].
    exact Hbody.
Qed.

Lemma forallb_repeat_zero n : forallb isDigit (repeat (ch "0") n) = true.
Proof. induction n; simpl; auto. Qed.

Lemma digit_char_not_zero d : 1 <= d <= 9 -> N.eqb (digit_char d) (ch "0") = false.
Proof. intros H. apply N.eqb_neq. unfold digit_char, ch. simpl N_of_ascii. lia. Qed.

Lemma pow10_nonneg k : 0 <= k -> pow10 k = 10 ^ k /\ pow10 (- k) = 1.
Proof.
  intros H. unfold pow10. rewrite Z.max_r by lia. rewrite Z.max_l by lia. auto.
Qed.

Lemma of_decimal_scaled neg s q :
  0 <= q -> of_decimal neg (s * 10 ^ q) 0 = of_decimal neg s q.
Proof.
  intros H. unfold of_decimal. destruct (pow10_nonneg q H) as [-> ->].
  destruct (pow10_nonneg 0) as [E1 E2]; [lia|]. rewrite E1, E2.
  now rewrite Z.pow_0_r, Z.mul_1_r.
Qed.

(** The layout of Number::toString is a number token for the same decimal. *)
Lemma layout_text s q :
  0 < s ->
  exists int frac eneg ed,
    layout (digits s) (q + Z.of_nat (length (digits s))) =
      number_text false int frac eneg ed /\
    int_part int /\ forallb isDigit frac = true /\ forallb isDigit ed = true /\
    forall neg, of_literal neg int frac eneg ed = of_decimal neg s q.
Proof.
  intros Hs.
  destruct (digits_spec s) as [Hd [Hv [Hne [d [l [Ed Hd1]]]]]]; [lia|lia|].
  set (ds := digits s) in *. set (k := Z.of_nat (length ds)).
  set (n := q + k).
  assert (Hk : 1 <= k) by (unfold k; rewrite Ed; simpl length; lia).
  assert (Hhead : N.eqb (digit_char d) (ch "0") = false) by now apply digit_char_not_zero.
  unfold layout. fold k. cbv zeta.
  destruct ((k <=? n) && (n <=? 21))%bool eqn:C1.
  { apply andb_true_iff in C1 as [C1 C1']. apply Z.leb_le in C1, C1'.
    exists (ds ++ repeat (ch "0") (Z.to_nat (n - k))), [], false, [].
    split; [unfold number_text; cbn [isEmpty app]; now rewrite !app_nil_r|].
    split.
    { right. exists (digit_char d), (l ++ repeat (ch "0") (Z.to_nat (n - k))).
      rewrite Ed. split; [reflexivity|]. split; auto.
      rewrite <- Ed, forallb_app, Hd, forallb_repeat_zero. reflexivity. }
    repeat split; auto. intros neg. unfold of_literal. cbn [length].
    rewrite app_nil_r, digits_value_app, Hv, digits_value_zeros, repeat_length.
    rewrite Z2Nat.id by lia. change (digits_value []) with 0.
    replace (0 - Z.of_nat 0) with 0 by lia. rewrite Z.add_0_r.
    replace (n - k) with q by (unfold n; lia). apply of_decimal_scaled. unfold n in C1. lia. }
  destruct ((0 <? n) && (n <=? 21))%bool eqn:C2.
  { apply andb_true_iff in C2 as [C2 C2']. apply Z.ltb_lt in C2. apply Z.leb_le in C2'.
    assert (Hnk : n < k).
    { destruct (Z.leb_spec k n); [|lia]. destruct (Z.leb_spec n 21); [discriminate | lia]. }
    assert (Hlen : (Z.to_nat n < length ds)%nat) by (unfold k in Hnk; lia).
    exists (firstn (Z.to_nat n) ds), (skipn (Z.to_nat n) ds), false, [].
    assert (Hsk : skipn (Z.to_nat n) ds <> []).
    { intros E. apply (f_equal (@length _)) in E. rewrite length_skipn in E.
      simpl in E. lia. }
    split.
    { unfold number_text. destruct (skipn (Z.to_nat n) ds) eqn:E; [congruence|].
      cbn [isEmpty app]. now rewrite app_nil_r. }
    pose proof (firstn_skipn (Z.to_nat n) ds) as Hfs.
    assert (Hall : forallb isDigit (firstn (Z.to_nat n) ds) = true /\
                   forallb isDigit (skipn (Z.to_nat n) ds) = true).
    { rewrite <- Hfs, forallb_app in Hd. now apply andb_true_iff in Hd. }
    split.
    { right. destruct (Z.to_nat n) as [|n'] eqn:En; [lia|].
      rewrite Ed. cbn [firstn]. exists (digit_char d), (firstn n' l).
      split; [reflexivity|]. split; auto.
      destruct Hall as [Ha _]. rewrite Ed in Ha. exact Ha. }
    split; [apply Hall|]. split; [reflexivity|].
    intros neg. unfold of_literal. rewrite Hfs, Hv. change (digits_value []) with 0.
    rewrite length_skipn. f_equal. unfold n, k in *. lia. }
  destruct ((-6 <? n) && (n <=? 0))%bool eqn:C3.
  { apply andb_true_iff in C3 as [C3 C3']. apply Z.ltb_lt in C3. apply Z.leb_le in C3'.
    exists [ch "0"], (repeat (ch "0") (Z.to_nat (- n)) ++ ds), false, [].
    split.
    { unfold number_text. cbn [app].
      destruct (repeat (ch "0") (Z.to_nat (- n)) ++ ds) eqn:E.
      - apply app_eq_nil in E as [_ E]. congruence.
      - cbn [isEmpty app]. now rewrite app_nil_r. }
    split; [left; reflexivity|].
    split; [now rewrite forallb_app, forallb_repeat_zero, Hd|].
    split; [reflexivity|].
    intros neg. unfold of_literal. change (digits_value []) with 0.
    change ([ch "0"] ++ repeat (ch "0") (Z.to_nat (- n)) ++ ds)
      with (repeat (ch "0") (S (Z.to_nat (- n))) ++ ds).
    rewrite digits_value_app, digits_value_zeros, Hv, length_app, repeat_length.
    f_equal. unfold n, k in *. lia. }
  set (ex := n - 1).
  destruct (digits_spec (Z.abs ex)) as [Hed [Hev [Hene _]]]; [lia|].
  set (ed := digits (Z.abs ex)) in *.
  assert (Hex : (if negb (0 <=? ex) then - digits_value ed else digits_value ed) = ex).
  { rewrite Hev. destruct (Z.leb_spec 0 ex); simpl; lia. }
  assert (Hsign : (if 0 <=? ex then ch "+" else ch "-") =
                  (if negb (0 <=? ex) then ch "-" else ch "+")).
  { destruct (0 <=? ex); reflexivity. }
  rewrite Hsign.
  assert (Hedne : isEmpty ed = false) by (destruct ed; [congruence | reflexivity]).
  rewrite Ed. destruct l as [|d2 l2].
  - exists [digit_char d], [], (negb (0 <=? ex)), ed.
    split; [unfold number_text; rewrite Hedne; reflexivity|].
    split.
    { right. exists (digit_char d), []. repeat split; auto.
      rewrite Ed in Hd. exact Hd. }
    repeat split; auto.
    intros neg. unfold of_literal. rewrite Hex. cbn [length app].
    rewrite <- Ed, Hv. f_equal. unfold ex, n, k. rewrite Ed. simpl length. lia.
  - exists [digit_char d], (d2 :: l2), (negb (0 <=? ex)), ed.
    split; [unfold number_text; rewrite Hedne; cbn [isEmpty app]; reflexivity|].
    rewrite Ed in Hd. cbn [forallb] in Hd. apply andb_true_iff in Hd as [Hd0 Hd2].
    split.
    { right. exists (digit_char d), []. repeat split; auto.
      cbn [forallb]. now rewrite Hd0. }
    repeat split; auto.
    intros neg. unfold of_literal. rewrite Hex.
    change ([digit_char d] ++ d2 :: l2) with (digit_char d :: d2 :: l2).
    rewrite <- Ed, Hv. f_equal. unfold ex, n, k. rewrite Ed. simpl length. lia.
Qed.

Lemma of_decimal_sign neg s q : of_decimal neg s q = with_sign neg (of_decimal false s q).
Proof. unfold of_decimal. apply to_double_sign. Qed.

Lemma number_text_sign neg int frac eneg ed :
  number_text neg int frac eneg ed =
  (if neg then [ch "-"] else []) ++ number_text false int frac eneg ed.
Proof. destruct neg; reflexivity. Qed.

(** A printed finite Number reads back as itself, [-0] as [+0]. *)
Lemma lex_number_toString x rest :
  wf_number x -> isFinite x = true -> delimited rest = true ->
  lex_number (toString x ++ rest) = Some (positive_zero x, rest).
Proof.
  intros Hwf Hfin Hr. destruct x as [neg m e | neg]; [|discriminate].
  unfold toString, positive_zero. destruct (Z.eqb_spec m 0) as [-> | Hm0].
  - change [ch "0"] with (number_text false [ch "0"] [] false []).
    rewrite lex_number_text; auto. left. reflexivity.
  - assert (Hm : 0 < m) by (simpl in Hwf; lia).
    assert (Hwf' : wf_number (Finite false m e)) by exact Hwf.
    destruct (shortest_digits_total m e Hm Hwf') as [s [q [E [Hs Hv]]]].
    rewrite E.
    destruct (layout_text s q Hs) as [int [frac [eneg [ed [El [Hi [Hf [He Hval]]]]]]]].
    cbv zeta. rewrite Z.add_comm in El. rewrite Z.add_comm. rewrite El.
    rewrite <- number_text_sign.
    rewrite lex_number_text; auto.
    rewrite Hval, of_decimal_sign, Hv. reflexivity.
Qed.

End Numbers.

(** ** JSON: writing and reading *)

Section JsonText.
Import Number.
Local Open Scope list_scope.

(** Induction on values, through the lists of arrays and objects. *)
Lemma value_induction (P : value -> Prop) :
  P VNull -> (forall b, P (VBool b)) -> (forall x, P (VNumber x)) ->
  (forall s, P (VString s)) ->
  (forall l, Forall P l -> P (VArray l)) ->
  (forall o, Forall (fun kv => P (snd kv)) o -> P (VObject o)) ->
  forall v, P v.
Proof.
  intros Hnull Hbool Hnum Hstr Harr Hobj.
  fix IH 1. intros [ | b | x | s | l | o].
  - exact Hnull.
  - apply Hbool.
  - apply Hnum.
  - apply Hstr.
  - apply Harr.
    exact ((fix go (l : list value) : Forall P l :=
              match l with
              | [] => Forall_nil P
              | x :: l' => Forall_cons x (IH x) (go l')
              end) l).
  - apply Hobj.
    exact ((fix go (o : list (jsstring * value)) : Forall (fun kv => P (snd kv)) o :=
              match o with
              | [] => Forall_nil _
              | kv :: o' => Forall_cons kv (IH (snd kv)) (go o')
              end) o).
Qed.

(** *** Strings *)

Lemma hex_value_digit d : (d < 16)%N -> hex_value (hex_digit d) = Some d.
Proof.
  intros H. unfold hex_digit, hex_value, in_range.
  destruct (N.ltb_spec d 10).
  - replace ((48 <=? 48 + d) && (48 + d <=? 57))%N%bool with true
      by (symmetry; apply andb_true_iff; split; apply N.leb_le; lia).
    f_equal. lia.
  - replace ((48 <=? 97 + (d - 10)) && (97 + (d - 10) <=? 57))%N%bool with false
      by (symmetry; apply andb_false_iff; right; apply N.leb_gt; lia).
    replace ((97 <=? 97 + (d - 10)) && (97 + (d - 10) <=? 102))%N%bool with true
      by (symmetry; apply andb_true_iff; split; apply N.leb_le; lia).
    f_equal. lia.
Qed.

Lemma hex4_escape c : (c < 65536)%N ->
  hex4_value (hex_digit (c / 4096 mod 16)) (hex_digit (c / 256 mod 16))
             (hex_digit (c / 16 mod 16)) (hex_digit (c mod 16)) = Some c.
Proof.
  intros H. unfold hex4_value.
  rewrite !hex_value_digit by (apply N.mod_lt; lia).
  f_equal.
  pose proof (N.div_mod c 16). pose proof (N.div_mod (c / 16) 16).
  pose proof (N.div_mod (c / 256) 16).
  assert (c / 256 = c / 16 / 16)%N by (rewrite N.Div0.div_div; reflexivity).
  assert (c / 4096 = c / 256 / 16)%N by (rewrite N.Div0.div_div; reflexivity).
  assert (c / 4096 < 16)%N by (apply N.Div0.div_lt_upper_bound; lia).
  rewrite (N.mod_small (c / 4096) 16) by lia.
  lia.
Qed.

Lemma lex_string_escape c s : (c < 65536)%N ->
  lex_string (unicode_escape c ++ s) = cons_fst c (lex_string s).
Proof.
  intros H. unfold unicode_escape. cbn [app lex_string].
  change (N.eqb backslash dquote) with false. rewrite !N.eqb_refl.
  now rewrite hex4_escape.
Qed.

Lemma lex_string_plain c s :
  N.eqb c dquote = false -> N.eqb c backslash = false -> N.ltb c 32 = false ->
  lex_string (c :: s) = cons_fst c (lex_string s).
Proof. intros H1 H2 H3. cbn [lex_string]. now rewrite H1, H2, H3. Qed.

Lemma lex_string_one c s :
  isLeadingSurrogate c = false ->
  lex_string (quote_one c ++ s) = cons_fst c (lex_string s).
Proof.
  intros Hl. unfold quote_one.
  repeat match goal with
  | |- context [if N.eqb c ?k then _ else _] =>
      destruct (N.eqb_spec c k) as [-> | ?]; [reflexivity|]
  end.
  destruct (N.ltb c 32 || isTrailingSurrogate c)%bool eqn:E.
  - apply lex_string_escape.
    apply orb_true_iff in E as [E | E].
    + apply N.ltb_lt in E. lia.
    + unfold isTrailingSurrogate, in_range in E. apply andb_true_iff in E as [_ E].
      apply N.leb_le in E. lia.
  - apply orb_false_iff in E as [E _].
    apply lex_string_plain; auto; apply N.eqb_neq; assumption.
Qed.

Lemma surrogate_plain c :
  (isLeadingSurrogate c || isTrailingSurrogate c)%bool = true ->
  N.eqb c dquote = false /\ N.eqb c backslash = false /\ N.ltb c 32 = false.
Proof.
  unfold isLeadingSurrogate, isTrailingSurrogate, in_range, dquote, backslash.
  intros H. b2p. lia.
Qed.

(** A quoted string reads back as the string. *)
Lemma lex_string_quote rest : forall n s, length s <= n ->
  lex_string (quote_chars s ++ dquote :: rest) = Some (s, rest).
Proof.
  induction n as [|n IH]; intros s Hn.
  - destruct s; [|simpl in Hn; lia]. cbn [quote_chars app lex_string].
    now rewrite N.eqb_refl.
  - destruct s as [|c s1]; [cbn [quote_chars app lex_string]; now rewrite N.eqb_refl|].
    cbn [quote_chars]. simpl in Hn.
    destruct (isLeadingSurrogate c) eqn:El.
    + assert (Hc : (c < 65536)%N).
      { unfold isLeadingSurrogate, in_range in El. apply andb_true_iff in El as [_ El].
        apply N.leb_le in El. lia. }
      destruct s1 as [|t s2].
      * rewrite lex_string_escape by exact Hc.
        cbn [lex_string]. now rewrite N.eqb_refl.
      * destruct (isTrailingSurrogate t) eqn:Et.
        -- destruct (surrogate_plain c) as [H1 [H2 H3]]; [now rewrite El|].
           destruct (surrogate_plain t) as [H4 [H5 H6]]; [now rewrite Et, orb_true_r|].
           cbn [app]. rewrite lex_string_plain, lex_string_plain by assumption.
           rewrite IH by (simpl in Hn; lia). reflexivity.
        -- rewrite <- app_assoc, lex_string_escape by exact Hc.
           rewrite IH by lia. reflexivity.
    + rewrite <- app_assoc, lex_string_one by exact El.
      rewrite IH by lia. reflexivity.
Qed.

(** *** Tokens *)

Lemma cons_fst_some c r v s : cons_fst c r = Some (v, s) ->
  exists v', r = Some (v', s) /\ v = c :: v'.
Proof.
  destruct r as [[v' s']|]; simpl; [|discriminate].
  intros [= <- <-]. eauto.
Qed.

Lemma lex_string_shorter : forall n s v r, length s <= n ->
  lex_string s = Some (v, r) -> length r < length s.
Proof.
  induction n as [|n IH]; intros s v r Hn H.
  - destruct s; [discriminate | simpl in Hn; lia].
  - destruct s as [|c s1]; [discriminate|]. cbn [lex_string] in H. simpl in Hn.
    destruct (N.eqb c dquote); [injection H as <- <-; simpl; lia|].
    destruct (N.eqb c backslash).
    + destruct s1 as [|e s2]; [discriminate|].
      destruct (N.eqb e (ch "u")).
      * destruct s2 as [|h1 [|h2 [|h3 [|h4 s3]]]]; try discriminate.
        destruct (hex4_value h1 h2 h3 h4); [|discriminate].
        apply cons_fst_some in H as [v' [H _]].
        apply IH in H; simpl in *; lia.
      * destruct (unescape e); [|discriminate].
        apply cons_fst_some in H as [v' [H _]].
        apply IH in H; simpl in *; lia.
    + destruct (N.ltb c 32); [discriminate|].
      apply cons_fst_some in H as [v' [H _]].
      apply IH in H; simpl; lia.
Qed.

Lemma span_split p s : fst (span p s) ++ snd (span p s) = s.
Proof.
  induction s as [|c s IH]; simpl; auto.
  destruct (p c); simpl; auto.
  destruct (span p s) as [a b]. simpl in *. now rewrite IH.
Qed.

Lemma span_shorter p s : length (snd (span p s)) <= length s.
Proof.
  rewrite <- (span_split p s) at 2. rewrite length_app. lia.
Qed.

Lemma lex_int_shorter s int r : lex_int s = Some (int, r) -> length r < length s.
Proof.
  unfold lex_int. destruct s as [|c s1]; [discriminate|].
  destruct (N.eqb c (ch "0")); [intros [= <- <-]; simpl; lia|].
  destruct (isDigit c); [|discriminate].
  pose proof (span_shorter isDigit s1). destruct (span isDigit s1) as [a b].
  intros [= <- <-]. simpl in *. lia.
Qed.

Lemma lex_fraction_shorter s fr r : lex_fraction s = Some (fr, r) -> length r <= length s.
Proof.
  unfold lex_fraction. destruct s as [|c s1]; [intros [= <- <-]; simpl; lia|].
  destruct (N.eqb c (ch ".")); [|intros [= <- <-]; simpl; lia].
  pose proof (span_shorter isDigit s1). destruct (span isDigit s1) as [a b].
  destruct (isEmpty a); [discriminate|]. intros [= <- <-]. simpl in *. lia.
Qed.

Lemma lex_exponent_shorter s b ed r :
  lex_exponent s = Some (b, ed, r) -> length r <= length s.
Proof.
  unfold lex_exponent. destruct s as [|c s1]; [intros [= <- <- <-]; simpl; lia|].
  destruct (N.eqb c (ch "e") || N.eqb c (ch "E"))%bool;
    [|intros [= <- <- <-]; simpl; lia].
  destruct s1 as [|g s2].
  - simpl. discriminate.
  - destruct (N.eqb g (ch "-")); [|destruct (N.eqb g (ch "+"))].
    + pose proof (span_shorter isDigit s2). destruct (span isDigit s2) as [a b0].
      destruct (isEmpty a); [discriminate|]. intros [= <- <- <-]. simpl in *. lia.
    + pose proof (span_shorter isDigit s2). destruct (span isDigit s2) as [a b0].
      destruct (isEmpty a); [discriminate|]. intros [= <- <- <-]. simpl in *. lia.
    + pose proof (span_shorter isDigit (g :: s2)).
      destruct (span isDigit (g :: s2)) as [a b0].
      destruct (isEmpty a); [discriminate|]. intros [= <- <- <-]. simpl in *. lia.
Qed.

Lemma lex_number_shorter s x r : lex_number s = Some (x, r) -> length r < length s.
Proof.
  unfold lex_number.
  assert (H : forall neg s0, length s0 <= length s ->
            match lex_int s0 with
            | None => None
            | Some (int, s1) =>
                match lex_fraction s1 with
                | None => None
                | Some (frac, s2) =>
                    match lex_exponent s2 with
                    | None => None
                    | Some (eneg, ed, s3) => Some (of_literal neg int frac eneg ed, s3)
                    end
                end
            end = Some (x, r) -> length r < length s).
  { intros neg s0 Hs0. destruct (lex_int s0) as [[int s1]|] eqn:E1; [|discriminate].
    destruct (lex_fraction s1) as [[frac s2]|] eqn:E2; [|discriminate].
    destruct (lex_exponent s2) as [[[eneg ed] s3]|] eqn:E3; [|discriminate].
    intros [= <- <-]. apply lex_int_shorter in E1. apply lex_fraction_shorter in E2.
    apply lex_exponent_shorter in E3. lia. }
  destruct s as [|c s']; [apply (H false []); simpl; lia|].
  destruct (N.eqb c (ch "-")); apply H; simpl; lia.
Qed.

Lemma strip_prefix_length w : forall s r,
  strip_prefix w s = Some r -> length s = length w + length r.
Proof.
  induction w as [|a w IH]; intros s r H; simpl in H.
  - injection H as <-. reflexivity.
  - destruct s as [|b s]; [discriminate|].
    destruct (N.eqb a b); [|discriminate]. apply IH in H. simpl. lia.
Qed.

Lemma keyword_shorter s t r : keyword s = Some (t, r) -> length r < length s.
Proof.
  unfold keyword.
  destruct (strip_prefix (str "true") s) eqn:E1.
  { intros [= <- <-]. apply strip_prefix_length in E1. simpl in E1. lia. }
  destruct (strip_prefix (str "false") s) eqn:E2.
  { intros [= <- <-]. apply strip_prefix_length in E2. simpl in E2. lia. }
  destruct (strip_prefix (str "null") s) eqn:E3; [|discriminate].
  intros [= <- <-]. apply strip_prefix_length in E3. simpl in E3. lia.
Qed.

(** Fuel above the length of the text is never used up. *)
Lemma lex_fuel : forall f1 f2 s,
  length s < f1 -> length s < f2 -> lex f1 s = lex f2 s.
Proof.
  induction f1 as [|f1 IH]; intros f2 s H1 H2; [lia|].
  destruct f2 as [|f2]; [lia|].
  destruct s as [|c s']; [reflexivity|]. rewrite !lex_cons. simpl in H1, H2.
  destruct (isJSONWhiteSpace c); [apply IH; lia|].
  destruct (punctuator c); [f_equal; apply IH; lia|].
  destruct (N.eqb c dquote).
  { destruct (lex_string s') as [[v r]|] eqn:E; [|reflexivity].
    apply (lex_string_shorter (length s')) in E; [|lia].
    f_equal. apply IH; lia. }
  destruct (N.eqb c (ch "-") || isDigit c)%bool.
  { destruct (lex_number (c :: s')) as [[x r]|] eqn:E; [|reflexivity].
    apply lex_number_shorter in E. simpl in E. f_equal. apply IH; lia. }
  destruct (keyword (c :: s')) as [[t r]|] eqn:E; [|reflexivity].
  apply keyword_shorter in E. simpl in E. f_equal. apply IH; lia.
Qed.

Lemma tokens_fuel f s : length s < f -> lex f s = tokens s.
Proof. intros H. apply lex_fuel; [assumption | lia]. Qed.

Lemma tokens_nil : tokens [] = Some [].
Proof. reflexivity. Qed.

Lemma tokens_punct (c : char) t (s : jsstring) :
  punctuator c = Some t -> tokens (c :: s) = cons_tok t (tokens s).
Proof.
  intros H. unfold tokens at 1. rewrite lex_cons.
  assert (Hw : isJSONWhiteSpace c = false).
  { destruct (isJSONWhiteSpace c) eqn:E; auto. exfalso.
    unfold punctuator in H.
    repeat match type of H with
    | (if N.eqb c ?k then _ else _) = _ =>
        destruct (N.eqb_spec c k) as [-> | ?]; [discriminate E|]
    end. discriminate. }
  rewrite Hw, H. reflexivity.
Qed.

Lemma tokens_string s v r :
  lex_string s = Some (v, r) ->
  tokens (dquote :: s) = cons_tok (TString v) (tokens r).
Proof.
  intros H. unfold tokens at 1. rewrite lex_cons.
  change (isJSONWhiteSpace dquote) with false.
  change (punctuator dquote) with (@None token).
  rewrite N.eqb_refl, H. f_equal. apply tokens_fuel.
  apply (lex_string_shorter (length s)) in H; simpl; lia.
Qed.

Lemma tokens_number (c : char) (s : jsstring) x r :
  (N.eqb c (ch "-") || isDigit c)%bool = true ->
  lex_number (c :: s) = Some (x, r) ->
  tokens (c :: s) = cons_tok (TNumber x) (tokens r).
Proof.
  intros Hc H. unfold tokens at 1. rewrite lex_cons.
  assert (Hw : isJSONWhiteSpace c = false).
  { destruct (isJSONWhiteSpace c) eqn:E; auto. exfalso. char_lia. }
  assert (Hp : punctuator c = None).
  { unfold punctuator. eqb_false. reflexivity. }
  assert (Hq : N.eqb c dquote = false).
  { destruct (N.eqb c dquote) eqn:E; auto. exfalso. char_lia. }
  rewrite Hw, Hp, Hq, Hc, H. f_equal. apply tokens_fuel.
  apply lex_number_shorter in H. simpl in *. lia.
Qed.

Ltac keyword_token :=
  unfold tokens at 1; cbn [str list_ascii_of_string map app length]; rewrite lex_cons;
  match goal with
  | |- context [isJSONWhiteSpace ?c] =>
      change (isJSONWhiteSpace c) with false;
      change (punctuator c) with (@None token);
      change (N.eqb c dquote) with false;
      change (N.eqb c (ch "-") || isDigit c)%bool with false
  end;
  cbv iota;
  match goal with
  | |- context [keyword ?l] =>
      match goal with
      | |- _ = cons_tok ?t (tokens ?s) => change (keyword l) with (Some (t, s))
      end
  end;
  cbv iota; f_equal; apply tokens_fuel; simpl; lia.

Lemma tokens_true s : tokens (str "true" ++ s) = cons_tok TTrue (tokens s).
Proof. keyword_token. Qed.

Lemma tokens_false s : tokens (str "false" ++ s) = cons_tok TFalse (tokens s).
Proof. keyword_token. Qed.

Lemma tokens_null s : tokens (str "null" ++ s) = cons_tok TNull (tokens s).
Proof. keyword_token. Qed.

(** *** Writing and lexing *)

Lemma lex_number_head s x r : lex_number s = Some (x, r) ->
  exists c s', s = c :: s' /\ (N.eqb c (ch "-") || isDigit c)%bool = true.
Proof.
  unfold lex_number. destruct s as [|c s']; [discriminate|].
  intros H. exists c, s'. split; auto.
  destruct (N.eqb c (ch "-")); auto. simpl.
  unfold lex_int in H. destruct (N.eqb_spec c (ch "0")) as [-> | Hc]; [reflexivity|].
  destruct (isDigit c); [reflexivity | discriminate].
Qed.

Lemma delimited_close (c : char) rest :
  c = ch "]" \/ c = ch "}" \/ c = ch "," -> delimited (c :: rest) = true.
Proof. intros [-> | [-> | ->]]; reflexivity. Qed.

(** Comma-separated items followed by a closing bracket. *)
Lemma tokens_join {A} (pr : A -> jsstring) (tk : A -> list token)
    (close : char) (tclose : token) :
  punctuator close = Some tclose -> close = ch "]" \/ close = ch "}" ->
  forall items,
    Forall (fun a => forall rest ts, delimited rest = true -> tokens rest = Some ts ->
                     tokens (pr a ++ rest) = Some (tk a ++ ts)) items ->
    forall rest ts, tokens rest = Some ts ->
      tokens (join_comma (map pr items) ++ close :: rest) =
      Some (join_tokens (map tk items) ++ tclose :: ts).
Proof.
  intros Hp Hc. induction items as [|a items IH]; intros Hall rest ts Hts.
  - cbn [map join_comma join_tokens app]. rewrite (tokens_punct close tclose rest Hp), Hts.
    reflexivity.
  - inversion Hall as [|a' items' Ha Hitems]; subst.
    assert (Hclose : tokens (close :: rest) = Some (tclose :: ts)).
    { rewrite (tokens_punct close tclose rest Hp), Hts. reflexivity. }
    destruct items as [|b items].
    + cbn [map join_comma join_tokens]. apply Ha; auto.
      apply delimited_close. tauto.
    + change (join_comma (map pr (a :: b :: items)))
        with (pr a ++ ch "," :: join_comma (map pr (b :: items))).
      change (join_tokens (map tk (a :: b :: items)))
        with (tk a ++ TComma :: join_tokens (map tk (b :: items))).
      rewrite <- !app_assoc. cbn [app]. apply Ha; [reflexivity|].
      rewrite (tokens_punct (ch ",") TComma) by reflexivity.
      rewrite (IH Hitems rest ts Hts). reflexivity.
Qed.

Lemma tokens_quote k rest ts :
  tokens rest = Some ts -> tokens (quote k ++ rest) = Some (TString k :: ts).
Proof.
  intros H. unfold quote. cbn [app]. rewrite <- app_assoc. cbn [app].
  rewrite (tokens_string _ k rest).
  - now rewrite H.
  - apply (lex_string_quote rest (length k)). lia.
Qed.

Lemma wf_positive_zero x : wf_number x -> wf_number (positive_zero x).
Proof.
  destruct x as [neg m e|neg]; simpl; auto.
  destruct (Z.eqb_spec m 0); simpl; auto.
Qed.

(** The text written for a value lexes to the tokens of the value read again. *)
Lemma tokens_stringify : forall v, wf_value v ->
  forall rest ts, delimited rest = true -> tokens rest = Some ts ->
    tokens (stringify v ++ rest) = Some (tokens_of (reread v) ++ ts).
Proof.
  induction v as [ | b | x | s | l IH | o IH] using value_induction;
    intros Hwf rest ts Hd Hts.
  - cbn [stringify reread tokens_of]. rewrite tokens_null, Hts. reflexivity.
  - destruct b; cbn [stringify reread tokens_of].
    + rewrite tokens_true, Hts. reflexivity.
    + rewrite tokens_false, Hts. reflexivity.
  - cbn [stringify reread]. unfold stringify_number.
    inversion Hwf as [ | | x' Hx | | | ]; subst.
    destruct (isFinite x) eqn:Hf.
    + pose proof (lex_number_toString x rest Hx Hf Hd) as Hl.
      destruct (lex_number_head _ _ _ Hl) as [c [s' [E Hc]]].
      rewrite E in *. rewrite (tokens_number c s' _ rest Hc Hl), Hts. reflexivity.
    + cbn [tokens_of]. rewrite tokens_null, Hts. reflexivity.
  - cbn [stringify reread tokens_of]. now apply tokens_quote.
  - inversion Hwf as [ | | | | l' Hl | ]; subst.
    cbn [stringify reread tokens_of app]. rewrite <- app_assoc. cbn [app].
    rewrite (tokens_punct (ch "[") TLBracket) by reflexivity.
    rewrite map_map.
    rewrite (tokens_join stringify (fun v => tokens_of (reread v)) (ch "]") TRBracket)
      with (ts := ts); auto.
    + cbn [cons_tok option_map]. now rewrite <- app_assoc.
    + rewrite Forall_forall in *. intros v Hv rest' ts' H1 H2. apply IH; auto.
  - inversion Hwf as [ | | | | | o' Hk Ho]; subst.
    cbn [stringify reread tokens_of app]. rewrite <- app_assoc. cbn [app].
    rewrite (tokens_punct (ch "{") TLBrace) by reflexivity.
    rewrite map_map.
    rewrite (tokens_join
               (fun kv : jsstring * value =>
                  let (k, v') := kv in quote k ++ ch ":" :: stringify v')
               (fun kv : jsstring * value =>
                  let (k, v') := let (k, v') := kv in (k, reread v') in
                  TString k :: TColon :: tokens_of v')
               (ch "}") TRBrace) with (ts := ts); auto.
    + cbn [cons_tok option_map]. now rewrite <- app_assoc.
    + rewrite Forall_forall in *. intros [k v] Hv rest' ts' H1 H2.
      rewrite <- app_assoc. cbn [app].
      apply tokens_quote.
      rewrite (tokens_punct (ch ":") TColon) by reflexivity.
      pose proof (IH (k, v) Hv (Ho (k, v) Hv) rest' ts' H1 H2) as Hx.
      cbn [snd] in Hx. rewrite Hx. reflexivity.
Qed.

End JsonText.

(** ** JSON: reading back what was written *)

Section JsonRoundTrip.
Import Number.
Local Open Scope list_scope.

(** *** Objects *)

Lemma key_eqb_eq a b : key_eqb a b = true <-> a = b.
Proof. unfold key_eqb. destruct (list_eq_dec N.eq_dec a b); split; congruence. Qed.

Lemma key_eqb_refl a : key_eqb a a = true.
Proof. now apply key_eqb_eq. Qed.

Lemma key_eqb_neq a b : key_eqb a b = false <-> a <> b.
Proof. unfold key_eqb. destruct (list_eq_dec N.eq_dec a b); split; congruence. Qed.

Lemma has_key_false k o :
  has_key k o = false <-> Forall (fun k' => k <> k') (map fst o).
Proof.
  induction o as [|[k' v'] o IH]; simpl.
  - split; auto.
  - rewrite orb_false_iff, IH, key_eqb_neq. split.
    + intros [H1 H2]. constructor; auto.
    + intros H. inversion H; subst. auto.
Qed.

Lemma set_existing_keys k v o : map fst (set_existing k v o) = map fst o.
Proof.
  induction o as [|[k' v'] o IH]; simpl; auto.
  destruct (key_eqb k k'); simpl; congruence.
Qed.

Lemma insert_index_append i k v o :
  array_index k = Some i ->
  Forall (fun k' => key_before k' k) (map fst o) ->
  insert_index i k v o = o ++ [(k, v)].
Proof.
  intros Hk. induction o as [|[k' v'] o IH]; intros H; simpl; auto.
  inversion H as [|x l [_ Hb] Hl]; subst. rewrite Hk in Hb.
  destruct (array_index k') as [j|]; [|contradiction].
  destruct (Z.ltb_spec j i); [|lia]. now rewrite IH.
Qed.

(** A key that may follow every key of the object is added at the end. *)
Lemma obj_put_append k v o :
  Forall (fun k' => key_before k' k) (map fst o) -> obj_put k v o = o ++ [(k, v)].
Proof.
  intros H. unfold obj_put.
  assert (Hn : has_key k o = false).
  { apply has_key_false. rewrite Forall_forall in *. intros k' Hk' E.
    destruct (H k' Hk') as [Hne _]. congruence. }
  rewrite Hn. destruct (array_index k) as [i|] eqn:E; auto.
  now apply insert_index_append.
Qed.

Lemma ordered_keys_app a : forall k b,
  ordered_keys (a ++ k :: b) ->
  Forall (fun k' => key_before k' k) a /\ ordered_keys (a ++ [k]).
Proof.
  induction a as [|x a IH]; intros k b H; simpl in *.
  - split; auto.
  - destruct H as [H1 H2]. destruct (IH k b H2) as [H3 H4].
    rewrite Forall_app in H1. destruct H1 as [H5 H6].
    inversion H6; subst. split.
    + constructor; auto.
    + split; auto. rewrite Forall_app. split; auto.
Qed.

(** *** Parsing the tokens of a value *)

Lemma join_tokens_tail p ps : join_tokens (p :: ps) = p ++ tail_tokens ps.
Proof.
  revert p. induction ps as [|q ps IH]; intros p.
  - simpl. now rewrite app_nil_r.
  - change (join_tokens (p :: q :: ps)) with (p ++ TComma :: join_tokens (q :: ps)).
    rewrite IH. reflexivity.
Qed.

Lemma tokens_of_head v :
  exists t r, tokens_of v = t :: r /\ t <> TRBracket /\ t <> TRBrace.
Proof.
  destruct v as [ | [|] | x | s | l | o]; simpl; eexists; eexists;
    (split; [reflexivity | split; discriminate]).
Qed.

Lemma parse_value_array f t r : t <> TRBracket ->
  parse_value (S f) (TLBracket :: t :: r) =
  match parse_value f (t :: r) with
  | Some (v, r1) => parse_elements f [v] r1
  | None => None
  end.
Proof. intros H. destruct t; try reflexivity. contradiction. Qed.

Lemma parse_value_object f k r :
  parse_value (S f) (TLBrace :: TString k :: TColon :: r) =
  match parse_value f r with
  | Some (v, r1) => parse_members f (obj_put k v []) r1
  | None => None
  end.
Proof. reflexivity. Qed.

Lemma parse_elements_comma f acc r :
  parse_elements (S f) acc (TComma :: r) =
  match parse_value f r with
  | Some (v, r1) => parse_elements f (acc ++ [v]) r1
  | None => None
  end.
Proof. reflexivity. Qed.

Lemma parse_members_comma f acc k r :
  parse_members (S f) acc (TComma :: TString k :: TColon :: r) =
  match parse_value f r with
  | Some (v, r1) => parse_members f (obj_put k v acc) r1
  | None => None
  end.
Proof. reflexivity. Qed.

Lemma parse_elements_tail : forall l acc ts f,
  Forall parses_back l ->
  length (tail_tokens (map tokens_of l) ++ TRBracket :: ts) < f ->
  parse_elements f acc (tail_tokens (map tokens_of l) ++ TRBracket :: ts) =
  Some (VArray (acc ++ l), ts).
Proof.
  induction l as [|w l IH]; intros acc ts f Hall Hf.
  - destruct f; [simpl in Hf; lia|]. simpl. now rewrite app_nil_r.
  - inversion Hall as [|w' l' Hw Hl]; subst.
    destruct f; [simpl in Hf; lia|].
    cbn [map tail_tokens flat_map app] in *. fold (tail_tokens (map tokens_of l)) in *.
    rewrite parse_elements_comma. rewrite <- app_assoc.
    rewrite <- app_assoc in Hf. simpl in Hf.
    rewrite Hw by lia.
    rewrite IH; auto.
    + now rewrite <- app_assoc.
    + rewrite length_app in Hf. lia.
Qed.

Lemma parse_members_tail : forall o acc ts f,
  Forall (fun kv => parses_back (snd kv)) o ->
  ordered_keys (map fst (acc ++ o)) ->
  length (tail_tokens (map member_tokens o) ++ TRBrace :: ts) < f ->
  parse_members f acc (tail_tokens (map member_tokens o) ++ TRBrace :: ts) =
  Some (VObject (acc ++ o), ts).
Proof.
  induction o as [|[k w] o IH]; intros acc ts f Hall Hord Hf.
  - destruct f; [simpl in Hf; lia|]. simpl. now rewrite app_nil_r.
  - inversion Hall as [|kv' o' Hw Ho]; subst. simpl in Hw.
    destruct f; [simpl in Hf; lia|].
    cbn [map tail_tokens flat_map member_tokens app] in *.
    fold (tail_tokens (map member_tokens o)) in *.
    rewrite parse_members_comma. rewrite <- app_assoc.
    rewrite <- app_assoc in Hf. simpl in Hf.
    rewrite Hw by lia.
    rewrite map_app in Hord. cbn [map fst] in Hord.
    destruct (ordered_keys_app _ _ _ Hord) as [Hb _].
    rewrite obj_put_append by exact Hb.
    rewrite IH; auto.
    + now rewrite <- app_assoc.
    + rewrite <- app_assoc. cbn [app]. rewrite map_app. exact Hord.
    + rewrite length_app in Hf. lia.
Qed.

Lemma obj_put_first k v : obj_put k v [] = [(k, v)].
Proof. unfold obj_put. simpl. destruct (array_index k); reflexivity. Qed.

(** The tokens of a value parse to the value. *)
Lemma parse_tokens_of : forall w, wf_value w -> parses_back w.
Proof.
  induction w as [ | b | x | s | l IH | o IH] using value_induction;
    intros Hwf ts f Hf; (destruct f; [simpl in Hf; lia|]).
  - reflexivity.
  - destruct b; reflexivity.
  - reflexivity.
  - reflexivity.
  - inversion Hwf as [ | | | | l' Hl | ]; subst.
    assert (Hall : Forall parses_back l).
    { rewrite Forall_forall in *. intros w Hw. apply IH; auto. }
    cbn [tokens_of app] in *. rewrite <- app_assoc in *. cbn [app] in *.
    destruct l as [|w l]; [reflexivity|].
    inversion Hall as [|w' l' Hw Hl']; subst.
    cbn [map] in *. rewrite join_tokens_tail in *. rewrite <- app_assoc in *.
    destruct (tokens_of_head w) as [t [r [E [Ht _]]]].
    rewrite E in *. cbn [app] in *. rewrite parse_value_array by exact Ht.
    simpl in Hf.
    change (t :: r ++ tail_tokens (map tokens_of l) ++ TRBracket :: ts)
      with ((t :: r) ++ tail_tokens (map tokens_of l) ++ TRBracket :: ts).
    rewrite <- E. rewrite Hw.
    + rewrite parse_elements_tail; auto.
      rewrite ?length_app in *. simpl in *. rewrite ?length_app in *. simpl in *. lia.
    + rewrite E. simpl. lia.
  - inversion Hwf as [ | | | | | o' Hk Ho]; subst.
    assert (Hall : Forall (fun kv => parses_back (snd kv)) o).
    { rewrite Forall_forall in *. intros w Hw. apply IH; auto. }
    cbn [tokens_of app] in *. rewrite <- app_assoc in *. cbn [app] in *.
    fold member_tokens in *.
    change (fun kv : jsstring * value =>
              let (k, v') := kv in TString k :: TColon :: tokens_of v')
      with member_tokens in *.
    destruct o as [|[k w] o]; [reflexivity|].
    inversion Hall as [|w' l' Hw Hl']; subst. simpl in Hw.
    cbn [map] in *. rewrite join_tokens_tail in *. rewrite <- app_assoc in *.
    cbn [member_tokens app] in *. rewrite parse_value_object.
    simpl in Hf. rewrite Hw by (rewrite length_app in *; simpl in *; lia).
    rewrite obj_put_first.
    rewrite parse_members_tail; auto.
    rewrite !length_app in Hf. simpl in Hf. rewrite length_app. simpl. lia.
Qed.

(** *** Array indices *)

Local Open Scope Z_scope.

Lemma isDigit_value c : isDigit c = true -> 0 <= Z.of_N c - 48 <= 9.
Proof. unfold isDigit, in_range. intros H. b2p. lia. Qed.

Lemma digits_value_nonneg l : forallb isDigit l = true -> 0 <= digits_value l.
Proof.
  induction l as [|c l IH] using rev_ind; intros H.
  - unfold digits_value. simpl. lia.
  - rewrite forallb_app in H. apply andb_true_iff in H as [H1 H2].
    simpl in H2. apply andb_true_iff in H2 as [H2 _].
    rewrite digits_value_snoc. pose proof (isDigit_value c H2). specialize (IH H1). lia.
Qed.

Lemma digits_value_pos l :
  forallb isDigit l = true -> l <> [] -> no_leading_zero l -> 0 < digits_value l.
Proof.
  induction l as [|c l IH] using rev_ind; intros H Hne Hz; [congruence|].
  rewrite forallb_app in H. apply andb_true_iff in H as [H1 H2].
  simpl in H2. apply andb_true_iff in H2 as [H2 _].
  rewrite digits_value_snoc. pose proof (isDigit_value c H2) as Hc.
  destruct l as [|d l].
  - simpl in *. apply N.eqb_neq in Hz. unfold digits_value. simpl.
    unfold ch in Hz. simpl in Hz. lia.
  - assert (0 < digits_value (d :: l)) by (apply IH; auto; discriminate). lia.
Qed.

Lemma no_leading_zero_prefix l c : no_leading_zero (l ++ [c]) -> l <> [] -> no_leading_zero l.
Proof. destruct l; simpl; auto. Qed.

Lemma digits_value_inj : forall l l',
  forallb isDigit l = true -> forallb isDigit l' = true ->
  no_leading_zero l -> no_leading_zero l' ->
  digits_value l = digits_value l' -> l = l'.
Proof.
  induction l as [|c l IH] using rev_ind; intros l' H H' Hz Hz' E.
  - destruct l' as [|c' l']; auto.
    assert (0 < digits_value (c' :: l')) by (apply digits_value_pos; auto; discriminate).
    unfold digits_value in E at 1. simpl in E. lia.
  - destruct l' as [|c' l'] using rev_ind.
    + assert (0 < digits_value (l ++ [c])).
      { apply digits_value_pos; auto. destruct l; discriminate. }
      unfold digits_value in E at 2. simpl in E. lia.
    + clear IHl'. rewrite !digits_value_snoc in E.
      rewrite forallb_app in H, H'.
      apply andb_true_iff in H as [H1 H2]. apply andb_true_iff in H' as [H1' H2'].
      simpl in H2, H2'. apply andb_true_iff in H2 as [H2 _].
      apply andb_true_iff in H2' as [H2' _].
      pose proof (isDigit_value c H2). pose proof (isDigit_value c' H2').
      assert (El : l = l').
      { apply IH; auto.
        - destruct l; [exact I | apply (no_leading_zero_prefix _ c); auto; discriminate].
        - destruct l'; [exact I | apply (no_leading_zero_prefix _ c'); auto; discriminate].
        - lia. }
      subst l'. f_equal. f_equal. lia.
Qed.

Lemma array_index_spec k i : array_index k = Some i ->
  forallb isDigit k = true /\ digits_value k = i
  /\ (k = [ch "0"] \/ (k <> [] /\ no_leading_zero k)).
Proof.
  unfold array_index. destruct k as [|c k']; [discriminate|].
  destruct (forallb isDigit (c :: k') && (isEmpty k' || negb (N.eqb c (ch "0"))))%bool eqn:E;
    [|discriminate].
  destruct (digits_value (c :: k') <? 4294967295); [|discriminate].
  intros [= <-]. apply andb_true_iff in E as [E1 E2]. split; auto. split; auto.
  destruct (N.eqb_spec c (ch "0")) as [-> | Hc].
  - simpl in E2. rewrite orb_false_r in E2. destruct k'; [auto | discriminate].
  - right. split; [discriminate|]. simpl. now apply N.eqb_neq.
Qed.

Lemma array_index_inj k k' i :
  array_index k = Some i -> array_index k' = Some i -> k = k'.
Proof.
  intros H H'. apply array_index_spec in H as [H1 [H2 H3]].
  apply array_index_spec in H' as [H1' [H2' H3']].
  destruct H3 as [-> | [Hn Hz]]; destruct H3' as [-> | [Hn' Hz']]; auto.
  - assert (0 < digits_value k') by (apply digits_value_pos; auto).
    unfold digits_value in H2 at 1. simpl in H2. lia.
  - assert (0 < digits_value k) by (apply digits_value_pos; auto).
    unfold digits_value in H2' at 1. simpl in H2'. lia.
  - apply digits_value_inj; auto. congruence.
Qed.

(** *** Values made by the parser *)

Lemma insert_index_keys P i k v : forall o,
  P k -> Forall P (map fst o) -> Forall P (map fst (insert_index i k v o)).
Proof.
  induction o as [|[k' v'] o IH]; intros Hk Ho; cbn [insert_index map fst].
  - constructor; auto.
  - cbn [map fst] in Ho. inversion Ho; subst. destruct (array_index k') as [j|].
    + destruct (j <? i); cbn [map fst]; repeat (constructor; auto).
    + cbn [map fst]. repeat (constructor; auto).
Qed.

Lemma insert_index_ordered i k v : array_index k = Some i ->
  forall o, ordered_keys (map fst o) -> Forall (fun k' => k <> k') (map fst o) ->
  ordered_keys (map fst (insert_index i k v o)).
Proof.
  intros Hk. induction o as [|[k' v'] o IH]; intros Hord Hnew; simpl.
  - auto.
  - simpl in Hord. destruct Hord as [H1 H2]. inversion Hnew as [|x l Hne Hrest]; subst.
    simpl in Hne.
    assert (Hafter : forall j, array_index k' = Some j -> ~ j < i ->
                     Forall (key_before k) (k' :: map fst o)).
    { intros j Hj Hji. constructor.
      - split; auto. rewrite Hk, Hj.
        destruct (Z.eq_dec i j) as [->|]; [|lia].
        exfalso. apply Hne. eapply array_index_inj; eauto.
      - rewrite Forall_forall in *. intros k2 Hk2.
        destruct (H1 k2 Hk2) as [_ Hb]. rewrite Hj in Hb. split; [auto|].
        rewrite Hk. destruct (array_index k2); auto. lia. }
    destruct (array_index k') as [j|] eqn:Ej.
    + destruct (Z.ltb_spec j i).
      * simpl. split; [|apply IH; auto].
        apply insert_index_keys; auto.
        split; [congruence|]. rewrite Ej, Hk. exact H.
      * simpl. split; [apply (Hafter j); auto; lia|]. simpl. auto.
    + simpl. split; [|simpl; auto].
      constructor.
      * split; auto. rewrite Hk, Ej. exact I.
      * rewrite Forall_forall in *. intros k2 Hk2.
        destruct (H1 k2 Hk2) as [_ Hb]. rewrite Ej in Hb. split; [auto|].
        rewrite Hk. destruct (array_index k2); [contradiction | exact I].
Qed.

Lemma ordered_keys_snoc ks k :
  ordered_keys ks -> JSON.array_index k = None -> Forall (fun k' => k <> k') ks ->
  ordered_keys (ks ++ [k]).
Proof.
  intros Hord Hk Hnew. induction ks as [|a ks IH]; simpl; auto.
  simpl in Hord. destruct Hord as [H1 H2]. inversion Hnew; subst.
  split; [|apply IH; auto].
  rewrite Forall_app. split; auto. constructor; auto.
  split; [congruence|]. rewrite Hk. destruct (array_index a); exact I.
Qed.

Lemma obj_put_ordered k v o :
  ordered_keys (map fst o) -> ordered_keys (map fst (obj_put k v o)).
Proof.
  intros Hord. unfold obj_put. destruct (has_key k o) eqn:Eh.
  - now rewrite set_existing_keys.
  - apply has_key_false in Eh. destruct (array_index k) as [i|] eqn:Ek.
    + now apply insert_index_ordered.
    + rewrite map_app. simpl. now apply ordered_keys_snoc.
Qed.

Lemma obj_put_values (P : value -> Prop) k v o :
  P v -> Forall (fun kv => P (snd kv)) o -> Forall (fun kv => P (snd kv)) (obj_put k v o).
Proof.
  intros Hv Ho. unfold obj_put. destruct (has_key k o).
  - induction o as [|[k' v'] o IH]; simpl; auto.
    inversion Ho; subst. destruct (key_eqb k k'); constructor; auto.
  - destruct (array_index k) as [i|].
    + induction o as [|[k' v'] o IH]; simpl.
      * constructor; auto.
      * inversion Ho; subst. destruct (array_index k') as [j|].
        -- destruct (j <? i); constructor; auto.
        -- constructor; auto.
    + rewrite Forall_app. split; auto.
Qed.

Lemma span_all p s : forallb p (fst (span p s)) = true.
Proof.
  induction s as [|c s IH]; simpl; auto.
  destruct (p c) eqn:E; simpl; auto.
  destruct (span p s) as [a b]. simpl in *. now rewrite E, IH.
Qed.

Lemma lex_int_digits s int r : lex_int s = Some (int, r) -> forallb isDigit int = true.
Proof.
  unfold lex_int. destruct s as [|c s1]; [discriminate|].
  destruct (N.eqb_spec c (ch "0")) as [-> | Hc]; [intros [= <- <-]; reflexivity|].
  destruct (isDigit c) eqn:E; [|discriminate].
  pose proof (span_all isDigit s1). destruct (span isDigit s1) as [a b].
  intros [= <- <-]. simpl in *. now rewrite E.
Qed.

Lemma lex_fraction_digits s fr r :
  lex_fraction s = Some (fr, r) -> forallb isDigit fr = true.
Proof.
  unfold lex_fraction. destruct s as [|c s1]; [intros [= <- <-]; reflexivity|].
  destruct (N.eqb c (ch ".")); [|intros [= <- <-]; reflexivity].
  pose proof (span_all isDigit s1). destruct (span isDigit s1) as [a b].
  destruct (isEmpty a); [discriminate|]. intros [= <- <-]. assumption.
Qed.

Lemma of_decimal_wf neg M E : 0 <= M -> wf_number (of_decimal neg M E).
Proof.
  intros H. unfold of_decimal. apply to_double_wf.
  - pose proof (pow10_pos E). nia.
  - apply pow10_pos.
Qed.

Lemma lex_number_wf s x r : lex_number s = Some (x, r) -> wf_number x.
Proof.
  unfold lex_number.
  assert (H : forall neg s0,
            match lex_int s0 with
            | None => None
            | Some (int, s1) =>
                match lex_fraction s1 with
                | None => None
                | Some (frac, s2) =>
                    match lex_exponent s2 with
                    | None => None
                    | Some (eneg, ed, s3) => Some (of_literal neg int frac eneg ed, s3)
                    end
                end
            end = Some (x, r) -> wf_number x).
  { intros neg s0. destruct (lex_int s0) as [[int s1]|] eqn:E1; [|discriminate].
    destruct (lex_fraction s1) as [[frac s2]|] eqn:E2; [|discriminate].
    destruct (lex_exponent s2) as [[[eneg ed] s3]|] eqn:E3; [|discriminate].
    intros [= <- <-]. unfold of_literal. apply of_decimal_wf.
    apply digits_value_nonneg. rewrite forallb_app.
    now rewrite (lex_int_digits _ _ _ E1), (lex_fraction_digits _ _ _ E2). }
  destruct s as [|c s']; [apply (H false [])|].
  destruct (N.eqb c (ch "-")); apply H.
Qed.

Lemma cons_tok_some t r ts : cons_tok t r = Some ts ->
  exists ts', r = Some ts' /\ ts = t :: ts'.
Proof. destruct r; simpl; [intros [= <-]; eauto | discriminate]. Qed.

Lemma lex_wf : forall f s ts, lex f s = Some ts -> Forall token_wf ts.
Proof.
  induction f as [|f IH]; intros s ts H; [discriminate|].
  destruct s as [|c s']; [injection H as <-; constructor|].
  rewrite lex_cons in H.
  destruct (isJSONWhiteSpace c); [eauto|].
  destruct (punctuator c) as [t|] eqn:Ep.
  { apply cons_tok_some in H as [ts' [H ->]]. constructor; eauto.
    unfold punctuator in Ep.
    repeat match type of Ep with
    | (if ?b then _ else _) = _ => destruct b; [injection Ep as <-; exact I|]
    end. discriminate. }
  destruct (N.eqb c dquote).
  { destruct (lex_string s') as [[v r]|]; [|discriminate].
    apply cons_tok_some in H as [ts' [H ->]]. constructor; [exact I | eauto]. }
  destruct (N.eqb c (ch "-") || isDigit c)%bool.
  { destruct (lex_number (c :: s')) as [[x r]|] eqn:E; [|discriminate].
    apply cons_tok_some in H as [ts' [H ->]]. constructor; eauto.
    simpl. eapply lex_number_wf; eauto. }
  destruct (keyword (c :: s')) as [[t r]|] eqn:E; [|discriminate].
  apply cons_tok_some in H as [ts' [H ->]]. constructor; eauto.
  unfold keyword in E.
  repeat match type of E with
  | match ?o with Some _ => _ | None => _ end = _ =>
      destruct o; [injection E as <- _; exact I|]
  end. discriminate.
Qed.

Lemma parse_value_bracket f r :
  parse_value (S f) (TLBracket :: r) =
  match r with
  | TRBracket :: r' => Some (VArray [], r')
  | _ => match parse_value f r with
         | Some (v, r1) => parse_elements f [v] r1
         | None => None
         end
  end.
Proof. destruct r as [|t r]; [reflexivity|]. destruct t; reflexivity. Qed.

(** The parser builds well-formed values. *)
Lemma parse_wf : forall f,
  (forall ts v r, Forall token_wf ts -> parse_value f ts = Some (v, r) ->
                  wf_value v /\ Forall token_wf r) /\
  (forall acc ts v r, Forall token_wf ts -> Forall wf_value acc ->
                      parse_elements f acc ts = Some (v, r) ->
                      wf_value v /\ Forall token_wf r) /\
  (forall acc ts v r, Forall token_wf ts -> ordered_keys (map fst acc) ->
                      Forall (fun kv => wf_value (snd kv)) acc ->
                      parse_members f acc ts = Some (v, r) ->
                      wf_value v /\ Forall token_wf r).
Proof.
  induction f as [|f [IHv [IHe IHm]]].
  - repeat split; discriminate.
  - split; [|split].
    + intros ts v r Hts H. destruct ts as [|t ts]; [discriminate|].
      inversion Hts as [|t' ts' Ht Hts']; subst.
      destruct t; try discriminate.
      * (* object *)
        destruct ts as [|t2 ts]; [discriminate|].
        inversion Hts' as [|t2' ts2 Ht2 Hts2]; subst.
        destruct t2; try discriminate.
        -- injection H as <- <-. split; auto. constructor; simpl; auto.
        -- destruct ts as [|t3 ts]; [discriminate|].
           inversion Hts2 as [|t3' ts3 Ht3 Hts3]; subst.
           destruct t3; try discriminate.
           cbn [parse_value] in H.
           destruct (parse_value f ts) as [[v1 r1]|] eqn:E; [|discriminate].
           destruct (IHv _ _ _ Hts3 E) as [Hv1 Hr1].
           apply (IHm _ _ _ _ Hr1) in H; auto.
           ++ apply obj_put_ordered. exact I.
           ++ apply obj_put_values; auto.
      * (* array *)
        rewrite parse_value_bracket in H.
        assert (Hgen : match parse_value f ts with
                       | Some (v1, r1) => parse_elements f [v1] r1
                       | None => None
                       end = Some (v, r) -> wf_value v /\ Forall token_wf r).
        { destruct (parse_value f ts) as [[v1 r1]|] eqn:E; [|discriminate].
          destruct (IHv _ _ _ Hts' E) as [Hv1 Hr1]. intros H'.
          apply (IHe _ _ _ _ Hr1) in H'; auto. }
        destruct ts as [|t2 ts]; [auto|].
        destruct t2; auto.
        injection H as <- <-. inversion Hts'; subst. split; auto.
        constructor. constructor.
      * injection H as <- <-. split; auto. constructor.
      * injection H as <- <-. split; auto. constructor. exact Ht.
      * injection H as <- <-. split; auto. constructor.
      * injection H as <- <-. split; auto. constructor.
      * injection H as <- <-. split; auto. constructor.
    + intros acc ts v r Hts Hacc H. destruct ts as [|t ts]; [discriminate|].
      inversion Hts as [|t' ts' Ht Hts']; subst.
      destruct t; try discriminate.
      * injection H as <- <-. split; auto. constructor. exact Hacc.
      * cbn [parse_elements] in H.
        destruct (parse_value f ts) as [[v1 r1]|] eqn:E; [|discriminate].
        destruct (IHv _ _ _ Hts' E) as [Hv1 Hr1].
        apply (IHe _ _ _ _ Hr1) in H; auto.
        rewrite Forall_app. split; auto.
    + intros acc ts v r Hts Hord Hacc H. destruct ts as [|t ts]; [discriminate|].
      inversion Hts as [|t' ts' Ht Hts']; subst.
      destruct t; try discriminate.
      * injection H as <- <-. split; auto. constructor; auto.
      * destruct ts as [|t2 ts]; [discriminate|].
        inversion Hts' as [|t2' ts2 Ht2 Hts2]; subst.
        destruct t2; try discriminate.
        destruct ts as [|t3 ts]; [discriminate|].
        inversion Hts2 as [|t3' ts3 Ht3 Hts3]; subst.
        destruct t3; try discriminate.
        cbn [parse_members] in H.
        destruct (parse_value f ts) as [[v1 r1]|] eqn:E; [|discriminate].
        destruct (IHv _ _ _ Hts3 E) as [Hv1 Hr1].
        apply (IHm _ _ _ _ Hr1) in H; auto.
        -- now apply obj_put_ordered.
        -- now apply obj_put_values.
Qed.

(** *** Writing and reading back *)

Lemma parse_wf_value text v : parse text = Some v -> wf_value v.
Proof.
  unfold parse, tokens. intros H.
  destruct (lex (S (length text)) text) as [ts|] eqn:El; [|discriminate].
  destruct (parse_value (S (length ts)) ts) as [[v' r]|] eqn:Ep; [|discriminate].
  destruct r; [|discriminate]. injection H as ->.
  apply lex_wf in El. now destruct (proj1 (parse_wf _) _ _ _ El Ep).
Qed.

Lemma positive_zero_wf x : wf_number x -> wf_number (positive_zero x).
Proof.
  destruct x as [neg m e|neg]; simpl; auto.
  destruct (Z.eqb_spec m 0); simpl; auto.
Qed.

Lemma positive_zero_toString x : toString (positive_zero x) = toString x.
Proof.
  destruct x as [neg m e|neg]; simpl; auto.
  destruct (Z.eqb_spec m 0) as [->|Hm]; simpl; auto.
  destruct (Z.eqb_spec m 0); [contradiction | reflexivity].
Qed.

Lemma positive_zero_strict_eq x : isFinite x = true -> strict_eq x (positive_zero x) = true.
Proof.
  destruct x as [neg m e|neg]; simpl; [|discriminate]. intros _.
  destruct (Z.eqb_spec m 0) as [->|Hm]; simpl; auto.
  destruct (Z.eqb_spec m 0); [contradiction|]. simpl.
  now rewrite eqb_reflx, !Z.eqb_refl.
Qed.

Lemma reread_keys o :
  map fst (map (fun kv : jsstring * value => match kv with (k, v') => (k, reread v') end) o)
  = map fst o.
Proof. induction o as [|[k v] o IH]; simpl; congruence. Qed.

Lemma reread_wf : forall v, wf_value v -> wf_value (reread v).
Proof.
  induction v as [| b | x | s | l IH | o IH] using value_induction; intros H;
    cbn [reread]; try constructor.
  - inversion H; subst. destruct (isFinite x); constructor. now apply positive_zero_wf.
  - inversion H as [| | | | l' Hl |]; subst.
    rewrite Forall_forall in *. intros w Hw. apply in_map_iff in Hw as [u [<- Hu]]. auto.
  - inversion H; subst. now rewrite reread_keys.
  - inversion H as [| | | | | o' Hk Ho]; subst.
    rewrite Forall_forall in *. intros [k w] Hw. apply in_map_iff in Hw as [[k' u] [E Hu]].
    injection E as <- <-. simpl. apply (IH (k', u) Hu). apply (Ho (k', u) Hu).
Qed.

Lemma reread_stringify : forall v, stringify (reread v) = stringify v.
Proof.
  induction v as [| b | x | s | l IH | o IH] using value_induction;
    cbn [reread stringify]; auto.
  - unfold stringify_number. destruct x as [neg m e|neg]; cbn [isFinite stringify]; auto.
    unfold stringify_number. cbn [positive_zero].
    destruct (m =? 0)%Z eqn:E; cbn [isFinite]; auto.
    cbn [toString]. now rewrite E.
  - rewrite map_map. do 3 f_equal. apply map_ext_in. intros w Hw.
    rewrite Forall_forall in IH. auto.
  - rewrite map_map. do 3 f_equal. apply map_ext_in. intros [k w] Hw.
    rewrite Forall_forall in IH. f_equal. f_equal. apply (IH (k, w) Hw).
Qed.

Lemma reread_js_equal : forall v, all_finite v = true -> js_equal v (reread v) = true.
Proof.
  induction v as [| b | x | s | l IH | o IH] using value_induction; intros H;
    cbn [reread js_equal all_finite] in *; auto.
  - apply eqb_reflx.
  - rewrite H. cbn [js_equal]. now apply positive_zero_strict_eq.
  - apply key_eqb_refl.
  - induction l as [|w l IHl]; cbn [map]; auto.
    cbn [forallb] in H. apply andb_true_iff in H as [H1 H2].
    inversion IH; subst. rewrite H3, IHl; auto.
  - induction o as [|[k w] o IHo]; cbn [map]; auto.
    cbn [forallb snd] in H. apply andb_true_iff in H as [H1 H2].
    inversion IH; subst. cbn [snd] in H3. rewrite key_eqb_refl, H3, IHo; auto.
Qed.

(** [JSON.parse(JSON.stringify(v))] for a value made by [JSON.parse]. *)
Lemma parse_stringify v : wf_value v -> parse (stringify v) = Some (reread v).
Proof.
  intros Hv. unfold parse.
  pose proof (tokens_stringify v Hv [] [] eq_refl tokens_nil) as Ht.
  rewrite !app_nil_r in Ht. rewrite Ht.
  pose proof (parse_tokens_of (reread v) (reread_wf v Hv) [] (S (length (tokens_of (reread v)))))
    as Hp.
  rewrite !app_nil_r in Hp. rewrite Hp; auto.
Qed.

End JsonRoundTrip.

(** ** Minifying JSON *)

Section MinifyJson.
Import Number.
Local Open Scope list_scope.

(** The value read back equals the one written exactly when no Number in
    it is infinite. *)
Lemma reread_js_equal_finite : forall v, js_equal v (reread v) = all_finite v.
Proof.
  induction v as [| b | x | s | l IH | o IH] using value_induction;
    cbn [reread js_equal all_finite] in *; auto.
  - apply eqb_reflx.
  - destruct (isFinite x) eqn:E; cbn [js_equal]; auto.
    now apply positive_zero_strict_eq.
  - apply key_eqb_refl.
  - induction l as [|w l IHl]; cbn [map forallb]; auto.
    inversion IH; subst. rewrite H1, IHl; auto.
  - induction o as [|[k w] o IHo]; cbn [map forallb snd]; auto.
    inversion IH; subst. cbn [snd] in H1. rewrite key_eqb_refl, H1, IHo; auto.
Qed.

Lemma parse_not_blank text v : JSON.parse text = Some v -> isEmpty (trim text) = false.
Proof.
  intros H. destruct (trim text) eqn:E; [|reflexivity].
  apply parse_blank in E. congruence.
Qed.

Lemma minify_json_parsed text v :
  JSON.parse text = Some v -> minifyCode text JSON = Return (stringify v).
Proof.
  intros H. unfold minifyCode. now rewrite (parse_not_blank _ _ H), H.
Qed.

(** C4, as stated, fails on a number literal beyond the binary64 range:
    ["1e400"] is read as [Infinity], written as ["null"] and read back as
    [null]. *)
Lemma minify_json_overflow :
  ~ (forall t v, JSON.parse t = Some v ->
       exists out w, minifyCode t JSON = Return out /\ JSON.parse out = Some w
                     /\ js_equal v w = true).
Proof.
  intros H.
  destruct (H (str "1e400") (VNumber (Infinity false)) eq_refl) as [out [w [Hm [Hp He]]]].
  vm_compute in Hm. injection Hm as <-.
  vm_compute in Hp. injection Hp as <-. discriminate He.
Qed.

(** C4 (amended): on every valid JSON text [minifyCode] returns; minifying
    its output again returns the same output; the output parses to the
    value read from the text with [-0] as [0] and an infinite Number as
    [null], which is structurally equal to the value read from the text
    exactly when no Number in it is infinite. *)
Theorem minify_json_round_trip (t : jsstring) (v : value) :
  JSON.parse t = Some v ->
  exists out,
    minifyCode t JSON = Return out
    /\ minifyCode out JSON = Return out
    /\ JSON.parse out = Some (reread v)
    /\ js_equal v (reread v) = all_finite v.
Proof.
  intros H. exists (stringify v).
  pose proof (parse_stringify v (parse_wf_value t v H)) as Hp.
  repeat split.
  - now apply minify_json_parsed.
  - rewrite (minify_json_parsed _ _ Hp). now rewrite reread_stringify.
  - exact Hp.
  - apply reread_js_equal_finite.
Qed.

Lemma minify_json_round_trip_witness :
  let t := strq "{'b': [1, 2.50, -0], 'a': true}" in
  let v := VObject [(str "b", VArray [VNumber (of_decimal false 1 0);
                                      VNumber (of_decimal false 250 (-2));
                                      VNumber (of_decimal true 0 0)]);
                    (str "a", VBool true)] in
  JSON.parse t = Some v
  /\ exists out,
    minifyCode t JSON = Return out
    /\ minifyCode out JSON = Return out
    /\ JSON.parse out = Some (reread v)
    /\ js_equal v (reread v) = all_finite v.
Proof.
  split; [vm_compute; reflexivity|].
  apply (minify_json_round_trip (strq "{'b': [1, 2.50, -0], 'a': true}")).
  vm_compute; reflexivity.
Defined.

(** The output for that text: the spaces and the trailing zero go, and
    [-0] is written as [0]. *)
Example minify_json_example :
  minifyCode (strq "{'b': [1, 2.50, -0], 'a': true}") JSON
  = Return (strq "{'b':[1,2.5,0],'a':true}").
Proof. vm_compute. reflexivity. Qed.

(** Only the Numbers of the value that was read count: a literal beyond
    the range under a key that comes again is replaced by the later member
    and leaves no trace. *)
Example minify_json_duplicate_key :
  JSON.parse (strq "{'a':1e400,'a':1}")
  = Some (VObject [(str "a", VNumber (of_decimal false 1 0))])
  /\ minifyCode (strq "{'a':1e400,'a':1}") JSON = Return (strq "{'a':1}")
  /\ minifyCode (strq "{'a':1,'b':1e400}") JSON = Return (strq "{'a':1,'b':null}").
Proof. vm_compute. repeat split. Qed.

End MinifyJson.

(** ** Detecting JSON *)

Section DetectJson.
Import Number.
Local Open Scope list_scope.

(** *** White space after the last token *)

Lemma hex_value_not_ws (c : char) x : hex_value c = Some x -> isWhiteSpace c = false.
Proof.
  unfold hex_value. intros H. destruct (isWhiteSpace c) eqn:E; [|reflexivity].
  exfalso.
  repeat match type of H with
  | (if ?b then _ else _) = _ => destruct b eqn:?; [char_lia|]
  end. discriminate.
Qed.

Lemma hex4_not_ws (a b c d : char) u : hex4_value a b c d = Some u ->
  isWhiteSpace a = false /\ isWhiteSpace b = false
  /\ isWhiteSpace c = false /\ isWhiteSpace d = false.
Proof.
  unfold hex4_value. intros H.
  destruct (hex_value a) eqn:Ea; [|discriminate].
  destruct (hex_value b) eqn:Eb; [|discriminate].
  destruct (hex_value c) eqn:Ec; [|discriminate].
  destruct (hex_value d) eqn:Ed; [|discriminate].
  repeat split; eapply hex_value_not_ws; eassumption.
Qed.

Lemma unescape_ws (e : char) : isWhiteSpace e = true -> unescape e = None.
Proof. intros H. unfold unescape. eqb_false. reflexivity. Qed.

Lemma lex_string_ws (r : jsstring) : forallb isWhiteSpace r = true -> lex_string r = None.
Proof.
  induction r as [|c r IH]; intros H; [reflexivity|].
  simpl in H. apply andb_true_iff in H as [Hc Hr]. cbn [lex_string].
  destruct (N.eqb c dquote) eqn:E1; [exfalso; char_lia|].
  destruct (N.eqb c backslash) eqn:E2; [exfalso; char_lia|].
  destruct (N.ltb c 32%N); [reflexivity|]. now rewrite IH.
Qed.

(** A string token does not end in the white space after the text. *)
Lemma lex_string_trail : forall n (a r : jsstring) v r0, length a <= n ->
  forallb isWhiteSpace r = true -> lex_string (a ++ r) = Some (v, r0) ->
  exists r0', r0 = r0' ++ r /\ lex_string a = Some (v, r0').
Proof.
  induction n as [|n IH]; intros a r v r0 Hn Hr H.
  - destruct a; [|simpl in Hn; lia]. simpl in H. now rewrite lex_string_ws in H.
  - destruct a as [|c a1]; [simpl in H; now rewrite lex_string_ws in H|].
    simpl in Hn. cbn [app lex_string] in *.
    destruct (N.eqb c dquote); [injection H as <- <-; eauto|].
    destruct (N.eqb c backslash).
    + destruct a1 as [|e a2].
      * exfalso. destruct r as [|e r2]; [discriminate|]. cbn [app] in H.
        simpl in Hr. apply andb_true_iff in Hr as [He Hr2].
        destruct (N.eqb e (ch "u")) eqn:Eu; [char_lia|].
        now rewrite (unescape_ws e He) in H.
      * cbn [app] in H. destruct (N.eqb e (ch "u")).
        -- destruct a2 as [|h1 [|h2 [|h3 [|h4 a3]]]]; cbn [app] in H.
           5: { destruct (hex4_value h1 h2 h3 h4); [|discriminate].
                apply cons_fst_some in H as [v' [H ->]].
                apply IH in H as [r0' [-> H]]; [|simpl in *; lia | assumption].
                exists r0'. now rewrite H. }
           all: exfalso.
           ++ destruct r as [|x1 [|x2 [|x3 [|x4 r']]]]; try discriminate.
              destruct (hex4_value x1 x2 x3 x4) eqn:E; [|discriminate].
              apply hex4_not_ws in E as (E1 & E2 & E3 & E4).
              simpl in Hr. rewrite E1 in Hr. discriminate.
           ++ destruct r as [|x1 [|x2 [|x3 r']]]; try discriminate.
              destruct (hex4_value h1 x1 x2 x3) eqn:E; [|discriminate].
              apply hex4_not_ws in E as (E1 & E2 & E3 & E4).
              simpl in Hr. rewrite E2 in Hr. discriminate.
           ++ destruct r as [|x1 [|x2 r']]; try discriminate.
              destruct (hex4_value h1 h2 x1 x2) eqn:E; [|discriminate].
              apply hex4_not_ws in E as (E1 & E2 & E3 & E4).
              simpl in Hr. rewrite E3 in Hr. discriminate.
           ++ destruct r as [|x1 r']; try discriminate.
              destruct (hex4_value h1 h2 h3 x1) eqn:E; [|discriminate].
              apply hex4_not_ws in E as (E1 & E2 & E3 & E4).
              simpl in Hr. rewrite E4 in Hr. discriminate.
        -- destruct (unescape e); [|discriminate].
           apply cons_fst_some in H as [v' [H ->]].
           apply IH in H as [r0' [-> H]]; [|simpl in *; lia | assumption].
           exists r0'. now rewrite H.
    + destruct (N.ltb c 32%N); [discriminate|].
      apply cons_fst_some in H as [v' [H ->]].
      apply IH in H as [r0' [-> H]]; [|lia | assumption].
      exists r0'. now rewrite H.
Qed.

Lemma ws_no_digit (r : jsstring) : forallb isWhiteSpace r = true -> no_digit r.
Proof.
  destruct r as [|c r]; simpl; auto. intros H. apply andb_true_iff in H as [Hc _].
  destruct (isDigit c) eqn:E; [exfalso; char_lia | reflexivity].
Qed.

Lemma span_trail (a r : jsstring) : no_digit r ->
  span isDigit (a ++ r) = (fst (span isDigit a), snd (span isDigit a) ++ r).
Proof.
  intros Hr. induction a as [|c a IH]; cbn [app span].
  - destruct r as [|c r]; [reflexivity|]. simpl in *. now rewrite Hr.
  - destruct (isDigit c); [|reflexivity]. rewrite IH.
    destruct (span isDigit a) as [x y]. reflexivity.
Qed.

Lemma lex_int_trail (a r : jsstring) i r0 : forallb isWhiteSpace r = true ->
  lex_int (a ++ r) = Some (i, r0) ->
  exists r0', r0 = r0' ++ r /\ lex_int a = Some (i, r0').
Proof.
  intros Hr H. pose proof (ws_no_digit r Hr) as Hd.
  destruct a as [|c a1].
  - exfalso. destruct r as [|c r']; [discriminate|].
    cbn [app lex_int] in H. cbn [no_digit] in Hd. cbn [forallb] in Hr.
    apply andb_true_iff in Hr as [Hc _].
    destruct (N.eqb c (ch "0")) eqn:E; [char_lia|]. now rewrite Hd in H.
  - cbn [app lex_int] in *. destruct (N.eqb c (ch "0")); [injection H as <- <-; eauto|].
    destruct (isDigit c); [|discriminate].
    rewrite (span_trail a1 r Hd) in H. destruct (span isDigit a1) as [x y].
    injection H as <- <-. eauto.
Qed.

Lemma lex_fraction_trail (a r : jsstring) fr r0 : forallb isWhiteSpace r = true ->
  lex_fraction (a ++ r) = Some (fr, r0) ->
  exists r0', r0 = r0' ++ r /\ lex_fraction a = Some (fr, r0').
Proof.
  intros Hr H. pose proof (ws_no_digit r Hr) as Hd.
  destruct a as [|c a1].
  - assert (E : fr = [] /\ r0 = r).
    { destruct r as [|c r']; [now injection H as <- <-|].
      cbn [app lex_fraction] in H. cbn [forallb] in Hr.
      apply andb_true_iff in Hr as [Hc _].
      destruct (N.eqb c (ch ".")) eqn:E; [exfalso; char_lia|]. now injection H as <- <-. }
    destruct E as [-> ->]. exists []. auto.
  - cbn [app lex_fraction] in *. destruct (N.eqb c (ch "."));
      [|injection H as <- <-; exists (c :: a1); split; reflexivity].
    rewrite (span_trail a1 r Hd) in H. destruct (span isDigit a1) as [x y].
    cbn [fst snd] in H. destruct (isEmpty x); [discriminate|].
    injection H as <- <-. eauto.
Qed.

Lemma lex_exponent_trail (a r : jsstring) (eneg : bool) ed r0 :
  forallb isWhiteSpace r = true ->
  lex_exponent (a ++ r) = Some (eneg, ed, r0) ->
  exists r0', r0 = r0' ++ r /\ lex_exponent a = Some (eneg, ed, r0').
Proof.
  intros Hr H. pose proof (ws_no_digit r Hr) as Hd.
  assert (Hhead : forall c r', r = c :: r' ->
            (N.eqb c (ch "e") || N.eqb c (ch "E"))%bool = false
            /\ N.eqb c (ch "-") = false /\ N.eqb c (ch "+") = false).
  { intros c r' ->. cbn [forallb] in Hr. apply andb_true_iff in Hr as [Hc _].
    repeat split.
    - destruct (N.eqb c (ch "e") || N.eqb c (ch "E"))%bool eqn:E; [exfalso; char_lia | reflexivity].
    - destruct (N.eqb c (ch "-")) eqn:E; [exfalso; char_lia | reflexivity].
    - destruct (N.eqb c (ch "+")) eqn:E; [exfalso; char_lia | reflexivity]. }
  destruct a as [|c a1].
  - exists []. cbn [app] in *. destruct r as [|c r'].
    + injection H as <- <- <-. auto.
    + destruct (Hhead c r' eq_refl) as (He & _). cbn [lex_exponent] in H.
      rewrite He in H. injection H as <- <- <-. auto.
  - cbn [app lex_exponent] in *.
    destruct (N.eqb c (ch "e") || N.eqb c (ch "E"))%bool;
      [|injection H as <- <- <-; exists (c :: a1); split; reflexivity].
    destruct a1 as [|g a1'].
    + exfalso. cbn [app] in H. destruct r as [|g r'].
      * discriminate.
      * destruct (Hhead g r' eq_refl) as (_ & Hm & Hp). rewrite Hm, Hp in H.
        cbn [no_digit] in Hd. cbn [span] in H. rewrite Hd in H. discriminate.
    + cbn [app] in H.
      destruct (N.eqb g (ch "-")).
      { rewrite (span_trail a1' r Hd) in H. destruct (span isDigit a1') as [x y].
        cbn [fst snd] in H. destruct (isEmpty x); [discriminate|].
        injection H as <- <- <-. eauto. }
      destruct (N.eqb g (ch "+")).
      { rewrite (span_trail a1' r Hd) in H. destruct (span isDigit a1') as [x y].
        cbn [fst snd] in H. destruct (isEmpty x); [discriminate|].
        injection H as <- <- <-. eauto. }
      change (g :: a1' ++ r) with ((g :: a1') ++ r) in H.
      rewrite (span_trail (g :: a1') r Hd) in H. destruct (span isDigit (g :: a1')) as [x y].
      cbn [fst snd] in H. destruct (isEmpty x); [discriminate|].
      injection H as <- <- <-. eauto.
Qed.

Lemma lex_number_trail (a r : jsstring) x r0 :
  a <> [] -> forallb isWhiteSpace r = true ->
  lex_number (a ++ r) = Some (x, r0) ->
  exists r0', r0 = r0' ++ r /\ lex_number a = Some (x, r0').
Proof.
  intros Ha Hr H.
  assert (Hgen : forall neg a0,
    match lex_int (a0 ++ r) with
    | None => None
    | Some (int, s1) =>
        match lex_fraction s1 with
        | None => None
        | Some (frac, s2) =>
            match lex_exponent s2 with
            | None => None
            | Some (eneg, ed, s3) => Some (of_literal neg int frac eneg ed, s3)
            end
        end
    end = Some (x, r0) ->
    exists r0', r0 = r0' ++ r /\
    match lex_int a0 with
    | None => None
    | Some (int, s1) =>
        match lex_fraction s1 with
        | None => None
        | Some (frac, s2) =>
            match lex_exponent s2 with
            | None => None
            | Some (eneg, ed, s3) => Some (of_literal neg int frac eneg ed, s3)
            end
        end
    end = Some (x, r0')).
  { intros neg a0 H0.
    destruct (lex_int (a0 ++ r)) as [[int s1]|] eqn:E1; [|discriminate].
    apply lex_int_trail in E1 as [s1' [-> E1]]; [|assumption].
    destruct (lex_fraction (s1' ++ r)) as [[frac s2]|] eqn:E2; [|discriminate].
    apply lex_fraction_trail in E2 as [s2' [-> E2]]; [|assumption].
    destruct (lex_exponent (s2' ++ r)) as [[[eneg ed] s3]|] eqn:E3; [|discriminate].
    apply lex_exponent_trail in E3 as [s3' [-> E3]]; [|assumption].
    injection H0 as <- <-. exists s3'. now rewrite E1, E2, E3. }
  destruct a as [|c a1]; [congruence|].
  unfold lex_number in *. cbn [app] in H.
  destruct (N.eqb c (ch "-")); [apply Hgen; assumption|].
  apply (Hgen false (c :: a1)). assumption.
Qed.

Lemma strip_prefix_trail (w : jsstring) : forall (a r r0 : jsstring),
  forallb isWhiteSpace w = false \/ w = [] ->
  Forall (fun c => isWhiteSpace c = false) w ->
  forallb isWhiteSpace r = true ->
  strip_prefix w (a ++ r) = Some r0 ->
  exists r0', r0 = r0' ++ r /\ strip_prefix w a = Some r0'.
Proof.
  induction w as [|x w IH]; intros a r r0 _ Hw Hr H.
  - simpl in H. injection H as <-. exists a. auto.
  - inversion Hw as [|x' w' Hx Hw']; subst. destruct a as [|b a1].
    + exfalso. destruct r as [|b r']; [discriminate|]. cbn [app strip_prefix] in H.
      cbn [forallb] in Hr. apply andb_true_iff in Hr as [Hb _].
      destruct (N.eqb_spec x b) as [->|]; [congruence | discriminate].
    + cbn [app strip_prefix] in *. destruct (N.eqb x b); [|discriminate].
      apply IH in H; auto. destruct w; [now right | left].
      inversion Hw' as [|y w2 Hy _]; subst. simpl. now rewrite Hy.
Qed.

Lemma strip_prefix_app (w : jsstring) : forall (a r r0 : jsstring),
  strip_prefix w a = Some r0 -> strip_prefix w (a ++ r) = Some (r0 ++ r).
Proof.
  induction w as [|x w IH]; intros a r r0 H.
  - simpl in *. now injection H as <-.
  - destruct a as [|b a1]; [discriminate|]. cbn [app strip_prefix] in *.
    destruct (N.eqb x b); [auto | discriminate].
Qed.

Lemma keyword_trail (a r : jsstring) t r0 :
  forallb isWhiteSpace r = true -> keyword (a ++ r) = Some (t, r0) ->
  exists r0', r0 = r0' ++ r /\ keyword a = Some (t, r0').
Proof.
  intros Hr H. unfold keyword in *.
  assert (Hw : forall w, In w [str "true"; str "false"; str "null"] ->
            forall r1, strip_prefix w (a ++ r) = Some r1 ->
            exists r0', r1 = r0' ++ r /\ strip_prefix w a = Some r0').
  { intros w Hin r1 H1. apply strip_prefix_trail in H1; auto.
    - destruct Hin as [<-|[<-|[<-|[]]]]; left; reflexivity.
    - destruct Hin as [<-|[<-|[<-|[]]]]; repeat constructor. }
  assert (Hn : forall w, strip_prefix w (a ++ r) = None -> strip_prefix w a = None).
  { intros w H1. destruct (strip_prefix w a) eqn:E; [|reflexivity].
    apply (strip_prefix_app w a r) in E. congruence. }
  destruct (strip_prefix (str "true") (a ++ r)) eqn:E1.
  { injection H as <- <-. apply Hw in E1 as [r0' [-> E1]]; [|simpl; auto].
    exists r0'. now rewrite E1. }
  rewrite (Hn _ E1).
  destruct (strip_prefix (str "false") (a ++ r)) eqn:E2.
  { injection H as <- <-. apply Hw in E2 as [r0' [-> E2]]; [|simpl; auto].
    exists r0'. now rewrite E2. }
  rewrite (Hn _ E2).
  destruct (strip_prefix (str "null") (a ++ r)) eqn:E3; [|discriminate].
  injection H as <- <-. apply Hw in E3 as [r0' [-> E3]]; [|simpl; auto].
  exists r0'. now rewrite E3.
Qed.

(** White space after the text adds no token. *)
Lemma lex_trail : forall f (a r : jsstring) ts,
  forallb isWhiteSpace r = true -> lex f (a ++ r) = Some ts -> lex f a = Some ts.
Proof.
  induction f as [|f IH]; intros a r ts Hr H; [discriminate|].
  destruct a as [|c a1].
  - cbn [app] in H.
    destruct (lex_blank r Hr (S f)) as [E|E]; rewrite E in H;
      [discriminate | now injection H as <-].
  - cbn [app] in H. rewrite lex_cons in *.
    destruct (isJSONWhiteSpace c); [eauto|].
    destruct (punctuator c) as [t|].
    { apply cons_tok_some in H as [ts' [H ->]]. now rewrite (IH _ _ _ Hr H). }
    destruct (N.eqb c dquote).
    { destruct (lex_string (a1 ++ r)) as [[v r0]|] eqn:E; [|discriminate].
      apply (lex_string_trail (length a1)) in E as [r0' [-> E]]; auto.
      rewrite E. apply cons_tok_some in H as [ts' [H ->]]. now rewrite (IH _ _ _ Hr H). }
    destruct (N.eqb c (ch "-") || isDigit c)%bool.
    { change (c :: a1 ++ r) with ((c :: a1) ++ r) in H.
      destruct (lex_number ((c :: a1) ++ r)) as [[x r0]|] eqn:E; [|discriminate].
      apply lex_number_trail in E as [r0' [-> E]]; [|discriminate|assumption].
      rewrite E. apply cons_tok_some in H as [ts' [H ->]]. now rewrite (IH _ _ _ Hr H). }
    change (c :: a1 ++ r) with ((c :: a1) ++ r) in H.
    destruct (keyword ((c :: a1) ++ r)) as [[t r0]|] eqn:E; [|discriminate].
    apply keyword_trail in E as [r0' [-> E]]; [|assumption].
    rewrite E. apply cons_tok_some in H as [ts' [H ->]]. now rewrite (IH _ _ _ Hr H).
Qed.

Lemma tokens_trail (a r : jsstring) ts :
  forallb isWhiteSpace r = true -> tokens (a ++ r) = Some ts -> tokens a = Some ts.
Proof.
  intros Hr H. apply lex_trail in H; [|assumption].
  rewrite <- H. symmetry. apply tokens_fuel. rewrite length_app. lia.
Qed.

(** White space of [trim] before the text is skipped as JSON white space,
    or the text is rejected. *)
Lemma tokens_lead : forall (l s : jsstring) ts,
  forallb isWhiteSpace l = true -> tokens (l ++ s) = Some ts -> tokens s = Some ts.
Proof.
  induction l as [|c l IH]; intros s ts Hl H; [assumption|].
  unfold tokens in H. cbn [app length] in H. rewrite lex_cons in H.
  change (lex (S (length (l ++ s))) (l ++ s)) with (tokens (l ++ s)) in H.
  cbn [forallb] in Hl. apply andb_true_iff in Hl as [Hc Hl].
  destruct (isJSONWhiteSpace c); [auto|].
  rewrite (ws_not_punct c Hc) in H.
  destruct (N.eqb c dquote) eqn:E1; [exfalso; char_lia|].
  destruct (N.eqb c (ch "-") || isDigit c)%bool eqn:E2; [exfalso; char_lia|].
  now rewrite (ws_not_keyword c _ Hc) in H.
Qed.

(** *** The first and the last character of a JSON text *)

Lemma json_ws_is_ws (c : char) : isWhiteSpace c = false -> isJSONWhiteSpace c = false.
Proof.
  intros H. destruct (isJSONWhiteSpace c) eqn:E; [exfalso; char_lia | reflexivity].
Qed.

Lemma lex_string_suffix : forall n (s : jsstring) v r, length s <= n ->
  lex_string s = Some (v, r) -> exists p, s = p ++ r.
Proof.
  induction n as [|n IH]; intros s v r Hn H.
  - destruct s; [discriminate | simpl in Hn; lia].
  - destruct s as [|c s1]; [discriminate|]. cbn [lex_string] in H. simpl in Hn.
    destruct (N.eqb c dquote); [injection H as <- <-; now exists [c]|].
    destruct (N.eqb c backslash).
    + destruct s1 as [|e s2]; [discriminate|].
      destruct (N.eqb e (ch "u")).
      * destruct s2 as [|h1 [|h2 [|h3 [|h4 s3]]]]; try discriminate.
        destruct (hex4_value h1 h2 h3 h4); [|discriminate].
        apply cons_fst_some in H as [v' [H _]].
        apply IH in H as [p ->]; [|simpl in *; lia].
        now exists (c :: e :: h1 :: h2 :: h3 :: h4 :: p).
      * destruct (unescape e); [|discriminate].
        apply cons_fst_some in H as [v' [H _]].
        apply IH in H as [p ->]; [|simpl in *; lia].
        now exists (c :: e :: p).
    + destruct (N.ltb c 32%N); [discriminate|].
      apply cons_fst_some in H as [v' [H _]].
      apply IH in H as [p ->]; [|lia]. now exists (c :: p).
Qed.

Lemma span_suffix (s : jsstring) a b : span isDigit s = (a, b) -> s = a ++ b.
Proof. intros H. rewrite <- (span_split isDigit s), H. reflexivity. Qed.

Lemma lex_number_suffix (s : jsstring) x r :
  lex_number s = Some (x, r) -> exists p, s = p ++ r.
Proof.
  assert (Hint : forall s0 int s1, lex_int s0 = Some (int, s1) -> exists p, s0 = p ++ s1).
  { intros s0 int s1 H. destruct s0 as [|c s0]; [discriminate|]. cbn [lex_int] in H.
    destruct (N.eqb c (ch "0")); [injection H as <- <-; now exists [c]|].
    destruct (isDigit c); [|discriminate].
    destruct (span isDigit s0) as [a b] eqn:E. injection H as <- <-.
    apply span_suffix in E as ->. now exists (c :: a). }
  assert (Hfr : forall s1 fr s2, lex_fraction s1 = Some (fr, s2) -> exists p, s1 = p ++ s2).
  { intros s1 fr s2 H. destruct s1 as [|c s1]; [injection H as <- <-; now exists []|].
    cbn [lex_fraction] in H.
    destruct (N.eqb c (ch ".")); [|injection H as <- <-; now exists []].
    destruct (span isDigit s1) as [a b] eqn:E. destruct (isEmpty a); [discriminate|].
    injection H as <- <-. apply span_suffix in E as ->. now exists (c :: a). }
  assert (Hex : forall s2 (eneg : bool) ed s3,
            lex_exponent s2 = Some (eneg, ed, s3) -> exists p, s2 = p ++ s3).
  { intros s2 eneg ed s3 H. destruct s2 as [|c s2]; [injection H as <- <- <-; now exists []|].
    cbn [lex_exponent] in H.
    destruct (N.eqb c (ch "e") || N.eqb c (ch "E"))%bool;
      [|injection H as <- <- <-; now exists []].
    destruct s2 as [|g s2'].
    - discriminate.
    - destruct (N.eqb g (ch "-")).
      { destruct (span isDigit s2') as [a b] eqn:E. destruct (isEmpty a); [discriminate|].
        injection H as <- <- <-. apply span_suffix in E as ->. now exists (c :: g :: a). }
      destruct (N.eqb g (ch "+")).
      { destruct (span isDigit s2') as [a b] eqn:E. destruct (isEmpty a); [discriminate|].
        injection H as <- <- <-. apply span_suffix in E as ->. now exists (c :: g :: a). }
      destruct (span isDigit (g :: s2')) as [a b] eqn:E. destruct (isEmpty a); [discriminate|].
      injection H as <- <- <-. apply span_suffix in E as ->. now exists (c :: a). }
  assert (Hgen : forall neg s0,
    match lex_int s0 with
    | None => None
    | Some (int, s1) =>
        match lex_fraction s1 with
        | None => None
        | Some (frac, s2) =>
            match lex_exponent s2 with
            | None => None
            | Some (eneg, ed, s3) => Some (of_literal neg int frac eneg ed, s3)
            end
        end
    end = Some (x, r) -> exists p, s0 = p ++ r).
  { intros neg s0 H.
    destruct (lex_int s0) as [[int s1]|] eqn:E1; [|discriminate].
    destruct (lex_fraction s1) as [[frac s2]|] eqn:E2; [|discriminate].
    destruct (lex_exponent s2) as [[[eneg ed] s3]|] eqn:E3; [|discriminate].
    injection H as <- <-.
    apply Hint in E1 as [p1 ->]. apply Hfr in E2 as [p2 ->]. apply Hex in E3 as [p3 ->].
    exists (p1 ++ p2 ++ p3). now rewrite <- !app_assoc. }
  intros H. unfold lex_number in H. destruct s as [|c s']; [now apply Hgen in H|].
  destruct (N.eqb c (ch "-")); [|now apply Hgen in H].
  apply Hgen in H as [p ->]. now exists (c :: p).
Qed.

Lemma strip_prefix_suffix (w : jsstring) : forall (s r : jsstring),
  strip_prefix w s = Some r -> s = w ++ r.
Proof.
  induction w as [|a w IH]; intros s r H; simpl in H.
  - now injection H as <-.
  - destruct s as [|b s]; [discriminate|].
    destruct (N.eqb_spec a b) as [->|]; [|discriminate]. simpl. f_equal. auto.
Qed.

Lemma keyword_suffix (s : jsstring) t r :
  keyword s = Some (t, r) ->
  (exists p, s = p ++ r) /\ punct_token t = false.
Proof.
  unfold keyword. intros H.
  repeat match type of H with
  | match ?o with Some _ => _ | None => _ end = _ =>
      let E := fresh "E" in
      destruct o eqn:E;
      [injection H as <- <-; apply strip_prefix_suffix in E; split; [eauto | reflexivity]|]
  end. discriminate.
Qed.

Lemma punctuator_token (c : char) t : punctuator c = Some t -> punct_token t = true.
Proof.
  unfold punctuator. intros H.
  repeat match type of H with
  | (if ?b then _ else _) = _ => destruct b; [now injection H as <-|]
  end. discriminate.
Qed.

(** A text whose first token is a punctuator starts, after its white
    space, with that character. *)
Lemma tokens_first (c : char) (s : jsstring) t ts :
  tokens (c :: s) = Some (t :: ts) -> isWhiteSpace c = false ->
  punct_token t = true -> punctuator c = Some t.
Proof.
  unfold tokens. cbn [length]. rewrite lex_cons. intros H Hc Ht.
  rewrite (json_ws_is_ws c Hc) in H.
  destruct (punctuator c) as [t0|].
  { apply cons_tok_some in H as [ts' [_ [= -> _]]]. reflexivity. }
  exfalso. destruct (N.eqb c dquote).
  { destruct (lex_string s) as [[v r]|]; [|discriminate].
    apply cons_tok_some in H as [ts' [_ [= -> _]]]. discriminate. }
  destruct (N.eqb c (ch "-") || isDigit c)%bool.
  { destruct (lex_number (c :: s)) as [[x r]|]; [|discriminate].
    apply cons_tok_some in H as [ts' [_ [= -> _]]]. discriminate. }
  destruct (keyword (c :: s)) as [[t0 r]|] eqn:E; [|discriminate].
  apply cons_tok_some in H as [ts' [_ [= -> _]]].
  apply keyword_suffix in E as [_ E]. congruence.
Qed.

Lemma suffix_snoc {A} (p r s' : list A) (c : A) :
  p ++ r = s' ++ [c] -> r = [] \/ exists r', r = r' ++ [c].
Proof.
  intros H. destruct r as [|a r]; [now left | right].
  destruct (@exists_last _ (a :: r)) as [r' [y E]]; [discriminate|].
  rewrite E in H. rewrite app_assoc in H. apply app_inj_tail in H as [_ ->]. eauto.
Qed.

Lemma last_cons {A} (t : A) (ts : list A) d : ts <> [] -> last (t :: ts) d = last ts d.
Proof. destruct ts; [congruence | reflexivity]. Qed.

(** A text whose last token is a punctuator ends, before its white space,
    with that character. *)
Lemma lex_last : forall f (s s' : jsstring) (c : char) ts,
  lex f s = Some ts -> s = s' ++ [c] -> isJSONWhiteSpace c = false ->
  ts <> [] /\ (punct_token (last ts TNull) = true -> punctuator c = Some (last ts TNull)).
Proof.
  induction f as [|f IH]; intros s s' c ts H Hs Hc; [discriminate|].
  assert (Hrest : forall p r t ts', s = p ++ r -> lex f r = Some ts' ->
            (r = [] -> punct_token t = true -> punctuator c = Some t) ->
            (t :: ts') <> [] /\
            (punct_token (last (t :: ts') TNull) = true ->
             punctuator c = Some (last (t :: ts') TNull))).
  { intros p r t ts' Hp Hl Hnil. split; [discriminate|].
    rewrite Hs in Hp. symmetry in Hp. destruct (suffix_snoc _ _ _ _ Hp) as [-> | [r' ->]].
    - destruct f; [discriminate|]. injection Hl as <-. simpl. auto.
    - destruct (IH _ r' c _ Hl eq_refl Hc) as [Hne Hlast].
      now rewrite last_cons. }
  destruct s as [|c0 s1]; [destruct s'; discriminate|].
  rewrite lex_cons in H.
  destruct (isJSONWhiteSpace c0) eqn:Ews.
  { destruct s' as [|x s'']; cbn [app] in Hs; inversion Hs; subst; [congruence|]. eauto. }
  destruct (punctuator c0) as [t0|] eqn:Ep.
  { apply cons_tok_some in H as [ts' [H ->]].
    apply (Hrest [c0] s1); auto. intros -> _.
    destruct s' as [|x s'']; cbn [app] in Hs; [congruence|].
    destruct s''; discriminate. }
  destruct (N.eqb c0 dquote).
  { destruct (lex_string s1) as [[v r]|] eqn:E; [|discriminate].
    apply cons_tok_some in H as [ts' [H ->]].
    apply (lex_string_suffix (length s1)) in E as [p ->]; auto.
    apply (Hrest (c0 :: p) r); auto. discriminate. }
  destruct (N.eqb c0 (ch "-") || isDigit c0)%bool.
  { destruct (lex_number (c0 :: s1)) as [[x r]|] eqn:E; [|discriminate].
    apply cons_tok_some in H as [ts' [H ->]].
    apply lex_number_suffix in E as [p E].
    apply (Hrest p r); auto. discriminate. }
  destruct (keyword (c0 :: s1)) as [[t0 r]|] eqn:E; [|discriminate].
  apply cons_tok_some in H as [ts' [H ->]].
  apply keyword_suffix in E as [[p E] Ht].
  apply (Hrest p r); auto. congruence.
Qed.

Lemma tokens_last (s : jsstring) (c : char) ts t :
  tokens (s ++ [c]) = Some (ts ++ [t]) -> isWhiteSpace c = false ->
  punct_token t = true -> punctuator c = Some t.
Proof.
  intros H Hc Ht. apply json_ws_is_ws in Hc.
  destruct (lex_last _ _ s c _ H eq_refl Hc) as [_ Hl].
  rewrite last_last in Hl. auto.
Qed.

(** *** The tokens of a container *)

Lemma parse_enclosed : forall f,
  (forall ts v r, parse_value f ts = Some (v, r) -> exists p, ts = p ++ r /\ enclosed v p) /\
  (forall acc ts v r, parse_elements f acc ts = Some (v, r) ->
     exists p l, ts = p ++ TRBracket :: r /\ v = VArray l) /\
  (forall acc ts v r, parse_members f acc ts = Some (v, r) ->
     exists p o, ts = p ++ TRBrace :: r /\ v = VObject o).
Proof.
  induction f as [|f [IHv [IHe IHm]]].
  - repeat split; discriminate.
  - split; [|split].
    + intros ts v r H. destruct ts as [|t ts]; [discriminate|].
      destruct t; try discriminate.
      * destruct ts as [|t2 ts]; [discriminate|].
        destruct t2; try discriminate.
        -- injection H as <- <-. exists [TLBrace; TRBrace]. split; auto. now exists [].
        -- destruct ts as [|t3 ts]; [discriminate|].
           destruct t3; try discriminate. cbn [parse_value] in H.
           destruct (parse_value f ts) as [[v1 r1]|] eqn:E; [|discriminate].
           apply IHv in E as [p1 [-> _]]. apply IHm in H as [p2 [o [-> ->]]].
           exists (TLBrace :: (TString s :: TColon :: p1 ++ p2) ++ [TRBrace]).
           split; [|now eexists]. simpl. now rewrite <- !app_assoc.
      * rewrite parse_value_bracket in H.
        assert (Hgen : match parse_value f ts with
                       | Some (v1, r1) => parse_elements f [v1] r1
                       | None => None
                       end = Some (v, r) ->
                       exists p, TLBracket :: ts = p ++ r /\ enclosed v p).
        { destruct (parse_value f ts) as [[v1 r1]|] eqn:E; [|discriminate].
          intros H'. apply IHv in E as [p1 [-> _]]. apply IHe in H' as [p2 [l [-> ->]]].
          exists (TLBracket :: (p1 ++ p2) ++ [TRBracket]).
          split; [|now eexists]. simpl. now rewrite <- !app_assoc. }
        destruct ts as [|t2 ts]; [auto|]. destruct t2; auto.
        injection H as <- <-. exists [TLBracket; TRBracket]. split; auto. now exists [].
      * injection H as <- <-. now exists [TString s].
      * injection H as <- <-. now exists [TNumber x].
      * injection H as <- <-. now exists [TTrue].
      * injection H as <- <-. now exists [TFalse].
      * injection H as <- <-. now exists [TNull].
    + intros acc ts v r H. destruct ts as [|t ts]; [discriminate|].
      destruct t; try discriminate.
      * injection H as <- <-. exists [], acc. auto.
      * cbn [parse_elements] in H.
        destruct (parse_value f ts) as [[v1 r1]|] eqn:E; [|discriminate].
        apply IHv in E as [p1 [-> _]]. apply IHe in H as [p2 [l [-> ->]]].
        exists (TComma :: p1 ++ p2), l. split; auto. simpl. now rewrite <- !app_assoc.
    + intros acc ts v r H. destruct ts as [|t ts]; [discriminate|].
      destruct t; try discriminate.
      * injection H as <- <-. exists [], acc. auto.
      * destruct ts as [|t2 ts]; [discriminate|]. destruct t2; try discriminate.
        destruct ts as [|t3 ts]; [discriminate|]. destruct t3; try discriminate.
        cbn [parse_members] in H.
        destruct (parse_value f ts) as [[v1 r1]|] eqn:E; [|discriminate].
        apply IHv in E as [p1 [-> _]]. apply IHm in H as [p2 [o [-> ->]]].
        exists (TComma :: TString s :: TColon :: p1 ++ p2), o. split; auto.
        simpl. now rewrite <- !app_assoc.
Qed.

(** *** Detecting JSON *)

Lemma parse_tokens (t : jsstring) v :
  JSON.parse t = Some v <->
  exists ts, tokens t = Some ts /\ parse_value (S (length ts)) ts = Some (v, []).
Proof.
  unfold JSON.parse. split.
  - destruct (tokens t) as [ts|]; [|discriminate].
    destruct (parse_value (S (length ts)) ts) as [[v' [|x r]]|] eqn:E; try discriminate.
    intros [= ->]. eauto.
  - intros [ts [-> ->]]. reflexivity.
Qed.

(** [JSON.parse] reads the trimmed text as it reads the text. *)
Lemma parse_trim (t : jsstring) v : JSON.parse t = Some v -> JSON.parse (trim t) = Some v.
Proof.
  intros H. apply parse_tokens in H as [ts [Ht Hp]]. apply parse_tokens. exists ts.
  split; [|assumption].
  destruct (trim_decompose t) as [l [r [E [Hl [Hr _]]]]]. rewrite E in Ht.
  apply tokens_lead in Ht; [|assumption]. now apply tokens_trail in Ht.
Qed.

Lemma punctuator_char (c : char) :
  (punctuator c = Some TLBrace -> c = ch "{") /\ (punctuator c = Some TRBrace -> c = ch "}")
  /\ (punctuator c = Some TLBracket -> c = ch "[")
  /\ (punctuator c = Some TRBracket -> c = ch "]").
Proof.
  unfold punctuator.
  repeat match goal with
  | |- context [N.eqb c ?k] => destruct (N.eqb_spec c k) as [->|]
  end; repeat split; intros H; (reflexivity || discriminate).
Qed.

(** A container is written between its brackets. *)
Lemma container_brackets (s : jsstring) v :
  JSON.parse s = Some v -> is_container v = true -> trimmed_shape s ->
  ((startsWith (ch "{") s && endsWith (ch "}") s)
   || (startsWith (ch "[") s && endsWith (ch "]") s))%bool = true.
Proof.
  intros H Hv Hs. apply parse_tokens in H as [ts [Ht Hp]].
  destruct (proj1 (parse_enclosed _) _ _ _ Hp) as [p [E Hp']].
  rewrite app_nil_r in E. subst p.
  assert (Hends : forall open close p', ts = open :: p' ++ [close] ->
            punct_token open = true -> punct_token close = true ->
            exists a b, punctuator a = Some open /\ punctuator b = Some close
                        /\ startsWith a s = true /\ endsWith b s = true).
  { intros open close p' -> Ho Hc.
    destruct Hs as [|a Ha|a m b Ha Hb].
    - discriminate.
    - exists a, a. pose proof (tokens_first _ _ _ _ Ht Ha Ho).
      change (open :: p' ++ [close]) with ((open :: p') ++ [close]) in Ht.
      pose proof (tokens_last [] a _ _ Ht Ha Hc).
      repeat split; auto; unfold endsWith; simpl; apply N.eqb_refl.
    - exists a, b. pose proof (tokens_first _ _ _ _ Ht Ha Ho).
      change (open :: p' ++ [close]) with ((open :: p') ++ [close]) in Ht.
      change (a :: m ++ [b]) with ((a :: m) ++ [b]) in Ht.
      pose proof (tokens_last (a :: m) b _ _ Ht Hb Hc).
      repeat split; auto; [simpl; apply N.eqb_refl|].
      unfold endsWith. change (a :: m ++ [b]) with ((a :: m) ++ [b]).
      rewrite rev_app_distr. simpl. apply N.eqb_refl. }
  destruct v; try discriminate; destruct Hp' as [p' Ep].
  - destruct (Hends _ _ _ Ep eq_refl eq_refl) as (a & b & Pa & Pb & Sa & Sb).
    apply (proj1 (proj2 (proj2 (punctuator_char a)))) in Pa.
    apply (proj2 (proj2 (proj2 (punctuator_char b)))) in Pb. subst.
    rewrite Sa, Sb. apply orb_true_r.
  - destruct (Hends _ _ _ Ep eq_refl eq_refl) as (a & b & Pa & Pb & Sa & Sb).
    apply (proj1 (punctuator_char a)) in Pa.
    apply (proj1 (proj2 (punctuator_char b))) in Pb. subst.
    rewrite Sa, Sb. reflexivity.
Qed.

Lemma parse_value_opens f t ts v r :
  parse_value f (t :: ts) = Some (v, r) -> t = TLBrace \/ t = TLBracket ->
  is_container v = true.
Proof.
  intros Hp Ht. destruct f as [|f]; [discriminate|]. destruct Ht as [-> | ->].
  - destruct ts as [|t2 ts']; [discriminate|].
    destruct t2; try discriminate.
    + now injection Hp as <-.
    + destruct ts' as [|t3 ts']; [discriminate|]. destruct t3; try discriminate.
      cbn [parse_value] in Hp.
      destruct (parse_value f ts') as [[v1 r1]|]; [|discriminate].
      apply (proj2 (proj2 (parse_enclosed _))) in Hp as [p [o [_ ->]]]. reflexivity.
  - rewrite parse_value_bracket in Hp.
    assert (Hgen : match parse_value f ts with
                   | Some (v1, r1) => parse_elements f [v1] r1
                   | None => None
                   end = Some (v, r) -> is_container v = true).
    { destruct (parse_value f ts) as [[v1 r1]|]; [|discriminate]. intros H'.
      apply (proj1 (proj2 (parse_enclosed _))) in H' as [p [l [_ ->]]]. reflexivity. }
    destruct ts as [|t2 ts']; [auto|]. destruct t2; auto.
    now injection Hp as <-.
Qed.

(** What starts with a bracket is a container. *)
Lemma bracket_container (c : char) (s : jsstring) v :
  JSON.parse (c :: s) = Some v -> (N.eqb c (ch "{") || N.eqb c (ch "["))%bool = true ->
  is_container v = true.
Proof.
  intros H Hc. apply parse_tokens in H as [ts [Ht Hp]].
  assert (Hfirst : exists t ts', ts = t :: ts' /\ (t = TLBrace \/ t = TLBracket)).
  { apply orb_true_iff in Hc as [Hc|Hc]; apply N.eqb_eq in Hc; subst c.
    - rewrite (tokens_punct _ TLBrace) in Ht by reflexivity.
      apply cons_tok_some in Ht as [ts' [_ ->]]. eauto.
    - rewrite (tokens_punct _ TLBracket) in Ht by reflexivity.
      apply cons_tok_some in Ht as [ts' [_ ->]]. eauto. }
  destruct Hfirst as [t [ts' [-> Ht']]]. eapply parse_value_opens; eauto.
Qed.

(** Only its first two tests make [detectLanguage] answer JSON. *)
Lemma detect_json_only (t : jsstring) :
  detectLanguage t = JSON ->
  trim t = [] \/
  (((startsWith (ch "{") (trim t) && endsWith (ch "}") (trim t))
    || (startsWith (ch "[") (trim t) && endsWith (ch "]") (trim t)))
   && parses (trim t))%bool = true.
Proof.
  unfold detectLanguage. cbv zeta.
  destruct (trim t) as [|c s] eqn:E; [now left|]. cbn [isEmpty]. right.
  repeat match goal with
  | H : _ = JSON |- _ => revert H
  | |- (if ?b then _ else _) = JSON -> _ => destruct b eqn:?; try discriminate
  end; auto.
Qed.

(** C3, as stated, fails on a JSON text whose value is no container:
    [123] is valid JSON and is taken for JavaScript. *)
Lemma detect_json_scalar :
  ~ (forall t v, JSON.parse t = Some v -> detectLanguage t = JSON).
Proof.
  intros H. specialize (H (str "123") _ eq_refl). vm_compute in H. discriminate H.
Qed.

(** C3 (amended): a valid JSON text is detected as JSON exactly when its
    value is an object or an array. *)
Theorem detect_json_container (t : jsstring) (v : value) :
  JSON.parse t = Some v -> (detectLanguage t = JSON <-> is_container v = true).
Proof.
  intros H. pose proof (parse_trim t v H) as Ht.
  destruct (trim_decompose t) as [l [r [_ [_ [_ Hs]]]]].
  split.
  - intros Hd. apply detect_json_only in Hd as [Hd | Hd].
    + apply parse_blank in Hd. congruence.
    + apply andb_true_iff in Hd as [Hd _].
      destruct (trim t) as [|c s]; [discriminate|].
      apply (bracket_container c s v Ht).
      unfold startsWith in Hd.
      destruct (N.eqb c (ch "{")); [reflexivity|].
      destruct (N.eqb c (ch "[")); [apply orb_true_r | discriminate].
  - intros Hv. unfold detectLanguage. cbv zeta.
    rewrite (container_brackets _ _ Ht Hv Hs).
    unfold parses. rewrite Ht. cbn [andb].
    destruct (isEmpty (trim t)); reflexivity.
Qed.

Lemma detect_json_container_witness :
  let t := strq "{'q': 'SELECT * FROM t'}" in
  let v := VObject [(str "q", VString (str "SELECT * FROM t"))] in
  JSON.parse t = Some v /\ (detectLanguage t = JSON <-> is_container v = true).
Proof.
  split; [vm_compute; reflexivity|].
  apply (detect_json_container (strq "{'q': 'SELECT * FROM t'}")).
  vm_compute; reflexivity.
Defined.

(** The JSON test comes before the SQL test: the text below is JSON, and
    the SQL test accepts it. *)
Example detect_json_before_sql :
  let t := strq "{'q': 'SELECT * FROM t'}" in
  detectLanguage t = JSON
  /\ ((test sqlStartPattern (trim t) || test sqlClausePattern (trim t))
      && negb (test isJsPattern (trim t)))%bool = true.
Proof. vm_compute. split; reflexivity. Qed.

End DetectJson.

(** ** White space after minification *)

Section MinifyOutput.
Local Open Scope list_scope.

Lemma only_spaces_app a b : only_spaces (a ++ b) = (only_spaces a && only_spaces b)%bool.
Proof. apply forallb_app. Qed.

Lemma non_blank_app a b : non_blank (a ++ b) = non_blank a ++ non_blank b.
Proof. apply filter_app. Qed.

Lemma non_blank_spaces l : forallb isWhiteSpace l = true -> non_blank l = [].
Proof.
  induction l as [|c l IH]; simpl; auto. intros H.
  apply andb_true_iff in H as [Hc Hl]. rewrite Hc. simpl. auto.
Qed.

Lemma skip_ws_non_blank p s : non_blank (snd (skip_class isWhiteSpace p s)) = non_blank s.
Proof.
  destruct (skip_class_split isWhiteSpace p s) as [run [E Hrun]].
  transitivity (non_blank (run ++ snd (skip_class isWhiteSpace p s))); [|now rewrite <- E].
  rewrite non_blank_app, (non_blank_spaces run Hrun). reflexivity.
Qed.

Lemma skip_ws_only_spaces p s :
  only_spaces s = true -> only_spaces (snd (skip_class isWhiteSpace p s)) = true.
Proof.
  destruct (skip_class_split isWhiteSpace p s) as [run [E Hrun]].
  intros H. rewrite E in H. rewrite only_spaces_app in H. now apply andb_true_iff in H.
Qed.

(** What [/\s+/g] to [' '] does to a text: every run of white space becomes
    one space, and nothing else changes. *)
Lemma collapse_spec f : forall p s,
  length s < f ->
  only_spaces (replace_loop spaces space f p s) = true
  /\ non_blank (replace_loop spaces space f p s) = non_blank s
  /\ length (replace_loop spaces space f p s) <= length s.
Proof.
  induction f as [|f IH]; intros p s Hf; [lia|].
  rewrite replace_loop_S, match_spaces. cbv zeta.
  destruct s as [|b s']; [now auto|].
  destruct (isWhiteSpace b) eqn:Eb.
  - unfold state_after. cbn [prev rest caps].
    pose proof (skip_class_length isWhiteSpace (Some b) s') as Hl.
    replace (Nat.ltb _ _) with true by (symmetry; apply Nat.ltb_lt; simpl; lia).
    destruct (IH (fst (skip_class isWhiteSpace (Some b) s'))
                 (snd (skip_class isWhiteSpace (Some b) s'))) as (H1 & H2 & H3);
      [simpl in Hf; lia|].
    cbn [expand space flat_map str list_ascii_of_string map app].
    change (ch " ") with 32%N.
    repeat split.
    + cbn [only_spaces forallb]. exact H1.
    + unfold non_blank at 1 2. cbn [filter]. rewrite Eb.
      change (isWhiteSpace (N_of_ascii " ")) with true. cbn [negb].
      fold (non_blank (replace_loop spaces space f (fst (skip_class isWhiteSpace (Some b) s'))
                         (snd (skip_class isWhiteSpace (Some b) s')))).
      fold (non_blank s'). rewrite H2. apply skip_ws_non_blank.
    + simpl. simpl in H3. lia.
  - destruct (IH (Some b) s') as (H1 & H2 & H3); [simpl in Hf; lia|].
    repeat split.
    + cbn [only_spaces forallb]. rewrite Eb. exact H1.
    + unfold non_blank at 1 2. cbn [filter]. rewrite Eb. cbn [negb].
      f_equal. exact H2.
    + simpl. lia.
Qed.

(** A text in which white space occurs only as single spaces is left as it
    is. *)
Lemma collapse_fixed f : forall p s,
  length s < f -> ws_run_free s = true -> only_spaces s = true ->
  replace_loop spaces space f p s = s.
Proof.
  induction f as [|f IH]; intros p s Hf Hr Ho; [lia|].
  rewrite replace_loop_S, match_spaces. cbv zeta.
  destruct s as [|b s']; [reflexivity|].
  rewrite ws_run_free_cons in Hr. apply andb_true_iff in Hr as [Hb Hr].
  cbn [only_spaces forallb] in Ho. apply andb_true_iff in Ho as [Hb' Ho].
  destruct (isWhiteSpace b) eqn:Eb.
  - cbn [negb orb andb] in Hb, Hb'. apply N.eqb_eq in Hb'.
    apply negb_true_iff in Hb.
    unfold state_after. cbn [prev rest caps].
    assert (E : skip_class isWhiteSpace (Some b) s' = (Some b, s')).
    { destruct s' as [|c s'']; [reflexivity|]. simpl in Hb. simpl. now rewrite Hb. }
    rewrite E. cbn [fst snd].
    replace (Nat.ltb _ _) with true by (symmetry; apply Nat.ltb_lt; simpl; lia).
    cbn [expand space flat_map str list_ascii_of_string map app].
    change (ch " ") with 32%N. rewrite Hb'. f_equal. rewrite <- Hb'.
    apply IH; auto. simpl in Hf. lia.
  - f_equal. apply IH; auto. simpl in Hf. lia.
Qed.

(** *** Trimming keeps what holds inside *)

Lemma trim_infix (s : jsstring) :
  exists l r, s = l ++ trim s ++ r /\ forallb isWhiteSpace l = true
              /\ forallb isWhiteSpace r = true.
Proof. destruct (trim_decompose s) as [l [r [E [Hl [Hr _]]]]]. eauto. Qed.

Lemma trim_shape (s : jsstring) : trimmed_shape (trim s).
Proof. destruct (trim_decompose s) as [l [r [_ [_ [_ H]]]]]. exact H. Qed.

Lemma trim_ws_run_free s : ws_run_free s = true -> ws_run_free (trim s) = true.
Proof.
  destruct (trim_infix s) as [l [r [E _]]]. intros H. rewrite E in H.
  apply ws_run_free_suffix in H. now apply ws_run_free_prefix in H.
Qed.

Lemma trim_only_spaces s : only_spaces s = true -> only_spaces (trim s) = true.
Proof.
  destruct (trim_infix s) as [l [r [E _]]]. intros H. rewrite E in H.
  rewrite !only_spaces_app in H. apply andb_true_iff in H as [_ H].
  now apply andb_true_iff in H.
Qed.

Lemma trim_non_blank s : non_blank (trim s) = non_blank s.
Proof.
  destruct (trim_infix s) as [l [r [E [Hl Hr]]]]. rewrite E at 2.
  rewrite !non_blank_app, (non_blank_spaces l Hl), (non_blank_spaces r Hr).
  now rewrite app_nil_r.
Qed.

Lemma trim_length s : length (trim s) <= length s.
Proof.
  destruct (trim_infix s) as [l [r [E _]]]. rewrite E at 2.
  rewrite !length_app. lia.
Qed.

Lemma trim_blank_iff s : trim s = [] <-> forallb isWhiteSpace s = true.
Proof.
  split; [apply trim_nil_spaces|]. intros H.
  destruct (trim_decompose s) as [l [r [E [Hl [Hr Hs]]]]].
  rewrite E in H. rewrite !forallb_app in H.
  apply andb_true_iff in H as [_ H]. apply andb_true_iff in H as [H _].
  destruct Hs as [|a Ha|a m b Ha Hb]; auto; simpl in H; rewrite Ha in H; discriminate.
Qed.

Lemma non_blank_nil_blank s : non_blank s = [] <-> forallb isWhiteSpace s = true.
Proof.
  induction s as [|c s IH]; simpl; [tauto|].
  destruct (isWhiteSpace c); simpl; [exact IH|]. split; discriminate.
Qed.

Lemma trim_nil_non_blank s : trim s = [] <-> non_blank s = [].
Proof. rewrite trim_blank_iff. symmetry. apply non_blank_nil_blank. Qed.

Lemma replace_collapse_spec s :
  ws_run_free (replace spaces space s) = true
  /\ only_spaces (replace spaces space s) = true
  /\ non_blank (replace spaces space s) = non_blank s
  /\ length (replace spaces space s) <= length s.
Proof.
  unfold replace. split.
  - apply collapse_ws_run_free. lia.
  - apply collapse_spec. lia.
Qed.

Lemma replace_collapse_fixed s :
  ws_run_free s = true -> only_spaces s = true -> replace spaces space s = s.
Proof. intros. unfold replace. apply collapse_fixed; auto. Qed.

(** X1: for SQL, JavaScript and TypeScript the output of [minifyCode] has no
    white space at either end, and white space occurs in it only as single
    space characters: the output is one line. *)
Theorem minify_single_spaces (text : jsstring) (lang : Language) :
  lang = SQL \/ lang = JAVASCRIPT \/ lang = TYPESCRIPT ->
  exists out, minifyCode text lang = Return out
    /\ trimmed_shape out /\ ws_run_free out = true /\ only_spaces out = true.
Proof.
  intros Hl. unfold minifyCode.
  destruct (isEmpty (trim text)).
  { exists []. destruct Hl as [-> | [-> | ->]]; repeat split; constructor. }
  assert (H : forall s, trimmed_shape (trim (replace spaces space s))
                        /\ ws_run_free (trim (replace spaces space s)) = true
                        /\ only_spaces (trim (replace spaces space s)) = true).
  { intros s. destruct (replace_collapse_spec s) as (H1 & H2 & _).
    auto using trim_shape, trim_ws_run_free, trim_only_spaces. }
  destruct Hl as [-> | [-> | ->]]; eexists; (split; [reflexivity | apply H]).
Qed.

Lemma minify_single_spaces_witness :
  exists out, minifyCode (str "SELECT  a,   b FROM t ") SQL = Return out
    /\ trimmed_shape out /\ ws_run_free out = true /\ only_spaces out = true.
Proof. apply minify_single_spaces. left. reflexivity. Defined.

(** ** What a match leaves to read *)

Lemma repeat_result m gs greedy :
  (forall x c z, m x c = Some z ->
     exists y, length (rest y) <= length (rest x) /\ c y = Some z) ->
  forall fuel min max x c z,
    repeatMatcher m gs greedy c fuel min max x = Some z ->
    exists y, length (rest y) <= length (rest x) /\ c y = Some z.
Proof.
  intros Hm. induction fuel as [|fuel IH]; intros min max x c z H; [discriminate|].
  cbn [repeatMatcher] in H.
  destruct (max_is_zero max); [eauto|].
  assert (Hd : forall z',
    m (clear_caps gs x)
      (fun y => if (Nat.eqb min 0 && Nat.eqb (length (rest y)) (length (rest x)))%bool
                then None
                else repeatMatcher m gs greedy c fuel (Nat.pred min) (dec_max max) y)
    = Some z' -> exists y, length (rest y) <= length (rest x) /\ c y = Some z').
  { intros z' H'. apply Hm in H' as [y0 [Hy0 H']]. cbn [clear_caps rest] in Hy0.
    destruct (Nat.eqb min 0 && Nat.eqb (length (rest y0)) (length (rest x)))%bool;
      [discriminate|].
    apply IH in H' as [y [Hy H']]. exists y. split; [lia | assumption]. }
  destruct (negb (Nat.eqb min 0)); [auto|].
  destruct greedy.
  - destruct (m (clear_caps gs x) _) eqn:E.
    + injection H as <-. auto.
    + eauto.
  - destruct (c x) eqn:E.
    + injection H as <-. eauto.
    + auto.
Qed.

(** A match is what the continuation returns, on a state no earlier than
    the one the matcher started from. *)
Lemma matcher_result fl r : forall x c z,
  matcher fl r x c = Some z ->
  exists y, length (rest y) <= length (rest x) /\ c y = Some z.
Proof.
  induction r as [|a|q|r1 IH1 r2 IH2|r1 IH1 r2 IH2|min max greedy r IH|n r IH| | |];
    intros x c z H; cbn [matcher] in H.
  - eauto.
  - destruct (rest x) as [|b s] eqn:E; [discriminate|].
    destruct (lit_matches fl a b); [|discriminate].
    eexists. split; [|exact H]. simpl. lia.
  - destruct (rest x) as [|b s] eqn:E; [discriminate|].
    destruct (class_matches fl q b); [|discriminate].
    eexists. split; [|exact H]. simpl. lia.
  - apply IH1 in H as [y1 [H1 H]]. apply IH2 in H as [y2 [H2 H]].
    exists y2. split; [lia | assumption].
  - destruct (matcher fl r1 x c) eqn:E.
    + injection H as <-. eauto.
    + eauto.
  - eapply repeat_result; eauto.
  - apply IH in H as [y [Hy H]]. exists (set_cap n x y). auto.
  - destruct (at_bol fl x); [eauto | discriminate].
  - destruct (at_eol fl x); [eauto | discriminate].
  - destruct (at_word_boundary x); [eauto | discriminate].
Qed.

Lemma match_at_shorter re p s z : match_at re p s = Some z -> length (rest z) <= length s.
Proof.
  unfold match_at. intros H. apply matcher_result in H as [y [Hy [= ->]]]. exact Hy.
Qed.

(** A replacement that is no longer than what it replaces does not make
    the text longer. *)
Lemma replace_loop_length re t :
  (forall p s y, match_at re p s = Some y ->
     length (expand t y) + length (rest y) <= length s) ->
  forall f p s, length (replace_loop re t f p s) <= length s.
Proof.
  intros Hm. induction f as [|f IH]; intros p s; [simpl; lia|].
  rewrite replace_loop_S. cbv zeta.
  assert (Hstep : length match s with
                         | [] => []
                         | c :: s' => c :: replace_loop re t f (Some c) s'
                         end <= length s).
  { destruct s as [|c s']; simpl; [lia|]. specialize (IH (Some c) s'). lia. }
  destruct (match_at re p s) as [y|] eqn:E; [|exact Hstep].
  apply Hm in E. rewrite length_app.
  destruct (Nat.ltb_spec (length (rest y)) (length s)).
  - specialize (IH (prev y) (rest y)). lia.
  - lia.
Qed.

Lemma replace_length re t s :
  (forall p s y, match_at re p s = Some y ->
     length (expand t y) + length (rest y) <= length s) ->
  length (replace re t s) <= length s.
Proof. intros H. unfold replace. now apply replace_loop_length. Qed.

Lemma after_close_length s r : after_close s = Some r -> length r < length s.
Proof.
  revert r. induction s as [|a s IH]; intros r H; [discriminate|].
  cbn [after_close] in H. destruct s as [|b s']; [discriminate|].
  destruct (N.eqb a 42 && N.eqb b 47)%bool.
  - injection H as <-. simpl. lia.
  - apply IH in H. simpl in *. lia.
Qed.

Lemma comment_at_length p s kept r :
  comment_at p s = Some (kept, r) -> length kept + length r < length s.
Proof.
  unfold comment_at.
  destruct (match s with
            | a :: b :: s1 => if (N.eqb a 47 && N.eqb b 42)%bool then after_close s1 else None
            | _ => None
            end) as [r0|] eqn:Eb.
  { intros [= <- <-]. destruct s as [|a [|b s1]]; try discriminate Eb.
    match type of Eb with
    | (if ?c then _ else _) = _ => destruct c; [|discriminate Eb]
    end.
    apply after_close_length in Eb. simpl. lia. }
  destruct (match s with
            | b :: c :: d :: s2 =>
                if (notBackslashColon b && (N.eqb c 47 && N.eqb d 47))%bool
                then Some ([b], snd (skip_class not_terminator (Some d) s2))
                else None
            | _ => None
            end) as [kr|] eqn:Ea.
  { intros [= ->]. destruct s as [|b [|c [|d s2]]]; try discriminate Ea.
    match type of Ea with
    | (if ?c then _ else _) = _ => destruct c; [|discriminate Ea]
    end.
    injection Ea as <- <-. pose proof (skip_class_length not_terminator (Some d) s2).
    simpl. lia. }
  destruct s as [|c [|d s2]]; try discriminate.
  match goal with
  | |- (if ?c then _ else _) = _ -> _ => destruct c; [|discriminate]
  end.
  intros [= <- <-]. pose proof (skip_class_length not_terminator (Some d) s2).
  simpl. lia.
Qed.

(** ** Markup: white space between tags *)

(** [/>\s+</g] matches at a [>] that white space separates from a [<]. *)
Lemma match_between p s :
  match_at betweenTags p s =
  match s with
  | c :: s' =>
      if (N.eqb c (ch ">") && starts_blank s')%bool then
        match snd (skip_class isWhiteSpace (Some c) s') with
        | d :: s2 =>
            if N.eqb d (ch "<") then Some {| prev := Some d; rest := s2; caps := [] |}
            else None
        | [] => None
        end
      else None
  | [] => None
  end.
Proof.
  unfold match_at, betweenTags, ws. cbn [source flag seqs].
  rewrite matcher_Seq, matcher_Lit. cbn [rest].
  destruct s as [|c s']; [reflexivity|].
  unfold lit_matches. cbn [canonicalize flags_g ignoreCase].
  rewrite N.eqb_sym. destruct (N.eqb c (ch ">")); [|reflexivity]. cbn [andb].
  rewrite matcher_Seq. unfold advance. cbn [caps].
  rewrite plus_class_step.
  destruct s' as [|b s'']; [reflexivity|]. cbn [starts_blank].
  change (class_matches flags_g isWhiteSpace b) with (isWhiteSpace b).
  destruct (isWhiteSpace b) eqn:Eb; [|reflexivity].
  rewrite star_class_commit.
  - unfold state_after. cbn [prev rest caps].
    change (class_matches flags_g isWhiteSpace) with (fun c => isWhiteSpace c).
    change (skip_class (fun c => isWhiteSpace c)) with (skip_class isWhiteSpace).
    cbn [skip_class]. rewrite Eb.
    rewrite matcher_Lit. cbn [rest].
    destruct (snd (skip_class isWhiteSpace (Some b) s'')) as [|d s2] eqn:E; [reflexivity|].
    unfold lit_matches. cbn [canonicalize flags_g ignoreCase].
    rewrite N.eqb_sym. destruct (N.eqb d (ch "<")); reflexivity.
  - intros p' b' s0 cs Hb'. rewrite matcher_Lit. cbn [rest].
    change (class_matches flags_g isWhiteSpace b') with (isWhiteSpace b') in Hb'.
    unfold lit_matches. cbn [canonicalize flags_g ignoreCase].
    destruct (N.eqb (ch "<") b') eqn:E; [exfalso; char_lia | reflexivity].
Qed.

(** [/\s{2,}/g] matches at two white space characters, up to the end of
    their run. *)
Lemma match_spaces2 p s :
  match_at spaces2 p s =
  match s with
  | a :: b :: s' =>
      if (isWhiteSpace a && isWhiteSpace b)%bool
      then Some (state_after isWhiteSpace {| prev := Some b; rest := s'; caps := [] |})
      else None
  | _ => None
  end.
Proof.
  unfold match_at, spaces2, ws. cbn [source flag].
  rewrite matcher_Rep. cbn [max_is_zero Nat.eqb negb groups Nat.pred dec_max option_map andb].
  rewrite clear_caps_nil, matcher_Class. cbn [rest].
  destruct s as [|a s1]; [reflexivity|].
  change (class_matches flags_g isWhiteSpace a) with (isWhiteSpace a).
  destruct (isWhiteSpace a); [|destruct s1; reflexivity]. cbn [andb].
  unfold advance. cbn [caps].
  change (Rep 1 None true (Class isWhiteSpace)) with (plus (Class isWhiteSpace)).
  rewrite plus_class_step.
  destruct s1 as [|b s']; [reflexivity|].
  change (class_matches flags_g isWhiteSpace b) with (isWhiteSpace b).
  destruct (isWhiteSpace b); [|reflexivity].
  apply star_class_greedy. reflexivity.
Qed.

Lemma skip_class_snd q p p' s : snd (skip_class q p s) = snd (skip_class q p' s).
Proof.
  revert p p'. induction s as [|c s IH]; intros p p'; simpl; auto.
  destruct (q c); auto.
Qed.

Lemma skip_ws_fixed p s : starts_blank s = false -> snd (skip_class isWhiteSpace p s) = s.
Proof. destruct s as [|c s]; simpl; auto. intros ->. reflexivity. Qed.

Lemma skip_ws_cons p c s :
  isWhiteSpace c = true ->
  snd (skip_class isWhiteSpace p (c :: s)) = snd (skip_class isWhiteSpace None s).
Proof. intros H. simpl. rewrite H. apply skip_class_snd. Qed.

Lemma skip_ws_app p s r :
  snd (skip_class isWhiteSpace p s) <> [] ->
  snd (skip_class isWhiteSpace p (s ++ r)) = snd (skip_class isWhiteSpace p s) ++ r.
Proof.
  revert p. induction s as [|c s IH]; intros p H; [now contradiction H|].
  simpl in *. destruct (isWhiteSpace c); auto.
Qed.

Lemma gt_not_blank c : N.eqb c (ch ">") = true -> isWhiteSpace c = false.
Proof. intros H. destruct (isWhiteSpace c) eqn:E; [exfalso; char_lia | reflexivity]. Qed.

Lemma lt_not_blank c : N.eqb c (ch "<") = true -> isWhiteSpace c = false.
Proof. intros H. destruct (isWhiteSpace c) eqn:E; [exfalso; char_lia | reflexivity]. Qed.

(** Where [/>\s+</g] matches. *)
Lemma match_between_gap p s :
  match match_at betweenTags p s with Some _ => true | None => false end = tag_gap s.
Proof.
  rewrite match_between. destruct s as [|c s']; [reflexivity|]. cbn [tag_gap].
  destruct (N.eqb c (ch ">") && starts_blank s')%bool; [|reflexivity]. cbn [andb].
  rewrite (skip_class_snd isWhiteSpace (Some c) None).
  destruct (snd (skip_class isWhiteSpace None s')) as [|d s2]; [reflexivity|].
  cbn [startsWith]. destruct (N.eqb d (ch "<")); reflexivity.
Qed.

Lemma tag_gap_free_suffix a b : tag_gap_free (a ++ b) = true -> tag_gap_free b = true.
Proof.
  induction a as [|c a IH]; auto. cbn [app tag_gap_free]. intros H.
  apply andb_true_iff in H as [_ H]. auto.
Qed.

Lemma tag_gap_app s r : tag_gap s = true -> tag_gap (s ++ r) = true.
Proof.
  destruct s as [|c s']; [discriminate|]. cbn [app tag_gap]. intros H.
  apply andb_true_iff in H as [H H3]. apply andb_true_iff in H as [H1 H2].
  rewrite H1. cbn [andb].
  assert (Hne : snd (skip_class isWhiteSpace None s') <> []).
  { destruct (snd (skip_class isWhiteSpace None s')); [discriminate H3 | discriminate]. }
  rewrite (skip_ws_app None s' r Hne).
  destruct s' as [|b s'']; [discriminate H2|]. cbn [app starts_blank] in *. rewrite H2.
  cbn [andb]. destruct (snd (skip_class isWhiteSpace None (b :: s''))); [discriminate H3|].
  exact H3.
Qed.

Lemma tag_gap_free_prefix a r : tag_gap_free (a ++ r) = true -> tag_gap_free a = true.
Proof.
  induction a as [|c a IH]; auto. cbn [tag_gap_free].
  change ((c :: a) ++ r) with (c :: a ++ r). cbn [tag_gap_free]. intros H.
  apply andb_true_iff in H as [H1 H2]. rewrite (IH H2), andb_true_r.
  apply negb_true_iff in H1. apply negb_true_iff.
  destruct (tag_gap (c :: a)) eqn:E; [|reflexivity].
  apply (tag_gap_app _ r) in E. cbn [app] in E. congruence.
Qed.

Lemma trim_tag_gap_free s : tag_gap_free s = true -> tag_gap_free (trim s) = true.
Proof.
  destruct (trim_infix s) as [l [r [E _]]]. intros H. rewrite E in H.
  apply tag_gap_free_suffix in H. now apply tag_gap_free_prefix in H.
Qed.

Lemma expand_text u y : expand [RText u] y = u.
Proof. unfold expand. simpl. apply app_nil_r. Qed.

(** What [/>\s+</g] to ['><'] does to a text. *)
Lemma between_spec f : forall p s,
  length s < f ->
  let out := replace_loop betweenTags [RText (str "><")] f p s in
  tag_gap_free out = true
  /\ starts_blank out = starts_blank s
  /\ startsWith (ch "<") (snd (skip_class isWhiteSpace None out))
     = startsWith (ch "<") (snd (skip_class isWhiteSpace None s))
  /\ non_blank out = non_blank s
  /\ length out <= length s
  /\ (tag_gap_free s = true -> out = s).
Proof.
  induction f as [|f IH]; intros p s Hf; [lia|]. cbv zeta.
  rewrite replace_loop_S. cbv zeta.
  pose proof (match_between_gap p s) as Hgap.
  rewrite match_between in *.
  destruct s as [|c s']; [cbn; repeat split; auto|].
  assert (Hstep : let out := c :: replace_loop betweenTags [RText (str "><")] f (Some c) s' in
            tag_gap (c :: s') = false ->
            tag_gap_free out = true
            /\ starts_blank out = starts_blank (c :: s')
            /\ startsWith (ch "<") (snd (skip_class isWhiteSpace None out))
               = startsWith (ch "<") (snd (skip_class isWhiteSpace None (c :: s')))
            /\ non_blank out = non_blank (c :: s')
            /\ length out <= length (c :: s')
            /\ (tag_gap_free (c :: s') = true -> out = c :: s')).
  { cbv zeta. intros Hg.
    destruct (IH (Some c) s') as (H1 & H2 & H3 & H4 & H5 & H6); [simpl in Hf; lia|].
    cbv zeta in *. split; [|split; [|split; [|split; [|split]]]].
    - cbn [tag_gap_free]. rewrite H1, andb_true_r. apply negb_true_iff.
      cbn [tag_gap] in *. now rewrite H2, H3.
    - reflexivity.
    - cbn [skip_class]. destruct (isWhiteSpace c); [|reflexivity].
      rewrite !(skip_class_snd isWhiteSpace (Some c) None). exact H3.
    - unfold non_blank in *. cbn [filter]. now rewrite H4.
    - cbn [length]. lia.
    - cbn [tag_gap_free]. intros H. apply andb_true_iff in H as [_ H]. now rewrite H6. }
  destruct (N.eqb c (ch ">") && starts_blank s')%bool eqn:Ec; [|now apply Hstep].
  destruct (snd (skip_class isWhiteSpace (Some c) s')) as [|d s2] eqn:Es; [now apply Hstep|].
  destruct (N.eqb d (ch "<")) eqn:Ed; [|now apply Hstep].
  apply andb_true_iff in Ec as [Ec Eb].
  pose proof (skip_class_length isWhiteSpace (Some c) s') as Hl. rewrite Es in Hl.
  cbn [rest prev]. simpl in Hl.
  replace (Nat.ltb _ _) with true by (symmetry; apply Nat.ltb_lt; simpl; lia).
  rewrite expand_text.
  change (str "><" ++ ?x) with (ch ">" :: ch "<" :: x).
  destruct (IH (Some d) s2) as (H1 & H2 & H3 & H4 & H5 & H6); [simpl in Hf; lia|].
  cbv zeta in *.
  pose proof (gt_not_blank c Ec) as Wc. pose proof (lt_not_blank d Ed) as Wd.
  apply N.eqb_eq in Ec, Ed. subst c d.
  split; [|split; [|split; [|split; [|split]]]].
  - cbn [tag_gap_free tag_gap starts_blank]. rewrite Wd, H1. reflexivity.
  - cbn [starts_blank]. reflexivity.
  - cbn [skip_class]. rewrite Wc. reflexivity.
  - unfold non_blank in *. cbn [filter]. rewrite Wc, Wd. cbn [negb].
    rewrite H4. f_equal.
    change (filter (fun c => negb (isWhiteSpace c)) s') with (non_blank s').
    rewrite <- (skip_ws_non_blank (Some (ch ">")) s'), Es.
    unfold non_blank. cbn [filter]. rewrite Wd. reflexivity.
  - cbn [length]. lia.
  - intros H. exfalso. cbn [tag_gap_free] in H. apply andb_true_iff in H as [H _].
    apply negb_true_iff in H. rewrite <- Hgap in H. discriminate.
Qed.

Lemma starts_blank_skip p s :
  starts_blank s = true ->
  exists b s', s = b :: s' /\ isWhiteSpace b = true
    /\ snd (skip_class isWhiteSpace p s) = snd (skip_class isWhiteSpace None s').
Proof.
  destruct s as [|b s']; [discriminate|]. simpl. intros H. exists b, s'.
  rewrite H. repeat split. apply skip_class_snd.
Qed.

Lemma expand_space y : expand space y = [ch " "].
Proof. reflexivity. Qed.

(** What [/\s{2,}/g] to [' '] does to a text. *)
Lemma spaces2_spec f : forall p s,
  length s < f ->
  let out := replace_loop spaces2 space f p s in
  ws_run_free out = true
  /\ starts_blank out = starts_blank s
  /\ startsWith (ch "<") (snd (skip_class isWhiteSpace None out))
     = startsWith (ch "<") (snd (skip_class isWhiteSpace None s))
  /\ (tag_gap_free s = true -> tag_gap_free out = true)
  /\ non_blank out = non_blank s
  /\ length out <= length s
  /\ (ws_run_free s = true -> out = s).
Proof.
  induction f as [|f IH]; intros p s Hf; [lia|]. cbv zeta.
  rewrite replace_loop_S, match_spaces2. cbv zeta.
  destruct s as [|a s1]; [cbn; repeat split; auto|].
  assert (Hstep : let out := a :: replace_loop spaces2 space f (Some a) s1 in
            (isWhiteSpace a && starts_blank s1)%bool = false ->
            ws_run_free out = true
            /\ starts_blank out = starts_blank (a :: s1)
            /\ startsWith (ch "<") (snd (skip_class isWhiteSpace None out))
               = startsWith (ch "<") (snd (skip_class isWhiteSpace None (a :: s1)))
            /\ (tag_gap_free (a :: s1) = true -> tag_gap_free out = true)
            /\ non_blank out = non_blank (a :: s1)
            /\ length out <= length (a :: s1)
            /\ (ws_run_free (a :: s1) = true -> out = a :: s1)).
  { cbv zeta. intros Hg.
    destruct (IH (Some a) s1) as (H1 & H2 & H3 & H4 & H5 & H6 & H7); [simpl in Hf; lia|].
    cbv zeta in *. split; [|split; [|split; [|split; [|split; [|split]]]]].
    - rewrite ws_run_free_cons, H1, H2, Hg. reflexivity.
    - reflexivity.
    - cbn [skip_class]. destruct (isWhiteSpace a); [|reflexivity].
      rewrite !(skip_class_snd isWhiteSpace (Some a) None). exact H3.
    - cbn [tag_gap_free]. intros H. apply andb_true_iff in H as [Ha Hb].
      rewrite (H4 Hb), andb_true_r. cbn [tag_gap] in *. now rewrite H2, H3.
    - unfold non_blank in *. cbn [filter]. now rewrite H5.
    - cbn [length]. lia.
    - rewrite ws_run_free_cons. intros H. apply andb_true_iff in H as [_ H].
      now rewrite H7. }
  destruct s1 as [|b s']; [apply Hstep; apply andb_false_r|].
  destruct (isWhiteSpace a && isWhiteSpace b)%bool eqn:Eab; [|now apply Hstep].
  apply andb_true_iff in Eab as [Ea Eb].
  unfold state_after. cbn [prev rest caps].
  pose proof (skip_class_length isWhiteSpace (Some b) s') as Hl.
  replace (Nat.ltb _ _) with true by (symmetry; apply Nat.ltb_lt; cbn [length]; lia).
  destruct (IH (fst (skip_class isWhiteSpace (Some b) s'))
               (snd (skip_class isWhiteSpace (Some b) s')))
    as (H1 & H2 & H3 & H4 & H5 & H6 & H7); [cbn [length] in Hf; lia|].
  cbv zeta in *.
  rewrite !expand_space. cbn [app].
  pose proof (skip_ws_not_blank (Some b) s') as Hnb.
  rewrite Hnb in H2.
  assert (Wsp : isWhiteSpace (ch " ") = true) by reflexivity.
  split; [|split; [|split; [|split; [|split; [|split]]]]].
  - rewrite ws_run_free_cons, H1, H2. reflexivity.
  - cbn [starts_blank]. now rewrite Wsp, Ea.
  - rewrite (skip_ws_cons None (ch " ") _ Wsp).
    rewrite (skip_ws_fixed None _ H2).
    rewrite (skip_ws_cons None a _ Ea), (skip_ws_cons None b _ Eb).
    rewrite <- (skip_ws_fixed None _ H2). rewrite H3.
    rewrite (skip_ws_fixed None _ Hnb).
    now rewrite (skip_class_snd isWhiteSpace (Some b) None).
  - intros H. cbn [tag_gap_free tag_gap].
    change (N.eqb (ch " ") (ch ">")) with false. cbn [andb negb].
    apply H4. destruct (skip_class_split isWhiteSpace (Some b) s') as [run [E _]].
    change (a :: b :: s') with ([a; b] ++ s') in H. apply tag_gap_free_suffix in H.
    rewrite E in H. now apply tag_gap_free_suffix in H.
  - unfold non_blank in *. cbn [filter]. rewrite Wsp, Ea, Eb. cbn [negb].
    rewrite H5. apply (skip_ws_non_blank (Some b) s').
  - cbn [length]. lia.
  - rewrite ws_run_free_cons. cbn [starts_blank]. rewrite Ea, Eb. discriminate.
Qed.

(** The markup branch of [minifyCode], step by step. *)
Lemma markup_spec (text : jsstring) :
  let out := trim (replace spaces2 space (replace betweenTags [RText (str "><")] text)) in
  trimmed_shape out /\ ws_run_free out = true /\ tag_gap_free out = true
  /\ non_blank out = non_blank text /\ length out <= length text.
Proof.
  cbv zeta. unfold replace.
  destruct (between_spec (S (length text)) None text) as (A1 & _ & _ & A4 & A5 & _); [lia|].
  cbv zeta in *.
  set (r1 := replace_loop betweenTags [RText (str "><")] (S (length text)) None text) in *.
  destruct (spaces2_spec (S (length r1)) None r1) as (B1 & _ & _ & B4 & B5 & B6 & _); [lia|].
  cbv zeta in *.
  set (r2 := replace_loop spaces2 space (S (length r1)) None r1) in *.
  split; [apply trim_shape|]. split; [now apply trim_ws_run_free|].
  split; [apply trim_tag_gap_free; auto|].
  split; [rewrite trim_non_blank; congruence|].
  pose proof (trim_length r2). lia.
Qed.

Lemma markup_fixed (s : jsstring) :
  trimmed_shape s -> ws_run_free s = true -> tag_gap_free s = true ->
  trim (replace spaces2 space (replace betweenTags [RText (str "><")] s)) = s.
Proof.
  intros Hs Hw Hg. unfold replace.
  destruct (between_spec (S (length s)) None s) as (_ & _ & _ & _ & _ & A6); [lia|].
  cbv zeta in A6. rewrite (A6 Hg).
  destruct (spaces2_spec (S (length s)) None s) as (_ & _ & _ & _ & _ & _ & B7); [lia|].
  cbv zeta in B7. rewrite (B7 Hw). now apply trim_shape_fixed.
Qed.

(** ** Style sheets: white space around punctuation *)

Lemma tight_cons a t :
  tight (a :: t) =
  (negb ((isWhiteSpace a && match t with b :: _ => one_of ":;{}" b | [] => false end)
         || (one_of ":;{}" a && starts_blank t))
   && tight t)%bool.
Proof. destruct t; simpl; auto. now rewrite !andb_false_r. Qed.

Lemma tight_suffix a b : tight (a ++ b) = true -> tight b = true.
Proof.
  induction a as [|c a IH]; auto. cbn [app]. rewrite tight_cons. intros H.
  apply andb_true_iff in H as [_ H]. auto.
Qed.

Lemma tight_prefix a b : tight (a ++ b) = true -> tight a = true.
Proof.
  induction a as [|c a IH]; auto. cbn [app]. rewrite !tight_cons. intros H.
  apply andb_true_iff in H as [H1 H2]. rewrite (IH H2), andb_true_r.
  destruct a as [|d a]; [|exact H1]. cbn [starts_blank]. now rewrite !andb_false_r.
Qed.

Lemma trim_tight s : tight s = true -> tight (trim s) = true.
Proof.
  destruct (trim_infix s) as [l [r [E _]]]. intros H. rewrite E in H.
  apply tight_suffix in H. now apply tight_prefix in H.
Qed.

Lemma punct_not_blank' c : one_of ":;{}" c = true -> isWhiteSpace c = false.
Proof.
  intros H. destruct (isWhiteSpace c) eqn:E; auto.
  rewrite (punct_not_blank c E) in H. discriminate.
Qed.

(** What [/\s*([:;{}])\s*/g] to ['$1'] does to a text. *)
Lemma tighten_spec f : forall p s,
  length s < f ->
  let out := replace_loop aroundPunctuation [RGroup 1] f p s in
  tight out = true
  /\ (starts_blank out = true -> starts_blank s = true)
  /\ (forall c out', out = c :: out' -> one_of ":;{}" c = true ->
        exists s2, snd (skip_class isWhiteSpace None s) = c :: s2)
  /\ (only_spaces s = true -> only_spaces out = true)
  /\ length out <= length s.
Proof.
  induction f as [|f IH]; intros p s Hf; [lia|]. cbv zeta.
  rewrite replace_loop_S, match_around. cbv zeta.
  rewrite (skip_class_snd isWhiteSpace p None).
  assert (Hstep :
    match snd (skip_class isWhiteSpace None s) with
    | c :: _ => one_of ":;{}" c = false
    | [] => True
    end ->
    let out := match s with
               | [] => []
               | c :: s' => c :: replace_loop aroundPunctuation [RGroup 1] f (Some c) s'
               end in
    tight out = true
    /\ (starts_blank out = true -> starts_blank s = true)
    /\ (forall c out', out = c :: out' -> one_of ":;{}" c = true ->
          exists s2, snd (skip_class isWhiteSpace None s) = c :: s2)
    /\ (only_spaces s = true -> only_spaces out = true)
    /\ length out <= length s).
  { cbv zeta. intros Hno. destruct s as [|b s'].
    { repeat split; auto. intros c out' [=]. }
    destruct (IH (Some b) s') as (H1 & H2 & H3 & H4 & H5); [simpl in Hf; lia|].
    cbv zeta in *.
    set (out1 := replace_loop aroundPunctuation [RGroup 1] f (Some b) s') in *.
    assert (Hb : one_of ":;{}" b = false).
    { destruct (one_of ":;{}" b) eqn:E; [|reflexivity].
      cbn [skip_class] in Hno. rewrite (punct_not_blank' b E) in Hno.
      cbn [snd] in Hno. congruence. }
    split; [|split; [|split; [|split]]].
    - rewrite tight_cons, H1, Hb, andb_true_r. cbn [andb orb].
      apply negb_true_iff. rewrite orb_false_r.
      destruct (isWhiteSpace b) eqn:Eb; [|reflexivity]. cbn [andb].
      destruct out1 as [|c out'] eqn:Eo; [reflexivity|].
      destruct (one_of ":;{}" c) eqn:Ec; [|reflexivity].
      destruct (H3 c out' eq_refl Ec) as [s2 E2].
      rewrite (skip_ws_cons None b s' Eb), E2 in Hno. congruence.
    - auto.
    - intros c out' [= <- _] Hc. congruence.
    - cbn [only_spaces forallb]. intros H. apply andb_true_iff in H as [Ha Hb'].
      rewrite Ha. apply H4. exact Hb'.
    - cbn [length]. lia. }
  destruct (skip_class_split isWhiteSpace None s) as [run [Hrun Hws]].
  pose proof (skip_class_length isWhiteSpace None s) as Hl1.
  destruct (snd (skip_class isWhiteSpace None s)) as [|c s2] eqn:E1; [now apply Hstep|].
  destruct (one_of ":;{}" c) eqn:Ec; [|now apply Hstep].
  unfold state_after. cbn [prev rest caps].
  pose proof (skip_class_length isWhiteSpace (Some c) s2) as Hl2.
  cbn [length] in Hl1.
  replace (Nat.ltb _ _) with true by (symmetry; apply Nat.ltb_lt; lia).
  cbn [expand flat_map lookup_cap caps Nat.eqb app].
  destruct (IH (fst (skip_class isWhiteSpace (Some c) s2))
               (snd (skip_class isWhiteSpace (Some c) s2)))
    as (H1 & H2 & H3 & H4 & H5); [lia|].
  cbv zeta in *.
  set (out1 := replace_loop aroundPunctuation [RGroup 1] f _ _) in *.
  pose proof (punct_not_blank' c Ec) as Wc.
  assert (Hnb : starts_blank out1 = false).
  { destruct (starts_blank out1) eqn:E; [|reflexivity].
    specialize (H2 eq_refl). now rewrite skip_ws_not_blank in H2. }
  split; [|split; [|split; [|split]]].
  - rewrite tight_cons, H1, Hnb, Wc, andb_true_r. cbn [andb orb]. now rewrite andb_false_r.
  - cbn [starts_blank]. rewrite Wc. discriminate.
  - intros c' out' [= <- _] _. eauto.
  - intros H. rewrite Hrun in H. rewrite only_spaces_app in H.
    apply andb_true_iff in H as [_ H]. cbn [only_spaces forallb] in H.
    apply andb_true_iff in H as [Hc Hs2]. cbn [only_spaces forallb]. rewrite Hc.
    apply H4. now apply skip_ws_only_spaces.
  - cbn [length]. lia.
Qed.

(** ** The output of [minifyCode] *)

Lemma replace_blockComment_length s : length (replace blockComment [] s) <= length s.
Proof.
  apply replace_length. intros p s0 y H. apply match_at_shorter in H. simpl. lia.
Qed.

Lemma replace_around_length s :
  length (replace aroundPunctuation [RGroup 1] s) <= length s.
Proof.
  unfold replace. destruct (tighten_spec (S (length s)) None s) as (_ & _ & _ & _ & H); [lia|].
  exact H.
Qed.

Lemma replace_jsComment_length s : length (replace jsComment [RGroup 1] s) <= length s.
Proof.
  apply replace_length. intros p s0 y H.
  pose proof (jsComment_spec p s0) as Hs.
  destruct (comment_at p s0) as [[kept r]|] eqn:E; [|congruence].
  destruct Hs as [z [Hz [Hk Hr]]]. rewrite H in Hz. injection Hz as <-.
  apply comment_at_length in E. rewrite Hk, Hr. lia.
Qed.

(** X2: for every language but JSON [minifyCode] returns, and what it
    returns is no longer than the text. *)
Theorem minify_never_longer (text : jsstring) (lang : Language) :
  lang <> JSON ->
  exists out, minifyCode text lang = Return out /\ length out <= length text.
Proof.
  intros Hl. unfold minifyCode.
  destruct (isEmpty (trim text)); [exists []; split; [reflexivity | simpl; lia]|].
  pose proof trim_length as Ht.
  pose proof (fun s => proj2 (proj2 (proj2 (replace_collapse_spec s)))) as Hc.
  destruct lang; try congruence; eexists; (split; [reflexivity|]).
  - pose proof (replace_jsComment_length text).
    pose proof (Hc (replace jsComment [RGroup 1] text)).
    pose proof (Ht (replace spaces space (replace jsComment [RGroup 1] text))). lia.
  - pose proof (replace_jsComment_length text).
    pose proof (Hc (replace jsComment [RGroup 1] text)).
    pose proof (Ht (replace spaces space (replace jsComment [RGroup 1] text))). lia.
  - destruct (markup_spec text) as (_ & _ & _ & _ & H). exact H.
  - pose proof (replace_blockComment_length text).
    pose proof (Hc (replace blockComment [] text)).
    pose proof (replace_around_length (replace spaces space (replace blockComment [] text))).
    pose proof (Ht (replace aroundPunctuation [RGroup 1]
                      (replace spaces space (replace blockComment [] text)))). lia.
  - destruct (markup_spec text) as (_ & _ & _ & _ & H). exact H.
  - pose proof (Hc text). pose proof (Ht (replace spaces space text)). lia.
  - apply Hc.
Qed.

Lemma minify_never_longer_witness :
  exists out, minifyCode (str "a { color : red ; }") CSS = Return out
              /\ length out <= length (str "a { color : red ; }").
Proof. apply minify_never_longer. discriminate. Defined.

(** The JSON branch can make a text longer. *)
Example minify_json_longer :
  minifyCode (str "1e21") JSON = Return (str "1e+21").
Proof. vm_compute. reflexivity. Qed.

(** X3: for HTML and XML the output of [minifyCode] has no white space at
    either end, no two adjacent white space characters, and no [>] that
    only white space separates from the next [<]. *)
Theorem minify_markup_gaps (text : jsstring) (lang : Language) :
  lang = HTML \/ lang = XML ->
  exists out, minifyCode text lang = Return out
    /\ trimmed_shape out /\ ws_run_free out = true /\ tag_gap_free out = true.
Proof.
  intros Hl. unfold minifyCode.
  destruct (isEmpty (trim text)).
  { exists []. destruct Hl as [-> | ->]; repeat split; constructor. }
  destruct (markup_spec text) as (H1 & H2 & H3 & _).
  destruct Hl as [-> | ->]; eexists; (split; [reflexivity | auto]).
Qed.

Lemma minify_markup_gaps_witness :
  exists out, minifyCode (str "<a>  <b> x  y </b> </a> ") HTML = Return out
    /\ trimmed_shape out /\ ws_run_free out = true /\ tag_gap_free out = true.
Proof. apply minify_markup_gaps. left. reflexivity. Defined.

(** X4: for CSS the output of [minifyCode] has no white space at either
    end, none next to [:], [;], [{] or [}], and none but the space
    character. *)
Theorem minify_css_tight (text : jsstring) :
  exists out, minifyCode text CSS = Return out
    /\ trimmed_shape out /\ tight out = true /\ only_spaces out = true.
Proof.
  unfold minifyCode.
  destruct (isEmpty (trim text)).
  { exists []. repeat split; constructor. }
  eexists. split; [reflexivity|].
  set (r2 := replace spaces space (replace blockComment [] text)).
  destruct (replace_collapse_spec (replace blockComment [] text)) as (_ & Ho & _).
  fold r2 in Ho. unfold replace at 1 2 3.
  destruct (tighten_spec (S (length r2)) None r2) as (H1 & _ & _ & H4 & _); [lia|].
  cbv zeta in *.
  split; [apply trim_shape|]. split; [now apply trim_tight|].
  apply trim_only_spaces. auto.
Qed.

(** X5: for SQL, Markdown, HTML and XML [minifyCode] changes white space
    only: the characters that are no white space come out as they went in,
    in the same order. *)
Theorem minify_keeps_text (text : jsstring) (lang : Language) :
  lang = SQL \/ lang = MARKDOWN \/ lang = HTML \/ lang = XML ->
  exists out, minifyCode text lang = Return out /\ non_blank out = non_blank text.
Proof.
  intros Hl. unfold minifyCode.
  destruct (trim text) as [|c u] eqn:E; cbn [isEmpty].
  { exists []. apply trim_nil_non_blank in E. rewrite E.
    destruct Hl as [-> | [-> | [-> | ->]]]; split; reflexivity. }
  destruct (replace_collapse_spec text) as (_ & _ & H3 & _).
  destruct (markup_spec text) as (_ & _ & _ & M4 & _).
  destruct Hl as [-> | [-> | [-> | ->]]]; eexists; (split; [reflexivity|]); auto.
  now rewrite trim_non_blank.
Qed.

Lemma minify_keeps_text_witness :
  exists out, minifyCode (str "# a   b") MARKDOWN = Return out
    /\ non_blank out = non_blank (str "# a   b").
Proof. apply minify_keeps_text. right. left. reflexivity. Defined.

(** X6: for SQL, Markdown, HTML and XML minifying the output again gives
    the same output. *)
Theorem minify_idempotent (text out : jsstring) (lang : Language) :
  lang = SQL \/ lang = MARKDOWN \/ lang = HTML \/ lang = XML ->
  minifyCode text lang = Return out -> minifyCode out lang = Return out.
Proof.
  intros Hl H. unfold minifyCode in *.
  destruct (trim text) as [|c u] eqn:E; cbn [isEmpty] in H.
  { injection H as <-. reflexivity. }
  destruct (replace_collapse_spec text) as (H1 & H2 & H3 & _).
  destruct (markup_spec text) as (M1 & M2 & M3 & _).
  assert (Hsame : forall s : jsstring,
            (if isEmpty s then Return [] else Return s) = Return s).
  { intros s. destruct s; reflexivity. }
  destruct Hl as [-> | [-> | [-> | ->]]]; injection H as <-.
  - rewrite (replace_collapse_fixed _ (trim_ws_run_free _ H1) (trim_only_spaces _ H2)).
    rewrite trim_idempotent. apply Hsame.
  - assert (Hne : trim (replace spaces space text) <> []).
    { rewrite trim_nil_non_blank, H3, <- trim_nil_non_blank, E. discriminate. }
    rewrite (isEmpty_false _ Hne). now rewrite replace_collapse_fixed.
  - rewrite (markup_fixed _ M1 M2 M3), (trim_shape_fixed _ M1). apply Hsame.
  - rewrite (markup_fixed _ M1 M2 M3), (trim_shape_fixed _ M1). apply Hsame.
Qed.

Lemma minify_idempotent_witness :
  minifyCode (str "<a>  <b/> </a>") XML = Return (str "<a><b/></a>")
  /\ minifyCode (str "<a><b/></a>") XML = Return (str "<a><b/></a>").
Proof.
  assert (H : minifyCode (str "<a>  <b/> </a>") XML = Return (str "<a><b/></a>"))
    by (vm_compute; reflexivity).
  split; [exact H|].
  exact (minify_idempotent (str "<a>  <b/> </a>") (str "<a><b/></a>") XML
           (or_intror (or_intror (or_intror eq_refl))) H).
Defined.

End MinifyOutput.

(** ** The handlers of App.tsx *)

Section HandlerProperties.
Import Beautify Handlers.
Local Open Scope list_scope.

Lemma Language_eqb_eq a b : Language_eqb a b = true <-> a = b.
Proof. destruct a, b; simpl; split; congruence. Qed.

Lemma Language_eqb_refl a : Language_eqb a a = true.
Proof. now apply Language_eqb_eq. Qed.

(** X7: [handleInputChange] stores the new text and touches nothing else
    but the language. The language is detected again only for a text of
    more than ten code units that replaces an empty input or is more than
    ten code units longer than the input; so typing, which adds one code
    unit at a time to an input that is not empty, never changes it. *)
Theorem input_change_language (newCode : option jsstring) (st : AppState) :
  let val := match newCode with Some s => s | None => [] end in
  let st' := handleInputChange newCode st in
  inputCode st' = val /\ outputCode st' = outputCode st
  /\ error st' = error st /\ notification st' = notification st
  /\ (length val <= 10 -> language st' = language st)
  /\ (inputCode st <> [] -> length val <= length (inputCode st) + 10 ->
      language st' = language st)
  /\ (10 < length val ->
      inputCode st = [] \/ length (inputCode st) + 10 < length val ->
      language st' = detectLanguage val).
Proof.
  cbv zeta. unfold handleInputChange.
  set (val := match newCode with Some s => s | None => [] end).
  set (cond := ((Nat.eqb (length (inputCode st)) 0
                 || Z.ltb 10 (Z.of_nat (length val) - Z.of_nat (length (inputCode st))))
                && Nat.ltb 10 (length val))%bool).
  assert (Hframe : forall st1 : AppState,
            st1 = st \/ st1 = setLanguage (detectLanguage val) st ->
            inputCode (setInputCode val st1) = val
            /\ outputCode (setInputCode val st1) = outputCode st
            /\ error (setInputCode val st1) = error st
            /\ notification (setInputCode val st1) = notification st).
  { intros st1 [-> | ->]; repeat split. }
  destruct cond eqn:Ec.
  - apply andb_true_iff in Ec as [E1 E2]. apply Nat.ltb_lt in E2.
    apply orb_true_iff in E1.
    assert (Hl : language (setInputCode val
                   (if negb (Language_eqb (detectLanguage val) (language st))
                    then setLanguage (detectLanguage val) st else st))
                 = detectLanguage val).
    { destruct (Language_eqb (detectLanguage val) (language st)) eqn:E; cbn.
      - apply Language_eqb_eq in E. auto.
      - reflexivity. }
    destruct (Hframe (if negb (Language_eqb (detectLanguage val) (language st))
                      then setLanguage (detectLanguage val) st else st))
      as (F1 & F2 & F3 & F4).
    { destruct (negb _); auto. }
    repeat split; auto.
    + intros H. lia.
    + intros Hne Hlen. exfalso. destruct E1 as [E1 | E1].
      * apply Nat.eqb_eq in E1. destruct (inputCode st); [congruence | discriminate].
      * apply Z.ltb_lt in E1. lia.
  - destruct (Hframe st) as (F1 & F2 & F3 & F4); auto.
    repeat split; auto.
    intros Hlong Hcase. exfalso.
    apply andb_false_iff in Ec as [Ec | Ec].
    + apply orb_false_iff in Ec as [E1 E2].
      apply Nat.eqb_neq in E1. apply Z.ltb_ge in E2.
      destruct Hcase as [Hc | Hc]; [rewrite Hc in E1; simpl in E1; congruence | lia].
    + apply Nat.ltb_ge in Ec. lia.
Qed.

(** X8: [handleMinify] never changes the language, and what [minifyCode]
    does decides the rest. When it throws, the error is what it threw; when
    it returns the empty string for a text that is not blank, the error is
    the empty-result error; in both cases the panes and the notification
    stay as they were. Otherwise the error is cleared, the notification of
    success is shown and the result goes to the input pane for JSON and to
    the output pane for the other languages. *)
Theorem minify_handler_outcome (st : AppState) :
  let st' := handleMinify st in
  let failed (e : exn) :=
    {| inputCode := inputCode st; outputCode := outputCode st; language := language st;
       error := Some e; notification := notification st |} in
  language st' = language st
  /\ (forall e, minifyCode (inputCode st) (language st) = Throw e -> st' = failed e)
  /\ (minifyCode (inputCode st) (language st) = Return [] -> trim (inputCode st) <> [] ->
      st' = failed emptyResult)
  /\ (forall out, minifyCode (inputCode st) (language st) = Return out ->
        out <> [] \/ trim (inputCode st) = [] ->
        st' = {| inputCode := if Language_eqb (language st) JSON then out else inputCode st;
                 outputCode := if Language_eqb (language st) JSON then outputCode st else out;
                 language := language st; error := None;
                 notification := Some "Code minified successfully!"%string |})
  /\ (error st' = None <->
      exists out, minifyCode (inputCode st) (language st) = Return out
                  /\ (out <> [] \/ trim (inputCode st) = [])).
Proof.
  cbv zeta. unfold handleMinify, tryMinify. cbn [setError inputCode language].
  destruct (minifyCode (inputCode st) (language st)) as [out|e] eqn:E.
  - assert (Hc : (isEmpty out && Nat.ltb 0 (length (trim (inputCode st))))%bool = true
                 <-> (out = [] /\ trim (inputCode st) <> [])).
    { destruct out as [|c o]; destruct (trim (inputCode st)) as [|d u]; cbn;
        split; try discriminate; try (intros [? ?]; congruence); auto.
      intros _. split; [reflexivity | discriminate]. }
    destruct (isEmpty out && Nat.ltb 0 (length (trim (inputCode st))))%bool eqn:Ec.
    + destruct (proj1 Hc eq_refl) as [-> Hne].
      split; [reflexivity|]. split; [discriminate|]. split; [reflexivity|].
      split; [intros out [= <-] [H | H]; congruence|].
      split; [discriminate|]. intros (out & [= <-] & [H | H]); congruence.
    + assert (Hok : out <> [] \/ trim (inputCode st) = []).
      { destruct out as [|c o]; [|left; discriminate].
        destruct (trim (inputCode st)) as [|d u] eqn:Et; [now right|].
        cbn in Ec. discriminate Ec. }
      destruct (Language_eqb (language st) JSON) eqn:El;
        (split; [reflexivity|]; split; [discriminate|];
         split; [intros [= ->] Hne; destruct Hok as [H | H]; congruence|];
         split; [intros out' [= <-] _; reflexivity|];
         split; [intros _; exists out; auto | reflexivity]).
  - split; [reflexivity|]. split; [intros e' [= <-]; reflexivity|].
    split; [discriminate|]. split; [discriminate|].
    split; [discriminate | intros (out & H & _); discriminate H].
Qed.

Lemma minify_json_cases (text : jsstring) :
  (trim text = [] /\ minifyCode text JSON = Return [])
  \/ (trim text <> [] /\ JSON.parse text = None /\ minifyCode text JSON = Throw SyntaxError)
  \/ (exists v, trim text <> [] /\ JSON.parse text = Some v
        /\ minifyCode text JSON = Return (stringify v)
        /\ stringify v <> []
        /\ minifyCode (stringify v) JSON = Return (stringify v)).
Proof.
  destruct (trim text) as [|c u] eqn:E.
  { left. split; auto. unfold minifyCode. now rewrite E. }
  right. destruct (JSON.parse text) as [v|] eqn:Ep.
  - right. exists v. split; [discriminate|]. split; [reflexivity|].
    pose proof (parse_stringify v (parse_wf_value text v Ep)) as Hp.
    split; [now apply minify_json_parsed|]. split.
    + intros Hn. rewrite Hn in Hp. discriminate Hp.
    + rewrite (minify_json_parsed _ _ Hp). now rewrite reread_stringify.
  - left. split; [discriminate|]. split; [reflexivity|].
    unfold minifyCode. now rewrite E, Ep.
Qed.

(** X9: in JSON mode a second click on Minify changes nothing: the handler
    applied twice gives the state it gives applied once, whether the text
    is blank, invalid or valid. *)
Theorem minify_handler_idempotent (st : AppState) :
  language st = JSON -> handleMinify (handleMinify st) = handleMinify st.
Proof.
  destruct st as [i o l e n]. cbn [language]. intros ->.
  unfold handleMinify, tryMinify. cbn [setError inputCode language outputCode].
  destruct (minify_json_cases i) as [[Ht Hm] | [[Ht [Hp Hm]] | [v (Ht & Hp & Hm & Hne & Hm2)]]].
  - rewrite Hm, Ht. cbn. reflexivity.
  - rewrite Hm. cbn. rewrite Hm. reflexivity.
  - rewrite Hm. rewrite (isEmpty_false _ Hne). cbn.
    rewrite Hm2. rewrite (isEmpty_false _ Hne). reflexivity.
Qed.

Lemma minify_handler_idempotent_witness :
  let st := {| inputCode := strq "{ 'a' : [1, 2] }"; outputCode := []; language := JSON;
               error := None; notification := None |} in
  language st = JSON /\ handleMinify (handleMinify st) = handleMinify st.
Proof. split; [reflexivity | apply minify_handler_idempotent; reflexivity]. Defined.

(** A text that parses to an object or an array is detected as JSON. *)
Lemma detect_container (t : jsstring) v :
  JSON.parse t = Some v -> is_container v = true -> detectLanguage t = JSON.
Proof.
  intros H Hv. pose proof (parse_trim t v H) as Ht.
  unfold detectLanguage. cbv zeta.
  rewrite (container_brackets _ _ Ht Hv (trim_shape t)).
  unfold parses. rewrite Ht. cbn [andb].
  destruct (isEmpty (trim t)); reflexivity.
Qed.

(** X10: pasting a JSON text whose value is an object or an array, or
    choosing Auto-Detect when the input pane holds such a text, and then
    clicking Minify never fails: the language is JSON, no error is shown,
    the input pane holds the compact text and the output pane is as it was. *)
Theorem paste_then_minify (text : jsstring) (v : value) (st : AppState) :
  JSON.parse text = Some v -> is_container v = true ->
  (let st' := handleMinify (handlePaste (Some text) st) in
   language st' = JSON /\ error st' = None /\ inputCode st' = stringify v
   /\ outputCode st' = outputCode st)
  /\ (inputCode st = text ->
      let st' := handleMinify (handleLanguageChange Auto st) in
      language st' = JSON /\ error st' = None /\ inputCode st' = stringify v
      /\ outputCode st' = outputCode st).
Proof.
  intros Hp Hc. cbv zeta.
  pose proof (detect_container text v Hp Hc) as Hd.
  destruct (minify_json_cases text) as [[Ht Hm] | [[Ht [Hp' Hm]] | [v' (Ht & Hp' & Hm & Hne & _)]]].
  - apply parse_blank in Ht. congruence.
  - congruence.
  - assert (v' = v) by congruence. subst v'.
    unfold handlePaste. rewrite Hd.
    assert (H : forall st1 : AppState, inputCode st1 = text -> language st1 = JSON ->
              outputCode st1 = outputCode st ->
              language (handleMinify st1) = JSON /\ error (handleMinify st1) = None
              /\ inputCode (handleMinify st1) = stringify v
              /\ outputCode (handleMinify st1) = outputCode st).
    { intros st1 H1 H2 H3. unfold handleMinify, tryMinify.
      cbn [setError inputCode language]. rewrite H1, H2, Hm, (isEmpty_false _ Hne).
      cbn. auto. }
    split.
    + destruct (Language_eqb JSON (language st)) eqn:El; cbn [negb]; apply H;
        try reflexivity.
      apply Language_eqb_eq in El. cbn. congruence.
    + intros Hi. unfold handleLanguageChange. rewrite Hi, Hd. apply H; auto.
Qed.

Lemma paste_then_minify_witness :
  let text := strq "[ {'a': true} ]" in
  let v := VArray [VObject [(str "a", VBool true)]] in
  let st := {| inputCode := []; outputCode := str "x"; language := CSS;
               error := Some SyntaxError; notification := None |} in
  let st' := handleMinify (handlePaste (Some text) st) in
  JSON.parse text = Some v /\ is_container v = true
  /\ language st' = JSON /\ error st' = None /\ inputCode st' = stringify v
  /\ outputCode st' = outputCode st.
Proof.
  split; [vm_compute; reflexivity|]. split; [reflexivity|].
  apply (paste_then_minify (strq "[ {'a': true} ]")
           (VArray [VObject [(str "a", VBool true)]])); vm_compute; reflexivity.
Defined.

End HandlerProperties.

(** ** JSON written with a gap *)

Section JsonIndented.
Import Number Beautify Handlers.
Local Open Scope list_scope.

(** *** A number token followed by more text *)

Lemma number_end_no_digit rest : number_end rest = true -> no_digit rest.
Proof.
  destruct rest as [|c rest]; simpl; auto. intros H.
  apply negb_true_iff in H. repeat (apply orb_false_iff in H as [H ?]). exact H.
Qed.

Lemma lex_int_extend (a r : jsstring) i r0 :
  no_digit r -> lex_int a = Some (i, r0) -> lex_int (a ++ r) = Some (i, r0 ++ r).
Proof.
  intros Hr H. destruct a as [|c a1]; [discriminate|].
  cbn [app lex_int] in *. destruct (N.eqb c (ch "0")); [now injection H as <- <-|].
  destruct (isDigit c); [|discriminate].
  rewrite (span_trail a1 r Hr). destruct (span isDigit a1) as [x y].
  cbn [fst snd]. now injection H as <- <-.
Qed.

Lemma lex_fraction_extend (a r : jsstring) fr r0 :
  number_end r = true -> lex_fraction a = Some (fr, r0) ->
  lex_fraction (a ++ r) = Some (fr, r0 ++ r).
Proof.
  intros Hr H. pose proof (number_end_no_digit r Hr) as Hd.
  destruct a as [|c a1].
  - injection H as <- <-. cbn [app]. destruct r as [|c r']; [reflexivity|].
    cbn [lex_fraction]. cbn [number_end] in Hr. apply negb_true_iff in Hr.
    repeat (apply orb_false_iff in Hr as [Hr ?]).
    match goal with H : N.eqb c (ch ".") = false |- _ => now rewrite H end.
  - cbn [app lex_fraction] in *. destruct (N.eqb c (ch ".")); [|now injection H as <- <-].
    rewrite (span_trail a1 r Hd). destruct (span isDigit a1) as [x y].
    cbn [fst snd]. destruct (isEmpty x); [discriminate|]. now injection H as <- <-.
Qed.

Lemma lex_exponent_extend (a r : jsstring) (eneg : bool) ed r0 :
  number_end r = true -> lex_exponent a = Some (eneg, ed, r0) ->
  lex_exponent (a ++ r) = Some (eneg, ed, r0 ++ r).
Proof.
  intros Hr H. pose proof (number_end_no_digit r Hr) as Hd.
  destruct a as [|c a1].
  - injection H as <- <- <-. cbn [app]. destruct r as [|c r']; [reflexivity|].
    cbn [lex_exponent]. cbn [number_end] in Hr. apply negb_true_iff in Hr.
    repeat (apply orb_false_iff in Hr as [Hr ?]).
    repeat match goal with H : N.eqb c _ = false |- _ => rewrite H; clear H end.
    reflexivity.
  - cbn [app lex_exponent] in *.
    destruct (N.eqb c (ch "e") || N.eqb c (ch "E"))%bool; [|now injection H as <- <- <-].
    destruct a1 as [|g a1'].
    + discriminate H.
    + cbn [app]. destruct (N.eqb g (ch "-")).
      { rewrite (span_trail a1' r Hd). destruct (span isDigit a1') as [x y].
        cbn [fst snd]. destruct (isEmpty x); [discriminate|]. now injection H as <- <- <-. }
      destruct (N.eqb g (ch "+")).
      { rewrite (span_trail a1' r Hd). destruct (span isDigit a1') as [x y].
        cbn [fst snd]. destruct (isEmpty x); [discriminate|]. now injection H as <- <- <-. }
      change (g :: a1' ++ r) with ((g :: a1') ++ r).
      rewrite (span_trail (g :: a1') r Hd). destruct (span isDigit (g :: a1')) as [x y].
      cbn [fst snd]. destruct (isEmpty x); [discriminate|]. now injection H as <- <- <-.
Qed.

(** A number token is read the same when text that does not continue it
    follows. *)
Lemma lex_number_extend (a r : jsstring) x r0 :
  number_end r = true -> lex_number a = Some (x, r0) ->
  lex_number (a ++ r) = Some (x, r0 ++ r).
Proof.
  intros Hr H. pose proof (number_end_no_digit r Hr) as Hd.
  assert (Hgen : forall neg a0,
    match lex_int a0 with
    | None => None
    | Some (int, s1) =>
        match lex_fraction s1 with
        | None => None
        | Some (frac, s2) =>
            match lex_exponent s2 with
            | None => None
            | Some (eneg, ed, s3) => Some (of_literal neg int frac eneg ed, s3)
            end
        end
    end = Some (x, r0) ->
    match lex_int (a0 ++ r) with
    | None => None
    | Some (int, s1) =>
        match lex_fraction s1 with
        | None => None
        | Some (frac, s2) =>
            match lex_exponent s2 with
            | None => None
            | Some (eneg, ed, s3) => Some (of_literal neg int frac eneg ed, s3)
            end
        end
    end = Some (x, r0 ++ r)).
  { intros neg a0 H0.
    destruct (lex_int a0) as [[int s1]|] eqn:E1; [|discriminate].
    destruct (lex_fraction s1) as [[frac s2]|] eqn:E2; [|discriminate].
    destruct (lex_exponent s2) as [[[eneg ed] s3]|] eqn:E3; [|discriminate].
    injection H0 as <- <-.
    rewrite (lex_int_extend _ r _ _ Hd E1), (lex_fraction_extend _ r _ _ Hr E2),
      (lex_exponent_extend _ r _ _ _ Hr E3). reflexivity. }
  destruct a as [|c a1]; [discriminate H|].
  unfold lex_number in *. cbn [app].
  destruct (N.eqb c (ch "-")); [now apply Hgen|].
  now apply (Hgen false (c :: a1)).
Qed.

Lemma lex_number_toString_end x rest :
  wf_number x -> isFinite x = true -> number_end rest = true ->
  lex_number (toString x ++ rest) = Some (positive_zero x, rest).
Proof.
  intros Hx Hf Hr.
  pose proof (lex_number_toString x [] Hx Hf eq_refl) as H. rewrite app_nil_r in H.
  now apply (lex_number_extend _ rest _ _ Hr) in H.
Qed.

Lemma value_end_number_end rest : value_end rest = true -> number_end rest = true.
Proof.
  destruct rest as [|c rest]; cbn [value_end number_end]; auto. intros H.
  apply negb_true_iff.
  destruct (isDigit c || N.eqb c (ch ".") || N.eqb c (ch "e") || N.eqb c (ch "E"))%bool eqn:E;
    [exfalso|reflexivity].
  unfold newline in H. char_lia.
Qed.

(** *** Lexing the indented text *)

Lemma tokens_ws (w s : jsstring) :
  forallb isJSONWhiteSpace w = true -> tokens (w ++ s) = tokens s.
Proof.
  induction w as [|c w IH]; intros H; [reflexivity|].
  cbn [forallb] in H. apply andb_true_iff in H as [Hc Hw].
  unfold tokens at 1. cbn [app length]. rewrite lex_cons, Hc.
  change (lex (S (length (w ++ s))) (w ++ s)) with (tokens (w ++ s)). auto.
Qed.

Lemma tokens_newline_indent (indent s : jsstring) :
  forallb isJSONWhiteSpace indent = true -> tokens (newline :: indent ++ s) = tokens s.
Proof.
  intros H. change (newline :: indent ++ s) with ((newline :: indent) ++ s).
  apply tokens_ws. cbn [forallb]. now rewrite H.
Qed.

Lemma value_end_newline s : value_end (newline :: s) = true.
Proof. reflexivity. Qed.

Lemma value_end_comma s : value_end (ch "," :: s) = true.
Proof. reflexivity. Qed.

(** Items one a line, followed by the line of the closing bracket. *)
Lemma tokens_join_gap {A} (pr : A -> jsstring) (tk : A -> list token)
    (close : char) (tclose : token) (indent stepback : jsstring) :
  punctuator close = Some tclose ->
  forallb isJSONWhiteSpace indent = true -> forallb isJSONWhiteSpace stepback = true ->
  forall items, items <> [] ->
    Forall (fun a => forall rest ts, value_end rest = true -> tokens rest = Some ts ->
                     tokens (pr a ++ rest) = Some (tk a ++ ts)) items ->
    forall rest ts, tokens rest = Some ts ->
      tokens (join_with (ch "," :: newline :: indent) (map pr items)
              ++ newline :: stepback ++ close :: rest) =
      Some (join_tokens (map tk items) ++ tclose :: ts).
Proof.
  intros Hp Hi Hs. induction items as [|a items IH]; intros Hne Hall rest ts Hts;
    [congruence|].
  inversion Hall as [|a' items' Ha Hitems]; subst.
  assert (Hclose : tokens (newline :: stepback ++ close :: rest) = Some (tclose :: ts)).
  { rewrite (tokens_newline_indent stepback _ Hs).
    rewrite (tokens_punct close tclose rest Hp), Hts. reflexivity. }
  destruct items as [|b items].
  - cbn [map join_with join_tokens]. apply Ha; auto.
  - change (join_with (ch "," :: newline :: indent) (map pr (a :: b :: items)))
      with (pr a ++ (ch "," :: newline :: indent)
            ++ join_with (ch "," :: newline :: indent) (map pr (b :: items))).
    change (join_tokens (map tk (a :: b :: items)))
      with (tk a ++ TComma :: join_tokens (map tk (b :: items))).
    rewrite <- !app_assoc. cbn [app]. apply Ha; [reflexivity|].
    rewrite (tokens_punct (ch ",") TComma) by reflexivity.
    rewrite (tokens_newline_indent indent _ Hi).
    rewrite (IH ltac:(discriminate) Hitems rest ts Hts). reflexivity.
Qed.

Lemma forallb_ws_app (a b : jsstring) :
  forallb isJSONWhiteSpace a = true -> forallb isJSONWhiteSpace b = true ->
  forallb isJSONWhiteSpace (a ++ b) = true.
Proof. intros Ha Hb. now rewrite forallb_app, Ha, Hb. Qed.

(** The indented text written for a value lexes to the tokens of the value
    read again. *)
Lemma tokens_stringify_gap (gap : jsstring) :
  forallb isJSONWhiteSpace gap = true ->
  forall v, wf_value v ->
  forall indent rest ts,
    forallb isJSONWhiteSpace indent = true -> value_end rest = true ->
    tokens rest = Some ts ->
    tokens (stringify_gap gap indent v ++ rest) = Some (tokens_of (reread v) ++ ts).
Proof.
  intros Hg.
  induction v as [ | b | x | s | l IH | o IH] using value_induction;
    intros Hwf indent rest ts Hi Hd Hts.
  - cbn [stringify_gap reread tokens_of]. rewrite tokens_null, Hts. reflexivity.
  - destruct b; cbn [stringify_gap reread tokens_of].
    + rewrite tokens_true, Hts. reflexivity.
    + rewrite tokens_false, Hts. reflexivity.
  - cbn [stringify_gap reread]. unfold stringify_number.
    inversion Hwf as [ | | x' Hx | | | ]; subst.
    destruct (isFinite x) eqn:Hf.
    + pose proof (lex_number_toString_end x rest Hx Hf (value_end_number_end _ Hd)) as Hl.
      destruct (lex_number_head _ _ _ Hl) as [c [s' [E Hc]]].
      rewrite E in *. rewrite (tokens_number c s' _ rest Hc Hl), Hts. reflexivity.
    + cbn [tokens_of]. rewrite tokens_null, Hts. reflexivity.
  - cbn [stringify_gap reread tokens_of]. now apply tokens_quote.
  - inversion Hwf as [ | | | | l' Hl | ]; subst.
    destruct l as [|v0 l0].
    { cbn [stringify_gap reread map tokens_of join_tokens app].
      change (str "[]" ++ rest) with (ch "[" :: ch "]" :: rest).
      rewrite (tokens_punct (ch "[") TLBracket) by reflexivity.
      rewrite (tokens_punct (ch "]") TRBracket) by reflexivity.
      rewrite Hts. reflexivity. }
    cbn [stringify_gap]. cbv zeta. cbn [reread tokens_of app].
    rewrite (tokens_punct (ch "[") TLBracket) by reflexivity.
    assert (Hind : forallb isJSONWhiteSpace (indent ++ gap) = true)
      by (now apply forallb_ws_app).
    set (ind := indent ++ gap) in *.
    rewrite <- !app_assoc. cbn [app]. rewrite <- !app_assoc. cbn [app].
    rewrite (tokens_newline_indent ind _ Hind). rewrite map_map.
    rewrite (tokens_join_gap (stringify_gap gap ind)
               (fun v => tokens_of (reread v)) (ch "]") TRBracket ind indent)
      with (ts := ts); auto.
    + discriminate.
    + rewrite Forall_forall in *. intros v Hv rest' ts' H1 H2.
      apply IH; auto.
  - inversion Hwf as [ | | | | | o' Hk Ho]; subst.
    destruct o as [|kv0 o0].
    { cbn [stringify_gap reread map tokens_of join_tokens app].
      change (str "{}" ++ rest) with (ch "{" :: ch "}" :: rest).
      rewrite (tokens_punct (ch "{") TLBrace) by reflexivity.
      rewrite (tokens_punct (ch "}") TRBrace) by reflexivity.
      rewrite Hts. reflexivity. }
    cbn [stringify_gap]. cbv zeta. cbn [reread tokens_of app].
    rewrite (tokens_punct (ch "{") TLBrace) by reflexivity.
    assert (Hind : forallb isJSONWhiteSpace (indent ++ gap) = true)
      by (now apply forallb_ws_app).
    set (ind := indent ++ gap) in *.
    rewrite <- !app_assoc. cbn [app]. rewrite <- !app_assoc. cbn [app].
    rewrite (tokens_newline_indent ind _ Hind). rewrite map_map.
    rewrite (tokens_join_gap
               (fun kv : jsstring * value =>
                  let (k, v') := kv in
                  quote k ++ ch ":" :: ch " " :: stringify_gap gap ind v')
               (fun kv : jsstring * value =>
                  let (k, v') := let (k, v') := kv in (k, reread v') in
                  TString k :: TColon :: tokens_of v')
               (ch "}") TRBrace ind indent) with (ts := ts); auto.
    + discriminate.
    + rewrite Forall_forall in *. intros [k v] Hv rest' ts' H1 H2.
      rewrite <- app_assoc. cbn [app].
      rewrite (tokens_quote k _ (TColon :: tokens_of (reread v) ++ ts')); [reflexivity|].
      rewrite (tokens_punct (ch ":") TColon) by reflexivity.
      change (ch " " :: stringify_gap gap ind v ++ rest')
        with ([ch " "] ++ stringify_gap gap ind v ++ rest').
      rewrite (tokens_ws [ch " "]) by reflexivity.
      pose proof (IH (k, v) Hv (Ho (k, v) Hv) ind rest' ts' Hind H1 H2) as Hx.
      cbn [snd] in Hx. rewrite Hx. reflexivity.
Qed.

(** *** Writing with a gap and reading back *)

Lemma reread_stringify_gap gap : forall v indent,
  stringify_gap gap indent (reread v) = stringify_gap gap indent v.
Proof.
  induction v as [| b | x | s | l IH | o IH] using value_induction; intros indent;
    cbn [reread stringify_gap]; auto.
  - unfold stringify_number. destruct x as [neg m e|neg]; cbn [isFinite stringify_gap]; auto.
    unfold stringify_number. cbn [positive_zero].
    destruct (m =? 0)%Z eqn:E; cbn [isFinite]; auto.
    cbn [toString]. now rewrite E.
  - assert (Hmap : forall ind, map (stringify_gap gap ind) (map reread l)
                               = map (stringify_gap gap ind) l).
    { intros ind. rewrite map_map. apply map_ext_in. intros w Hw.
      rewrite Forall_forall in IH. auto. }
    destruct l as [|v0 l0]; [reflexivity|]. cbv zeta.
    specialize (Hmap (indent ++ gap)). cbn [map] in *. now rewrite Hmap.
  - set (member := fun ind (kv : jsstring * value) =>
                     let (k, v') := kv in
                     quote k ++ ch ":" :: ch " " :: stringify_gap gap ind v').
    assert (Hmap : forall ind,
              map (member ind)
                  (map (fun kv : jsstring * value => let (k, v') := kv in (k, reread v')) o)
              = map (member ind) o).
    { intros ind. rewrite map_map. apply map_ext_in. intros [k w] Hw.
      rewrite Forall_forall in IH. unfold member. do 3 f_equal. apply (IH (k, w) Hw). }
    destruct o as [|kv0 o0]; [reflexivity|]. cbv zeta.
    specialize (Hmap (indent ++ gap)). unfold member in Hmap. cbn [map] in *.
    now rewrite Hmap.
Qed.

(** [JSON.parse(JSON.stringify(v, null, gap))] for a value made by
    [JSON.parse] and a gap of white space. *)
Lemma parse_stringify_gap gap v :
  forallb isJSONWhiteSpace gap = true -> wf_value v ->
  JSON.parse (stringify_gap gap [] v) = Some (reread v).
Proof.
  intros Hg Hv. unfold JSON.parse.
  pose proof (tokens_stringify_gap gap Hg v Hv [] [] [] eq_refl eq_refl tokens_nil) as Ht.
  rewrite !app_nil_r in Ht. rewrite Ht.
  pose proof (parse_tokens_of (reread v) (reread_wf v Hv) [] (S (length (tokens_of (reread v)))))
    as Hp.
  rewrite !app_nil_r in Hp. rewrite Hp; auto.
Qed.

Lemma parse_stringify_2 v : wf_value v -> JSON.parse (stringify_2 v) = Some (reread v).
Proof. intros Hv. now apply parse_stringify_gap. Qed.

Lemma reread_idempotent : forall v, reread (reread v) = reread v.
Proof.
  induction v as [| b | x | s | l IH | o IH] using value_induction;
    cbn [reread]; auto.
  - destruct x as [neg m e|neg]; cbn [isFinite reread]; auto.
    cbn [positive_zero]. destruct (m =? 0)%Z eqn:E; cbn [isFinite positive_zero].
    + reflexivity.
    + now rewrite E.
  - f_equal. rewrite map_map. apply map_ext_in. intros w Hw.
    rewrite Forall_forall in IH. auto.
  - f_equal. rewrite map_map. apply map_ext_in. intros [k w] Hw.
    rewrite Forall_forall in IH. f_equal. apply (IH (k, w) Hw).
Qed.

(** ** formatCode *)

Section FormatCode.
Variable prettier_format : Language -> jsstring -> result jsstring.
Variable toUpperCase : jsstring -> jsstring.

(** X11: for every language, and whatever Prettier would do, a text whose
    trimmed form is empty is formatted to the empty string; such a text is
    classified as JSON although it is no JSON text. *)
Theorem format_blank (lang : Language) (text : jsstring) :
  trim text = [] ->
  formatCode prettier_format toUpperCase text lang = Return []
  /\ detectLanguage text = JSON /\ JSON.parse text = None.
Proof.
  intros H. split; [|split].
  - unfold formatCode. now rewrite H.
  - unfold detectLanguage. now rewrite H.
  - now apply parse_blank.
Qed.

(** X12: [formatCode] is rejected only with the SyntaxError of [JSON.parse],
    for JSON and a text that is not blank and that [JSON.parse] rejects, or
    with what Prettier rejects with, for JavaScript, TypeScript, HTML, CSS
    and XML; for SQL and Markdown it always returns. *)
Theorem format_errors (text : jsstring) (lang : Language) :
  (formatCode prettier_format toUpperCase text JSON = Throw SyntaxError
   <-> (trim text <> [] /\ JSON.parse text = None))
  /\ (forall e, formatCode prettier_format toUpperCase text lang = Throw e ->
        (lang = JSON /\ e = SyntaxError /\ JSON.parse text = None)
        \/ (lang <> JSON /\ lang <> SQL /\ lang <> MARKDOWN
            /\ prettier_format lang text = Throw e)).
Proof.
  split.
  - unfold formatCode. destruct (trim text) as [|c u] eqn:E; cbn [isEmpty].
    + split; [discriminate | intros [H _]; congruence].
    + destruct (JSON.parse text).
      * split; [discriminate | intros [_ H]; discriminate].
      * split; [intros _; split; [discriminate | reflexivity] | reflexivity].
  - intros e. unfold formatCode. destruct (isEmpty (trim text)); [discriminate|].
    destruct lang; try discriminate;
      try (intros H; right; repeat split; [discriminate .. | exact H]).
    destruct (JSON.parse text); [discriminate|]. intros [= <-]. left. auto.
Qed.

Lemma format_json_cases (text : jsstring) :
  (trim text = [] /\ formatCode prettier_format toUpperCase text JSON = Return [])
  \/ (trim text <> [] /\ JSON.parse text = None
      /\ formatCode prettier_format toUpperCase text JSON = Throw SyntaxError)
  \/ (exists v, trim text <> [] /\ JSON.parse text = Some v /\ wf_value v
        /\ formatCode prettier_format toUpperCase text JSON = Return (stringify_2 v)
        /\ JSON.parse (stringify_2 v) = Some (reread v)).
Proof.
  unfold formatCode. destruct (trim text) as [|c u] eqn:E; cbn [isEmpty].
  { left. auto. }
  right. destruct (JSON.parse text) as [v|] eqn:Ep.
  - right. exists v. pose proof (parse_wf_value text v Ep) as Hv.
    repeat split; auto; [discriminate|]. now apply parse_stringify_2.
  - left. repeat split. discriminate.
Qed.

Lemma format_json_parsed (text : jsstring) v :
  JSON.parse text = Some v ->
  formatCode prettier_format toUpperCase text JSON = Return (stringify_2 v).
Proof.
  intros H. unfold formatCode. now rewrite (parse_not_blank _ _ H), H.
Qed.

(** X13: formatting a valid JSON text succeeds; the indented text parses to
    the value read from the text, with [-0] as [0] and an infinite Number as
    [null]; formatting it again gives the same text; minifying it gives what
    minifying the text gives, and formatting the minified text gives it
    back. *)
Theorem format_json_round_trip (t : jsstring) (v : value) :
  JSON.parse t = Some v ->
  exists out,
    formatCode prettier_format toUpperCase t JSON = Return out
    /\ JSON.parse out = Some (reread v)
    /\ formatCode prettier_format toUpperCase out JSON = Return out
    /\ minifyCode out JSON = minifyCode t JSON
    /\ (forall m, minifyCode t JSON = Return m ->
          formatCode prettier_format toUpperCase m JSON = Return out).
Proof.
  intros H. exists (stringify_2 v).
  pose proof (parse_wf_value t v H) as Hv.
  pose proof (parse_stringify_2 v Hv) as Hp.
  split; [now apply format_json_parsed|]. split; [exact Hp|]. split; [|split].
  - rewrite (format_json_parsed _ _ Hp). unfold stringify_2.
    now rewrite reread_stringify_gap.
  - rewrite (minify_json_parsed _ _ Hp), (minify_json_parsed _ _ H).
    now rewrite reread_stringify.
  - intros m Hm. rewrite (minify_json_parsed _ _ H) in Hm. injection Hm as <-.
    rewrite (format_json_parsed _ _ (parse_stringify v Hv)). unfold stringify_2.
    now rewrite reread_stringify_gap.
Qed.

End FormatCode.

Lemma format_blank_witness :
  trim (str "  ") = []
  /\ formatCode (fun _ _ => Throw SyntaxError) (fun s => s) (str "  ") CSS = Return []
  /\ detectLanguage (str "  ") = JSON /\ JSON.parse (str "  ") = None.
Proof.
  split; [reflexivity|].
  exact (format_blank (fun _ _ => Throw SyntaxError) (fun s => s) CSS (str "  ") eq_refl).
Defined.

Lemma format_json_round_trip_witness :
  let t := strq "{'b':[true,null],'a':{}}" in
  let v := VObject [(str "b", VArray [VBool true; VNull]); (str "a", VObject [])] in
  let fmt := formatCode (fun _ _ => Throw SyntaxError) (fun s => s) in
  JSON.parse t = Some v
  /\ exists out,
       fmt t JSON = Return out
       /\ JSON.parse out = Some (reread v)
       /\ fmt out JSON = Return out
       /\ minifyCode out JSON = minifyCode t JSON
       /\ (forall m, minifyCode t JSON = Return m -> fmt m JSON = Return out).
Proof.
  split; [vm_compute; reflexivity|].
  apply (format_json_round_trip (fun _ _ => Throw SyntaxError) (fun s => s)
           (strq "{'b':[true,null],'a':{}}")).
  vm_compute; reflexivity.
Defined.

(** The indented text of an object: one member a line, two spaces a
    level, a space after the colon; an empty object in two characters. *)
Example format_json_example :
  formatCode (fun _ _ => Throw SyntaxError) (fun s => s)
    (strq "{'b':[1,2.50,-0],'a':{}}") JSON
  = Return (join_with [newline]
              [strq "{"; strq "  'b': ["; strq "    1,"; strq "    2.5,"; strq "    0";
               strq "  ],"; strq "  'a': {}"; strq "}"]).
Proof. vm_compute. reflexivity. Qed.

(** ** The Beautify handler *)

Section BeautifyHandler.
Variable prettier_format : Language -> jsstring -> result jsstring.
Variable toUpperCase : jsstring -> jsstring.

(** X14: in JSON mode Beautify followed by Minify leaves the state that
    Minify alone leaves, whether the text is blank, invalid or valid and
    whether Beautify ran silently or not. *)
Theorem beautify_then_minify (silent : bool) (st : AppState) :
  language st = JSON ->
  handleMinify (handleBeautify prettier_format toUpperCase silent st) = handleMinify st.
Proof.
  destruct st as [i o l e n]. cbn [language]. intros ->.
  unfold handleBeautify, handleMinify, tryMinify.
  cbn [setError inputCode language outputCode Language_eqb].
  destruct (format_json_cases prettier_format toUpperCase i)
    as [[Ht Hf] | [[Ht [Hp Hf]] | [v (Ht & Hp & Hv & Hf & Hp2)]]]; rewrite Hf.
  - assert (Hm : minifyCode i JSON = Return []) by (unfold minifyCode; now rewrite Ht).
    rewrite Hm, Ht. destruct silent; reflexivity.
  - assert (Hm : minifyCode i JSON = Throw SyntaxError).
    { unfold minifyCode. now rewrite (isEmpty_false _ Ht), Hp. }
    destruct silent; cbn; rewrite Hm; reflexivity.
  - rewrite (minify_json_parsed _ _ Hp).
    assert (Hm : minifyCode (stringify_2 v) JSON = Return (stringify v)).
    { rewrite (minify_json_parsed _ _ Hp2). now rewrite reread_stringify. }
    assert (Hne : stringify v <> []).
    { intros Hn. pose proof (parse_stringify v Hv) as Hx. rewrite Hn in Hx.
      discriminate Hx. }
    rewrite (isEmpty_false _ Hne).
    destruct silent; cbn; rewrite Hm, (isEmpty_false _ Hne); reflexivity.
Qed.

(** X15: in JSON mode a second Beautify changes nothing. *)
Theorem beautify_idempotent (silent : bool) (st : AppState) :
  language st = JSON ->
  handleBeautify prettier_format toUpperCase silent
    (handleBeautify prettier_format toUpperCase silent st)
  = handleBeautify prettier_format toUpperCase silent st.
Proof.
  destruct st as [i o l e n]. cbn [language]. intros ->.
  unfold handleBeautify. cbn [setError inputCode language outputCode Language_eqb].
  destruct (format_json_cases prettier_format toUpperCase i)
    as [[Ht Hf] | [[Ht [Hp Hf]] | [v (Ht & Hp & Hv & Hf & Hp2)]]]; rewrite Hf.
  - destruct silent; reflexivity.
  - destruct silent; cbn; rewrite Hf; reflexivity.
  - assert (Hf2 : formatCode prettier_format toUpperCase (stringify_2 v) JSON
                  = Return (stringify_2 v)).
    { rewrite (format_json_parsed _ _ _ _ Hp2). unfold stringify_2.
      now rewrite reread_stringify_gap. }
    destruct silent; cbn; rewrite Hf2; reflexivity.
Qed.

(** X16: a silent Beautify, the one of real-time mode, shows neither an
    error nor a notification: whatever the text and whatever Prettier does,
    it clears the error shown before, leaves the notification and the
    language alone, and when formatting fails it leaves both panes as they
    were. *)
Theorem beautify_silent (st : AppState) :
  let st' := handleBeautify prettier_format toUpperCase true st in
  error st' = None /\ notification st' = notification st /\ language st' = language st
  /\ (forall e, formatCode prettier_format toUpperCase (inputCode st) (language st) = Throw e ->
        inputCode st' = inputCode st /\ outputCode st' = outputCode st).
Proof.
  cbv zeta. unfold handleBeautify. cbn [setError inputCode language].
  destruct (formatCode _ _ _ _) as [out|e0].
  - destruct (Language_eqb (language st) JSON); repeat split; discriminate.
  - repeat split.
Qed.

End BeautifyHandler.

Lemma beautify_then_minify_witness :
  let st := {| inputCode := strq "{'a':[1,2]}"; outputCode := []; language := JSON;
               error := None; notification := None |} in
  language st = JSON
  /\ handleMinify (handleBeautify (fun _ _ => Throw SyntaxError) (fun s => s) false st)
     = handleMinify st.
Proof.
  split; [reflexivity|].
  apply (beautify_then_minify (fun _ _ => Throw SyntaxError) (fun s => s)). reflexivity.
Defined.

Lemma beautify_idempotent_witness :
  let st := {| inputCode := strq "{'a':[1,2]}"; outputCode := []; language := JSON;
               error := None; notification := None |} in
  let beautify := handleBeautify (fun _ _ => Throw SyntaxError) (fun s => s) false in
  language st = JSON /\ beautify (beautify st) = beautify st.
Proof.
  split; [reflexivity|].
  apply (beautify_idempotent (fun _ _ => Throw SyntaxError) (fun s => s)). reflexivity.
Defined.

End JsonIndented.

(** ** Text around a JSON document *)

Section JsonMargins.
Import Number Beautify Handlers.
Local Open Scope list_scope.

Lemma json_ws_ws (c : char) : isJSONWhiteSpace c = true -> isWhiteSpace c = true.
Proof.
  intros H. destruct (isWhiteSpace c) eqn:E; [reflexivity|].
  apply json_ws_is_ws in E. congruence.
Qed.

Lemma forallb_json_ws_ws (r : jsstring) :
  forallb isJSONWhiteSpace r = true -> forallb isWhiteSpace r = true.
Proof.
  induction r as [|c r IH]; simpl; auto. intros H.
  apply andb_true_iff in H as [Hc Hr]. now rewrite (json_ws_ws c Hc), IH.
Qed.

Lemma lex_string_extend : forall n (a r : jsstring) v r0, length a <= n ->
  lex_string a = Some (v, r0) -> lex_string (a ++ r) = Some (v, r0 ++ r).
Proof.
  induction n as [|n IH]; intros a r v r0 Hn H.
  - destruct a; [discriminate | simpl in Hn; lia].
  - destruct a as [|c a1]; [discriminate|]. simpl in Hn. cbn [app lex_string] in *.
    destruct (N.eqb c dquote); [now injection H as <- <-|].
    destruct (N.eqb c backslash).
    + destruct a1 as [|e a2]; [discriminate|]. cbn [app].
      destruct (N.eqb e (ch "u")).
      * destruct a2 as [|h1 [|h2 [|h3 [|h4 a3]]]]; try discriminate. cbn [app].
        destruct (hex4_value h1 h2 h3 h4); [|discriminate].
        apply cons_fst_some in H as [v' [H ->]].
        rewrite (IH a3 r v' r0); [reflexivity | simpl in *; lia | assumption].
      * destruct (unescape e); [|discriminate].
        apply cons_fst_some in H as [v' [H ->]].
        rewrite (IH a2 r v' r0); [reflexivity | simpl in *; lia | assumption].
    + destruct (N.ltb c 32%N); [discriminate|].
      apply cons_fst_some in H as [v' [H ->]].
      rewrite (IH a1 r v' r0); [reflexivity | lia | assumption].
Qed.

Lemma json_ws_number_end (r : jsstring) :
  forallb isJSONWhiteSpace r = true -> number_end r = true.
Proof.
  destruct r as [|c r]; cbn [forallb number_end]; auto. intros H.
  apply andb_true_iff in H as [Hc _]. apply negb_true_iff.
  destruct (isDigit c || N.eqb c (ch ".") || N.eqb c (ch "e") || N.eqb c (ch "E"))%bool eqn:E;
    [exfalso; char_lia | reflexivity].
Qed.

Lemma keyword_extend (a r : jsstring) t r0 :
  forallb isWhiteSpace r = true ->
  keyword a = Some (t, r0) -> keyword (a ++ r) = Some (t, r0 ++ r).
Proof.
  intros Hr H.
  destruct (keyword (a ++ r)) as [[t' r1]|] eqn:E.
  - apply keyword_trail in E as [r0' [-> E]]; [|assumption].
    rewrite H in E. now injection E as <- <-.
  - exfalso. unfold keyword in *.
    repeat match type of H with
    | match strip_prefix ?w a with Some _ => _ | None => _ end = _ =>
        let E1 := fresh "E" in
        destruct (strip_prefix w a) eqn:E1;
        [apply (strip_prefix_app w a r) in E1; rewrite E1 in E; discriminate E|];
        destruct (strip_prefix w (a ++ r)); [discriminate E|]
    end.
    discriminate H.
Qed.

(** JSON white space after a text adds nothing to its tokens. *)
Lemma lex_extend : forall f (a r : jsstring) ts,
  forallb isJSONWhiteSpace r = true -> lex f a = Some ts ->
  lex (f + length r) (a ++ r) = Some ts.
Proof.
  induction f as [|f IH]; intros a r ts Hr H; [discriminate|].
  pose proof (forallb_json_ws_ws r Hr) as Hw.
  destruct a as [|c a1].
  - injection H as <-. cbn [app]. clear IH.
    change (S f + length r) with (S (f + length r)).
    assert (Hgen : forall k, length r <= k -> lex (S k) r = Some []).
    { induction r as [|c r IHr]; intros k Hk; [reflexivity|].
      cbn [forallb] in Hr. apply andb_true_iff in Hr as [Hc Hr].
      rewrite lex_cons, Hc. cbn [length] in Hk. destruct k; [lia|].
      apply IHr; auto; [now apply forallb_json_ws_ws | lia]. }
    apply Hgen. lia.
  - cbn [app]. change (S f + length r) with (S (f + length r)).
    rewrite lex_cons in *.
    destruct (isJSONWhiteSpace c); [auto|].
    destruct (punctuator c) as [t|].
    { apply cons_tok_some in H as [ts' [H ->]]. now rewrite (IH _ _ _ Hr H). }
    destruct (N.eqb c dquote).
    { destruct (lex_string a1) as [[v r0]|] eqn:E; [|discriminate].
      rewrite (lex_string_extend (length a1) a1 r v r0 (le_n _) E).
      apply cons_tok_some in H as [ts' [H ->]]. now rewrite (IH _ _ _ Hr H). }
    destruct (N.eqb c (ch "-") || isDigit c)%bool.
    { destruct (lex_number (c :: a1)) as [[x r0]|] eqn:E; [|discriminate].
      change (c :: a1 ++ r) with ((c :: a1) ++ r).
      rewrite (lex_number_extend _ r _ _ (json_ws_number_end r Hr) E).
      apply cons_tok_some in H as [ts' [H ->]]. now rewrite (IH _ _ _ Hr H). }
    destruct (keyword (c :: a1)) as [[t r0]|] eqn:E; [|discriminate].
    change (c :: a1 ++ r) with ((c :: a1) ++ r).
    rewrite (keyword_extend _ r _ _ Hw E).
    apply cons_tok_some in H as [ts' [H ->]]. now rewrite (IH _ _ _ Hr H).
Qed.

Lemma tokens_extend (a r : jsstring) ts :
  forallb isJSONWhiteSpace r = true -> tokens a = Some ts -> tokens (a ++ r) = Some ts.
Proof.
  intros Hr H. apply (lex_extend _ a r ts Hr) in H. rewrite <- H.
  symmetry. apply tokens_fuel. rewrite length_app. simpl. lia.
Qed.

(** White space that is no JSON white space is rejected wherever it comes
    between or around the tokens. *)
Lemma lex_ws_json : forall (r : jsstring) f ts,
  forallb isWhiteSpace r = true -> lex f r = Some ts ->
  forallb isJSONWhiteSpace r = true.
Proof.
  induction r as [|c r IH]; intros f ts Hr H; [reflexivity|].
  destruct f as [|f]; [discriminate|]. rewrite lex_cons in H.
  cbn [forallb] in *. apply andb_true_iff in Hr as [Hc Hr].
  destruct (isJSONWhiteSpace c); [cbn [andb]; eauto|].
  rewrite (ws_not_punct c Hc) in H.
  destruct (N.eqb c dquote) eqn:E1; [exfalso; char_lia|].
  destruct (N.eqb c (ch "-") || isDigit c)%bool eqn:E2; [exfalso; char_lia|].
  now rewrite (ws_not_keyword c _ Hc) in H.
Qed.

Lemma lex_trail_json : forall f (a r : jsstring) ts,
  forallb isWhiteSpace r = true -> lex f (a ++ r) = Some ts ->
  forallb isJSONWhiteSpace r = true.
Proof.
  induction f as [|f IH]; intros a r ts Hr H; [discriminate|].
  destruct a as [|c a1]; [cbn [app] in H; eapply lex_ws_json; eauto|].
  cbn [app] in H. rewrite lex_cons in H.
  destruct (isJSONWhiteSpace c); [eauto|].
  destruct (punctuator c) as [t|].
  { apply cons_tok_some in H as [ts' [H ->]]. eauto. }
  destruct (N.eqb c dquote).
  { destruct (lex_string (a1 ++ r)) as [[v r0]|] eqn:E; [|discriminate].
    apply (lex_string_trail (length a1)) in E as [r0' [-> E]]; auto.
    apply cons_tok_some in H as [ts' [H ->]]. eauto. }
  destruct (N.eqb c (ch "-") || isDigit c)%bool.
  { change (c :: a1 ++ r) with ((c :: a1) ++ r) in H.
    destruct (lex_number ((c :: a1) ++ r)) as [[x r0]|] eqn:E; [|discriminate].
    apply lex_number_trail in E as [r0' [-> E]]; [|discriminate|assumption].
    apply cons_tok_some in H as [ts' [H ->]]. eauto. }
  change (c :: a1 ++ r) with ((c :: a1) ++ r) in H.
  destruct (keyword ((c :: a1) ++ r)) as [[t r0]|] eqn:E; [|discriminate].
  apply keyword_trail in E as [r0' [-> E]]; [|assumption].
  apply cons_tok_some in H as [ts' [H ->]]. eauto.
Qed.

Lemma tokens_lead_json : forall (l s : jsstring) ts,
  forallb isWhiteSpace l = true -> tokens (l ++ s) = Some ts ->
  forallb isJSONWhiteSpace l = true.
Proof.
  induction l as [|c l IH]; intros s ts Hl H; [reflexivity|].
  unfold tokens in H. cbn [app length] in H. rewrite lex_cons in H.
  change (lex (S (length (l ++ s))) (l ++ s)) with (tokens (l ++ s)) in H.
  cbn [forallb] in *. apply andb_true_iff in Hl as [Hc Hl].
  destruct (isJSONWhiteSpace c); [cbn [andb]; eauto|].
  rewrite (ws_not_punct c Hc) in H.
  destruct (N.eqb c dquote) eqn:E1; [exfalso; char_lia|].
  destruct (N.eqb c (ch "-") || isDigit c)%bool eqn:E2; [exfalso; char_lia|].
  now rewrite (ws_not_keyword c _ Hc) in H.
Qed.

(** [JSON.parse] reads a text as it reads the trimmed text when what
    [trim] takes away is JSON white space, and rejects it otherwise. *)
Lemma parse_margins (l core r : jsstring) v :
  forallb isWhiteSpace l = true -> forallb isWhiteSpace r = true ->
  JSON.parse core = Some v ->
  JSON.parse (l ++ core ++ r) =
  if forallb isJSONWhiteSpace (l ++ r) then Some v else None.
Proof.
  intros Hl Hr Hp. rewrite forallb_app.
  destruct (forallb isJSONWhiteSpace l && forallb isJSONWhiteSpace r)%bool eqn:E.
  - apply andb_true_iff in E as [El Er].
    apply parse_tokens in Hp as [ts [Ht Hp]]. apply parse_tokens. exists ts.
    split; [|assumption]. rewrite (tokens_ws l _ El). now apply tokens_extend.
  - destruct (JSON.parse (l ++ core ++ r)) as [v'|] eqn:Ep; [exfalso|reflexivity].
    apply parse_tokens in Ep as [ts [Ht _]].
    pose proof (tokens_lead_json _ _ _ Hl Ht) as El.
    apply tokens_lead in Ht; [|assumption].
    unfold tokens in Ht. apply lex_trail_json in Ht; [|assumption].
    rewrite El, Ht in E. discriminate.
Qed.

(** X17: when [detectLanguage] answers JSON for a text that is not blank,
    the trimmed text is a JSON object or array and minifies; the text
    itself minifies, to the same output, exactly when what [trim] takes
    away at its ends is JSON white space (tab, line feed, carriage return,
    space). With any other white space there, a no-break space or a byte
    order mark, [minifyCode] throws the SyntaxError although the text was
    detected as JSON. *)
Theorem detected_json_minify (t : jsstring) :
  detectLanguage t = JSON -> trim t <> [] ->
  exists v l r,
    t = l ++ trim t ++ r
    /\ forallb isWhiteSpace l = true /\ forallb isWhiteSpace r = true
    /\ JSON.parse (trim t) = Some v /\ is_container v = true
    /\ minifyCode (trim t) JSON = Return (stringify v)
    /\ minifyCode t JSON =
       if forallb isJSONWhiteSpace (l ++ r) then Return (stringify v) else Throw SyntaxError.
Proof.
  intros Hd Hne. apply detect_json_only in Hd as [Hd | Hd]; [contradiction|].
  apply andb_true_iff in Hd as [Hb Hp]. unfold parses in Hp.
  destruct (JSON.parse (trim t)) as [v|] eqn:Ep; [|discriminate].
  destruct (trim_decompose t) as [l [r [E [Hl [Hr _]]]]].
  exists v, l, r. split; [exact E|]. split; [exact Hl|]. split; [exact Hr|].
  split; [reflexivity|].
  assert (Hc : is_container v = true).
  { destruct (trim t) as [|c s] eqn:Et; [contradiction|].
    apply (bracket_container c s v Ep). unfold startsWith in Hb.
    destruct (N.eqb c (ch "{")); [reflexivity|].
    destruct (N.eqb c (ch "[")); [apply orb_true_r | discriminate]. }
  split; [exact Hc|]. split; [now apply minify_json_parsed|].
  pose proof (parse_margins l (trim t) r v Hl Hr Ep) as Hm. rewrite <- E in Hm.
  unfold minifyCode. rewrite (isEmpty_false _ Hne), Hm.
  destruct (forallb isJSONWhiteSpace (l ++ r)); reflexivity.
Qed.

Lemma detected_json_minify_witness :
  let t := 160%N :: str "{}" in
  detectLanguage t = JSON /\ trim t <> []
  /\ exists v l r,
    t = l ++ trim t ++ r
    /\ forallb isWhiteSpace l = true /\ forallb isWhiteSpace r = true
    /\ JSON.parse (trim t) = Some v /\ is_container v = true
    /\ minifyCode (trim t) JSON = Return (stringify v)
    /\ minifyCode t JSON =
       if forallb isJSONWhiteSpace (l ++ r) then Return (stringify v) else Throw SyntaxError.
Proof.
  assert (H1 : detectLanguage (160%N :: str "{}") = JSON) by (vm_compute; reflexivity).
  assert (H2 : trim (160%N :: str "{}") <> []) by (vm_compute; discriminate).
  split; [exact H1|]. split; [exact H2|].
  exact (detected_json_minify (160%N :: str "{}") H1 H2).
Defined.

(** A JSON object after a no-break space: detected as JSON, and rejected
    by [minifyCode]. *)
Example detected_json_rejected :
  detectLanguage (160%N :: str "{}") = JSON
  /\ minifyCode (160%N :: str "{}") JSON = Throw SyntaxError
  /\ minifyCode (str " {}") JSON = Return (str "{}").
Proof. vm_compute. auto. Qed.

(** ** Markdown without headings and bullets *)

Lemma replaceWith_loop_S re fn f p s :
  replaceWith_loop re fn (S f) p s =
  let step :=
    match s with
    | [] => []
    | c :: s' => c :: replaceWith_loop re fn f (Some c) s'
    end in
  match match_at re p s with
  | Some y =>
      fn (matched s y) ++
      (if Nat.ltb (length (rest y)) (length s)
       then replaceWith_loop re fn f (prev y) (rest y)
       else step)
  | None => step
  end.
Proof. reflexivity. Qed.

(** Where the pattern matches nowhere, nothing is replaced. *)
Lemma replace_loop_no_match re t (P : char -> bool) :
  (forall p s, forallb P s = true -> match_at re p s = None) ->
  forall f p s, forallb P s = true -> replace_loop re t f p s = s.
Proof.
  intros Hm. induction f as [|f IH]; intros p s Hs; [reflexivity|].
  rewrite replace_loop_S, (Hm p s Hs). cbv zeta.
  destruct s as [|c s']; [reflexivity|].
  cbn [forallb] in Hs. apply andb_true_iff in Hs as [_ Hs]. now rewrite IH.
Qed.

Lemma replaceWith_loop_no_match re fn (P : char -> bool) :
  (forall p s, forallb P s = true -> match_at re p s = None) ->
  forall f p s, forallb P s = true -> replaceWith_loop re fn f p s = s.
Proof.
  intros Hm. induction f as [|f IH]; intros p s Hs; [reflexivity|].
  rewrite replaceWith_loop_S, (Hm p s Hs). cbv zeta.
  destruct s as [|c s']; [reflexivity|].
  cbn [forallb] in Hs. apply andb_true_iff in Hs as [_ Hs]. now rewrite IH.
Qed.

Lemma matcher_Bol fl x c : matcher fl Bol x c = if at_bol fl x then c x else None.
Proof. reflexivity. Qed.

(** [/^#+\s*/gm] needs a [#]. *)
Lemma mdHeader_needs_hash p s :
  forallb (fun c => negb (N.eqb c (ch "#"))) s = true -> match_at mdHeader p s = None.
Proof.
  intros Hs. unfold match_at, mdHeader. cbn [source flag seqs].
  rewrite matcher_Seq, matcher_Bol. destruct (at_bol flags_gm _); [|reflexivity].
  rewrite matcher_Seq. unfold plus. rewrite matcher_Rep.
  cbn [max_is_zero Nat.eqb negb groups]. rewrite clear_caps_nil, matcher_Lit. cbn [rest].
  destruct s as [|b s']; [reflexivity|].
  cbn [forallb] in Hs. apply andb_true_iff in Hs as [Hb _]. apply negb_true_iff in Hb.
  unfold lit_matches. cbn [canonicalize flags_gm ignoreCase].
  rewrite N.eqb_sym, Hb. reflexivity.
Qed.

Lemma forallb_skip_class (P q : char -> bool) p s :
  forallb P s = true -> forallb P (snd (skip_class q p s)) = true.
Proof.
  destruct (skip_class_split q p s) as [run [E _]]. intros H.
  rewrite E in H. rewrite forallb_app in H. now apply andb_true_iff in H.
Qed.

(** [/^\s*[-*]\s+/gm] needs a [-] or a [*]. *)
Lemma mdBullet_needs_bullet p s :
  forallb (fun c => negb (one_of "-*" c)) s = true -> match_at mdBullet p s = None.
Proof.
  intros Hs. unfold match_at, mdBullet, ws. cbn [source flag seqs].
  rewrite matcher_Seq, matcher_Bol. destruct (at_bol flags_gm _); [|reflexivity].
  rewrite matcher_Seq, star_class_commit.
  - unfold state_after. cbn [prev rest caps].
    change (class_matches flags_gm isWhiteSpace) with (fun c => isWhiteSpace c).
    change (skip_class (fun c => isWhiteSpace c)) with (skip_class isWhiteSpace).
    rewrite matcher_Seq, matcher_Class. cbn [rest].
    pose proof (forallb_skip_class _ isWhiteSpace p s Hs) as H.
    destruct (snd (skip_class isWhiteSpace p s)) as [|c s2]; [reflexivity|].
    cbn [forallb] in H. apply andb_true_iff in H as [Hc _]. apply negb_true_iff in Hc.
    change (class_matches flags_gm (one_of "-*") c) with (one_of "-*" c).
    now rewrite Hc.
  - intros p' b s' cs Hb. rewrite matcher_Seq, matcher_Class. cbn [rest].
    change (class_matches flags_gm isWhiteSpace b) with (isWhiteSpace b) in Hb.
    change (class_matches flags_gm (one_of "-*") b) with (one_of "-*" b).
    destruct (one_of "-*" b) eqn:E; [|reflexivity]. exfalso.
    unfold one_of in E. cbn [str list_ascii_of_string map existsb] in E.
    apply orb_true_iff in E as [E | E]; [char_lia|].
    apply orb_true_iff in E as [E | E]; [char_lia | discriminate].
Qed.

Section FormatMarkdown.
Variable prettier_format : Language -> jsstring -> result jsstring.
Variable toUpperCase : jsstring -> jsstring.

(** X18: formatting Markdown leaves a text as it is when the text is not
    blank and has no [#], no [-] and no [*]: only headings and bullets are
    touched. *)
Theorem format_markdown_plain (text : jsstring) :
  trim text <> [] ->
  forallb (fun c => negb (one_of "#-*" c)) text = true ->
  formatCode prettier_format toUpperCase text MARKDOWN = Return text.
Proof.
  intros Hne Hs. unfold formatCode. rewrite (isEmpty_false _ Hne). f_equal.
  assert (H1 : forallb (fun c => negb (N.eqb c (ch "#"))) text = true).
  { rewrite forallb_forall in *. intros c Hc. specialize (Hs c Hc).
    apply negb_true_iff in Hs. apply negb_true_iff.
    unfold one_of in Hs. cbn [str list_ascii_of_string map existsb] in Hs.
    now apply orb_false_iff in Hs as [Hs _]. }
  assert (H2 : forallb (fun c => negb (one_of "-*" c)) text = true).
  { rewrite forallb_forall in *. intros c Hc. specialize (Hs c Hc).
    apply negb_true_iff in Hs. apply negb_true_iff.
    unfold one_of in *. cbn [str list_ascii_of_string map existsb] in *.
    now apply orb_false_iff in Hs as [_ Hs]. }
  unfold replaceWith, replace.
  rewrite (replaceWith_loop_no_match mdHeader _ _ mdHeader_needs_hash _ _ _ H1).
  now rewrite (replace_loop_no_match mdBullet _ _ mdBullet_needs_bullet _ _ _ H2).
Qed.

End FormatMarkdown.

Lemma format_markdown_plain_witness :
  trim (str "plain text") <> []
  /\ forallb (fun c => negb (one_of "#-*" c)) (str "plain text") = true
  /\ formatCode (fun _ _ => Throw SyntaxError) (fun s => s) (str "plain text") MARKDOWN
     = Return (str "plain text").
Proof.
  assert (H1 : trim (str "plain text") <> []) by (vm_compute; discriminate).
  split; [exact H1|]. split; [reflexivity|].
  exact (format_markdown_plain (fun _ _ => Throw SyntaxError) (fun s => s)
           (str "plain text") H1 eq_refl).
Defined.

(** A heading gets one space after its marks, and a bullet becomes a
    hyphen and one space. *)
Example format_markdown_example :
  formatCode (fun _ _ => Throw SyntaxError) (fun s => s)
    (join_with [newline] [str "##Title"; str "*   item"]) MARKDOWN
  = Return (join_with [newline] [str "## Title"; str "- item"]).
Proof. vm_compute. reflexivity. Qed.

End JsonMargins.

(** ** Code without comments *)

Section CodeText.
Import Number Beautify Handlers.
Local Open Scope list_scope.

Lemma tighten_non_blank f : forall p s,
  length s < f ->
  non_blank (replace_loop aroundPunctuation [RGroup 1] f p s) = non_blank s.
Proof.
  induction f as [|f IH]; intros p s Hf; [lia|].
  rewrite replace_loop_S, match_around. cbv zeta.
  assert (Hstep : non_blank match s with
                            | [] => []
                            | c :: s' => c :: replace_loop aroundPunctuation [RGroup 1] f (Some c) s'
                            end = non_blank s).
  { destruct s as [|b s']; [reflexivity|]. unfold non_blank in *. cbn [filter].
    rewrite IH by (simpl in Hf; lia). reflexivity. }
  pose proof (skip_ws_non_blank p s) as Hs.
  pose proof (skip_class_length isWhiteSpace p s) as Hl1.
  destruct (snd (skip_class isWhiteSpace p s)) as [|c s2] eqn:E1; [exact Hstep|].
  destruct (one_of ":;{}" c) eqn:Ec; [|exact Hstep].
  unfold state_after. cbn [prev rest caps].
  pose proof (skip_class_length isWhiteSpace (Some c) s2) as Hl2.
  cbn [length] in Hl1.
  replace (Nat.ltb _ _) with true by (symmetry; apply Nat.ltb_lt; lia).
  cbn [expand flat_map lookup_cap caps Nat.eqb app].
  rewrite <- Hs. unfold non_blank in *. cbn [filter].
  rewrite (punct_not_blank' c Ec). cbn [negb]. f_equal.
  rewrite IH by lia. apply (skip_ws_non_blank (Some c) s2).
Qed.

Lemma no_slash_no_comment p s :
  forallb (fun c => negb (N.eqb c (ch "/"))) s = true -> match_at jsComment p s = None.
Proof.
  intros Hs. pose proof (jsComment_spec p s) as H.
  assert (E : comment_at p s = None); [|now rewrite E in H].
  unfold comment_at. change (ch "/") with 47%N in Hs.
  destruct s as [|a [|b [|c s3]]]; cbn [forallb] in Hs;
    repeat (apply andb_true_iff in Hs as [? Hs]);
    repeat match goal with
    | H : negb (N.eqb _ 47) = true |- _ => apply negb_true_iff in H; rewrite H
    end;
    rewrite ?andb_false_r; cbn [andb]; try reflexivity;
    destruct p as [q|]; try destruct (isLineTerminator q); reflexivity.
Qed.

Lemma no_slash_no_block p s :
  forallb (fun c => negb (N.eqb c (ch "/"))) s = true -> match_at blockComment p s = None.
Proof.
  intros Hs. unfold match_at, blockComment. cbn [source flag].
  unfold lit. cbn [str list_ascii_of_string map seqs].
  rewrite matcher_Seq, matcher_Seq, matcher_Lit. cbn [rest].
  destruct s as [|b s']; [reflexivity|].
  cbn [forallb] in Hs. apply andb_true_iff in Hs as [Hb _]. apply negb_true_iff in Hb.
  unfold lit_matches. cbn [canonicalize flags_g ignoreCase].
  change (N_of_ascii "/") with (ch "/"). rewrite N.eqb_sym, Hb. reflexivity.
Qed.

(** X19: for JavaScript, TypeScript and CSS a text without a slash has no
    comment, and [minifyCode] takes nothing but white space from it: the
    characters that are no white space come out as they went in, in the
    same order. *)
Theorem minify_code_keeps_text (text : jsstring) (lang : Language) :
  lang = JAVASCRIPT \/ lang = TYPESCRIPT \/ lang = CSS ->
  forallb (fun c => negb (N.eqb c (ch "/"))) text = true ->
  exists out, minifyCode text lang = Return out /\ non_blank out = non_blank text.
Proof.
  intros Hl Hs. unfold minifyCode.
  destruct (trim text) as [|c u] eqn:E; cbn [isEmpty].
  { exists []. apply trim_nil_non_blank in E. rewrite E.
    destruct Hl as [-> | [-> | ->]]; split; reflexivity. }
  assert (Hjs : replace jsComment [RGroup 1] text = text).
  { unfold replace. now apply (replace_loop_no_match jsComment _ _ no_slash_no_comment). }
  assert (Hcss : replace blockComment [] text = text).
  { unfold replace. now apply (replace_loop_no_match blockComment _ _ no_slash_no_block). }
  destruct (replace_collapse_spec text) as (_ & _ & H3 & _).
  destruct Hl as [-> | [-> | ->]]; eexists; (split; [reflexivity|]).
  - now rewrite Hjs, trim_non_blank.
  - now rewrite Hjs, trim_non_blank.
  - rewrite Hcss, trim_non_blank. unfold replace at 1.
    rewrite tighten_non_blank by lia. exact H3.
Qed.

Lemma minify_code_keeps_text_witness :
  exists out, minifyCode (str "a { color : red ; }") CSS = Return out
              /\ non_blank out = non_blank (str "a { color : red ; }").
Proof.
  apply minify_code_keeps_text; [right; right; reflexivity | reflexivity].
Defined.

(** ** JSON output is detected as JSON *)

Lemma reread_container v : is_container (reread v) = is_container v.
Proof. destruct v as [ | b | x | s | l | o]; cbn; auto. destruct (isFinite x); reflexivity. Qed.

Section JsonOutput.
Variable prettier_format : Language -> jsstring -> result jsstring.
Variable toUpperCase : jsstring -> jsstring.

(** X20: what [minifyCode] and [formatCode] write for a JSON text whose
    value is an object or an array is detected as JSON again. *)
Theorem json_output_detected (t : jsstring) (v : value) :
  JSON.parse t = Some v -> is_container v = true ->
  exists m f,
    minifyCode t JSON = Return m /\ detectLanguage m = JSON
    /\ formatCode prettier_format toUpperCase t JSON = Return f /\ detectLanguage f = JSON.
Proof.
  intros Hp Hc. pose proof (parse_wf_value t v Hp) as Hv.
  exists (stringify v), (stringify_2 v).
  split; [now apply minify_json_parsed|]. split.
  { apply (detect_container _ (reread v)); [now apply parse_stringify|].
    now rewrite reread_container. }
  split; [now apply format_json_parsed|].
  apply (detect_container _ (reread v)); [now apply parse_stringify_2|].
  now rewrite reread_container.
Qed.

End JsonOutput.

Lemma json_output_detected_witness :
  let t := strq "[ {'a': true} ]" in
  let v := VArray [VObject [(str "a", VBool true)]] in
  JSON.parse t = Some v /\ is_container v = true
  /\ exists m f,
    minifyCode t JSON = Return m /\ detectLanguage m = JSON
    /\ formatCode (fun _ _ => Throw SyntaxError) (fun s => s) t JSON = Return f
    /\ detectLanguage f = JSON.
Proof.
  split; [vm_compute; reflexivity|]. split; [reflexivity|].
  apply (json_output_detected (fun _ _ => Throw SyntaxError) (fun s => s)
           (strq "[ {'a': true} ]") (VArray [VObject [(str "a", VBool true)]]));
    vm_compute; reflexivity.
Defined.

End CodeText.

(** ** Detecting SQL *)

Section DetectSql.
Import Number Beautify Handlers.
Local Open Scope list_scope.

(** An alternative that matches makes the alternation match. *)
Lemma matcher_alts_some fl (rs : list regex) x c :
  (exists r, In r rs /\ matcher fl r x c <> None) -> matcher fl (alts rs) x c <> None.
Proof.
  induction rs as [|r1 rs IH]; intros [r [Hin Hr]]; [contradiction|].
  destruct rs as [|r2 rs'].
  - destruct Hin as [<- | []]. exact Hr.
  - change (alts (r1 :: r2 :: rs')) with (Alt r1 (alts (r2 :: rs'))).
    rewrite matcher_Alt. destruct (matcher fl r1 x c) eqn:E; [discriminate|].
    apply IH. destruct Hin as [<- | Hin]; [congruence | eauto].
Qed.

Lemma upper_ascii_letter (b : char) :
  in_range 65%N 90%N (upper_ascii b) = true ->
  (in_range 65%N 90%N b || in_range 97%N 122%N b)%bool = true.
Proof.
  unfold upper_ascii. destruct (in_range 97%N 122%N b) eqn:E; [intros _; apply orb_true_r|].
  intros ->. reflexivity.
Qed.

Lemma letter_facts (b : char) :
  (in_range 65%N 90%N b || in_range 97%N 122%N b)%bool = true ->
  isWordChar b = true /\ isWhiteSpace b = false
  /\ N.eqb b (ch "{") = false /\ N.eqb b (ch "[") = false /\ N.eqb b (ch "<") = false.
Proof.
  intros H. repeat split.
  - destruct (isWordChar b) eqn:E; [reflexivity | exfalso; char_lia].
  - destruct (isWhiteSpace b) eqn:E; [exfalso; char_lia | reflexivity].
  - destruct (N.eqb b (ch "{")) eqn:E; [exfalso; char_lia | reflexivity].
  - destruct (N.eqb b (ch "[")) eqn:E; [exfalso; char_lia | reflexivity].
  - destruct (N.eqb b (ch "<")) eqn:E; [exfalso; char_lia | reflexivity].
Qed.

Lemma last_read_app p u y : last_read p (u ++ [y]) = Some y.
Proof. unfold last_read. rewrite rev_app_distr. reflexivity. Qed.

(** A text that is a word of letters up to case starts and ends with a
    letter. *)
Lemma same_case_ends (l u : jsstring) :
  l <> [] -> forallb (in_range 65%N 90%N) l = true ->
  map upper_ascii u = l ->
  exists b u', u = b :: u'
    /\ (in_range 65%N 90%N b || in_range 97%N 122%N b)%bool = true
    /\ exists y, last_read None u = Some y
                 /\ (in_range 65%N 90%N y || in_range 97%N 122%N y)%bool = true.
Proof.
  intros Hne Hl Hu.
  assert (Hall : forall y, In y u ->
            (in_range 65%N 90%N y || in_range 97%N 122%N y)%bool = true).
  { intros y Hy. apply upper_ascii_letter.
    rewrite forallb_forall in Hl. apply Hl. rewrite <- Hu. now apply in_map. }
  destruct u as [|b u']; [subst l; now contradiction Hne|].
  exists b, u'. split; [reflexivity|]. split; [apply Hall; now left|].
  destruct (@exists_last _ (b :: u')) as [u0 [y E]]; [discriminate|].
  exists y. rewrite E, last_read_app. split; [reflexivity|].
  apply Hall. rewrite E. apply in_or_app. right. now left.
Qed.

Lemma sql_word_letters k :
  In k sql_statement_words ->
  str k <> [] /\ forallb (in_range 65%N 90%N) (str k) = true
  /\ map upper_ascii (str k) = str k
  /\ In (lit k) (map lit sql_statement_words).
Proof.
  intros Hin. split; [|split; [|split]].
  - unfold sql_statement_words in Hin. cbn [In] in Hin.
    repeat (destruct Hin as [<- | Hin]; [discriminate|]). contradiction.
  - unfold sql_statement_words in Hin. cbn [In] in Hin.
    repeat (destruct Hin as [<- | Hin]; [reflexivity|]). contradiction.
  - unfold sql_statement_words in Hin. cbn [In] in Hin.
    repeat (destruct Hin as [<- | Hin]; [reflexivity|]). contradiction.
  - now apply in_map.
Qed.

(** [sqlStartPattern] matches a text that starts with one of its words, in
    any case, as a whole word. *)
Lemma sqlStart_matches (k : string) (u v : jsstring) :
  In k sql_statement_words -> same_ignoring_case k u -> word_end v = true ->
  test sqlStartPattern (u ++ v) = true.
Proof.
  intros Hin Hu Hr.
  destruct (sql_word_letters k Hin) as (Hne & Hl & Hup & Hlit).
  unfold same_ignoring_case in Hu. rewrite Hup in Hu.
  destruct (same_case_ends (str k) u Hne Hl Hu) as (b & u' & -> & Hb & y & Hy & Hyl).
  destruct (letter_facts b Hb) as (_ & Wb & _).
  destruct (letter_facts y Hyl) as (Wy & _).
  unfold sqlStartPattern. cbn [seqs]. rewrite test_anchored by reflexivity.
  assert (Hm : matcher flags_i
                 (Seq (star ws)
                    (Seq (Group 1 (words ["SELECT"; "INSERT"; "UPDATE"; "DELETE"; "CREATE";
                                          "ALTER"; "DROP"; "TRUNCATE"; "GRANT"; "REVOKE";
                                          "BEGIN"; "DECLARE"; "WITH"]%string)) WordB))
                 {| prev := None; rest := (b :: u') ++ v; caps := [] |} Some <> None).
  { rewrite matcher_Seq. unfold ws. cbn [app]. rewrite star_class_step.
    rewrite ws_ignoring_case, Wb.
    rewrite matcher_Seq, matcher_Group. unfold words.
    apply matcher_alts_some. exists (lit k). split; [exact Hlit|].
    rewrite matcher_lit.
    change (b :: u' ++ v) with ((b :: u') ++ v).
    rewrite (strip_lit_complete flags_i (str k) (b :: u') None v []).
    - rewrite Hy. cbn [matcher]. unfold at_word_boundary, set_cap. cbn [prev rest is_word].
      rewrite Wy. destruct v as [|c r]; cbn [hd_error is_word xorb]; [discriminate|].
      cbn [word_end] in Hr. apply negb_true_iff in Hr. rewrite Hr. discriminate.
    - change (map upper_ascii (b :: u') = map upper_ascii (str k)).
      rewrite Hup. exact Hu. }
  destruct (matcher flags_i _ _ Some); [reflexivity | congruence].
Qed.

End DetectSql.

(** ** Minify on text that is kept *)

Section HandlerSuccess.
Import Number Beautify Handlers.
Local Open Scope list_scope.

Lemma minify_comment_free (text : jsstring) (lang : Language) :
  comment_free text lang ->
  exists out, minifyCode text lang = Return out /\ non_blank out = non_blank text.
Proof.
  intros Hl. unfold minifyCode.
  destruct (trim text) as [|c u] eqn:E; cbn [isEmpty].
  { exists []. apply trim_nil_non_blank in E. rewrite E.
    destruct Hl as [-> | [-> | [-> | [-> | [[-> | [-> | ->]] _]]]]]; split; reflexivity. }
  destruct (replace_collapse_spec text) as (_ & _ & H3 & _).
  destruct (markup_spec text) as (_ & _ & _ & M4 & _).
  destruct Hl as [-> | [-> | [-> | [-> | [Hl Hs]]]]];
    try (eexists; (split; [reflexivity|]); auto; now rewrite trim_non_blank).
  assert (Hjs : replace jsComment [RGroup 1] text = text).
  { unfold replace. now apply (replace_loop_no_match jsComment _ _ no_slash_no_comment). }
  assert (Hcss : replace blockComment [] text = text).
  { unfold replace. now apply (replace_loop_no_match blockComment _ _ no_slash_no_block). }
  destruct Hl as [-> | [-> | ->]]; eexists; (split; [reflexivity|]).
  - now rewrite Hjs, trim_non_blank.
  - now rewrite Hjs, trim_non_blank.
  - rewrite Hcss, trim_non_blank. unfold replace at 1.
    rewrite tighten_non_blank by lia. exact H3.
Qed.

Lemma comment_free_not_json text lang : comment_free text lang -> Language_eqb lang JSON = false.
Proof.
  intros [-> | [-> | [-> | [-> | [[-> | [-> | ->]] _]]]]]; reflexivity.
Qed.

(** When nothing but white space is taken, the check for an empty result
    passes and the result goes to the output pane. *)
Lemma handleMinify_kept (st : AppState) (out : jsstring) :
  Language_eqb (language st) JSON = false ->
  minifyCode (inputCode st) (language st) = Return out ->
  non_blank out = non_blank (inputCode st) ->
  handleMinify st =
  {| inputCode := inputCode st; outputCode := out; language := language st;
     error := None; notification := Some "Code minified successfully!"%string |}.
Proof.
  intros Hl Hm Hn. unfold handleMinify, tryMinify. cbn [setError inputCode language].
  rewrite Hm, Hl.
  assert (Hc : (isEmpty out && Nat.ltb 0 (length (trim (inputCode st))))%bool = false).
  { destruct out as [|c o]; [|reflexivity]. cbn [isEmpty andb].
    symmetry in Hn. apply trim_nil_non_blank in Hn. now rewrite Hn. }
  rewrite Hc. reflexivity.
Qed.

(** X22: for SQL, Markdown, HTML and XML, and for JavaScript, TypeScript
    and CSS when the input has no slash, [handleMinify] never reports an
    error: the check for an empty result cannot fire, the notification of
    success is shown, the input pane and the language stay, and the output
    pane gets the result of [minifyCode], which has the characters of the
    input that are no white space. *)
Theorem minify_handler_succeeds (st : AppState) :
  comment_free (inputCode st) (language st) ->
  let st' := handleMinify st in
  error st' = None
  /\ notification st' = Some "Code minified successfully!"%string
  /\ inputCode st' = inputCode st /\ language st' = language st
  /\ minifyCode (inputCode st) (language st) = Return (outputCode st')
  /\ non_blank (outputCode st') = non_blank (inputCode st).
Proof.
  intros Hc. cbv zeta.
  destruct (minify_comment_free _ _ Hc) as (out & Hm & Hn).
  rewrite (handleMinify_kept st out (comment_free_not_json _ _ Hc) Hm Hn).
  cbn [error notification inputCode language outputCode]. auto 6.
Qed.

Lemma minify_handler_succeeds_witness :
  let st := {| inputCode := str " a  {  b : c }  "; outputCode := str "old"; language := CSS;
               error := Some SyntaxError; notification := None |} in
  comment_free (inputCode st) (language st)
  /\ error (handleMinify st) = None
  /\ outputCode (handleMinify st) = str "a{b:c}".
Proof.
  cbv zeta.
  assert (H : comment_free (str " a  {  b : c }  ") CSS).
  { right. right. right. right. split; [right; right; reflexivity | reflexivity]. }
  split; [exact H|].
  split; [|vm_compute; reflexivity].
  exact (proj1 (minify_handler_succeeds
                  {| inputCode := str " a  {  b : c }  "; outputCode := str "old";
                     language := CSS; error := Some SyntaxError; notification := None |} H)).
Defined.

(** With a comment as the whole input the check fires. *)
Example minify_handler_comment_only :
  error (handleMinify {| inputCode := str "/* a */"; outputCode := []; language := CSS;
                         error := None; notification := None |})
  = Some emptyResult.
Proof. vm_compute. reflexivity. Qed.

Section BeautifyOverwritten.
Variable prettier_format : Language -> jsstring -> result jsstring.
Variable toUpperCase : jsstring -> jsstring.

Lemma handleBeautify_input (silent : bool) (st : AppState) :
  Language_eqb (language st) JSON = false ->
  inputCode (handleBeautify prettier_format toUpperCase silent st) = inputCode st
  /\ language (handleBeautify prettier_format toUpperCase silent st) = language st.
Proof.
  intros Hl. unfold handleBeautify. cbn [setError inputCode language]. rewrite Hl.
  destruct (formatCode _ _ _ _); destruct silent; split; reflexivity.
Qed.

(** X23: outside JSON mode Beautify reads the input pane and writes the
    output pane only, so a Minify that succeeds wipes it out: for the same
    languages and texts as above, Beautify followed by Minify leaves the
    state that Minify alone leaves, whatever Prettier answers and whether
    Beautify was silent or not. *)
Theorem beautify_overwritten (silent : bool) (st : AppState) :
  comment_free (inputCode st) (language st) ->
  handleMinify (handleBeautify prettier_format toUpperCase silent st) = handleMinify st.
Proof.
  intros Hc. pose proof (comment_free_not_json _ _ Hc) as Hl.
  destruct (handleBeautify_input silent st Hl) as [Hi Hg].
  destruct (minify_comment_free _ _ Hc) as (out & Hm & Hn).
  rewrite (handleMinify_kept st out Hl Hm Hn).
  rewrite (handleMinify_kept _ out); rewrite ?Hi, ?Hg; auto.
Qed.

End BeautifyOverwritten.

Lemma beautify_overwritten_witness :
  let st := {| inputCode := str "select  a from t"; outputCode := []; language := SQL;
               error := None; notification := None |} in
  comment_free (inputCode st) (language st)
  /\ handleMinify (handleBeautify (fun _ _ => Throw SyntaxError) (fun s => s) false st)
     = handleMinify st.
Proof.
  cbv zeta.
  assert (H : comment_free (str "select  a from t") SQL) by (left; reflexivity).
  split; [exact H|].
  exact (beautify_overwritten (fun _ _ => Throw SyntaxError) (fun s => s) false
           {| inputCode := str "select  a from t"; outputCode := []; language := SQL;
              error := None; notification := None |} H).
Defined.

(** When Minify fails, what Beautify wrote stays in the output pane. *)
Example beautify_not_overwritten :
  let st := {| inputCode := str "/* a */"; outputCode := []; language := CSS;
               error := None; notification := None |} in
  outputCode (handleMinify (handleBeautify (fun _ s => Return s) (fun s => s) false st))
  = str "/* a */"
  /\ outputCode (handleMinify st) = [].
Proof. vm_compute. auto. Qed.

End HandlerSuccess.

(** ** Words that are searched for *)

Section WordSearch.
Import Number Beautify Handlers.
Local Open Scope list_scope.

(** [test] finds a match exactly when the pattern matches at some position
    of the text. *)
Lemma exec_from_sound re : forall s p y,
  exec_from re p s = Some y ->
  exists u v, s = u ++ v /\ match_at re (last_read p u) v = Some y.
Proof.
  induction s as [|a s IH]; intros p y H; cbn [exec_from] in H.
  - destruct (match_at re p []) eqn:E; [|discriminate].
    injection H as <-. exists [], []. auto.
  - destruct (match_at re p (a :: s)) eqn:E.
    + injection H as <-. exists [], (a :: s). auto.
    + destruct (IH _ _ H) as (u & v & -> & H'). exists (a :: u), v.
      rewrite last_read_cons. auto.
Qed.

Lemma exec_from_complete re : forall u v p,
  match_at re (last_read p u) v <> None -> exec_from re p (u ++ v) <> None.
Proof.
  induction u as [|a u IH]; intros v p H.
  - change (last_read p []) with p in H. cbn [app].
    destruct v as [|b v]; cbn [exec_from]; destruct (match_at re p _); congruence.
  - cbn [app exec_from]. destruct (match_at re p (a :: u ++ v)); [discriminate|].
    apply IH. now rewrite <- (last_read_cons p).
Qed.

Lemma test_spec re s :
  test re s = true <->
  exists u v, s = u ++ v /\ match_at re (last_read None u) v <> None.
Proof.
  unfold test. split.
  - destruct (exec_from re None s) as [y|] eqn:E; [|discriminate]. intros _.
    apply exec_from_sound in E as (u & v & -> & H). exists u, v. split; congruence.
  - intros (u & v & -> & H). apply (exec_from_complete re u v None) in H.
    destruct (exec_from re None (u ++ v)); congruence.
Qed.

Lemma matcher_alts_inv fl (rs : list regex) x c :
  rs <> [] -> matcher fl (alts rs) x c <> None ->
  exists r, In r rs /\ matcher fl r x c <> None.
Proof.
  induction rs as [|r1 rs IH]; intros Hne H; [congruence|].
  destruct rs as [|r2 rs'].
  - exists r1. split; [now left | exact H].
  - change (alts (r1 :: r2 :: rs')) with (Alt r1 (alts (r2 :: rs'))) in H.
    rewrite matcher_Alt in H. destruct (matcher fl r1 x c) eqn:E.
    + exists r1. split; [now left | congruence].
    + destruct (IH ltac:(discriminate) H) as (r & Hin & Hr).
      exists r. split; [now right | exact Hr].
Qed.

Lemma last_read_some p (u : jsstring) : u <> [] -> last_read p u = last_read None u.
Proof.
  unfold last_read. destruct (rev u) eqn:E; [|reflexivity].
  intros H. apply (f_equal (@rev _)) in E. rewrite rev_involutive in E. contradiction.
Qed.

Lemma canonicalize_plain c : canonicalize no_flags c = c.
Proof. reflexivity. Qed.

Lemma map_canonicalize_plain (u : jsstring) : map (canonicalize no_flags) u = u.
Proof. induction u as [|c u IH]; [reflexivity|]. cbn [map]. now rewrite IH. Qed.

Lemma wordy_ends k : wordy k = true ->
  str k <> [] /\ is_word (hd_error (str k)) = true
  /\ is_word (last_read None (str k)) = true.
Proof.
  unfold wordy. intros H. apply andb_true_iff in H as [H1 H2].
  split; [|auto]. intros E. rewrite E in H1. discriminate.
Qed.

Lemma hd_error_app (w v : jsstring) : w <> [] -> hd_error (w ++ v) = hd_error w.
Proof. destruct w; [congruence | reflexivity]. Qed.

Lemma word_end_spec v : word_end v = negb (is_word (hd_error v)).
Proof. destruct v; reflexivity. Qed.

(** [/\b(w1|...|wn)\b/] matches a text exactly when one of the words stands
    in it as a whole word. *)
Lemma whole_word_spec (l : list string) (s : jsstring) :
  l <> [] -> forallb wordy l = true ->
  test {| source := seqs [WordB; Group 1 (words l); WordB]; flag := no_flags |} s = true
  <-> contains_word l s.
Proof.
  intros Hne Hl. rewrite forallb_forall in Hl. rewrite test_spec.
  unfold match_at, contains_word. cbn [source flag seqs].
  split.
  - intros (u & v & -> & H).
    rewrite matcher_Seq in H. cbn [matcher] in H.
    destruct (at_word_boundary _) eqn:B1; [|congruence].
    unfold words in H.
    apply matcher_alts_inv in H as (r & Hin & H);
      [|destruct l; [congruence | discriminate]].
    apply in_map_iff in Hin as (k & <- & Hk).
    rewrite matcher_lit in H.
    destruct (strip_lit no_flags (str k) _) as [y|] eqn:E; [|congruence].
    apply strip_lit_sound in E as (w & Hv & Hw & Hy).
    rewrite !map_canonicalize_plain in Hw. subst w.
    destruct (wordy_ends k (Hl k Hk)) as (Hk0 & Hk1 & Hk2).
    cbn [rest prev] in Hv, Hy.
    destruct (at_word_boundary (set_cap 1 _ y)) eqn:B2; [|congruence].
    exists u, k, (rest y). split; [now rewrite <- Hv|]. split; [exact Hk|].
    unfold at_word_boundary in B1, B2. cbn [prev rest set_cap] in B1, B2.
    assert (Hp : prev y = last_read (last_read None u) (str k)) by (now rewrite Hy).
    rewrite Hp in B2.
    rewrite (last_read_some _ _ Hk0), Hk2 in B2.
    rewrite Hv, (hd_error_app _ _ Hk0), Hk1 in B1.
    unfold word_begin. rewrite word_end_spec.
    split.
    + destruct (is_word (last_read None u)); [discriminate B1 | reflexivity].
    + destruct (is_word (hd_error (rest y))); [discriminate B2 | reflexivity].
  - intros (u & k & v & -> & Hk & Hb & He).
    destruct (wordy_ends k (Hl k Hk)) as (Hk0 & Hk1 & Hk2).
    exists u, (str k ++ v). split; [reflexivity|].
    rewrite matcher_Seq. cbn [matcher].
    unfold at_word_boundary at 1. cbn [prev rest].
    rewrite (hd_error_app _ _ Hk0), Hk1.
    unfold word_begin in Hb. apply negb_true_iff in Hb. rewrite Hb. cbn [xorb].
    unfold words. apply matcher_alts_some. exists (lit k).
    split; [now apply in_map|].
    rewrite matcher_lit.
    rewrite (strip_lit_complete no_flags (str k) (str k) _ v []) by reflexivity.
    unfold at_word_boundary, set_cap. cbn [prev rest].
    rewrite (last_read_some _ _ Hk0), Hk2.
    rewrite word_end_spec in He. apply negb_true_iff in He. rewrite He. discriminate.
Qed.

Lemma isJsPattern_spec s : test isJsPattern s = true <-> contains_word js_words s.
Proof. apply whole_word_spec; [discriminate | reflexivity]. Qed.

(** X21: a text whose trimmed form starts with SELECT, INSERT, UPDATE,
    DELETE, CREATE, ALTER, DROP, TRUNCATE, GRANT, REVOKE, BEGIN, DECLARE or
    WITH, in any case and as a whole word, is detected as SQL exactly when
    none of the words const, var, let, function, return, import, export and
    class stands in it as a whole word. *)
Theorem detect_sql_statement (t : jsstring) (k : string) (u v : jsstring) :
  In k sql_statement_words -> trim t = u ++ v ->
  same_ignoring_case k u -> word_end v = true ->
  detectLanguage t = SQL <-> ~ contains_word js_words (trim t).
Proof.
  intros Hin Ht Hu Hr.
  pose proof (sqlStart_matches k u v Hin Hu Hr) as Hs.
  pose proof (isJsPattern_spec (trim t)) as Hjs.
  destruct (sql_word_letters k Hin) as (Hne & Hl & Hup & _).
  unfold same_ignoring_case in Hu. rewrite Hup in Hu.
  destruct (same_case_ends (str k) u Hne Hl Hu) as (b & u' & -> & Hb & _).
  destruct (letter_facts b Hb) as (_ & _ & B1 & B2 & B3).
  unfold detectLanguage. cbv zeta. rewrite Ht in *. cbn [app isEmpty startsWith].
  rewrite B1, B2, B3. cbn [andb orb].
  change (b :: u' ++ v) with ((b :: u') ++ v). rewrite Hs. cbn [orb andb].
  destruct (test isJsPattern ((b :: u') ++ v)); cbn [negb].
  - split; [|intros Hn; exfalso; apply Hn, Hjs; reflexivity].
    repeat match goal with
    | |- context [if ?c then _ else _] => destruct c
    end; discriminate.
  - split; [|reflexivity]. intros _ Hc. apply Hjs in Hc. discriminate Hc.
Qed.

Lemma detect_sql_statement_witness :
  let t := str " Select a from t; const x = 1" in
  In "SELECT"%string sql_statement_words
  /\ trim t = str "Select" ++ str " a from t; const x = 1"
  /\ same_ignoring_case "SELECT" (str "Select")
  /\ word_end (str " a from t; const x = 1") = true
  /\ contains_word js_words (trim t)
  /\ detectLanguage t <> SQL.
Proof.
  assert (H1 : In "SELECT"%string sql_statement_words) by (left; reflexivity).
  assert (H2 : trim (str " Select a from t; const x = 1")
               = str "Select" ++ str " a from t; const x = 1") by reflexivity.
  assert (H3 : same_ignoring_case "SELECT" (str "Select")) by reflexivity.
  assert (H4 : word_end (str " a from t; const x = 1") = true) by reflexivity.
  assert (H5 : contains_word js_words (trim (str " Select a from t; const x = 1"))).
  { exists (str "Select a from t; "), "const"%string, (str " x = 1").
    split; [reflexivity|]. split; [left; reflexivity|]. split; reflexivity. }
  repeat (split; [assumption|]).
  intros E. exact (proj1 (detect_sql_statement _ _ _ _ H1 H2 H3 H4) E H5).
Defined.

(** Without one of those words the statement is SQL. *)
Example detect_sql_example :
  detectLanguage (str "  select a from t where x = 1 ") = SQL
  /\ detectLanguage (str "select a from t; const x = 1") = JAVASCRIPT.
Proof. vm_compute. auto. Qed.

End WordSearch.

(** ** Tags with an HTML name *)

Section HtmlTagNames.
Import Number Beautify Handlers.
Local Open Scope list_scope.

Section ClassStar.
Variable fl : flags.
Variable q : char -> bool.

Lemma star_class_inv k : forall s p cs,
  matcher fl (star (Class q)) {| prev := p; rest := s; caps := cs |} k <> None ->
  exists run t, s = run ++ t /\ forallb (class_matches fl q) run = true
    /\ k {| prev := last_read p run; rest := t; caps := cs |} <> None.
Proof.
  induction s as [|b s IH]; intros p cs H; rewrite star_class_step in H.
  - exists [], []. auto.
  - destruct (class_matches fl q b) eqn:E; [|exists [], (b :: s); auto].
    destruct (matcher fl (star (Class q)) {| prev := Some b; rest := s; caps := cs |} k)
      eqn:Em; [|exists [], (b :: s); auto].
    destruct (IH (Some b) cs) as (run & t & -> & Hr & Hk); [congruence|].
    exists (b :: run), t. rewrite last_read_cons. cbn [forallb]. rewrite E, Hr. auto.
Qed.

Lemma star_class_some k : forall run t p cs,
  forallb (class_matches fl q) run = true ->
  k {| prev := last_read p run; rest := t; caps := cs |} <> None ->
  matcher fl (star (Class q)) {| prev := p; rest := run ++ t; caps := cs |} k <> None.
Proof.
  induction run as [|b run IH]; intros t p cs Hr Hk; rewrite star_class_step.
  - change (last_read p []) with p in Hk. cbn [app].
    destruct t as [|c t]; [exact Hk|].
    destruct (class_matches fl q c); [|exact Hk].
    destruct (matcher fl (star (Class q)) _ k); [discriminate | exact Hk].
  - cbn [forallb] in Hr. apply andb_true_iff in Hr as [Hb Hr]. cbn [app]. rewrite Hb.
    rewrite last_read_cons in Hk. specialize (IH t (Some b) cs Hr Hk).
    destruct (matcher fl (star (Class q)) _ k); [discriminate | congruence].
Qed.

End ClassStar.

(** An optional character. *)
Lemma opt_lit_step fl a p s cs k :
  matcher fl (opt (Lit a)) {| prev := p; rest := s; caps := cs |} k =
  match
    match s with
    | b :: s' =>
        if lit_matches fl a b then k {| prev := Some b; rest := s'; caps := cs |} else None
    | [] => None
    end
  with
  | Some z => Some z
  | None => k {| prev := p; rest := s; caps := cs |}
  end.
Proof.
  unfold opt. rewrite matcher_Rep. cbn [max_is_zero Nat.eqb negb groups].
  rewrite clear_caps_nil, matcher_Lit. cbn [rest].
  destruct s as [|b s']; [reflexivity|].
  destruct (lit_matches fl a b); [|reflexivity].
  cbn [advance rest caps andb length].
  replace (Nat.eqb (length s') (S (length s'))) with false
    by (symmetry; apply Nat.eqb_neq; lia).
  cbn [Nat.pred dec_max option_map]. rewrite matcher_Rep. reflexivity.
Qed.

Lemma lit_i_punct (a b : char) :
  in_range 97%N 122%N a = false -> in_range 65%N 90%N a = false ->
  lit_matches flags_i a b = true -> b = a.
Proof.
  unfold lit_matches, canonicalize. cbn [ignoreCase flags_i]. intros Ha1 Ha2.
  rewrite Ha1. destruct (in_range 97%N 122%N b) eqn:Eb; intros H;
    apply N.eqb_eq in H; [exfalso; char_lia | congruence].
Qed.

Lemma lit_i_refl (a : char) : lit_matches flags_i a a = true.
Proof. apply N.eqb_refl. Qed.

Lemma digit_class_i (d : char) :
  class_matches flags_i (in_range (ch "1") (ch "6")) d = in_range (ch "1") (ch "6") d.
Proof.
  unfold class_matches, canonicalize, lowerCase. cbn [ignoreCase flags_i].
  destruct (in_range (ch "1") (ch "6") d) eqn:E; [reflexivity|]. cbn [orb].
  destruct (in_range 97%N 122%N d) eqn:E1; destruct (in_range 65%N 90%N d) eqn:E2;
    rewrite ?E; cbn [orb];
    repeat match goal with
    | |- (?a || ?b)%bool = false => apply orb_false_iff; split
    end; try reflexivity; char_lia.
Qed.

Lemma ws_run_i (w : jsstring) :
  forallb (class_matches flags_i isWhiteSpace) w = forallb isWhiteSpace w.
Proof. apply forallb_pointwise, ws_ignoring_case. Qed.

(** A tag name ends with a letter or a digit. *)
Lemma html_word_letters k : In k html_tag_words ->
  map upper_ascii (str k) <> []
  /\ forallb (in_range 65%N 90%N) (map upper_ascii (str k)) = true.
Proof.
  assert (H : forallb (fun k => negb (isEmpty (map upper_ascii (str k)))
                                && forallb (in_range 65%N 90%N) (map upper_ascii (str k)))%bool
                html_tag_words = true) by reflexivity.
  rewrite forallb_forall in H. intros Hin. apply H in Hin.
  apply andb_true_iff in Hin as [H1 H2]. split; [|exact H2].
  intros E. rewrite E in H1. discriminate.
Qed.

Lemma html_tag_name_ends n : html_tag_name n ->
  n <> [] /\ is_word (last_read None n) = true.
Proof.
  intros [(k & Hk & Hn) | (h & d & -> & Hh & Hd)].
  - destruct (html_word_letters k Hk) as [Hne Hl].
    destruct (same_case_ends _ n Hne Hl Hn) as (b & n' & -> & _ & y & Hy & Hyl).
    split; [discriminate|]. rewrite Hy. cbn [is_word].
    now destruct (letter_facts y Hyl) as (W & _).
  - split; [discriminate|]. cbn. destruct (isWordChar d) eqn:E; [reflexivity|].
    exfalso. char_lia.
Qed.

Lemma html_name_patterns_spec r :
  In r html_name_patterns <->
  (exists k, In k html_tag_words /\ r = lit k)
  \/ r = Seq (Lit (ch "h")) (Class (in_range (ch "1") (ch "6"))).
Proof.
  unfold html_name_patterns.
  change html_tag_words with
    (["html"; "head"; "body"; "div"; "span"; "p"; "a";
      "ul"; "ol"; "li"; "table"; "tr"; "td"; "br"; "img"]%string
     ++ ["form"; "input"; "button"; "script"; "style";
         "meta"; "link"; "header"; "footer"; "nav";
         "section"; "article"]%string).
  rewrite !in_app_iff, !in_map_iff. split.
  - intros [(k & <- & Hk) | [[<- | []] | (k & <- & Hk)]].
    + left. exists k. rewrite in_app_iff. auto.
    + right. reflexivity.
    + left. exists k. rewrite in_app_iff. auto.
  - intros [(k & Hk & ->) | ->].
    + rewrite in_app_iff in Hk. destruct Hk as [Hk | Hk]; [left | right; right]; eauto.
    + right. left. now left.
Qed.

Lemma word_after_name n v y k0 :
  html_tag_name n -> prev y = last_read None n -> rest y = v ->
  (matcher flags_i WordB (set_cap 1 k0 y) Some <> None <-> word_end v = true).
Proof.
  intros Hn Hp Hv. destruct (html_tag_name_ends n Hn) as [Hne Hw].
  cbn [matcher]. unfold at_word_boundary, set_cap. cbn [prev rest].
  rewrite Hp, Hv, Hw, word_end_spec.
  destruct (is_word (hd_error v)); cbn [xorb negb]; split; congruence.
Qed.

(** A name pattern followed by [\b] matches a tag name followed by the end
    of the text or by a character that is no word character, and nothing
    else. *)
Lemma html_name_sound r p s cs k0 :
  In r html_name_patterns ->
  matcher flags_i r {| prev := p; rest := s; caps := cs |}
    (fun y => matcher flags_i WordB (set_cap 1 k0 y) Some) <> None ->
  exists n v, s = n ++ v /\ html_tag_name n /\ word_end v = true.
Proof.
  intros Hr. apply html_name_patterns_spec in Hr. destruct Hr as [(k & Hk & ->) | ->].
  - rewrite matcher_lit.
    destruct (strip_lit flags_i (str k) _) as [y|] eqn:E; [|congruence].
    apply strip_lit_sound in E as (n & Hs & Hn & Hy). cbn [rest] in Hs.
    rewrite !map_canonicalize_i in Hn. intros H.
    assert (Hname : html_tag_name n) by (left; exists k; auto).
    destruct (html_tag_name_ends n Hname) as [Hne _].
    apply (word_after_name n (rest y) y k0 Hname) in H;
      [|rewrite Hy; cbn [prev]; now apply last_read_some | reflexivity].
    exists n, (rest y). auto.
  - rewrite matcher_Seq, matcher_Lit. cbn [rest].
    destruct s as [|h s1]; [congruence|].
    destruct (lit_matches flags_i (ch "h") h) eqn:Eh; [|congruence].
    rewrite matcher_Class. cbn [advance rest caps].
    destruct s1 as [|d v]; [congruence|].
    rewrite digit_class_i.
    destruct (in_range (ch "1") (ch "6") d) eqn:Ed; [|congruence].
    intros H.
    assert (Hh : same_ignoring_case "h" [h]).
    { unfold same_ignoring_case.
      change ([upper_ascii h] = [canonicalize flags_i (ch "h")]).
      unfold lit_matches in Eh. apply N.eqb_eq in Eh. now rewrite Eh. }
    assert (Hname : html_tag_name [h; d]) by (right; exists h, d; auto).
    apply (word_after_name [h; d] v _ k0 Hname) in H; [|reflexivity | reflexivity].
    exists [h; d], v. auto.
Qed.

Lemma html_name_complete n v p cs k0 :
  html_tag_name n -> word_end v = true ->
  exists r, In r html_name_patterns
    /\ matcher flags_i r {| prev := p; rest := n ++ v; caps := cs |}
         (fun y => matcher flags_i WordB (set_cap 1 k0 y) Some) <> None.
Proof.
  intros Hn Hv. pose proof Hn as Hname.
  destruct (html_tag_name_ends n Hn) as [Hne _].
  destruct Hn as [(k & Hk & Hn) | (h & d & -> & Hh & Hd)].
  - exists (lit k). split; [apply html_name_patterns_spec; left; eauto|].
    rewrite matcher_lit.
    rewrite (strip_lit_complete flags_i (str k) n p v cs)
      by (now rewrite !map_canonicalize_i).
    apply (word_after_name n v); auto. cbn [prev]. now apply last_read_some.
  - exists (Seq (Lit (ch "h")) (Class (in_range (ch "1") (ch "6")))).
    split; [apply html_name_patterns_spec; now right|].
    rewrite matcher_Seq, matcher_Lit. cbn [rest app].
    unfold same_ignoring_case in Hh. cbn [map] in Hh.
    injection Hh as Hh. unfold lit_matches.
    change (canonicalize flags_i h) with (upper_ascii h).
    change (canonicalize flags_i (ch "h")) with (upper_ascii 104%N).
    rewrite Hh, N.eqb_refl.
    rewrite matcher_Class. cbn [advance rest caps]. rewrite digit_class_i, Hd.
    apply (word_after_name [h; d] v); auto.
Qed.

Lemma opt_lit_inv fl a p s cs k :
  matcher fl (opt (Lit a)) {| prev := p; rest := s; caps := cs |} k <> None ->
  (exists b s', s = b :: s' /\ lit_matches fl a b = true
                /\ k {| prev := Some b; rest := s'; caps := cs |} <> None)
  \/ k {| prev := p; rest := s; caps := cs |} <> None.
Proof.
  rewrite opt_lit_step. destruct s as [|b s']; [now right|].
  destruct (lit_matches fl a b) eqn:E; [|now right].
  destruct (k {| prev := Some b; rest := s'; caps := cs |}) eqn:Ek; [|now right].
  intros _. left. exists b, s'. rewrite Ek. repeat split; congruence.
Qed.

Lemma opt_lit_skip fl a p s cs k :
  k {| prev := p; rest := s; caps := cs |} <> None ->
  matcher fl (opt (Lit a)) {| prev := p; rest := s; caps := cs |} k <> None.
Proof.
  intros H. rewrite opt_lit_step.
  destruct (match s with [] => None | b :: s' => _ end); [discriminate | exact H].
Qed.

Lemma opt_lit_take fl a b p s cs k :
  lit_matches fl a b = true ->
  k {| prev := Some b; rest := s; caps := cs |} <> None ->
  matcher fl (opt (Lit a)) {| prev := p; rest := b :: s; caps := cs |} k <> None.
Proof.
  intros Hb H. rewrite opt_lit_step, Hb.
  destruct (k {| prev := Some b; rest := s; caps := cs |}); [discriminate | congruence].
Qed.

(** [htmlTags] matches a text exactly when the text holds an opening or a
    closing tag with one of the tag names. *)
Lemma htmlTags_spec s : test htmlTags s = true <-> contains_html_tag s.
Proof.
  rewrite test_spec. unfold match_at, contains_html_tag, htmlTags.
  cbn [source flag seqs].
  change (map lit ["html"; "head"; "body"; "div"; "span"; "p"; "a";
                   "ul"; "ol"; "li"; "table"; "tr"; "td"; "br"; "img"]%string
          ++ [Seq (Lit (ch "h")) (Class (in_range (ch "1") (ch "6")))]
          ++ map lit ["form"; "input"; "button"; "script"; "style";
                      "meta"; "link"; "header"; "footer"; "nav";
                      "section"; "article"]%string) with html_name_patterns.
  split.
  - intros (u & v & -> & H).
    rewrite matcher_Seq, matcher_Lit in H. cbn [rest] in H.
    destruct v as [|b v1]; [congruence|].
    destruct (lit_matches flags_i (ch "<") b) eqn:Eb; [|congruence].
    apply lit_i_punct in Eb; [subst b | reflexivity | reflexivity].
    unfold advance in H. cbn [caps] in H.
    rewrite matcher_Seq in H. unfold ws in H.
    apply star_class_inv in H as (w1 & t1 & -> & Hw1 & H).
    rewrite ws_run_i in Hw1. rewrite matcher_Seq in H.
    assert (Hrest : forall p t,
      matcher flags_i (Seq (star (Class isWhiteSpace))
                           (Seq (Group 1 (alts html_name_patterns)) WordB))
        {| prev := p; rest := t; caps := [] |} Some <> None ->
      exists w2 n v, t = w2 ++ n ++ v /\ forallb isWhiteSpace w2 = true
                     /\ html_tag_name n /\ word_end v = true).
    { intros p t Ht. rewrite matcher_Seq in Ht.
      apply star_class_inv in Ht as (w2 & t2 & -> & Hw2 & Ht).
      rewrite ws_run_i in Hw2. rewrite matcher_Seq, matcher_Group in Ht.
      apply matcher_alts_inv in Ht as (r & Hr & Ht); [|discriminate].
      apply (html_name_sound r _ _ _ _ Hr) in Ht as (n & v & -> & Hn & Hv).
      exists w2, n, v. auto. }
    apply opt_lit_inv in H as [(b & s' & -> & Eb & H) | H].
    + apply lit_i_punct in Eb; [subst b | reflexivity | reflexivity].
      apply Hrest in H as (w2 & n & v & -> & Hw2 & Hn & Hv).
      exists u, w1, [ch "/"], w2, n, v. repeat split; auto.
    + apply Hrest in H as (w2 & n & v & -> & Hw2 & Hn & Hv).
      exists u, w1, [], w2, n, v. repeat split; auto.
  - intros (u & w1 & sl & w2 & n & v & -> & Hw1 & Hsl & Hw2 & Hn & Hv).
    exists u, (ch "<" :: w1 ++ sl ++ w2 ++ n ++ v). split; [reflexivity|].
    rewrite matcher_Seq, matcher_Lit. cbn [rest]. rewrite lit_i_refl.
    unfold advance. cbn [caps]. rewrite matcher_Seq. unfold ws.
    apply star_class_some; [now rewrite ws_run_i|].
    rewrite matcher_Seq.
    assert (Hrest : forall p,
      matcher flags_i (Seq (star (Class isWhiteSpace))
                           (Seq (Group 1 (alts html_name_patterns)) WordB))
        {| prev := p; rest := w2 ++ n ++ v; caps := [] |} Some <> None).
    { intros p. rewrite matcher_Seq.
      apply star_class_some; [now rewrite ws_run_i|].
      rewrite matcher_Seq, matcher_Group.
      destruct (html_name_complete n v (last_read p w2) []
                  {| prev := last_read p w2; rest := n ++ v; caps := [] |} Hn Hv)
        as (r & Hr & Hm).
      apply matcher_alts_some. exists r. split; [exact Hr | exact Hm]. }
    destruct Hsl as [-> | ->].
    + cbn [app]. apply opt_lit_skip, Hrest.
    + cbn [app]. apply opt_lit_take; [apply lit_i_refl | apply Hrest].
Qed.

(** C7: a text whose trimmed form starts with [<] is XML or HTML, and no
    later test of the cascade is consulted: it is XML when it begins with
    an XML declaration; otherwise HTML when it begins with an HTML doctype
    or holds an opening or closing tag with one of the HTML tag names; and
    XML otherwise. *)
Theorem markup_branch_terminal (t : jsstring) :
  startsWith (ch "<") (trim t) = true ->
  (detectLanguage t = XML \/ detectLanguage t = HTML) /\
  detectLanguage t =
    (if test xmlDeclaration (trim t) then XML
     else if (test doctypeHtml (trim t) || test htmlTags (trim t))%bool then HTML
     else XML) /\
  (begins_xml_declaration (trim t) -> detectLanguage t = XML) /\
  (~ begins_xml_declaration (trim t) ->
   begins_html_doctype (trim t) \/ contains_html_tag (trim t) ->
   detectLanguage t = HTML) /\
  (~ begins_xml_declaration (trim t) -> ~ begins_html_doctype (trim t) ->
   ~ contains_html_tag (trim t) -> detectLanguage t = XML).
Proof.
  intros H.
  assert (E : detectLanguage t =
    (if test xmlDeclaration (trim t) then XML
     else if (test doctypeHtml (trim t) || test htmlTags (trim t))%bool then HTML
     else XML)).
  { unfold detectLanguage. destruct (trim t) as [|c s] eqn:Et; [discriminate|].
    cbn [isEmpty]. simpl in H. apply N.eqb_eq in H. subst c.
    cbn [startsWith]. change (N.eqb (ch "<") (ch "{")) with false.
    change (N.eqb (ch "<") (ch "[")) with false. cbn [andb orb].
    rewrite N.eqb_refl.
    destruct (test xmlDeclaration _); auto.
    destruct (test doctypeHtml _); auto. }
  pose proof (xmlDeclaration_spec (trim t)) as Hx.
  pose proof (doctypeHtml_spec (trim t)) as Hd.
  pose proof (htmlTags_spec (trim t)) as Hg.
  rewrite E. repeat split.
  - destruct (test xmlDeclaration _); auto. destruct (_ || _)%bool; auto.
  - intros Hb. apply Hx in Hb. now rewrite Hb.
  - intros Hn [Hb | Hb].
    + destruct (test xmlDeclaration _); [exfalso; apply Hn, Hx; reflexivity|].
      apply Hd in Hb. now rewrite Hb.
    + destruct (test xmlDeclaration _); [exfalso; apply Hn, Hx; reflexivity|].
      apply Hg in Hb. rewrite Hb. now rewrite orb_true_r.
  - intros Hn Hm Hb.
    destruct (test xmlDeclaration _); [exfalso; apply Hn, Hx; reflexivity|].
    destruct (test doctypeHtml _); [exfalso; apply Hm, Hd; reflexivity|].
    destruct (test htmlTags _); [exfalso; apply Hb, Hg; reflexivity|].
    reflexivity.
Qed.

(** A closing tag with an HTML name, in upper case and with white space in
    it, decides for HTML. *)
Lemma markup_branch_witness :
  let t := str " <x><b>1< / DIV ></x> " in
  startsWith (ch "<") (trim t) = true
  /\ contains_html_tag (trim t)
  /\ detectLanguage t = HTML.
Proof.
  cbv zeta.
  assert (H1 : startsWith (ch "<") (trim (str " <x><b>1< / DIV ></x> ")) = true)
    by reflexivity.
  assert (H2 : contains_html_tag (trim (str " <x><b>1< / DIV ></x> "))).
  { exists (str "<x><b>1"), (str " "), (str "/"), (str " "), (str "DIV"), (str " ></x>").
    split; [reflexivity|]. split; [reflexivity|]. split; [now right|].
    split; [reflexivity|]. split; [|reflexivity].
    left. exists "div"%string. split; [|reflexivity].
    unfold html_tag_words. cbn [In]. auto. }
  assert (H3 : ~ begins_xml_declaration (trim (str " <x><b>1< / DIV ></x> "))).
  { intros Hb. apply xmlDeclaration_spec in Hb. vm_compute in Hb. discriminate Hb. }
  split; [exact H1|]. split; [exact H2|].
  destruct (markup_branch_terminal (str " <x><b>1< / DIV ></x> ") H1)
    as (_ & _ & _ & Hh & _).
  exact (Hh H3 (or_intror H2)).
Defined.

Example markup_exclusivity :
  detectLanguage (strq "<?xml version='1.0'?><root/>") = XML /\
  detectLanguage (str "<!DOCTYPE html><html><body>hi</body></html>") = HTML /\
  detectLanguage (str "<foo><bar/></foo>") = XML.
Proof. vm_compute. auto. Qed.

(** A tag name decides only as the name of a tag: as text, or as the start
    of a longer name, it does not. *)
Example markup_tag_names :
  detectLanguage (str "<note><p>text</p></note>") = HTML /\
  detectLanguage (str "<note>div</note>") = XML /\
  detectLanguage (str "<note><divider/></note>") = XML /\
  detectLanguage (str "<note><H2>x</H2></note>") = HTML /\
  detectLanguage (str "<note><h7>x</h7></note>") = XML.
Proof. vm_compute. repeat split. Qed.

End HtmlTagNames.

(** ** Padding with white space *)

Section Padding.
Import Number Beautify Handlers.
Local Open Scope list_scope.

Lemma trim_padding (l t r : jsstring) :
  forallb isWhiteSpace l = true -> forallb isWhiteSpace r = true ->
  trim (l ++ t ++ r) = trim t.
Proof.
  intros Hl Hr.
  destruct (trim_decompose t) as (l' & r' & E & Hl' & Hr' & Hs).
  remember (trim t) as m eqn:Em. rewrite E.
  replace (l ++ (l' ++ m ++ r') ++ r) with ((l ++ l') ++ m ++ (r' ++ r))
    by (now rewrite <- !app_assoc).
  assert (Hll : forallb isWhiteSpace (l ++ l') = true) by (now rewrite forallb_app, Hl, Hl').
  assert (Hrr : forallb isWhiteSpace (r' ++ r) = true) by (now rewrite forallb_app, Hr, Hr').
  destruct Hs as [|a Ha|a mm b Ha Hb].
  - apply trim_blank_iff. cbn [app]. now rewrite forallb_app, Hll, Hrr.
  - now apply trim_core1.
  - now apply trim_core.
Qed.

(** C10: [detectLanguage] reads its argument through [trim] only, so
    white space added before and after a text does not change the answer,
    and a text and its trimmed form are classified alike. *)
Theorem detect_trim_invariant (l t r : jsstring) :
  forallb isWhiteSpace l = true -> forallb isWhiteSpace r = true ->
  detectLanguage (l ++ t ++ r) = detectLanguage t
  /\ detectLanguage t = detectLanguage (trim t).
Proof.
  intros Hl Hr. unfold detectLanguage.
  now rewrite (trim_padding l t r Hl Hr), trim_idempotent.
Qed.

Lemma detect_trim_invariant_witness :
  let l := [32; 10; 160]%N in
  let r := [9; 13; 10; 32]%N in
  forallb isWhiteSpace l = true /\ forallb isWhiteSpace r = true
  /\ detectLanguage (l ++ str "[1]" ++ r) = detectLanguage (str "[1]")
  /\ detectLanguage (str "[1]") = detectLanguage (trim (str "[1]")).
Proof.
  cbv zeta.
  assert (H1 : forallb isWhiteSpace [32; 10; 160]%N = true) by reflexivity.
  assert (H2 : forallb isWhiteSpace [9; 13; 10; 32]%N = true) by reflexivity.
  split; [exact H1|]. split; [exact H2|].
  exact (detect_trim_invariant [32; 10; 160]%N (str "[1]") [9; 13; 10; 32]%N H1 H2).
Defined.

(** The padding decides nothing: the padded array is JSON like the array,
    and a padded blank text is JSON like the empty text. *)
Example detect_padding_example :
  detectLanguage (str "  [1]  ") = JSON /\ detectLanguage (str "[1]") = JSON
  /\ detectLanguage (str "  select 1  ") = detectLanguage (str "select 1")
  /\ detectLanguage (str "   ") = detectLanguage [].
Proof. vm_compute. auto. Qed.

End Padding.

(** ** Comments taken from a text *)

Section CommentRemoval.
Import Number Beautify Handlers.
Local Open Scope list_scope.


























(** Comments of both kinds in one text; a line comment at the start of the
    text; and three slashes at the start, of which one stays. *)
Example js_comment_examples :
  minifyCode (str "a = 1; /* one */ b = 2; // two") JAVASCRIPT = Return (str "a = 1; b = 2;")
  /\ minifyCode (10%N :: str "// note" ++ 10%N :: str "x = 1") TYPESCRIPT
     = Return (str "x = 1")
  /\ minifyCode (str "/// doc" ++ 10%N :: str "x") JAVASCRIPT = Return (str "/ x")
  /\ minifyCode (str "u = 'http://a.b/c'; // d") JAVASCRIPT
     = Return (str "u = 'http://a.b/c';").
Proof. vm_compute. repeat split. Qed.

End CommentRemoval.
